(** * A shallow embedding of bvh.cpp: BLAS build, refit and traversal, TLAS build

    The C++ code works on IEEE-754 single-precision numbers; they are modelled
    bit-exactly with the Standard Library's [spec_float] at precision 24 and
    maximal exponent 128.  Arrays owned by the structures ([bvhNode], [triIdx],
    [mesh->tri], [tlasNode], [nodeIdx], [item]) are lists with checked accesses:
    an access outside the allocation, which is undefined behaviour in C++, is a
    [Fault].  Loops whose trip count is not known beforehand and the recursion
    of [Subdivide] consume fuel; running out of it is the fault [OutOfFuel]. *)

From Stdlib Require Import ZArith Bool Lia.
From Stdlib Require Import Floats.SpecFloat.
From stdpp Require Import base list.

Open Scope Z_scope.

(** ** Single-precision arithmetic *)

Module F32.

Definition float := spec_float.

Definition prec : Z := 24.
Definition emax : Z := 128.

Definition add : float -> float -> float := SFadd prec emax.
Definition sub : float -> float -> float := SFsub prec emax.
Definition mul : float -> float -> float := SFmul prec emax.
Definition div : float -> float -> float := SFdiv prec emax.
Definition fabs : float -> float := SFabs.

(** [a < b], [a <= b], [a == b]; [a > b] is [ltb b a], [a >= b] is [leb b a]. *)
Definition ltb : float -> float -> bool := SFltb.
Definition leb : float -> float -> bool := SFleb.
Definition eqb : float -> float -> bool := SFeqb.

(** Conversion of an integer to [float] (round to nearest, ties to even). *)
Definition of_Z (n : Z) : float := binary_normalize prec emax n 0 false.

(** The nearest [float] of the decimal literal [num/den], for [num] and
    [den] below [2^24]: one correctly rounded division. *)
Definition of_ratio (num den : Z) : float := div (of_Z num) (of_Z den).

Definition INT_MIN : Z := - 2 ^ 31.

(** [(int)f]: truncation toward zero.  Out of the range of [int], and for
    infinities and NaN, the conversion is undefined in C++; the value taken
    here is the one the x86 conversion instruction delivers. *)
Definition to_int (f : float) : Z :=
  match f with
  | S754_zero _ => 0
  | S754_finite s m e =>
      let a := if 0 <=? e then Z.pos m * 2 ^ e else Z.pos m / 2 ^ (- e) in
      let v := if s then - a else a in
      if (INT_MIN <=? v) && (v <? 2 ^ 31) then v else INT_MIN
  | _ => INT_MIN
  end.

Definition zero : float := S754_zero false.
Definition one : float := of_Z 1.
(** [1e30f], the nearest single to 10^30 *)
Definition f1e30 : float := S754_finite false 13234890 76.
Definition fm1e30 : float := S754_finite true 13234890 76.
(** [0.00001f], [0.0001f], [0.3333f], [0.5f] *)
Definition f1em5 : float := of_ratio 1 100000.
Definition f1em4 : float := of_ratio 1 10000.
Definition f03333 : float := of_ratio 3333 10000.
Definition fhalf : float := of_ratio 1 2.

Definition is_nan (f : float) : bool :=
  match f with S754_nan => true | _ => false end.

End F32.

Import F32.

Declare Scope f32_scope.
Delimit Scope f32_scope with f32.
Infix "+" := F32.add : f32_scope.
Infix "-" := F32.sub : f32_scope.
Infix "*" := F32.mul : f32_scope.
Infix "/" := F32.div : f32_scope.
Infix "<?" := F32.ltb : f32_scope.
Infix "<=?" := F32.leb : f32_scope.
Infix "=?" := F32.eqb : f32_scope.
Notation "a >? b" := (F32.ltb b a) (only parsing) : f32_scope.
Notation "a >=? b" := (F32.leb b a) (only parsing) : f32_scope.

(** Modelled from the spec: the scalar [fminf] and [fmaxf] of precomp.h,
    which is not part of the sources ("3-vector fmin/fmax").  They are taken
    as the usual selections [a < b ? a : b] and [a > b ? a : b], which
    return their second argument when an argument is a NaN and when the two
    are equal. *)
Definition fminf (a b : float) : float := if (a <? b)%f32 then a else b.
Definition fmaxf (a b : float) : float := if (a >? b)%f32 then a else b.

(** ** 3-vectors *)

(** Modelled from the spec: [float3] and its operators (precomp.h, "vector
    math primitives"): component-wise sum, difference, scaling, [fminf],
    [fmaxf], the dot and the cross product, indexing by axis. *)
Record float3 := make_float3 { x : float; y : float; z : float }.

Definition float3_of (f : float) : float3 := make_float3 f f f.

Definition add3 (a b : float3) : float3 :=
  make_float3 (x a + x b)%f32 (y a + y b)%f32 (z a + z b)%f32.
Definition sub3 (a b : float3) : float3 :=
  make_float3 (x a - x b)%f32 (y a - y b)%f32 (z a - z b)%f32.
Definition scale3 (a : float3) (s : float) : float3 :=
  make_float3 (x a * s)%f32 (y a * s)%f32 (z a * s)%f32.
Definition fminf3 (a b : float3) : float3 :=
  make_float3 (fminf (x a) (x b)) (fminf (y a) (y b)) (fminf (z a) (z b)).
Definition fmaxf3 (a b : float3) : float3 :=
  make_float3 (fmaxf (x a) (x b)) (fmaxf (y a) (y b)) (fmaxf (z a) (z b)).
Definition dot (a b : float3) : float :=
  (x a * x b + y a * y b + z a * z b)%f32.
Definition cross (a b : float3) : float3 :=
  make_float3 (y a * z b - z a * y b)%f32
              (z a * x b - x a * z b)%f32
              (x a * y b - y a * x b)%f32.

(** [v[a]]: the code only indexes with an axis in 0..2. *)
Definition axis_get (v : float3) (a : Z) : float :=
  if a =? 0 then x v else if a =? 1 then y v else z v.

(** ** Faults and the error monad *)

Inductive array_id :=
  | NodePool | TriIdxArr | MeshTri | BinArr | PlaneArr | StackArr
  | TlasPool | NodeIdxArr | BlasArr | ItemArr | TreeArr.

Inductive fault :=
  | OutOfFuel
  | OutOfBounds (a : array_id)
  | Uninitialised.

Inductive result (A : Type) :=
  | Ok (a : A)
  | Fault (f : fault).
Arguments Ok {A} a.
Arguments Fault {A} f.

#[global] Instance result_ret : MRet result := fun A a => Ok a.
#[global] Instance result_bind : MBind result := fun A B k r =>
  match r with
  | Ok a => k a
  | Fault f => Fault f
  end.

(** [a[i]] and [a[i] = v] on an array of the given identity. *)
Definition rd {A} (id : array_id) (a : list A) (i : Z) : result A :=
  if i <? 0 then Fault (OutOfBounds id)
  else match a !! Z.to_nat i with
       | Some v => Ok v
       | None => Fault (OutOfBounds id)
       end.

Definition wr {A} (id : array_id) (a : list A) (i : Z) (v : A) : result (list A) :=
  if (0 <=? i) && (i <? Z.of_nat (length a)) then Ok (<[Z.to_nat i := v]> a)
  else Fault (OutOfBounds id).

(** [for (i = i0; i < i0 + n; i++) body]: a counting loop over a state. *)
Fixpoint for_loop {St} (n : nat) (i : Z) (body : Z -> St -> result St) (s : St)
  : result St :=
  match n with
  | O => Ok s
  | S n' => s' ← body i s; for_loop n' (i + 1) body s'
  end.

(** A computation that also returns a list: [after tests r] puts [tests]
    before the list that [r] returns, [erase r] forgets the list. *)
Definition after {A B} (tests : list B) (r : result (A * list B)) : result (A * list B) :=
  '(a, log) ← r; Ok (a, tests ++ log).

Definition erase {A B} (r : result (A * list B)) : result A :=
  '(a, _) ← r; Ok a.

(** ** Rays and triangles *)

Record Intersection := mkIntersection {
  t : float; u : float; v : float; instPrim : Z }.

Record Ray := mkRay {
  rayO : float3; rayD : float3; rayrD : float3; hit : Intersection }.

Record Tri := mkTri {
  vertex0 : float3; vertex1 : float3; vertex2 : float3; centroid : float3 }.

Definition set_hit (r : Ray) (h : Intersection) : Ray :=
  mkRay (rayO r) (rayD r) (rayrD r) h.

(** The values [IntersectTri] computes on its way, named as in the code. *)
Definition tri_edge1 (tri : Tri) : float3 := sub3 (vertex1 tri) (vertex0 tri).
Definition tri_edge2 (tri : Tri) : float3 := sub3 (vertex2 tri) (vertex0 tri).
Definition tri_h (ray : Ray) (tri : Tri) : float3 := cross (rayD ray) (tri_edge2 tri).
Definition tri_a (ray : Ray) (tri : Tri) : float := dot (tri_edge1 tri) (tri_h ray tri).
Definition tri_f (ray : Ray) (tri : Tri) : float := (F32.one / tri_a ray tri)%f32.
Definition tri_s (ray : Ray) (tri : Tri) : float3 := sub3 (rayO ray) (vertex0 tri).
Definition tri_u (ray : Ray) (tri : Tri) : float :=
  (tri_f ray tri * dot (tri_s ray tri) (tri_h ray tri))%f32.
Definition tri_q (ray : Ray) (tri : Tri) : float3 := cross (tri_s ray tri) (tri_edge1 tri).
Definition tri_v (ray : Ray) (tri : Tri) : float :=
  (tri_f ray tri * dot (rayD ray) (tri_q ray tri))%f32.
Definition tri_t (ray : Ray) (tri : Tri) : float :=
  (tri_f ray tri * dot (tri_edge2 tri) (tri_q ray tri))%f32.

(** [IntersectTri], lines 16-36 *)
Definition IntersectTri (ray : Ray) (tri : Tri) (instPrim : Z) : Ray :=
  if (F32.fabs (tri_a ray tri) <? F32.f1em5)%f32 then ray else
  if (tri_u ray tri <? F32.zero)%f32 || (tri_u ray tri >? F32.one)%f32 then ray else
  if (tri_v ray tri <? F32.zero)%f32
     || (tri_u ray tri + tri_v ray tri >? F32.one)%f32 then ray else
  if (tri_t ray tri >? F32.f1em4)%f32 && (tri_t ray tri <? t (hit ray))%f32
  then set_hit ray (mkIntersection (tri_t ray tri) (tri_u ray tri) (tri_v ray tri) instPrim)
  else ray.

(** [IntersectAABB], lines 38-48: the slab test; [1e30f] is the miss
    sentinel.  The scalar [min] and [max] that it calls are not defined in
    the sources: they are the arguments [min] and [max] here. *)
Definition IntersectAABB_with (min max : float -> float -> float)
    (ray : Ray) (bmin bmax : float3) : float :=
  let tx1 := ((x bmin - x (rayO ray)) * x (rayrD ray))%f32 in
  let tx2 := ((x bmax - x (rayO ray)) * x (rayrD ray))%f32 in
  let tmin := min tx1 tx2 in
  let tmax := max tx1 tx2 in
  let ty1 := ((y bmin - y (rayO ray)) * y (rayrD ray))%f32 in
  let ty2 := ((y bmax - y (rayO ray)) * y (rayrD ray))%f32 in
  let tmin := max tmin (min ty1 ty2) in
  let tmax := min tmax (max ty1 ty2) in
  let tz1 := ((z bmin - z (rayO ray)) * z (rayrD ray))%f32 in
  let tz2 := ((z bmax - z (rayO ray)) * z (rayrD ray))%f32 in
  let tmin := max tmin (min tz1 tz2) in
  let tmax := min tmax (max tz1 tz2) in
  if (tmax >=? tmin)%f32 && (tmin <? t (hit ray))%f32 && (tmax >? F32.zero)%f32
  then tmin else F32.f1e30.

(** Modelled from the spec: the scalar [min] and [max] of precomp.h, which
    is not part of the sources ("tmin = max over axes of min(t1,t2)").  They
    are taken as the selections [a < b ? a : b] and [a > b ? a : b], the
    same as [fminf] and [fmaxf].  Another [min] and [max] can differ from
    these when an argument is a NaN, and in the sign of a zero. *)
Definition IntersectAABB : Ray -> float3 -> float3 -> float :=
  IntersectAABB_with fminf fmaxf.

(** Another [min] and [max], for comparison: those of the C++ standard
    library, [(b < a) ? b : a] and [(a < b) ? b : a], which return their
    first argument when an argument is a NaN and when the two are equal. *)
Definition std_min (a b : float) : float := if (b <? a)%f32 then b else a.
Definition std_max (a b : float) : float := if (a <? b)%f32 then b else a.

(** [_mm_min_ps] and [_mm_max_ps] on the three lanes in use.  On every lane
    the instruction returns its first operand when it is less (greater) than
    the second, and its second operand otherwise: also when an operand is a
    NaN and when the two are zeros. *)
Definition mm_min_ps (a b : float3) : float3 :=
  make_float3 (if (x a <? x b)%f32 then x a else x b)
              (if (y a <? y b)%f32 then y a else y b)
              (if (z a <? z b)%f32 then z a else z b).

Definition mm_max_ps (a b : float3) : float3 :=
  make_float3 (if (x a >? x b)%f32 then x a else x b)
              (if (y a >? y b)%f32 then y a else y b)
              (if (z a >? z b)%f32 then z a else z b).

(** [IntersectAABB_SSE], lines 50-60: the slab test on the three lanes that
    the mask keeps; lanes 0 to 2 of the four-wide views of the ray and of
    the box are their x, y and z.  The scalar [min] and [max] of lines 57
    and 58 are the arguments [min] and [max], as for [IntersectAABB]. *)
Definition IntersectAABB_SSE_with (min max : float -> float -> float)
    (ray : Ray) (bmin4 bmax4 : float3) : float :=
  let t1 := make_float3 ((x bmin4 - x (rayO ray)) * x (rayrD ray))%f32
                        ((y bmin4 - y (rayO ray)) * y (rayrD ray))%f32
                        ((z bmin4 - z (rayO ray)) * z (rayrD ray))%f32 in
  let t2 := make_float3 ((x bmax4 - x (rayO ray)) * x (rayrD ray))%f32
                        ((y bmax4 - y (rayO ray)) * y (rayrD ray))%f32
                        ((z bmax4 - z (rayO ray)) * z (rayrD ray))%f32 in
  let vmax4 := mm_max_ps t1 t2 in
  let vmin4 := mm_min_ps t1 t2 in
  let tmax := min (x vmax4) (min (y vmax4) (z vmax4)) in
  let tmin := max (x vmin4) (max (y vmin4) (z vmin4)) in
  if (tmax >=? tmin)%f32 && (tmin <? t (hit ray))%f32 && (tmax >? F32.zero)%f32
  then tmin else F32.f1e30.

(** ** Axis-aligned boxes *)

(** Modelled from the spec: [struct aabb] of bvh.h, which is not part of the
    sources: "Two 3-vectors min,max. Empty state encoded as min=+inf,
    max=-inf [the sentinel 1e30]. Operations: grow(point), grow(aabb), area",
    the area used throughout being the half-area e.x*e.y + e.y*e.z + e.z*e.x.
    Growing by a box grows by its two corners unless that box is empty. *)
Record aabb := mkAabb { bmin : float3; bmax : float3 }.

Definition aabb_empty : aabb := mkAabb (float3_of F32.f1e30) (float3_of F32.fm1e30).
Definition grow (b : aabb) (p : float3) : aabb :=
  mkAabb (fminf3 (bmin b) p) (fmaxf3 (bmax b) p).
Definition grow_aabb (b o : aabb) : aabb :=
  if (x (bmin o) =? F32.f1e30)%f32 then b else grow (grow b (bmin o)) (bmax o).
Definition half_area (mn mx : float3) : float :=
  let e := sub3 mx mn in
  (x e * y e + y e * z e + z e * x e)%f32.
Definition area (b : aabb) : float := half_area (bmin b) (bmax b).

(** ** The mesh and the nodes of a BLAS *)

Module Mesh.
(** [mesh->tri] with [mesh->triCount] triangles. *)
Record t := mk { tri : list Tri }.
Definition triCount (m : t) : Z := Z.of_nat (length (tri m)).
End Mesh.

Module BVHNode.
Record t := mk {
  aabbMin : float3; leftFirst : Z; aabbMax : float3; triCount : Z }.

(** Modelled from the spec: [isLeaf] and [CalculateNodeCost] of bvh.h, which
    is not part of the sources: "Leaf iff triCount > 0" and
    "nosplitCost = triCount * nodeHalfArea". *)
Definition isLeaf (n : t) : bool := 0 <? triCount n.
Definition CalculateNodeCost (n : t) : float :=
  (half_area (aabbMin n) (aabbMax n) * F32.of_Z (triCount n))%f32.

Definition set_leftFirst (v : Z) (n : t) : t :=
  mk (aabbMin n) v (aabbMax n) (triCount n).
Definition set_triCount (v : Z) (n : t) : t :=
  mk (aabbMin n) (leftFirst n) (aabbMax n) v.
Definition set_bounds (mn mx : float3) (n : t) : t :=
  mk mn (leftFirst n) mx (triCount n).
End BVHNode.

(** Modelled from the spec: the constant [BINS] of bvh.h ("fixed constant, 8
    in the reference"). *)
Definition BINS : Z := 8.

(** [bvhNode[i].field = v]: a read-modify-write of one slot of the pool. *)
Definition upd_node (pool : list BVHNode.t) (i : Z) (f : BVHNode.t -> BVHNode.t)
  : result (list BVHNode.t) :=
  n ← rd NodePool pool i; wr NodePool pool i (f n).

(** The local [struct Bin] of [FindBestSplitPlane]. *)
Module Bin.
Record t := mk { bounds : aabb; triCount : Z }.
End Bin.

(** The running result of [FindBestSplitPlane]: [bestCost] and the reference
    parameters [axis] and [splitPos], which stay unset until a plane is taken. *)
Definition plane := option (Z * float).
Definition plane_get (p : plane) : result (Z * float) :=
  match p with Some q => Ok q | None => Fault Uninitialised end.

(** The local arrays and sums of the plane sweep of [FindBestSplitPlane]. *)
Record sweep := mkSweep {
  leftArea : list float; rightArea : list float;
  leftCount : list Z; rightCount : list Z;
  leftBox : aabb; rightBox : aabb;
  leftSum : Z; rightSum : Z }.

(** [uint] arithmetic where the code relies on it: the packing of [instPrim]. *)
Definition wrap32 (n : Z) : Z := n mod 2 ^ 32.

(** ** The BLAS *)

Module BVH.
Import BVHNode.

Record t := mk {
  mesh : Mesh.t;
  bvhNode : list BVHNode.t;
  triIdx : list Z;
  nodesUsed : Z }.

Definition set_mesh (m : Mesh.t) (s : t) : t :=
  mk m (bvhNode s) (triIdx s) (nodesUsed s).
Definition set_bvhNode (p : list BVHNode.t) (s : t) : t :=
  mk (mesh s) p (triIdx s) (nodesUsed s).
Definition set_triIdx (l : list Z) (s : t) : t :=
  mk (mesh s) (bvhNode s) l (nodesUsed s).
Definition set_nodesUsed (n : Z) (s : t) : t :=
  mk (mesh s) (bvhNode s) (triIdx s) n.

(** [BVH::BVH], lines 99-105, before its call of [Build]: the node pool of
    [2 * triCount] nodes and the index array of [triCount] entries are
    allocated and left uninitialised; [rawNode], [rawIdx] and [rawUsed] stand
    for what the memory holds. *)
Definition alloc (m : Mesh.t) (rawNode : nat -> BVHNode.t) (rawIdx : nat -> Z)
    (rawUsed : Z) : t :=
  mk m (map rawNode (seq 0 (Z.to_nat (Mesh.triCount m * 2))))
       (map rawIdx (seq 0 (Z.to_nat (Mesh.triCount m))))
       rawUsed.

(** [mesh->tri[triIdx[k]]] *)
Definition tri_of (s : t) (k : Z) : result Tri :=
  ti ← rd TriIdxArr (triIdx s) k; rd MeshTri (Mesh.tri (mesh s)) ti.

(** The loop of [UpdateNodeBounds], lines 189-201, on the two corners. *)
Definition node_bounds (s : t) (first : Z) (count : Z) : result (float3 * float3) :=
  for_loop (Z.to_nat count) 0
    (fun i '(mn, mx) =>
       leafTri ← tri_of s (first + i);
       Ok (fminf3 (fminf3 (fminf3 mn (vertex0 leafTri)) (vertex1 leafTri)) (vertex2 leafTri),
           fmaxf3 (fmaxf3 (fmaxf3 mx (vertex0 leafTri)) (vertex1 leafTri)) (vertex2 leafTri)))
    (float3_of F32.f1e30, float3_of F32.fm1e30).

(** [BVH::UpdateNodeBounds], lines 186-202 *)
Definition UpdateNodeBounds (nodeIdx : Z) (s : t) : result t :=
  node ← rd NodePool (bvhNode s) nodeIdx;
  '(mn, mx) ← node_bounds s (leftFirst node) (triCount node);
  pool ← wr NodePool (bvhNode s) nodeIdx (set_bounds mn mx node);
  Ok (set_bvhNode pool s).

(** Lines 209-215: the span of the centroids along axis [a].  The scalar
    [min] and [max] are read as for [IntersectAABB]: the selections
    [fminf] and [fmaxf]. *)
Definition centroid_span (s : t) (node : BVHNode.t) (a : Z) : result (float * float) :=
  for_loop (Z.to_nat (triCount node)) 0
    (fun i '(boundsMin, boundsMax) =>
       triangle ← tri_of s (leftFirst node + i);
       Ok (fminf boundsMin (axis_get (centroid triangle) a),
           fmaxf boundsMax (axis_get (centroid triangle) a)))
    (F32.f1e30, F32.fm1e30).

(** Lines 218-228: populate the bins. *)
Definition fill_bins (s : t) (node : BVHNode.t) (a : Z) (boundsMin scale : float)
  : result (list Bin.t) :=
  for_loop (Z.to_nat (triCount node)) 0
    (fun i bin =>
       triangle ← tri_of s (leftFirst node + i);
       let binIdx :=
         Z.min (BINS - 1)
           (F32.to_int ((axis_get (centroid triangle) a - boundsMin) * scale)%f32) in
       b ← rd BinArr bin binIdx;
       wr BinArr bin binIdx
          (Bin.mk (grow (grow (grow (Bin.bounds b) (vertex0 triangle)) (vertex1 triangle))
                       (vertex2 triangle))
                 (Bin.triCount b + 1)))
    (replicate (Z.to_nat BINS) (Bin.mk aabb_empty 0)).

(** Lines 230-244: counts and areas left and right of the 7 planes. *)
Definition gather (bin : list Bin.t) : result sweep :=
  for_loop (Z.to_nat (BINS - 1)) 0
    (fun i w =>
       bl ← rd BinArr bin i;
       let leftSum' := leftSum w + Bin.triCount bl in
       lc ← wr PlaneArr (leftCount w) i leftSum';
       let leftBox' := grow_aabb (leftBox w) (Bin.bounds bl) in
       la ← wr PlaneArr (leftArea w) i (area leftBox');
       br ← rd BinArr bin (BINS - 1 - i);
       let rightSum' := rightSum w + Bin.triCount br in
       rc ← wr PlaneArr (rightCount w) (BINS - 2 - i) rightSum';
       let rightBox' := grow_aabb (rightBox w) (Bin.bounds br) in
       ra ← wr PlaneArr (rightArea w) (BINS - 2 - i) (area rightBox');
       Ok (mkSweep la ra lc rc leftBox' rightBox' leftSum' rightSum'))
    (mkSweep (replicate (Z.to_nat (BINS - 1)) F32.zero)
             (replicate (Z.to_nat (BINS - 1)) F32.zero)
             (replicate (Z.to_nat (BINS - 1)) 0)
             (replicate (Z.to_nat (BINS - 1)) 0)
             aabb_empty aabb_empty 0 0).

(** Lines 246-252: the SAH cost of the 7 planes. *)
Definition pick_plane (a : Z) (boundsMin scale : float) (w : sweep)
    (best : float * plane) : result (float * plane) :=
  for_loop (Z.to_nat (BINS - 1)) 0
    (fun i '(bestCost, pl) =>
       lc ← rd PlaneArr (leftCount w) i;
       la ← rd PlaneArr (leftArea w) i;
       rc ← rd PlaneArr (rightCount w) i;
       ra ← rd PlaneArr (rightArea w) i;
       let planeCost := (F32.of_Z lc * la + F32.of_Z rc * ra)%f32 in
       if (planeCost <? bestCost)%f32
       then Ok (planeCost, Some (a, (boundsMin + scale * F32.of_Z (i + 1))%f32))
       else Ok (bestCost, pl))
    best.

(** [BVH::FindBestSplitPlane], lines 204-255: the cost returned, with the
    axis and position written through the reference parameters. *)
Definition FindBestSplitPlane (s : t) (node : BVHNode.t) : result (float * plane) :=
  for_loop 3 0
    (fun a best =>
       '(boundsMin, boundsMax) ← centroid_span s node a;
       if (boundsMin =? boundsMax)%f32 then Ok best else
       let scale := (F32.of_Z BINS / (boundsMax - boundsMin))%f32 in
       bin ← fill_bins s node a boundsMin scale;
       w ← gather bin;
       let scale := ((boundsMax - boundsMin) / F32.of_Z BINS)%f32 in
       pick_plane a boundsMin scale w best)
    (F32.f1e30, None).

(** The in-place partition, lines 270-276; returns [triIdx] and the final [i]. *)
Fixpoint partition (fuel : nat) (m : Mesh.t) (pl : plane) (idx : list Z) (i j : Z)
  : result (list Z * Z) :=
  if j <? i then Ok (idx, i) else
  match fuel with
  | O => Fault OutOfFuel
  | S fuel' =>
      '(axis, splitPos) ← plane_get pl;
      ti ← rd TriIdxArr idx i;
      tr ← rd MeshTri (Mesh.tri m) ti;
      if (axis_get (centroid tr) axis <? splitPos)%f32
      then partition fuel' m pl idx (i + 1) j
      else
        tj ← rd TriIdxArr idx j;
        idx1 ← wr TriIdxArr idx i tj;
        idx2 ← wr TriIdxArr idx1 j ti;
        partition fuel' m pl idx2 i (j - 1)
  end.

(** Lines 281-288: the two child nodes are taken from the pool and filled,
    the parent becomes an interior node. *)
Definition make_children (nodeIdx i leftCount : Z) (s : t) : result (t * Z * Z) :=
  let leftChildIdx := nodesUsed s in
  let rightChildIdx := nodesUsed s + 1 in
  let pool := bvhNode s in
  node ← rd NodePool pool nodeIdx;
  pool ← upd_node pool leftChildIdx (set_leftFirst (leftFirst node));
  pool ← upd_node pool leftChildIdx (set_triCount leftCount);
  pool ← upd_node pool rightChildIdx (set_leftFirst i);
  node ← rd NodePool pool nodeIdx;
  pool ← upd_node pool rightChildIdx (set_triCount (triCount node - leftCount));
  pool ← upd_node pool nodeIdx (set_leftFirst leftChildIdx);
  pool ← upd_node pool nodeIdx (set_triCount 0);
  Ok (set_bvhNode pool (set_nodesUsed (nodesUsed s + 2) s), leftChildIdx, rightChildIdx).

(** [BVH::Subdivide] up to its recursive calls, lines 260-290: the node stays
    a leaf ([None]) or gets two children, whose indices are returned.  [fuel]
    bounds the partition loop. *)
Definition split_node (fuel : nat) (nodeIdx : Z) (s : t) : result (t * option (Z * Z)) :=
  node ← rd NodePool (bvhNode s) nodeIdx;
  '(splitCost, pl) ← FindBestSplitPlane s node;
  let nosplitCost := CalculateNodeCost node in
  if (splitCost >=? nosplitCost)%f32 then Ok (s, None) else
  let i := leftFirst node in
  let j := i + triCount node - 1 in
  '(idx, i) ← partition fuel (mesh s) pl (triIdx s) i j;
  let s := set_triIdx idx s in
  let leftCount := i - leftFirst node in
  if (leftCount =? 0) || (leftCount =? triCount node) then Ok (s, None) else
  '(s, leftChildIdx, rightChildIdx) ← make_children nodeIdx i leftCount s;
  s ← UpdateNodeBounds leftChildIdx s;
  s ← UpdateNodeBounds rightChildIdx s;
  Ok (s, Some (leftChildIdx, rightChildIdx)).

(** [BVH::Subdivide], lines 257-294 *)
Fixpoint Subdivide (fuel : nat) (nodeIdx : Z) (s : t) : result t :=
  match fuel with
  | O => Fault OutOfFuel
  | S fuel' =>
      '(s, children) ← split_node fuel nodeIdx s;
      match children with
      | None => Ok s
      | Some (leftChildIdx, rightChildIdx) =>
          s ← Subdivide fuel' leftChildIdx s;
          Subdivide fuel' rightChildIdx s
      end
  end.

(** Line 175: the centroid as the code computes it. *)
Definition tri_centroid (tr : Tri) : float3 :=
  scale3 (add3 (add3 (vertex0 tr) (vertex1 tr)) (vertex2 tr)) F32.f03333.
Definition set_centroid (c : float3) (tr : Tri) : Tri :=
  mkTri (vertex0 tr) (vertex1 tr) (vertex2 tr) c.

(** Lines 169-175: the reset of the pool, the identity permutation and the
    centroids. *)
Definition Build_init (s : t) : result t :=
  let s := set_nodesUsed 2 s in
  idx ← for_loop (Z.to_nat (Mesh.triCount (mesh s))) 0
          (fun i idx => wr TriIdxArr idx i i) (triIdx s);
  let s := set_triIdx idx s in
  tris ← for_loop (Z.to_nat (Mesh.triCount (mesh s))) 0
          (fun i tris =>
             tr ← rd MeshTri tris i;
             wr MeshTri tris i (set_centroid (tri_centroid tr) tr))
          (Mesh.tri (mesh s));
  Ok (set_mesh (Mesh.mk tris) s).

(** [BVH::Build], lines 166-184 *)
Definition Build (fuel : nat) (s : t) : result t :=
  s ← Build_init s;
  pool ← upd_node (bvhNode s) 0 (set_leftFirst 0);
  pool ← upd_node pool 0 (set_triCount (Mesh.triCount (mesh s)));
  let s := set_bvhNode pool s in
  s ← UpdateNodeBounds 0 s;
  Subdivide fuel 0 s.

(** The body of the loop of [Refit], lines 148-162. *)
Definition refit_node (i : Z) (s : t) : result t :=
  if i =? 1 then Ok s else
  node ← rd NodePool (bvhNode s) i;
  if isLeaf node then UpdateNodeBounds i s else
  leftChild ← rd NodePool (bvhNode s) (leftFirst node);
  rightChild ← rd NodePool (bvhNode s) (leftFirst node + 1);
  pool ← wr NodePool (bvhNode s) i
           (set_bounds (fminf3 (aabbMin leftChild) (aabbMin rightChild))
                       (fmaxf3 (aabbMax leftChild) (aabbMax rightChild)) node);
  Ok (set_bvhNode pool s).

(** [for (int i = n - 1; i >= 0; i--)] *)
Fixpoint refit_down (n : nat) (s : t) : result t :=
  match n with
  | O => Ok s
  | S k => s' ← refit_node (Z.of_nat k) s; refit_down k s'
  end.

(** [BVH::Refit], lines 145-164 *)
Definition Refit (s : t) : result t := refit_down (Z.to_nat (nodesUsed s)) s.

(** Lines 115-119: the triangles of a leaf. *)
Definition leaf_tris (s : t) (instanceIdx : Z) (node : BVHNode.t) (ray : Ray)
  : result Ray :=
  for_loop (Z.to_nat (triCount node)) 0
    (fun i ray =>
       ti ← rd TriIdxArr (triIdx s) (leftFirst node + i);
       let instPrim := wrap32 (Z.shiftl instanceIdx 20 + ti) in
       tr ← rd MeshTri (Mesh.tri (mesh s)) (Z.land instPrim 1048575);
       Ok (IntersectTri ray tr instPrim))
    ray.

(** The loop of [Intersect], lines 111-142.  [node] is the index of the node
    pointed to, [stack] holds [stack[0..stackPtr)], its top first. *)
Fixpoint traverse (fuel : nat) (s : t) (instanceIdx : Z) (node : Z) (stack : list Z)
    (ray : Ray) : result Ray :=
  match fuel with
  | O => Fault OutOfFuel
  | S fuel' =>
      nd ← rd NodePool (bvhNode s) node;
      if isLeaf nd then
        ray ← leaf_tris s instanceIdx nd ray;
        match stack with
        | [] => Ok ray
        | top :: rest => traverse fuel' s instanceIdx top rest ray
        end
      else
        c1 ← rd NodePool (bvhNode s) (leftFirst nd);
        c2 ← rd NodePool (bvhNode s) (leftFirst nd + 1);
        let dist1 := IntersectAABB ray (aabbMin c1) (aabbMax c1) in
        let dist2 := IntersectAABB ray (aabbMin c2) (aabbMax c2) in
        let '(dist1, dist2, child1, child2) :=
          if (dist1 >? dist2)%f32
          then (dist2, dist1, leftFirst nd + 1, leftFirst nd)
          else (dist1, dist2, leftFirst nd, leftFirst nd + 1) in
        if (dist1 =? F32.f1e30)%f32 then
          match stack with
          | [] => Ok ray
          | top :: rest => traverse fuel' s instanceIdx top rest ray
          end
        else if negb (dist2 =? F32.f1e30)%f32 then
          if 64 <=? Z.of_nat (length stack) then Fault (OutOfBounds StackArr)
          else traverse fuel' s instanceIdx child1 (child2 :: stack) ray
        else traverse fuel' s instanceIdx child1 stack ray
  end.

(** [BVH::Intersect], lines 107-143 *)
Definition Intersect (fuel : nat) (s : t) (ray : Ray) (instanceIdx : Z) : result Ray :=
  traverse fuel s instanceIdx 0 [] ray.

(** A slab test of a traversal: the index of the node whose box is tested
    and the ray, with its hit record, at that moment. *)
Definition probe : Type := Z * Ray.

(** The loop of [Intersect] once more, lines 111-142, returning with the ray
    the slab tests of lines 126-131 that it has made, in their order: the
    two children of every interior node it comes to, with the ray as it is
    then.  But for this list it is [traverse]. *)
Fixpoint traverse_log (fuel : nat) (s : t) (instanceIdx : Z) (node : Z) (stack : list Z)
    (ray : Ray) : result (Ray * list probe) :=
  match fuel with
  | O => Fault OutOfFuel
  | S fuel' =>
      nd ← rd NodePool (bvhNode s) node;
      if isLeaf nd then
        ray ← leaf_tris s instanceIdx nd ray;
        match stack with
        | [] => Ok (ray, [])
        | top :: rest => traverse_log fuel' s instanceIdx top rest ray
        end
      else
        c1 ← rd NodePool (bvhNode s) (leftFirst nd);
        c2 ← rd NodePool (bvhNode s) (leftFirst nd + 1);
        let dist1 := IntersectAABB ray (aabbMin c1) (aabbMax c1) in
        let dist2 := IntersectAABB ray (aabbMin c2) (aabbMax c2) in
        let '(dist1, dist2, child1, child2) :=
          if (dist1 >? dist2)%f32
          then (dist2, dist1, leftFirst nd + 1, leftFirst nd)
          else (dist1, dist2, leftFirst nd, leftFirst nd + 1) in
        after [(leftFirst nd, ray); (leftFirst nd + 1, ray)]
          (if (dist1 =? F32.f1e30)%f32 then
             match stack with
             | [] => Ok (ray, [])
             | top :: rest => traverse_log fuel' s instanceIdx top rest ray
             end
           else if negb (dist2 =? F32.f1e30)%f32 then
             if 64 <=? Z.of_nat (length stack) then Fault (OutOfBounds StackArr)
             else traverse_log fuel' s instanceIdx child1 (child2 :: stack) ray
           else traverse_log fuel' s instanceIdx child1 stack ray)
  end.

Definition Intersect_log (fuel : nat) (s : t) (ray : Ray) (instanceIdx : Z)
  : result (Ray * list probe) :=
  traverse_log fuel s instanceIdx 0 [] ray.

(** The slab tests that [Intersect] makes on its way. *)
Definition slab_tests (fuel : nat) (s : t) (ray : Ray) (instanceIdx : Z) : list probe :=
  match Intersect_log fuel s ray instanceIdx with
  | Ok (_, log) => log
  | Fault _ => []
  end.

End BVH.

(** ** Instances and the TLAS *)

(** Modelled from the spec: the 4x4 affine matrix of the math primitives
    and its "apply-to-point" and "apply-to-vector", which are not part of the
    sources.  [cell] holds the entries row by row; a vector takes no
    translation. *)
Record mat4 := mkMat4 { cell : nat -> float }.

Definition TransformVector (v : float3) (M : mat4) : float3 :=
  make_float3
    (cell M 0%nat * x v + cell M 1%nat * y v + cell M 2%nat * z v)%f32
    (cell M 4%nat * x v + cell M 5%nat * y v + cell M 6%nat * z v)%f32
    (cell M 8%nat * x v + cell M 9%nat * y v + cell M 10%nat * z v)%f32.

Definition TransformPosition (p : float3) (M : mat4) : float3 :=
  make_float3
    (cell M 0%nat * x p + cell M 1%nat * y p + cell M 2%nat * z p + cell M 3%nat)%f32
    (cell M 4%nat * x p + cell M 5%nat * y p + cell M 6%nat * z p + cell M 7%nat)%f32
    (cell M 8%nat * x p + cell M 9%nat * y p + cell M 10%nat * z p + cell M 11%nat)%f32.

(** [BVHInstance]: the BLAS it places, its world-space bounds, its index and
    the inverse of its transform.  The transform itself is read by
    [SetTransform] only, which takes it as its argument. *)
Record BVHInstance := mkInstance {
  bvh : BVH.t; bounds : aabb; idx : Z; invTransform : mat4 }.

(** Lines 313-316: the ray in the space of the instance. *)
Definition local_ray (b : BVHInstance) (ray : Ray) : Ray :=
  let O := TransformPosition (rayO ray) (invTransform b) in
  let D := TransformVector (rayD ray) (invTransform b) in
  mkRay O D (make_float3 (F32.one / x D) (F32.one / y D) (F32.one / z D))%f32 (hit ray).

(** [BVHInstance::Intersect], lines 310-323: the hit of the transformed ray
    goes back into the ray as it came. *)
Definition BVHInstance_Intersect (fuel : nat) (b : BVHInstance) (ray : Ray) : result Ray :=
  r ← BVH.Intersect fuel (bvh b) (local_ray b ray) (idx b);
  Ok (set_hit ray (hit r)).

(** The same with the slab tests made in the BLAS, on the ray in the space
    of the instance. *)
Definition BVHInstance_Intersect_log (fuel : nat) (b : BVHInstance) (ray : Ray)
  : result (Ray * list BVH.probe) :=
  '(r, log) ← BVH.Intersect_log fuel (bvh b) (local_ray b ray) (idx b);
  Ok (set_hit ray (hit r), log).

(** Corner [i] of a box, lines 307-308: bit 0 of [i] picks the x of the
    upper corner, bit 1 its y, bit 2 its z. *)
Definition corner (mn mx : float3) (i : Z) : float3 :=
  make_float3 (if Z.land i 1 =? 0 then x mn else x mx)
              (if Z.land i 2 =? 0 then y mn else y mx)
              (if Z.land i 4 =? 0 then z mn else z mx).

(** [BVHInstance::SetTransform], lines 298-308.  The inverse of the matrix
    class is not part of the sources: it is the argument [inverted]; the record
    of an instance keeps the fields that the rest of the code reads.  The
    bounds start from the empty box and grow by the eight corners of the
    root box of the BLAS, taken through the transform. *)
Definition SetTransform (inverted : mat4 -> mat4) (T : mat4) (b : BVHInstance)
  : result BVHInstance :=
  root ← rd NodePool (BVH.bvhNode (bvh b)) 0;
  bb ← for_loop 8 0
         (fun i bb =>
            Ok (grow bb (TransformPosition
                           (corner (BVHNode.aabbMin root) (BVHNode.aabbMax root) i) T)))
         aabb_empty;
  Ok (mkInstance (bvh b) bb (idx b) (inverted T)).

Module TLASNode.
Record t := mk {
  aabbMin : float3; leftRight : Z; aabbMax : float3; BLAS : Z }.

(** Modelled from the spec: [isLeaf] of bvh.h, which is not part of the
    sources: "Leaf iff leftRight == 0". *)
Definition isLeaf (n : t) : bool := leftRight n =? 0.
End TLASNode.

(** [tlasNode[i].field = v] *)
Definition upd_tnode (pool : list TLASNode.t) (i : Z) (f : TLASNode.t -> TLASNode.t)
  : result (list TLASNode.t) :=
  n ← rd TlasPool pool i; wr TlasPool pool i (f n).

Module TLAS.
Import TLASNode.

Record t := mk {
  blas : list BVHInstance;
  blasCount : Z;
  tlasNode : list TLASNode.t;
  nodeIdx : list Z;
  nodesUsed : Z }.

Definition set_tlasNode (p : list TLASNode.t) (s : t) : t :=
  mk (blas s) (blasCount s) p (nodeIdx s) (nodesUsed s).
Definition set_nodeIdx (l : list Z) (s : t) : t :=
  mk (blas s) (blasCount s) (tlasNode s) l (nodesUsed s).
Definition set_nodesUsed (n : Z) (s : t) : t :=
  mk (blas s) (blasCount s) (tlasNode s) (nodeIdx s) n.

(** [TLAS::TLAS], lines 327-336: a pool of [2 * N] nodes and 64 bytes more,
    two nodes of 32 bytes, and [N] indices, all uninitialised. *)
Definition alloc (bvhList : list BVHInstance) (rawNode : nat -> TLASNode.t)
    (rawIdx : nat -> Z) : t :=
  let N := Z.of_nat (length bvhList) in
  mk bvhList N
     (map rawNode (seq 0 (Z.to_nat (2 * N + 2))))
     (map rawIdx (seq 0 (Z.to_nat N)))
     2.

(** [tlasNode[nodeIdx[k]]] *)
Definition node_of (s : t) (k : Z) : result TLASNode.t :=
  i ← rd NodeIdxArr (nodeIdx s) k; rd TlasPool (tlasNode s) i.

(** [TLAS::FindBestMatch], lines 338-352 *)
Definition FindBestMatch (s : t) (N A : Z) : result Z :=
  '(smallest, bestB) ←
    for_loop (Z.to_nat N) 0
      (fun B '(smallest, bestB) =>
         if B =? A then Ok (smallest, bestB) else
         nA ← node_of s A;
         nB ← node_of s B;
         let bmax := fmaxf3 (aabbMax nA) (aabbMax nB) in
         let bmin := fminf3 (aabbMin nA) (aabbMin nB) in
         let e := sub3 bmax bmin in
         let surfaceArea := (x e * y e + y e * z e + z e * x e)%f32 in
         if (surfaceArea <? smallest)%f32 then Ok (surfaceArea, B) else Ok (smallest, bestB))
      (F32.f1e30, -1);
  Ok bestB.

(** Lines 357-365: a leaf for every instance. *)
Definition assign_leaves (s : t) : result t :=
  for_loop (Z.to_nat (blasCount s)) 0
    (fun i s =>
       idx ← wr NodeIdxArr (nodeIdx s) i (nodesUsed s);
       b ← rd BlasArr (blas s) i;
       pool ← upd_tnode (tlasNode s) (nodesUsed s)
                (fun n => TLASNode.mk (bmin (bounds b)) 0 (bmax (bounds b)) i);
       Ok (set_nodesUsed (nodesUsed s + 1) (set_tlasNode pool (set_nodeIdx idx s))))
    (set_nodesUsed 1 s).

(** The clustering loop, lines 370-389; returns the state and the final [A].
    The writes of the merged pairs to the file pairs.txt are left out. *)
Fixpoint cluster (fuel : nat) (s : t) (nodeIndices A B : Z) : result (t * Z) :=
  if nodeIndices <=? 1 then Ok (s, A) else
  match fuel with
  | O => Fault OutOfFuel
  | S fuel' =>
      C ← FindBestMatch s nodeIndices B;
      if A =? C then
        nodeIdxA ← rd NodeIdxArr (nodeIdx s) A;
        nodeIdxB ← rd NodeIdxArr (nodeIdx s) B;
        nodeA ← rd TlasPool (tlasNode s) nodeIdxA;
        nodeB ← rd TlasPool (tlasNode s) nodeIdxB;
        pool ← upd_tnode (tlasNode s) (nodesUsed s)
                 (fun n => TLASNode.mk (fminf3 (aabbMin nodeA) (aabbMin nodeB))
                              (wrap32 (nodeIdxA + Z.shiftl nodeIdxB 16))
                              (fmaxf3 (aabbMax nodeA) (aabbMax nodeB))
                              (BLAS n));
        idx ← wr NodeIdxArr (nodeIdx s) A (nodesUsed s);
        last ← rd NodeIdxArr idx (nodeIndices - 1);
        idx ← wr NodeIdxArr idx B last;
        let s := set_nodesUsed (nodesUsed s + 1) (set_nodeIdx idx (set_tlasNode pool s)) in
        B ← FindBestMatch s (nodeIndices - 1) A;
        cluster fuel' s (nodeIndices - 1) A B
      else cluster fuel' s nodeIndices B C
  end.

(** [TLAS::Build], lines 354-393 *)
Definition Build (fuel : nat) (s : t) : result t :=
  s ← assign_leaves s;
  let nodeIndices := blasCount s in
  B ← FindBestMatch s nodeIndices 0;
  '(s, A) ← cluster fuel s nodeIndices 0 B;
  root ← node_of s A;
  pool ← wr TlasPool (tlasNode s) 0 root;
  Ok (set_tlasNode pool s).

(** The loop of [TLAS::Intersect], lines 570-597; [fuelB] is the fuel of the
    traversal of each BLAS. *)
Fixpoint traverse (fuel fuelB : nat) (s : t) (node : Z) (stack : list Z) (ray : Ray)
  : result Ray :=
  match fuel with
  | O => Fault OutOfFuel
  | S fuel' =>
      nd ← rd TlasPool (tlasNode s) node;
      if isLeaf nd then
        b ← rd BlasArr (blas s) (BLAS nd);
        ray ← BVHInstance_Intersect fuelB b ray;
        match stack with
        | [] => Ok ray
        | top :: rest => traverse fuel' fuelB s top rest ray
        end
      else
        let i1 := Z.land (leftRight nd) 65535 in
        let i2 := Z.shiftr (leftRight nd) 16 in
        c1 ← rd TlasPool (tlasNode s) i1;
        c2 ← rd TlasPool (tlasNode s) i2;
        let dist1 := IntersectAABB ray (aabbMin c1) (aabbMax c1) in
        let dist2 := IntersectAABB ray (aabbMin c2) (aabbMax c2) in
        let '(dist1, dist2, child1, child2) :=
          if (dist1 >? dist2)%f32 then (dist2, dist1, i2, i1) else (dist1, dist2, i1, i2) in
        if (dist1 =? F32.f1e30)%f32 then
          match stack with
          | [] => Ok ray
          | top :: rest => traverse fuel' fuelB s top rest ray
          end
        else if negb (dist2 =? F32.f1e30)%f32 then
          if 64 <=? Z.of_nat (length stack) then Fault (OutOfBounds StackArr)
          else traverse fuel' fuelB s child1 (child2 :: stack) ray
        else traverse fuel' fuelB s child1 stack ray
  end.

(** Line 565: the reciprocal of the direction. *)
Definition with_rD (ray : Ray) : Ray :=
  mkRay (rayO ray) (rayD ray)
        (make_float3 (F32.one / x (rayD ray)) (F32.one / y (rayD ray))
                     (F32.one / z (rayD ray)))%f32
        (hit ray).

(** [TLAS::Intersect], lines 562-598 *)
Definition Intersect (fuel fuelB : nat) (s : t) (ray : Ray) : result Ray :=
  traverse fuel fuelB s 0 [] (with_rD ray).

(** A slab test of the traversal of a scene: one on the box of a TLAS node,
    with the ray at that moment, or one made in the BLAS of an instance,
    with the ray in the space of that instance. *)
Inductive probe :=
  | OnNode (node : Z) (ray : Ray)
  | InBlas (blasIdx : Z) (p : BVH.probe).

(** The loop of [TLAS::Intersect] once more, lines 570-597, returning with
    the ray the slab tests that it and the traversals of the instances have
    made, in their order.  But for this list it is [traverse]. *)
Fixpoint traverse_log (fuel fuelB : nat) (s : t) (node : Z) (stack : list Z) (ray : Ray)
  : result (Ray * list probe) :=
  match fuel with
  | O => Fault OutOfFuel
  | S fuel' =>
      nd ← rd TlasPool (tlasNode s) node;
      if isLeaf nd then
        b ← rd BlasArr (blas s) (BLAS nd);
        '(ray, log) ← BVHInstance_Intersect_log fuelB b ray;
        after (map (InBlas (BLAS nd)) log)
          match stack with
          | [] => Ok (ray, [])
          | top :: rest => traverse_log fuel' fuelB s top rest ray
          end
      else
        let i1 := Z.land (leftRight nd) 65535 in
        let i2 := Z.shiftr (leftRight nd) 16 in
        c1 ← rd TlasPool (tlasNode s) i1;
        c2 ← rd TlasPool (tlasNode s) i2;
        let dist1 := IntersectAABB ray (aabbMin c1) (aabbMax c1) in
        let dist2 := IntersectAABB ray (aabbMin c2) (aabbMax c2) in
        let '(dist1, dist2, child1, child2) :=
          if (dist1 >? dist2)%f32 then (dist2, dist1, i2, i1) else (dist1, dist2, i1, i2) in
        after [OnNode i1 ray; OnNode i2 ray]
          (if (dist1 =? F32.f1e30)%f32 then
             match stack with
             | [] => Ok (ray, [])
             | top :: rest => traverse_log fuel' fuelB s top rest ray
             end
           else if negb (dist2 =? F32.f1e30)%f32 then
             if 64 <=? Z.of_nat (length stack) then Fault (OutOfBounds StackArr)
             else traverse_log fuel' fuelB s child1 (child2 :: stack) ray
           else traverse_log fuel' fuelB s child1 stack ray)
  end.

Definition Intersect_log (fuel fuelB : nat) (s : t) (ray : Ray)
  : result (Ray * list probe) :=
  traverse_log fuel fuelB s 0 [] (with_rD ray).

(** The slab tests that [TLAS::Intersect] makes on its way. *)
Definition slab_tests (fuel fuelB : nat) (s : t) (ray : Ray) : list probe :=
  match Intersect_log fuel fuelB s ray with
  | Ok (_, log) => log
  | Fault _ => []
  end.

End TLAS.

(** ** The sorted pre-split of the fast TLAS build *)

Record SortItem := mkSortItem { pos : float; blasIdx : Z }.

(** The file-level statics of the fast build, lines 396-399.  [item] is null
    until its first use; a kD-tree is kept as the arguments its constructor
    was called with, the slot of its first node and its size (the class
    KDTree is not part of the sources). *)
Record statics := mkStatics {
  item : option (list SortItem);
  tree : list (option (Z * Z));
  treeSize : list Z;
  treeIdx : Z }.

Definition statics_init : statics :=
  mkStatics None (replicate 8 None) (replicate 8 0) 0.

(** [Swap], line 400, on two elements of the array *)
Definition Swap (a : list SortItem) (i j : Z) : result (list SortItem) :=
  ai ← rd ItemArr a i;
  aj ← rd ItemArr a j;
  a ← wr ItemArr a i aj;
  wr ItemArr a j ai.

(** [Pivot], lines 401-408 *)
Definition Pivot (a : list SortItem) (first last : Z) : result (list SortItem * Z) :=
  e ← rd ItemArr a first;
  '(a, p) ← for_loop (Z.to_nat (last - first)) (first + 1)
              (fun i '(a, p) =>
                 ai ← rd ItemArr a i;
                 if (pos ai <=? pos e)%f32
                 then a ← Swap a i (p + 1); Ok (a, p + 1)
                 else Ok (a, p))
              (a, first);
  a ← Swap a p first;
  Ok (a, p).

(** [QuickSort], lines 409-415 *)
Fixpoint QuickSort (fuel : nat) (a : list SortItem) (first last : Z)
  : result (list SortItem) :=
  if last <=? first then Ok a else
  match fuel with
  | O => Fault OutOfFuel
  | S fuel' =>
      '(a, pivotElement) ← Pivot a first last;
      a ← QuickSort fuel' a first (pivotElement - 1);
      QuickSort fuel' a (pivotElement + 1) last
  end.

(** Lines 426-429 of [SortAndSplit]: the key of every item of the range, then
    the sort of the range by it. *)
Definition sort_range (fuel : nat) (blas : list BVHInstance) (axis first last : Z)
    (items : list SortItem) : result (list SortItem) :=
  items ← for_loop (Z.to_nat (last - first + 1)) first
            (fun i items =>
               it ← rd ItemArr items i;
               let idx := blasIdx it in
               b ← rd BlasArr blas idx;
               wr ItemArr items i
                  (mkSortItem ((axis_get (bmin (bounds b)) axis
                                + axis_get (bmin (bounds b)) axis) * F32.fhalf)%f32
                              idx))
            items;
  QuickSort fuel items first last.

(** Lines 438-447 and 448-457: the leaves of one chunk and its kD-tree. *)
Definition make_chunk (items : list SortItem) (from to : Z) (s : TLAS.t) (st : statics)
  : result (TLAS.t * statics) :=
  s ← for_loop (Z.to_nat (to - from + 1)) from
        (fun i s =>
           it ← rd ItemArr items i;
           b ← rd BlasArr (TLAS.blas s) (blasIdx it);
           pool ← upd_tnode (TLAS.tlasNode s) (TLAS.nodesUsed s)
                    (fun n => TLASNode.mk (bmin (bounds b)) 0 (bmax (bounds b)) (blasIdx it));
           Ok (TLAS.set_nodesUsed (TLAS.nodesUsed s + 1) (TLAS.set_tlasNode pool s)))
        s;
  tr ← rd TreeArr (tree st) (treeIdx st);
  trees ← match tr with
          | Some _ => Ok (tree st)
          | None => wr TreeArr (tree st) (treeIdx st) (Some (from + 32, to - from + 1))
          end;
  sizes ← wr TreeArr (treeSize st) (treeIdx st) (to - from + 1);
  Ok (s, mkStatics (item st) trees sizes (treeIdx st + 1)).

(** [TLAS::SortAndSplit], lines 417-458.  [depth] bounds the recursion, which
    stops at level 2; [fuel] is for [QuickSort]; [rawItem] stands for what the
    freshly allocated [item] array holds. *)
Fixpoint SortAndSplit (depth fuel : nat) (rawItem : nat -> SortItem)
    (first last level : Z) (s : TLAS.t) (st : statics) : result (TLAS.t * statics) :=
  match depth with
  | O => Fault OutOfFuel
  | S depth' =>
      let items :=
        match item st with
        | Some items => items
        | None => map rawItem (seq 0 (Z.to_nat (TLAS.blasCount s)))
        end in
      let axis := level mod 3 in
      '(items, tidx) ←
        (if level =? 0 then
           items ← for_loop (Z.to_nat (TLAS.blasCount s)) 0
                     (fun i items =>
                        it ← rd ItemArr items i;
                        wr ItemArr items i (mkSortItem (pos it) i))
                     items;
           Ok (items, 0)
         else Ok (items, treeIdx st));
      items ← sort_range fuel (TLAS.blas s) axis first last items;
      let st := mkStatics (Some items) (tree st) (treeSize st) tidx in
      let half := Z.shiftr (first + last) 1 in
      if level <? 2 then
        '(s, st) ← SortAndSplit depth' fuel rawItem first half (level + 1) s st;
        SortAndSplit depth' fuel rawItem (half + 1) last (level + 1) s st
      else
        '(s, st) ← make_chunk items first half s st;
        make_chunk items (half + 1) last s st
  end.

(** The first two steps of [TLAS::BuildQuick], lines 511-516.  The clustering
    of the chunks that follows works on kD-trees and is not modelled. *)
Definition BuildQuick_presplit (fuel : nat) (rawItem : nat -> SortItem)
    (s : TLAS.t) (st : statics) : result (TLAS.t * statics) :=
  let items :=
    match item st with
    | Some items => items
    | None => map rawItem (seq 0 (Z.to_nat (TLAS.blasCount s)))
    end in
  items ← for_loop (Z.to_nat (TLAS.blasCount s)) 0
            (fun i items =>
               it ← rd ItemArr items i;
               wr ItemArr items i (mkSortItem (pos it) i))
            items;
  let st := mkStatics (Some items) (tree st) (treeSize st) (treeIdx st) in
  let s := TLAS.set_nodesUsed 32 s in
  SortAndSplit 3 fuel rawItem 0 (TLAS.blasCount s - 1) 0 s st.

(** ** The brute-force scan *)

(** [instPrim] of triangle [k] of instance [instanceIdx], line 117. *)
Definition inst_prim (instanceIdx k : Z) : Z := wrap32 (Z.shiftl instanceIdx 20 + k).

(** The reference of the traversal, after the words of the specification
    (no function of the sources computes it): "a brute-force scan over all
    triangles", [IntersectTri] on every triangle of the mesh, here in the
    order of the mesh. *)
Definition hit_tri (m : Mesh.t) (instanceIdx : Z) (ray : Ray) (k : Z) : Ray :=
  match Mesh.tri m !! Z.to_nat k with
  | Some tr => IntersectTri ray tr (inst_prim instanceIdx k)
  | None => ray
  end.

Definition scan (m : Mesh.t) (instanceIdx : Z) (ks : list Z) (ray : Ray) : Ray :=
  foldl (hit_tri m instanceIdx) ray ks.

Definition brute_force (s : BVH.t) (instanceIdx : Z) (ray : Ray) : Ray :=
  scan (BVH.mesh s) instanceIdx (seqZ 0 (Mesh.triCount (BVH.mesh s))) ray.

(** The same over the instances of a scene, each with the ray in its
    space, as [BVHInstance::Intersect] passes it. *)
Definition scene_brute_force (insts : list BVHInstance) (ray : Ray) : Ray :=
  foldl (fun r b => set_hit r (hit (brute_force (bvh b) (idx b) (local_ray b r))))
        ray insts.

(** * Verification *)

(** ** Reasoning about results *)

(** [satisfies r F Q]: the computation [r] ends in a value that satisfies [Q],
    or in a fault that [F] allows. *)
Definition satisfies {A} (r : result A) (F : fault -> Prop) (Q : A -> Prop) : Prop :=
  match r with
  | Ok a => Q a
  | Fault f => F f
  end.

Lemma sat_ok {A} (a : A) F (Q : A -> Prop) : Q a -> satisfies (Ok a) F Q.
Proof. exact id. Qed.

Lemma sat_bind {A B} (r : result A) (k : A -> result B) F (Q : A -> Prop) (R : B -> Prop) :
  satisfies r F Q ->
  (forall a, Q a -> satisfies (k a) F R) ->
  satisfies (r ≫= k) F R.
Proof. destruct r; simpl; auto. Qed.

Lemma sat_mono {A} (r : result A) (F G : fault -> Prop) (Q R : A -> Prop) :
  satisfies r F Q ->
  (forall a, Q a -> R a) -> (forall f, F f -> G f) ->
  satisfies r G R.
Proof. destruct r; simpl; auto. Qed.

Lemma sat_inv {A} (r : result A) F (Q : A -> Prop) a :
  satisfies r F Q -> r = Ok a -> Q a.
Proof. intros H ->. exact H. Qed.

Lemma sat_and {A} (r : result A) F G (Q R : A -> Prop) :
  satisfies r F Q -> satisfies r G R ->
  satisfies r (fun f => F f /\ G f) (fun a => Q a /\ R a).
Proof. destruct r; simpl; auto. Qed.

Lemma bind_Ok {A B} (r : result A) (k : A -> result B) b :
  r ≫= k = Ok b -> exists a, r = Ok a /\ k a = Ok b.
Proof. destruct r; simpl; [eauto | discriminate]. Qed.

Lemma rd_Ok {A} id (a : list A) i v :
  rd id a i = Ok v <-> 0 <= i /\ a !! Z.to_nat i = Some v.
Proof.
  unfold rd. destruct (Z.ltb_spec i 0).
  - split; [discriminate | lia].
  - destruct (a !! Z.to_nat i) eqn:E; split.
    + intros [= ->]. auto.
    + intros [_ [= ->]]. reflexivity.
    + discriminate.
    + intros [_ [=]].
Qed.

Lemma rd_in_range {A} id (a : list A) i :
  0 <= i < Z.of_nat (length a) -> exists v, rd id a i = Ok v /\ a !! Z.to_nat i = Some v.
Proof.
  intros Hi. destruct (lookup_lt_is_Some_2 a (Z.to_nat i)) as [v Hv]; [lia |].
  exists v. split; [| exact Hv]. apply rd_Ok. split; [lia | exact Hv].
Qed.

Lemma sat_rd {A} id (a : list A) i F (Q : A -> Prop) :
  0 <= i < Z.of_nat (length a) ->
  (forall v, a !! Z.to_nat i = Some v -> Q v) ->
  satisfies (rd id a i) F Q.
Proof.
  intros Hi HQ. destruct (rd_in_range id a i Hi) as (v & -> & Hv). simpl. auto.
Qed.

Lemma wr_Ok {A} id (a : list A) i v a' :
  wr id a i v = Ok a' <-> 0 <= i < Z.of_nat (length a) /\ a' = <[Z.to_nat i := v]> a.
Proof.
  unfold wr. destruct (Z.leb_spec 0 i); destruct (Z.ltb_spec i (Z.of_nat (length a))); simpl;
    (split; [intros [= <-] || discriminate | intros [? ->]]); auto; lia.
Qed.

Lemma sat_wr {A} id (a : list A) i v F (Q : list A -> Prop) :
  0 <= i < Z.of_nat (length a) ->
  Q (<[Z.to_nat i := v]> a) ->
  satisfies (wr id a i v) F Q.
Proof.
  intros Hi HQ. unfold wr.
  destruct (Z.leb_spec 0 i); destruct (Z.ltb_spec i (Z.of_nat (length a))); simpl; auto; lia.
Qed.

(** The invariant rule of the counting loop. *)
Lemma sat_for_loop {St} (I : Z -> St -> Prop) F n :
  forall i (body : Z -> St -> result St) s,
  I i s ->
  (forall k s, i <= k < i + Z.of_nat n -> I k s -> satisfies (body k s) F (I (k + 1))) ->
  satisfies (for_loop n i body s) F (I (i + Z.of_nat n)).
Proof.
  induction n as [| n IH]; intros i body s Hi Hbody; simpl.
  - replace (i + Z.of_nat 0) with i by lia. exact Hi.
  - eapply sat_bind.
    + apply Hbody; [lia | exact Hi].
    + intros s' Hs'. replace (i + Z.of_nat (S n)) with ((i + 1) + Z.of_nat n) by lia.
      apply IH; [exact Hs' |]. intros k s0 Hk. apply Hbody. lia.
Qed.

Lemma sat_never {A} (r : result A) (Q : A -> Prop) :
  satisfies r (fun _ => False) Q -> exists a, r = Ok a /\ Q a.
Proof. destruct r; simpl; [eauto | tauto]. Qed.

Lemma Z_to_nat_succ k : 0 <= k -> Z.to_nat (k + 1) = S (Z.to_nat k).
Proof. lia. Qed.

(** ** The start of [Build] *)

Definition with_centroid (tr : Tri) : Tri := BVH.set_centroid (BVH.tri_centroid tr) tr.

Lemma init_triIdx_loop (idx : list Z) :
  for_loop (length idx) 0 (fun i idx => wr TriIdxArr idx i i) idx
  = Ok (seqZ 0 (Z.of_nat (length idx))).
Proof.
  pose proof (sat_for_loop
    (fun k (l : list Z) => 0 <= k /\ length l = length idx /\
       forall j, (j < Z.to_nat k)%nat -> l !! j = Some (Z.of_nat j))
    (fun _ => False) (length idx) 0 (fun i idx => wr TriIdxArr idx i i) idx) as H.
  destruct (sat_never _ _ (H ltac:(split; [lia | split; [reflexivity | intros; lia]]) ltac:(
    intros k l Hk (Hk0 & Hlen & Hpre); apply sat_wr; [lia |];
    split; [lia | split; [rewrite length_insert; exact Hlen |]];
    intros j Hj; destruct (decide (j = Z.to_nat k)) as [-> | Hne];
    [ rewrite list_lookup_insert_eq by lia; f_equal; lia
    | rewrite list_lookup_insert_ne by lia; apply Hpre; lia ])))
    as (l & -> & _ & Hlen & Hl).
  f_equal. apply list_eq. intros j.
  destruct (decide (j < length idx)%nat) as [Hj | Hj].
  - rewrite Hl by lia. symmetry. rewrite lookup_seqZ. split; lia.
  - rewrite !lookup_ge_None_2; [reflexivity | rewrite length_seqZ; lia | lia].
Qed.

Lemma init_centroid_loop (tris : list Tri) :
  for_loop (length tris) 0
    (fun i tris => tr ← rd MeshTri tris i;
                   wr MeshTri tris i (BVH.set_centroid (BVH.tri_centroid tr) tr)) tris
  = Ok (map with_centroid tris).
Proof.
  pose proof (sat_for_loop
    (fun k (l : list Tri) => 0 <= k /\
       l = map with_centroid (take (Z.to_nat k) tris) ++ drop (Z.to_nat k) tris)
    (fun _ => False) (length tris) 0
    (fun i tris => tr ← rd MeshTri tris i;
                   wr MeshTri tris i (BVH.set_centroid (BVH.tri_centroid tr) tr)) tris) as H.
  destruct (sat_never _ _ (H ltac:(split; [lia | reflexivity]) ltac:(
    intros k l Hk (Hk0 & ->);
    assert (Hlen : length (map with_centroid (take (Z.to_nat k) tris) ++ drop (Z.to_nat k) tris)
                   = length tris)
      by (rewrite length_app, length_map, length_take, length_drop; lia);
    eapply sat_bind; [apply sat_rd with (Q := fun v => tris !! Z.to_nat k = Some v); [lia |] |];
    [ intros v Hv; rewrite lookup_app_r in Hv by (rewrite length_map, length_take; lia);
      rewrite length_map, length_take, lookup_drop in Hv;
      rewrite <- Hv; f_equal; lia
    | intros v Hv; apply sat_wr; [lia |]; split; [lia |];
      rewrite Z_to_nat_succ by lia;
      rewrite (take_S_r _ _ _ Hv), map_app, <- app_assoc; simpl;
      rewrite insert_app_r_alt by (rewrite length_map, length_take; lia);
      rewrite length_map, length_take;
      replace (Z.to_nat k - Z.to_nat k `min` length tris)%nat with 0%nat by lia;
      rewrite (drop_S _ _ _ Hv); reflexivity ])))
    as (l & -> & _ & ->).
  rewrite Z.add_0_l, Nat2Z.id, firstn_all, drop_all, app_nil_r. reflexivity.
Qed.

Lemma Build_init_spec (s : BVH.t) :
  length (BVH.triIdx s) = length (Mesh.tri (BVH.mesh s)) ->
  BVH.Build_init s
  = Ok (BVH.mk (Mesh.mk (map with_centroid (Mesh.tri (BVH.mesh s))))
               (BVH.bvhNode s)
               (seqZ 0 (Mesh.triCount (BVH.mesh s)))
               2).
Proof.
  intros Hlen. unfold BVH.Build_init, Mesh.triCount. cbn [BVH.mesh BVH.triIdx BVH.set_nodesUsed BVH.set_triIdx].
  rewrite Nat2Z.id. rewrite <- Hlen at 1. rewrite init_triIdx_loop. cbn [mbind result_bind].
  rewrite init_centroid_loop. cbn [mbind result_bind]. rewrite Hlen. reflexivity.
Qed.
(** ** The order of single-precision numbers *)

Lemma SFcompare_refl (a : float) : a <> S754_nan -> SFcompare a a = Some Eq.
Proof.
  destruct a as [s | s | | s m e]; intros H; try congruence; try (destruct s; reflexivity).
  simpl. rewrite Z.compare_refl, Pos.compare_cont_refl. destruct s; reflexivity.
Qed.

Lemma ltb_irrefl (a : float) : (a <? a)%f32 = false.
Proof.
  unfold F32.ltb, SFltb. destruct a as [s | s | | s m e]; try reflexivity;
    rewrite SFcompare_refl by congruence; reflexivity.
Qed.

(** ** Ray/triangle intersection *)

(** C2: with edge1 = v1 - v0, edge2 = v2 - v0, h = D x edge2,
    a = edge1 . h, f = 1 / a, s = O - v0, u = f * (s . h), q = s x edge1,
    v = f * (D . q) and t = f * (edge2 . q), all in single precision and in
    this order of operations, [IntersectTri] leaves the ray (and so its hit
    record) unchanged when |a| < 1e-5, when u < 0 or u > 1, and when v < 0 or
    u + v > 1; when none of these tests fires, it replaces the hit record by
    (t, u, v, instPrim) if and only if t > 1e-4 and t < hit.t, and leaves the
    ray unchanged otherwise.  The two thresholds are the single-precision
    numbers nearest to 1/100000 and 1/10000. *)
Theorem IntersectTri_spec (ray : Ray) (tri : Tri) (ip : Z) :
  let edge1 := sub3 (vertex1 tri) (vertex0 tri) in
  let edge2 := sub3 (vertex2 tri) (vertex0 tri) in
  let h := cross (rayD ray) edge2 in
  let a := dot edge1 h in
  let f := (F32.one / a)%f32 in
  let s := sub3 (rayO ray) (vertex0 tri) in
  let u := (f * dot s h)%f32 in
  let q := cross s edge1 in
  let v := (f * dot (rayD ray) q)%f32 in
  let t' := (f * dot edge2 q)%f32 in
  let eps_a := F32.of_ratio 1 100000 in
  let eps_t := F32.of_ratio 1 10000 in
  ((F32.fabs a <? eps_a)%f32 = true -> IntersectTri ray tri ip = ray) /\
  ((u <? F32.zero)%f32 = true \/ (u >? F32.one)%f32 = true ->
     IntersectTri ray tri ip = ray) /\
  ((v <? F32.zero)%f32 = true \/ (u + v >? F32.one)%f32 = true ->
     IntersectTri ray tri ip = ray) /\
  ((F32.fabs a <? eps_a)%f32 = false ->
   (u <? F32.zero)%f32 = false -> (u >? F32.one)%f32 = false ->
   (v <? F32.zero)%f32 = false -> (u + v >? F32.one)%f32 = false ->
   (((t' >? eps_t)%f32 = true /\ (t' <? t (hit ray))%f32 = true) <->
    (IntersectTri ray tri ip = set_hit ray (mkIntersection t' u v ip) /\
     IntersectTri ray tri ip <> ray)) /\
   (~ ((t' >? eps_t)%f32 = true /\ (t' <? t (hit ray))%f32 = true) ->
    IntersectTri ray tri ip = ray)).
Proof.
  intros edge1 edge2 h a f s u q v t' eps_a eps_t.
  assert (E : IntersectTri ray tri ip
              = if (F32.fabs a <? eps_a)%f32 then ray else
                if (u <? F32.zero)%f32 || (u >? F32.one)%f32 then ray else
                if (v <? F32.zero)%f32 || (u + v >? F32.one)%f32 then ray else
                if (t' >? eps_t)%f32 && (t' <? t (hit ray))%f32
                then set_hit ray (mkIntersection t' u v ip) else ray)
    by reflexivity.
  rewrite E. clear E.
  destruct (F32.fabs a <? eps_a)%f32 eqn:Ea.
  { repeat split; auto; discriminate. }
  destruct (u <? F32.zero)%f32 eqn:Eu0; simpl.
  { repeat split; auto; discriminate. }
  destruct (F32.one <? u)%f32 eqn:Eu1; simpl.
  { repeat split; auto; discriminate. }
  destruct (v <? F32.zero)%f32 eqn:Ev0; simpl.
  { repeat split; auto; discriminate. }
  destruct (F32.one <? u + v)%f32 eqn:Euv; simpl.
  { repeat split; auto; discriminate. }
  split; [discriminate |]. split; [intros [? | ?]; discriminate |].
  split; [intros [? | ?]; discriminate |]. intros _ _ _ _ _.
  destruct (eps_t <? t')%f32 eqn:Et0; simpl.
  - destruct (t' <? t (hit ray))%f32 eqn:Et1.
    + split; [| tauto]. split; [intros _ | auto]. split; [reflexivity |].
      intros Heq. apply (f_equal (fun r => t (hit r))) in Heq. simpl in Heq.
      rewrite Heq, ltb_irrefl in Et1. discriminate.
    + split; [| reflexivity]. split; [intros [_ ?]; discriminate | intros [_ ?]; congruence].
  - split; [| reflexivity]. split; [intros [? _]; discriminate | intros [_ ?]; congruence].
Qed.

(** The first scenario of the specification: the triangle (0,0,0), (1,0,0),
    (0,1,0) and the ray from (0.25, 0.25, -1) along +z. *)
Definition scene1_tri : Tri :=
  mkTri (make_float3 F32.zero F32.zero F32.zero)
        (make_float3 F32.one F32.zero F32.zero)
        (make_float3 F32.zero F32.one F32.zero)
        (float3_of F32.zero).
Definition scene1_ray : Ray :=
  mkRay (make_float3 (F32.of_ratio 1 4) (F32.of_ratio 1 4) (F32.of_Z (-1)))
        (make_float3 F32.zero F32.zero F32.one)
        (float3_of F32.zero)
        (mkIntersection F32.f1e30 F32.zero F32.zero 0).

Lemma IntersectTri_spec_witness :
  hit (IntersectTri scene1_ray scene1_tri 0)
  = mkIntersection F32.one (F32.of_ratio 1 4) (F32.of_ratio 1 4) 0.
Proof.
  destruct (IntersectTri_spec scene1_ray scene1_tri 0) as (_ & _ & _ & H).
  destruct (H eq_refl eq_refl eq_refl eq_refl eq_refl) as [[H1 _] _].
  destruct (H1 (conj eq_refl eq_refl)) as [-> _].
  reflexivity.
Defined.

(** ** Partition and bounds *)

Definition valid_idx (s : BVH.t) : Prop :=
  Forall (fun k => 0 <= k < Mesh.triCount (BVH.mesh s)) (BVH.triIdx s).

Definition valid_in (m : Mesh.t) (idx : list Z) : Prop :=
  Forall (fun k => 0 <= k < Mesh.triCount m) idx.

Lemma partition_sat m pl fuel : forall idx i j,
  0 <= i -> j < Z.of_nat (length idx) -> i <= j + 1 -> valid_in m idx ->
  satisfies (BVH.partition fuel m pl idx i j)
    (fun f => f = Uninitialised \/ (f = OutOfFuel /\ Z.of_nat fuel < j - i + 1))
    (fun r => i <= snd r <= j + 1 /\ length (fst r) = length idx /\ fst r ≡ₚ idx /\
              forall k, 0 <= k -> k < i \/ j < k -> fst r !! Z.to_nat k = idx !! Z.to_nat k).
Proof.
  induction fuel as [| fuel IH]; intros idx i j Hi Hj Hij Hv.
  - simpl. destruct (Z.ltb_spec j i); simpl.
    + repeat split; auto; lia.
    + right. split; [reflexivity | lia].
  - simpl. destruct (Z.ltb_spec j i); simpl.
    { repeat split; auto; lia. }
    destruct pl as [[axis splitPos] |]; simpl; [| left; reflexivity].
    destruct (rd_in_range TriIdxArr idx i) as (ti & -> & Hti); [lia |]. simpl.
    assert (Hvti : 0 <= ti < Mesh.triCount m)
      by (eapply (proj1 (Forall_lookup _ _) Hv); exact Hti).
    destruct (rd_in_range MeshTri (Mesh.tri m) ti) as (tr & -> & Htr); [exact Hvti |]. simpl.
    destruct (axis_get (centroid tr) axis <? splitPos)%f32.
    + eapply sat_mono; [apply (IH idx (i + 1) j); auto; lia | |].
      * intros [idx' i'] (H1 & H2 & H3 & H4). simpl in *.
        split; [lia |]. split; [exact H2 |]. split; [exact H3 |].
        intros k Hk0 Hk. apply H4; lia.
      * intros f [-> | [-> Hf]]; [left; reflexivity | right; split; [reflexivity | lia]].
    + destruct (rd_in_range TriIdxArr idx j) as (tj & -> & Htj); [lia |]. simpl.
      unfold wr at 2. rewrite (proj2 (andb_true_iff _ _)); [| split; [apply Z.leb_le | apply Z.ltb_lt]; lia].
      simpl. unfold wr. rewrite length_insert.
      rewrite (proj2 (andb_true_iff _ _)); [| split; [apply Z.leb_le | apply Z.ltb_lt]; lia].
      simpl.
      assert (Hperm : <[Z.to_nat j := ti]> (<[Z.to_nat i := tj]> idx) ≡ₚ idx)
        by (apply Permutation_insert_swap; assumption).
      eapply sat_mono;
        [apply (IH (<[Z.to_nat j := ti]> (<[Z.to_nat i := tj]> idx)) i (j - 1)); auto | |].
      * rewrite !length_insert. lia.
      * lia.
      * unfold valid_in. rewrite Hperm. exact Hv.
      * intros [idx' i'] (H1 & H2 & H3 & H4). simpl in *.
        split; [lia |]. split; [rewrite H2, !length_insert; reflexivity |].
        split; [rewrite H3; exact Hperm |].
        intros k Hk0 Hk. rewrite H4 by lia.
        rewrite !list_lookup_insert_ne by lia. reflexivity.
      * intros f [-> | [-> Hf]]; [left; reflexivity | right; split; [reflexivity | lia]].
Qed.

Definition range (idx : list Z) (lo n : Z) : list Z :=
  take (Z.to_nat n) (drop (Z.to_nat lo) idx).

Definition tris_of (m : Mesh.t) (ks : list Z) : list Tri :=
  omap (fun k => Mesh.tri m !! Z.to_nat k) ks.

Definition box_step (acc : float3 * float3) (tr : Tri) : float3 * float3 :=
  (fminf3 (fminf3 (fminf3 (fst acc) (vertex0 tr)) (vertex1 tr)) (vertex2 tr),
   fmaxf3 (fmaxf3 (fmaxf3 (snd acc) (vertex0 tr)) (vertex1 tr)) (vertex2 tr)).

Definition fold_box (trs : list Tri) : float3 * float3 :=
  foldl box_step (float3_of F32.f1e30, float3_of F32.fm1e30) trs.

Lemma range_snoc idx lo k ti :
  0 <= lo -> 0 <= k -> idx !! Z.to_nat (lo + k) = Some ti ->
  range idx lo (k + 1) = range idx lo k ++ [ti].
Proof.
  intros Hlo Hk Hti. unfold range. rewrite Z_to_nat_succ by lia.
  apply take_S_r. rewrite lookup_drop. rewrite <- Hti. f_equal. lia.
Qed.

Lemma range_0 idx lo : range idx lo 0 = [].
Proof. reflexivity. Qed.

Lemma length_range idx lo n :
  0 <= lo -> 0 <= n -> lo + n <= Z.of_nat (length idx) ->
  length (range idx lo n) = Z.to_nat n.
Proof. intros. unfold range. rewrite length_take, length_drop. lia. Qed.

Lemma tri_of_Ok s k :
  0 <= k < Z.of_nat (length (BVH.triIdx s)) -> valid_idx s ->
  exists ti tr, BVH.tri_of s k = Ok tr /\ BVH.triIdx s !! Z.to_nat k = Some ti /\
                0 <= ti /\ Mesh.tri (BVH.mesh s) !! Z.to_nat ti = Some tr.
Proof.
  intros Hk Hv. unfold BVH.tri_of.
  destruct (rd_in_range TriIdxArr (BVH.triIdx s) k Hk) as (ti & -> & Hti).
  assert (Hvti : 0 <= ti < Mesh.triCount (BVH.mesh s))
    by (eapply (proj1 (Forall_lookup _ _) Hv); exact Hti).
  destruct (rd_in_range MeshTri (Mesh.tri (BVH.mesh s)) ti Hvti) as (tr & Hrd & Htr).
  exists ti, tr. simpl. auto with lia.
Qed.

Lemma sat_tri_of s k F (Q : Tri -> Prop) :
  0 <= k < Z.of_nat (length (BVH.triIdx s)) -> valid_idx s ->
  (forall ti tr, BVH.triIdx s !! Z.to_nat k = Some ti -> 0 <= ti ->
                 Mesh.tri (BVH.mesh s) !! Z.to_nat ti = Some tr -> Q tr) ->
  satisfies (BVH.tri_of s k) F Q.
Proof.
  intros Hk Hv HQ. destruct (tri_of_Ok s k Hk Hv) as (ti & tr & -> & ? & ? & ?).
  simpl. eauto.
Qed.

Lemma for_loop_total {St} (I : Z -> St -> Prop) n i (body : Z -> St -> result St) s X :
  I i s ->
  (forall k s, i <= k < i + Z.of_nat n -> I k s ->
               satisfies (body k s) (fun _ => False) (I (k + 1))) ->
  (forall a, I (i + Z.of_nat n) a -> a = X) ->
  for_loop n i body s = Ok X.
Proof.
  intros H0 Hstep Hend.
  destruct (sat_never _ _ (sat_for_loop I _ n i body s H0 Hstep)) as (a & -> & Ha).
  f_equal. auto.
Qed.

Lemma node_bounds_spec s lo n :
  0 <= lo -> 0 <= n -> lo + n <= Z.of_nat (length (BVH.triIdx s)) -> valid_idx s ->
  BVH.node_bounds s lo n
  = Ok (fold_box (tris_of (BVH.mesh s) (range (BVH.triIdx s) lo n))).
Proof.
  intros Hlo Hn Hlen Hv. unfold BVH.node_bounds.
  apply for_loop_total with
    (I := fun k acc => 0 <= k /\ acc = fold_box (tris_of (BVH.mesh s) (range (BVH.triIdx s) lo k))).
  - split; [lia | reflexivity].
  - intros k acc Hk (Hk0 & ->).
    destruct (fold_box _) as [mn mx] eqn:Efold.
    eapply sat_bind; [apply sat_tri_of with
      (Q := fun tr => exists ti, BVH.triIdx s !! Z.to_nat (lo + k) = Some ti /\
                      Mesh.tri (BVH.mesh s) !! Z.to_nat ti = Some tr);
      [lia | exact Hv | eauto] |].
    intros tr (ti & Hti & Htr). simpl.
    split; [lia |].
    rewrite (range_snoc _ _ _ ti) by (auto with lia).
    unfold tris_of. rewrite omap_app. simpl. rewrite Htr.
    unfold fold_box. rewrite foldl_app. simpl.
    unfold tris_of, fold_box in Efold. rewrite Efold. reflexivity.
  - intros a (_ & ->). do 3 f_equal. lia.
Qed.

Lemma UpdateNodeBounds_spec s i nd :
  0 <= i -> BVH.bvhNode s !! Z.to_nat i = Some nd ->
  0 <= BVHNode.leftFirst nd -> 0 <= BVHNode.triCount nd ->
  BVHNode.leftFirst nd + BVHNode.triCount nd <= Z.of_nat (length (BVH.triIdx s)) ->
  valid_idx s ->
  BVH.UpdateNodeBounds i s
  = Ok (BVH.set_bvhNode
          (<[Z.to_nat i :=
               let b := fold_box (tris_of (BVH.mesh s)
                          (range (BVH.triIdx s) (BVHNode.leftFirst nd) (BVHNode.triCount nd))) in
               BVHNode.set_bounds (fst b) (snd b) nd]> (BVH.bvhNode s)) s).
Proof.
  intros Hi Hnd Hlo Hn Hlen Hv. unfold BVH.UpdateNodeBounds.
  rewrite (proj2 (rd_Ok NodePool _ i nd)) by auto. simpl.
  rewrite node_bounds_spec by auto. simpl.
  destruct (fold_box _) as [mn mx]. simpl.
  pose proof (lookup_lt_Some _ _ _ Hnd) as Hlt.
  unfold wr. rewrite (proj2 (andb_true_iff _ _)); [reflexivity |].
  split; [apply Z.leb_le | apply Z.ltb_lt]; lia.
Qed.

Lemma wr_in_range {A} id (a : list A) i v :
  0 <= i < Z.of_nat (length a) -> wr id a i v = Ok (<[Z.to_nat i := v]> a).
Proof. intros Hi. apply wr_Ok. auto. Qed.

Lemma sat_rd_fault {A} id (a : list A) i :
  satisfies (rd id a i) (fun f => f = OutOfBounds id)
    (fun v => 0 <= i < Z.of_nat (length a) /\ a !! Z.to_nat i = Some v).
Proof.
  unfold rd. destruct (Z.ltb_spec i 0); simpl; [reflexivity |].
  destruct (a !! Z.to_nat i) eqn:E; simpl; [| reflexivity].
  apply lookup_lt_Some in E. split; [lia | reflexivity].
Qed.

(** ** [FindBestSplitPlane] can only fail on a bin index *)

Section SplitPlane.
  Variable s : BVH.t.
  Variable node : BVHNode.t.
  Hypothesis Hlo : 0 <= BVHNode.leftFirst node.
  Hypothesis Hlen :
    BVHNode.leftFirst node + BVHNode.triCount node <= Z.of_nat (length (BVH.triIdx s)).
  Hypothesis Hv : valid_idx s.

Lemma centroid_span_total a : exists r, BVH.centroid_span s node a = Ok r.
Proof.
  unfold BVH.centroid_span.
  match goal with |- context [for_loop ?n ?i ?body ?init] =>
    destruct (sat_never _ _ (sat_for_loop (fun k _ => 0 <= k) (fun _ => False) n i body init
      ltac:(cbv beta; lia) ltac:(
        intros k [mn mx] Hk Hk0; cbv beta in *;
        eapply sat_bind; [apply sat_tri_of with (Q := fun _ => True); [lia | exact Hv | auto] |];
        intros tr _; simpl; lia))) as (r & -> & _)
  end.
  eauto.
Qed.

Lemma fill_bins_sat a boundsMin scale :
  satisfies (BVH.fill_bins s node a boundsMin scale)
    (fun f => f = OutOfBounds BinArr) (fun bin => length bin = 8%nat).
Proof.
  unfold BVH.fill_bins.
  eapply sat_mono;
    [apply (sat_for_loop (fun k (bin : list Bin.t) => 0 <= k /\ length bin = 8%nat)
              (fun f => f = OutOfBounds BinArr)) | |].
  - split; [lia | reflexivity].
  - intros k bin Hk (Hk0 & Hbin).
    eapply sat_bind; [apply sat_tri_of with (Q := fun _ => True); [lia | exact Hv | auto] |].
    intros tr _. cbv zeta.
    eapply sat_bind; [apply sat_rd_fault |].
    intros b (Hi & _). apply sat_wr; [exact Hi |].
    split; [lia | rewrite length_insert; exact Hbin].
  - intros bin (_ & Hbin). exact Hbin.
  - auto.
Qed.

End SplitPlane.

Definition sweep_sized (w : sweep) : Prop :=
  length (leftArea w) = 7%nat /\ length (rightArea w) = 7%nat /\
  length (leftCount w) = 7%nat /\ length (rightCount w) = 7%nat.

Lemma gather_total bin :
  length bin = 8%nat -> exists w, BVH.gather bin = Ok w /\ sweep_sized w.
Proof.
  intros Hbin. unfold BVH.gather.
  match goal with |- context [for_loop ?n ?i ?body ?init] =>
    destruct (sat_never _ _ (sat_for_loop (fun k w => 0 <= k /\ sweep_sized w)
      (fun _ => False) n i body init
      ltac:(cbv beta; split; [lia | repeat split]) ltac:(
        intros k w Hk (Hk0 & H1 & H2 & H3 & H4); cbv beta in *;
        change (Z.of_nat (Z.to_nat (BINS - 1))) with 7 in Hk; unfold BINS;
        eapply sat_bind; [apply sat_rd with (Q := fun _ => True); [lia | auto] |];
        intros bl _; cbv zeta;
        rewrite (wr_in_range PlaneArr (leftCount w)) by lia; simpl;
        rewrite (wr_in_range PlaneArr (leftArea w)) by lia; simpl;
        eapply sat_bind; [apply sat_rd with (Q := fun _ => True); [lia | auto] |];
        intros br _; cbv zeta;
        rewrite (wr_in_range PlaneArr (rightCount w)) by lia; simpl;
        rewrite (wr_in_range PlaneArr (rightArea w)) by lia; simpl;
        split; [lia |]; unfold sweep_sized; simpl; rewrite !length_insert; auto)))
      as (w & -> & _ & Hw)
  end.
  eauto.
Qed.

Lemma pick_plane_total a boundsMin scale w best :
  sweep_sized w -> exists r, BVH.pick_plane a boundsMin scale w best = Ok r.
Proof.
  intros (H1 & H2 & H3 & H4). unfold BVH.pick_plane.
  match goal with |- context [for_loop ?n ?i ?body ?init] =>
    destruct (sat_never _ _ (sat_for_loop (fun k _ => 0 <= k)
      (fun _ => False) n i body init
      ltac:(cbv beta; lia) ltac:(
        intros k [bestCost pl] Hk Hk0; cbv beta in *;
        change (Z.of_nat (Z.to_nat (BINS - 1))) with 7 in Hk;
        eapply sat_bind; [apply sat_rd with (Q := fun _ => True); [lia | auto] |];
        intros lc _;
        eapply sat_bind; [apply sat_rd with (Q := fun _ => True); [lia | auto] |];
        intros la _;
        eapply sat_bind; [apply sat_rd with (Q := fun _ => True); [lia | auto] |];
        intros rc _;
        eapply sat_bind; [apply sat_rd with (Q := fun _ => True); [lia | auto] |];
        intros ra _; cbv zeta;
        match goal with |- context [if ?c then _ else _] => destruct c end; simpl; lia)))
      as (r & -> & _)
  end.
  eauto.
Qed.

Lemma FindBestSplitPlane_sat s node :
  0 <= BVHNode.leftFirst node ->
  BVHNode.leftFirst node + BVHNode.triCount node <= Z.of_nat (length (BVH.triIdx s)) ->
  valid_idx s ->
  satisfies (BVH.FindBestSplitPlane s node) (fun f => f = OutOfBounds BinArr) (fun _ => True).
Proof.
  intros Hlo Hlen Hv. unfold BVH.FindBestSplitPlane.
  eapply sat_mono;
    [apply (sat_for_loop (fun _ (_ : float * plane) => True) (fun f => f = OutOfBounds BinArr)) | |];
    auto.
  intros a best _ _.
  destruct (centroid_span_total s node Hlo Hlen Hv a) as ([boundsMin boundsMax] & ->). simpl.
  destruct (boundsMin =? boundsMax)%f32; [exact I |].
  eapply sat_bind; [apply fill_bins_sat; assumption |].
  intros bin Hbin. destruct (gather_total bin Hbin) as (w & -> & Hw).
  cbn [mbind result_bind].
  match goal with |- satisfies (BVH.pick_plane ?a ?b ?c ?w ?best) _ _ =>
    destruct (pick_plane_total a b c w best Hw) as (r & ->)
  end.
  exact I.
Qed.
(** ** Creating the children *)

Lemma upd_node_spec pool i f nd :
  0 <= i -> pool !! Z.to_nat i = Some nd ->
  upd_node pool i f = Ok (<[Z.to_nat i := f nd]> pool).
Proof.
  intros Hi Hnd. unfold upd_node.
  rewrite (proj2 (rd_Ok NodePool pool i nd)) by auto. simpl.
  apply wr_in_range. apply lookup_lt_Some in Hnd. lia.
Qed.

Lemma make_children_spec s idx i leftCount nd :
  0 <= idx < BVH.nodesUsed s ->
  BVH.nodesUsed s + 2 <= Z.of_nat (length (BVH.bvhNode s)) ->
  BVH.bvhNode s !! Z.to_nat idx = Some nd ->
  exists s' nl nr,
    BVH.make_children idx i leftCount s = Ok (s', BVH.nodesUsed s, BVH.nodesUsed s + 1) /\
    BVH.nodesUsed s' = BVH.nodesUsed s + 2 /\
    BVH.mesh s' = BVH.mesh s /\ BVH.triIdx s' = BVH.triIdx s /\
    length (BVH.bvhNode s') = length (BVH.bvhNode s) /\
    BVH.bvhNode s' !! Z.to_nat idx
      = Some (BVHNode.mk (BVHNode.aabbMin nd) (BVH.nodesUsed s) (BVHNode.aabbMax nd) 0) /\
    BVH.bvhNode s' !! Z.to_nat (BVH.nodesUsed s) = Some nl /\
    BVHNode.leftFirst nl = BVHNode.leftFirst nd /\ BVHNode.triCount nl = leftCount /\
    BVH.bvhNode s' !! Z.to_nat (BVH.nodesUsed s + 1) = Some nr /\
    BVHNode.leftFirst nr = i /\ BVHNode.triCount nr = BVHNode.triCount nd - leftCount /\
    (forall k, 0 <= k -> k <> idx -> k <> BVH.nodesUsed s -> k <> BVH.nodesUsed s + 1 ->
               BVH.bvhNode s' !! Z.to_nat k = BVH.bvhNode s !! Z.to_nat k).
Proof.
  intros Hidx Hcap Hnd.
  set (L := BVH.nodesUsed s) in *.
  destruct (lookup_lt_is_Some_2 (BVH.bvhNode s) (Z.to_nat L)) as [rl Hrl]; [lia |].
  destruct (lookup_lt_is_Some_2 (BVH.bvhNode s) (Z.to_nat (L + 1))) as [rr Hrr]; [lia |].
  unfold BVH.make_children. fold L.
  rewrite (proj2 (rd_Ok NodePool _ idx nd)) by (split; [lia | exact Hnd]).
  cbn [mbind result_bind].
  rewrite (upd_node_spec _ L _ rl) by (auto; lia). cbn [mbind result_bind].
  rewrite (upd_node_spec _ L _ (BVHNode.set_leftFirst (BVHNode.leftFirst nd) rl))
    by (try lia; rewrite list_lookup_insert_eq by (apply lookup_lt_Some in Hrl; lia); reflexivity).
  cbn [mbind result_bind]. rewrite list_insert_insert_eq.
  rewrite (upd_node_spec _ (L + 1) _ rr)
    by (try lia; rewrite list_lookup_insert_ne by lia; exact Hrr).
  cbn [mbind result_bind].
  rewrite (proj2 (rd_Ok NodePool _ idx nd))
    by (split; [lia | rewrite !list_lookup_insert_ne by lia; exact Hnd]).
  cbn [mbind result_bind].
  rewrite (upd_node_spec _ (L + 1) _ (BVHNode.set_leftFirst i rr))
    by (try lia; rewrite list_lookup_insert_eq
          by (rewrite length_insert; apply lookup_lt_Some in Hrr; lia); reflexivity).
  cbn [mbind result_bind]. rewrite list_insert_insert_eq.
  rewrite (upd_node_spec _ idx _ nd)
    by (try lia; rewrite !list_lookup_insert_ne by lia; exact Hnd).
  cbn [mbind result_bind].
  rewrite (upd_node_spec _ idx _ (BVHNode.set_leftFirst L nd))
    by (try lia; rewrite list_lookup_insert_eq
          by (rewrite !length_insert; apply lookup_lt_Some in Hnd; lia); reflexivity).
  cbn [mbind result_bind]. rewrite list_insert_insert_eq.
  eexists _, _, _. split; [reflexivity |].
  apply lookup_lt_Some in Hnd as Hnd'. apply lookup_lt_Some in Hrl as Hrl'.
  apply lookup_lt_Some in Hrr as Hrr'.
  cbn [BVH.nodesUsed BVH.mesh BVH.triIdx BVH.bvhNode BVH.set_bvhNode BVH.set_nodesUsed].
  split; [reflexivity |]. split; [reflexivity |]. split; [reflexivity |].
  split; [rewrite !length_insert; reflexivity |].
  split; [rewrite list_lookup_insert_eq by (rewrite !length_insert; lia); reflexivity |].
  split; [rewrite list_lookup_insert_ne by lia; rewrite list_lookup_insert_ne by lia;
          rewrite list_lookup_insert_eq by lia; reflexivity |].
  split; [reflexivity |]. split; [reflexivity |].
  split; [rewrite list_lookup_insert_ne by lia;
          rewrite list_lookup_insert_eq by (rewrite !length_insert; lia); reflexivity |].
  split; [reflexivity |]. split; [reflexivity |].
  intros k Hk0 Hk1 Hk2 Hk3. rewrite !list_lookup_insert_ne by lia. reflexivity.
Qed.

(** ** The shape of a built BLAS *)

(** A tree of node indices, each with the range [lo, lo + n) of [triIdx] it
    covers: the shape that [Subdivide] leaves in the pool. *)
Inductive ntree :=
  | TLeaf (i lo n : Z)
  | TNode (i lo n : Z) (l r : ntree).

Definition troot (t : ntree) : Z := match t with TLeaf i _ _ | TNode i _ _ _ _ => i end.
Definition tlo (t : ntree) : Z := match t with TLeaf _ lo _ | TNode _ lo _ _ _ => lo end.
Definition tn (t : ntree) : Z := match t with TLeaf _ _ n | TNode _ _ n _ _ => n end.

(** The number of proper descendants and of leaves. *)
Fixpoint desc (t : ntree) : Z :=
  match t with
  | TLeaf _ _ _ => 0
  | TNode _ _ _ l r => 2 + desc l + desc r
  end.

Fixpoint leaves (t : ntree) : Z :=
  match t with
  | TLeaf _ _ _ => 1
  | TNode _ _ _ l r => leaves l + leaves r
  end.

(** [shaped pool t a]: the pool holds the tree [t], whose root is a leaf over
    its range or an interior node with [triCount = 0] and children at [a] and
    [a + 1]; the descendants of the left child follow from [a + 2], those of
    the right child after them. *)
Fixpoint shaped (pool : list BVHNode.t) (t : ntree) (a : Z) : Prop :=
  match t with
  | TLeaf i lo n =>
      0 <= i /\ 0 <= lo /\ 0 < n /\
      exists nd, pool !! Z.to_nat i = Some nd /\
                 BVHNode.leftFirst nd = lo /\ BVHNode.triCount nd = n
  | TNode i lo n l r =>
      0 <= i < a /\ 0 <= lo /\
      (exists nd, pool !! Z.to_nat i = Some nd /\
                  BVHNode.leftFirst nd = a /\ BVHNode.triCount nd = 0) /\
      troot l = a /\ troot r = a + 1 /\
      tlo l = lo /\ tlo r = lo + tn l /\ n = tn l + tn r /\
      shaped pool l (a + 2) /\ shaped pool r (a + 2 + desc l)
  end.

Fixpoint tree_all (P : Z -> Z -> Z -> Prop) (t : ntree) : Prop :=
  match t with
  | TLeaf i lo n => P i lo n
  | TNode i lo n l r => P i lo n /\ tree_all P l /\ tree_all P r
  end.

Lemma shaped_facts pool t a :
  shaped pool t a ->
  0 < tn t /\ 0 <= tlo t /\ 1 <= leaves t <= tn t /\ desc t = 2 * (leaves t - 1) /\ 0 <= troot t.
Proof.
  revert a. induction t as [i lo n | i lo n l IHl r IHr]; intros a; simpl.
  - intros (? & ? & ? & _). lia.
  - intros (? & ? & _ & _ & _ & _ & _ & -> & Hl & Hr).
    specialize (IHl _ Hl). specialize (IHr _ Hr). lia.
Qed.

(** [shaped] only reads the root and the descendants. *)
Lemma shaped_ext pool pool' t : forall a,
  shaped pool t a ->
  (forall k, 0 <= k -> k = troot t \/ a <= k < a + desc t ->
             pool' !! Z.to_nat k = pool !! Z.to_nat k) ->
  shaped pool' t a.
Proof.
  induction t as [i lo n | i lo n l IHl r IHr]; intros a; simpl.
  - intros (Hi & Hlo & Hn & nd & Hnd & H1 & H2) Hext.
    repeat (split; [assumption |]). exists nd. rewrite Hext by auto. auto.
  - intros (Hi & Hlo & (nd & Hnd & H1 & H2) & Hrl & Hrr & Hll & Hlr & Hn & Hl & Hr) Hext.
    pose proof (shaped_facts _ _ _ Hl) as Fl. pose proof (shaped_facts _ _ _ Hr) as Fr.
    repeat (split; [assumption |]).
    split; [exists nd; rewrite Hext by (auto with lia); auto |].
    repeat (split; [assumption |]).
    split; [apply IHl | apply IHr]; auto; intros k Hk0 Hk; apply Hext; lia.
Qed.

(** Moving a property along the nodes of a tree: only the root, the indices
    of the descendants and ranges within the range of the tree matter. *)
Lemma tree_all_mono_shaped pool (P Q : Z -> Z -> Z -> Prop) t : forall a,
  shaped pool t a ->
  (forall i lo n, i = troot t \/ a <= i < a + desc t ->
                  0 <= i -> tlo t <= lo -> lo + n <= tlo t + tn t -> 0 < n ->
                  P i lo n -> Q i lo n) ->
  tree_all P t -> tree_all Q t.
Proof.
  induction t as [i lo n | i lo n l IHl r IHr]; intros a; simpl.
  - intros (Hi & Hlo & Hn & _) HPQ HP. apply HPQ; auto with lia.
  - intros (Hi & Hlo & _ & Hrl & Hrr & Hll & Hlr & Hn & Hl & Hr) HPQ (HP & HPl & HPr).
    pose proof (shaped_facts _ _ _ Hl) as Fl. pose proof (shaped_facts _ _ _ Hr) as Fr.
    split; [apply HPQ; auto with lia |].
    split; [eapply IHl | eapply IHr]; eauto; intros; apply HPQ; auto; lia.
Qed.

Lemma tree_all_mono (P Q : Z -> Z -> Z -> Prop) t :
  (forall i lo n, P i lo n -> Q i lo n) -> tree_all P t -> tree_all Q t.
Proof. intros HPQ. induction t; simpl; intuition. Qed.

(** ** Ranges of the index array *)

Lemma range_ext idx idx' lo n :
  0 <= lo -> 0 <= n ->
  length idx' = length idx ->
  (forall k, lo <= k < lo + n -> idx' !! Z.to_nat k = idx !! Z.to_nat k) ->
  range idx' lo n = range idx lo n.
Proof.
  intros Hlo Hn Hlen H. unfold range. apply list_eq. intros j.
  destruct (decide (j < Z.to_nat n)%nat) as [Hj | Hj].
  - rewrite !lookup_take_lt, !lookup_drop by lia.
    replace (Z.to_nat lo + j)%nat with (Z.to_nat (lo + Z.of_nat j)) by lia.
    apply H. lia.
  - rewrite !lookup_take_ge by lia. reflexivity.
Qed.

Lemma range_split idx lo n :
  0 <= lo -> 0 <= n -> lo + n <= Z.of_nat (length idx) ->
  idx = take (Z.to_nat lo) idx ++ range idx lo n ++ drop (Z.to_nat (lo + n)) idx.
Proof.
  intros Hlo Hn Hlen. unfold range.
  rewrite <- (take_drop (Z.to_nat lo) idx) at 1. f_equal.
  rewrite <- (take_drop (Z.to_nat n) (drop (Z.to_nat lo) idx)) at 1. f_equal.
  rewrite drop_drop. f_equal. lia.
Qed.

Lemma range_perm idx idx' lo n :
  0 <= lo -> 0 <= n -> lo + n <= Z.of_nat (length idx) ->
  length idx' = length idx -> idx' ≡ₚ idx ->
  (forall k, 0 <= k -> k < lo \/ lo + n <= k -> idx' !! Z.to_nat k = idx !! Z.to_nat k) ->
  range idx' lo n ≡ₚ range idx lo n.
Proof.
  intros Hlo Hn Hlen Hlen' Hperm Hout.
  assert (Htake : take (Z.to_nat lo) idx' = take (Z.to_nat lo) idx).
  { apply list_eq. intros j. destruct (decide (j < Z.to_nat lo)%nat).
    - rewrite !lookup_take_lt by lia.
      replace j with (Z.to_nat (Z.of_nat j)) by lia. apply Hout; lia.
    - rewrite !lookup_take_ge by lia. reflexivity. }
  assert (Hdrop : drop (Z.to_nat (lo + n)) idx' = drop (Z.to_nat (lo + n)) idx).
  { apply list_eq. intros j. rewrite !lookup_drop.
    replace (Z.to_nat (lo + n) + j)%nat with (Z.to_nat (lo + n + Z.of_nat j)) by lia.
    apply Hout; lia. }
  rewrite (range_split idx lo n), (range_split idx' lo n) in Hperm by lia.
  rewrite Htake, Hdrop in Hperm.
  apply Permutation_app_inv_l in Hperm. apply Permutation_app_inv_r in Hperm. exact Hperm.
Qed.

Lemma range_app idx lo k n :
  0 <= lo -> 0 <= k <= n ->
  range idx lo n = range idx lo k ++ range idx (lo + k) (n - k).
Proof.
  intros Hlo Hk. unfold range.
  replace (Z.to_nat n) with (Z.to_nat k + Z.to_nat (n - k))%nat by lia.
  rewrite <- take_take_drop. f_equal. rewrite drop_drop. do 2 f_equal. lia.
Qed.

(** ** The boxes of a built BLAS *)

(** The box of node [i] is the one [UpdateNodeBounds] computes from the
    triangles of [triIdx[lo .. lo + n)], taken in some order. *)
Definition boxed (s : BVH.t) (i lo n : Z) : Prop :=
  exists nd ks,
    BVH.bvhNode s !! Z.to_nat i = Some nd /\
    ks ≡ₚ range (BVH.triIdx s) lo n /\
    (BVHNode.aabbMin nd, BVHNode.aabbMax nd) = fold_box (tris_of (BVH.mesh s) ks).
(** ** One step of [Subdivide] *)

(** What [Subdivide] requires of the node it is called on: a leaf over
    [lo, lo + n) below the watermark, with room in the pool for the nodes
    that the subdivision of [n] triangles can take. *)
Definition sub_pre (s : BVH.t) (idx lo n : Z) : Prop :=
  0 <= idx < BVH.nodesUsed s /\ 0 <= lo /\ 0 < n /\
  lo + n <= Z.of_nat (length (BVH.triIdx s)) /\
  BVH.nodesUsed s + 2 * (n - 1) <= Z.of_nat (length (BVH.bvhNode s)) /\
  valid_idx s /\
  (exists nd, BVH.bvhNode s !! Z.to_nat idx = Some nd /\
              BVHNode.leftFirst nd = lo /\ BVHNode.triCount nd = n).

(** The faults of a subdivision: a bin index off the bins, the use of a plane
    that was never set, and the lack of fuel when it is below the size. *)
Definition sub_fault (fuel : nat) (n : Z) (f : fault) : Prop :=
  f = OutOfBounds BinArr \/ f = Uninitialised \/ (f = OutOfFuel /\ Z.of_nat fuel < n).

Definition exact_box (s : BVH.t) (nd : BVHNode.t) (lo n : Z) : Prop :=
  (BVHNode.aabbMin nd, BVHNode.aabbMax nd)
  = fold_box (tris_of (BVH.mesh s) (range (BVH.triIdx s) lo n)).

Definition split_post (s : BVH.t) (idx lo n : Z) (r : BVH.t * option (Z * Z)) : Prop :=
  let s' := fst r in
  BVH.mesh s' = BVH.mesh s /\
  length (BVH.bvhNode s') = length (BVH.bvhNode s) /\
  length (BVH.triIdx s') = length (BVH.triIdx s) /\
  BVH.triIdx s' ≡ₚ BVH.triIdx s /\
  (forall k, 0 <= k -> k < lo \/ lo + n <= k ->
             BVH.triIdx s' !! Z.to_nat k = BVH.triIdx s !! Z.to_nat k) /\
  match snd r with
  | None => BVH.bvhNode s' = BVH.bvhNode s /\ BVH.nodesUsed s' = BVH.nodesUsed s
  | Some (l, r) =>
      l = BVH.nodesUsed s /\ r = BVH.nodesUsed s + 1 /\
      BVH.nodesUsed s' = BVH.nodesUsed s + 2 /\
      exists k nd nl nr,
        0 < k < n /\
        BVH.bvhNode s !! Z.to_nat idx = Some nd /\
        BVH.bvhNode s' !! Z.to_nat idx
          = Some (BVHNode.mk (BVHNode.aabbMin nd) l (BVHNode.aabbMax nd) 0) /\
        BVH.bvhNode s' !! Z.to_nat l = Some nl /\
        BVHNode.leftFirst nl = lo /\ BVHNode.triCount nl = k /\ exact_box s' nl lo k /\
        BVH.bvhNode s' !! Z.to_nat r = Some nr /\
        BVHNode.leftFirst nr = lo + k /\ BVHNode.triCount nr = n - k /\
        exact_box s' nr (lo + k) (n - k) /\
        (forall j, 0 <= j -> j <> idx -> j <> l -> j <> r ->
                   BVH.bvhNode s' !! Z.to_nat j = BVH.bvhNode s !! Z.to_nat j)
  end.

Lemma valid_idx_perm s s' :
  BVH.mesh s' = BVH.mesh s -> BVH.triIdx s' ≡ₚ BVH.triIdx s -> valid_idx s -> valid_idx s'.
Proof. unfold valid_idx. intros -> ->. auto. Qed.

Lemma split_node_spec fuel s idx lo n :
  sub_pre s idx lo n ->
  satisfies (BVH.split_node fuel idx s) (sub_fault fuel n) (split_post s idx lo n).
Proof.
  intros (Hidx & Hlo & Hn & Hlen & Hcap & Hv & nd & Hnd & Hnlo & Hnn).
  unfold BVH.split_node.
  rewrite (proj2 (rd_Ok NodePool _ idx nd)) by (split; [lia | exact Hnd]).
  cbn [mbind result_bind].
  eapply sat_bind.
  { eapply sat_mono; [apply (FindBestSplitPlane_sat s nd); [lia | lia | exact Hv] | |].
    - intros a _. exact I.
    - intros f ->. left. reflexivity. }
  intros [splitCost pl] _.
  destruct (BVHNode.CalculateNodeCost nd <=? splitCost)%f32.
  { unfold split_post. simpl. repeat split; auto. }
  rewrite Hnlo, Hnn.
  eapply sat_bind.
  { eapply sat_mono; [apply (partition_sat (BVH.mesh s) pl fuel (BVH.triIdx s) lo (lo + n - 1));
                      [lia | lia | lia | exact Hv] | |].
    - intros r Hr. exact Hr.
    - intros f [-> | [-> Hf]]; [right; left; reflexivity | right; right; split; [reflexivity | lia]]. }
  intros [idx' i'] (Hi' & Hlen' & Hperm & Hout). simpl in Hi', Hlen', Hperm, Hout.
  set (s1 := BVH.set_triIdx idx' s).
  assert (Hv1 : valid_idx s1) by (apply (valid_idx_perm s); auto).
  assert (Hout' : forall k, 0 <= k -> k < lo \/ lo + n <= k ->
                            idx' !! Z.to_nat k = BVH.triIdx s !! Z.to_nat k)
    by (intros k Hk0 Hk; apply Hout; lia).
  destruct ((i' - lo =? 0) || (i' - lo =? n)) eqn:Eabort.
  { unfold split_post. simpl. repeat split; auto. }
  apply orb_false_iff in Eabort as [E0 En].
  apply Z.eqb_neq in E0. apply Z.eqb_neq in En.
  destruct (make_children_spec s1 idx i' (i' - lo) nd)
    as (s2 & nl & nr & -> & Hnu2 & Hm2 & Hi2 & Hl2 & Hidx2 & Hnl & Hnl1 & Hnl2 &
        Hnr & Hnr1 & Hnr2 & Hfr2); [exact Hidx | simpl; lia | exact Hnd |].
  cbn [mbind result_bind]. simpl in Hnu2, Hm2, Hi2, Hl2, Hidx2, Hnl, Hnr, Hfr2.
  assert (Hv2 : valid_idx s2) by (apply (valid_idx_perm s1); [| rewrite Hi2 |]; auto).
  change (BVH.nodesUsed s1) with (BVH.nodesUsed s).
  set (L := BVH.nodesUsed s) in *.
  rewrite (UpdateNodeBounds_spec s2 L nl)
    by (try exact Hnl; try exact Hv2; rewrite ?Hi2; simpl; lia).
  cbn [mbind result_bind].
  match goal with |- context [BVH.UpdateNodeBounds _ ?x] => set (s3 := x) end.
  assert (Hv3 : valid_idx s3) by (apply (valid_idx_perm s2); auto).
  apply lookup_lt_Some in Hnl as HLlt.
  rewrite (UpdateNodeBounds_spec s3 (L + 1) nr);
    [| lia | simpl; rewrite list_lookup_insert_ne by lia; exact Hnr
     | lia | lia | simpl; rewrite Hi2; simpl; lia | exact Hv3].
  cbn [mbind result_bind].
  unfold satisfies, split_post. cbn [fst snd]. subst s3.
  cbn [BVH.mesh BVH.triIdx BVH.bvhNode BVH.nodesUsed BVH.set_bvhNode].
  rewrite Hm2, Hi2, !length_insert, Hl2, Hnu2. simpl.
  split; [reflexivity |]. split; [reflexivity |]. split; [exact Hlen' |].
  split; [exact Hperm |]. split; [exact Hout' |].
  split; [reflexivity |]. split; [reflexivity |]. split; [reflexivity |].
  apply lookup_lt_Some in Hnr as HRlt.
  eexists (i' - lo), nd, _, _.
  split; [lia |]. split; [exact Hnd |].
  split; [rewrite !list_lookup_insert_ne by lia; exact Hidx2 |].
  split; [rewrite list_lookup_insert_ne by lia;
          rewrite list_lookup_insert_eq by lia; reflexivity |].
  split; [simpl; congruence |]. split; [simpl; exact Hnl2 |].
  split.
  { unfold exact_box. simpl. rewrite Hm2, Hi2, Hnl1, Hnl2, Hnlo.
    symmetry. apply surjective_pairing. }
  split; [rewrite list_lookup_insert_eq by (rewrite length_insert; lia); reflexivity |].
  split; [simpl; lia |]. split; [simpl; lia |].
  split.
  { unfold exact_box. simpl. rewrite Hm2, Hi2, Hnr1, Hnr2, Hnn.
    replace (lo + (i' - lo)) with i' by lia.
    symmetry. apply surjective_pairing. }
  intros j Hj0 Hj1 Hj2 Hj3. rewrite !list_lookup_insert_ne by lia.
  apply Hfr2; assumption.
Qed.
(** ** [Subdivide] builds a tree *)

Definition sub_post (s : BVH.t) (idx lo n : Z) (s' : BVH.t) : Prop :=
  BVH.mesh s' = BVH.mesh s /\
  length (BVH.bvhNode s') = length (BVH.bvhNode s) /\
  length (BVH.triIdx s') = length (BVH.triIdx s) /\
  BVH.triIdx s' ≡ₚ BVH.triIdx s /\
  (forall k, 0 <= k -> k < lo \/ lo + n <= k ->
             BVH.triIdx s' !! Z.to_nat k = BVH.triIdx s !! Z.to_nat k) /\
  (forall k, 0 <= k -> (k < BVH.nodesUsed s /\ k <> idx) \/ BVH.nodesUsed s' <= k ->
             BVH.bvhNode s' !! Z.to_nat k = BVH.bvhNode s !! Z.to_nat k) /\
  exists t,
    troot t = idx /\ tlo t = lo /\ tn t = n /\
    shaped (BVH.bvhNode s') t (BVH.nodesUsed s) /\
    BVH.nodesUsed s' = BVH.nodesUsed s + desc t /\
    tree_all (boxed s') t.

Lemma boxed_transfer s s' i lo n :
  0 <= lo -> 0 <= n -> lo + n <= Z.of_nat (length (BVH.triIdx s)) ->
  BVH.mesh s' = BVH.mesh s ->
  length (BVH.triIdx s') = length (BVH.triIdx s) ->
  BVH.triIdx s' ≡ₚ BVH.triIdx s ->
  (forall k, 0 <= k -> k < lo \/ lo + n <= k ->
             BVH.triIdx s' !! Z.to_nat k = BVH.triIdx s !! Z.to_nat k) ->
  (forall nd, BVH.bvhNode s !! Z.to_nat i = Some nd ->
     exists nd', BVH.bvhNode s' !! Z.to_nat i = Some nd' /\
                 BVHNode.aabbMin nd' = BVHNode.aabbMin nd /\
                 BVHNode.aabbMax nd' = BVHNode.aabbMax nd) ->
  boxed s i lo n -> boxed s' i lo n.
Proof.
  intros Hlo Hn Hlen Hm Hlen' Hperm Hout Hnode (nd & ks & Hnd & Hks & Hbox).
  destruct (Hnode nd Hnd) as (nd' & Hnd' & H1 & H2).
  exists nd', ks. split; [exact Hnd' |]. split.
  - rewrite Hks. symmetry. apply range_perm; auto.
  - rewrite H1, H2, Hm. exact Hbox.
Qed.

Lemma boxed_ext s s' i lo n :
  BVH.mesh s' = BVH.mesh s ->
  range (BVH.triIdx s') lo n = range (BVH.triIdx s) lo n ->
  BVH.bvhNode s' !! Z.to_nat i = BVH.bvhNode s !! Z.to_nat i ->
  boxed s i lo n -> boxed s' i lo n.
Proof.
  intros Hm Hr Hnode (nd & ks & Hnd & Hks & Hbox).
  exists nd, ks. rewrite Hnode, Hr, Hm. auto.
Qed.

Lemma Subdivide_spec fuel : forall s idx lo n,
  sub_pre s idx lo n -> boxed s idx lo n ->
  satisfies (BVH.Subdivide fuel idx s) (sub_fault fuel n) (sub_post s idx lo n).
Proof.
  induction fuel as [| fuel IH]; intros s idx lo n Hpre Hbox.
  { simpl. right. right. destruct Hpre as (_ & _ & Hn & _). split; [reflexivity | lia]. }
  pose proof Hpre as (Hidx & Hlo & Hn & Hlen & Hcap & Hv & nd0 & Hnd0 & Hnd0lo & Hnd0n).
  cbn [BVH.Subdivide].
  eapply sat_bind; [apply (split_node_spec (S fuel) s idx lo n Hpre) |].
  intros [s1 [[l r] |]] (Hm1 & Hpl1 & Hil1 & Hperm1 & Hout1 & Hch); cbn [fst snd] in *.
  2: { (* the node stays a leaf *)
    destruct Hch as (Hpool1 & Hnu1). unfold satisfies, sub_post.
    repeat (split; [assumption |]).
    split; [intros; rewrite Hpool1; reflexivity |].
    exists (TLeaf idx lo n). simpl. rewrite Hpool1, Hnu1.
    repeat (split; [reflexivity || lia |]).
    split; [repeat (split; [lia |]); exists nd0; auto |].
    split; [lia |].
    apply (boxed_transfer s); auto; [lia |].
    intros nd Hnd. exists nd. rewrite Hpool1. auto. }
  destruct Hch as (-> & -> & Hnu1 & k & nd & nl & nr & Hk & Hnd & Hidx1 & Hnl & Hnl1 & Hnl2 &
                   Hbl & Hnr & Hnr1 & Hnr2 & Hbr & Hfr1).
  set (L := BVH.nodesUsed s) in *.
  assert (Hv1 : valid_idx s1) by (apply (valid_idx_perm s); auto).
  (* the left child *)
  eapply sat_bind.
  { eapply sat_mono; [apply (IH s1 L lo k) | intros a Ha; exact Ha |].
    - unfold sub_pre. rewrite Hnu1, Hpl1, Hil1.
      repeat (split; [lia || assumption |]). exists nl. auto.
    - exists nl, (range (BVH.triIdx s1) lo k). auto.
    - intros f [-> | [-> | [-> Hf]]]; [left | right; left | right; right; split];
        try reflexivity. lia. }
  intros s2 (Hm2 & Hpl2 & Hil2 & Hperm2 & Hout2 & Hfr2 & tl & Htl1 & Htl2 & Htl3 & Hsh2 & Hnu2 & Hall2).
  rewrite Hnu1 in Hsh2, Hnu2, Hfr2.
  pose proof (shaped_facts _ _ _ Hsh2) as Fl. rewrite Htl3 in Fl.
  assert (Hv2 : valid_idx s2) by (apply (valid_idx_perm s1); auto).
  (* the right child *)
  assert (Hnr' : BVH.bvhNode s2 !! Z.to_nat (L + 1) = Some nr)
    by (rewrite Hfr2 by lia; exact Hnr).
  eapply sat_mono; [apply (IH s2 (L + 1) (lo + k) (n - k)) | |].
  - unfold sub_pre. rewrite Hnu2, Hpl2, Hil2, Hpl1, Hil1.
    repeat (split; [lia || assumption |]). exists nr. auto.
  - exists nr, (range (BVH.triIdx s2) (lo + k) (n - k)).
    split; [exact Hnr' |]. split; [reflexivity |].
    unfold exact_box in Hbr. rewrite Hbr, Hm2. do 2 f_equal.
    symmetry. apply range_ext; [lia | lia | exact Hil2 |].
    intros j Hj. apply Hout2; lia.
  - intros s3 (Hm3 & Hpl3 & Hil3 & Hperm3 & Hout3 & Hfr3 & tr & Htr1 & Htr2 & Htr3 & Hsh3 & Hnu3 & Hall3).
    rewrite Hnu2 in Hsh3, Hnu3, Hfr3.
    pose proof (shaped_facts _ _ _ Hsh3) as Fr. rewrite Htr3 in Fr.
    unfold sub_post.
    split; [congruence |]. split; [congruence |]. split; [congruence |].
    split; [rewrite Hperm3, Hperm2; exact Hperm1 |].
    split.
    { intros j Hj0 Hj. rewrite Hout3, Hout2, Hout1 by lia. reflexivity. }
    split.
    { intros j Hj0 Hj. rewrite Hfr3, Hfr2, Hfr1 by lia. reflexivity. }
    exists (TNode idx lo n tl tr). cbn [troot tlo tn desc].
    split; [reflexivity |]. split; [reflexivity |]. split; [reflexivity |].
    split.
    { cbn [shaped]. fold L.
      split; [lia |]. split; [lia |].
      split.
      { eexists. rewrite Hfr3, Hfr2 by lia. split; [exact Hidx1 |]. auto. }
      repeat (split; [assumption || lia |]).
      split; [| exact Hsh3].
      apply (shaped_ext (BVH.bvhNode s2)); [exact Hsh2 |].
      intros j Hj0 Hj. apply Hfr3; lia. }
    split; [fold L; lia |].
    cbn [tree_all]. split; [| split; [| exact Hall3]].
    + destruct Hbox as (ndb & ks & Hndb & Hks & Hfold).
      assert (ndb = nd) by congruence. subst ndb.
      eexists _, ks. split; [rewrite Hfr3, Hfr2 by lia; exact Hidx1 |].
      split.
      * rewrite Hks. symmetry. apply range_perm; [lia | lia | lia | congruence | |].
        -- rewrite Hperm3, Hperm2; exact Hperm1.
        -- intros j Hj0 Hj. rewrite Hout3, Hout2, Hout1 by lia. reflexivity.
      * cbn [BVHNode.aabbMin BVHNode.aabbMax]. rewrite Hfold. congruence.
    + eapply (tree_all_mono_shaped _ (boxed s2)); [exact Hsh2 | | exact Hall2].
      intros i lo' n' Hi Hi0 Hlo' Hn' Hn'0. rewrite Htl1, Htl2, Htl3 in *.
      apply boxed_ext; [exact Hm3 | | apply Hfr3; lia].
      apply range_ext; [lia | lia | exact Hil3 |].
      intros j Hj. apply Hout3; lia.
  - intros f [-> | [-> | [-> Hf]]]; [left | right; left | right; right; split];
      try reflexivity. lia.
Qed.
(** ** [Build] *)

(** The arrays have the sizes the constructor gives them. *)
Definition allocated (s : BVH.t) : Prop :=
  length (BVH.triIdx s) = length (Mesh.tri (BVH.mesh s)) /\
  Z.of_nat (length (BVH.bvhNode s)) = Mesh.triCount (BVH.mesh s) * 2.

Lemma alloc_allocated m rawNode rawIdx rawUsed :
  allocated (BVH.alloc m rawNode rawIdx rawUsed).
Proof.
  unfold allocated, BVH.alloc, Mesh.triCount. simpl.
  rewrite !length_map, !length_seq. lia.
Qed.

(** A well-formed BLAS: the pool holds a tree rooted at node 0 that covers
    the whole of [triIdx], with the descendants in the slots 2 to
    [nodesUsed - 1], and every box is the one of the triangles of its node. *)
Definition wf_blas (s : BVH.t) : Prop :=
  allocated s /\ valid_idx s /\
  exists t,
    troot t = 0 /\ tlo t = 0 /\ tn t = Mesh.triCount (BVH.mesh s) /\
    shaped (BVH.bvhNode s) t 2 /\
    BVH.nodesUsed s = 2 + desc t /\
    tree_all (boxed s) t.

Definition built (s0 : BVH.t) (s : BVH.t) : Prop :=
  wf_blas s /\
  Mesh.tri (BVH.mesh s) = map with_centroid (Mesh.tri (BVH.mesh s0)) /\
  BVH.triIdx s ≡ₚ seqZ 0 (Mesh.triCount (BVH.mesh s0)) /\
  (forall k, k = 1 \/ BVH.nodesUsed s <= k ->
             BVH.bvhNode s !! Z.to_nat k = BVH.bvhNode s0 !! Z.to_nat k).

Lemma Build_spec fuel s :
  allocated s -> 1 <= Mesh.triCount (BVH.mesh s) ->
  satisfies (BVH.Build fuel s) (sub_fault fuel (Mesh.triCount (BVH.mesh s))) (built s).
Proof.
  intros [Hal1 Hal2] HT. unfold BVH.Build.
  rewrite (Build_init_spec s Hal1). cbn [mbind result_bind BVH.bvhNode BVH.mesh].
  remember (Mesh.triCount (BVH.mesh s)) as T eqn:ET.
  destruct (lookup_lt_is_Some_2 (BVH.bvhNode s) (Z.to_nat 0)) as [r0 Hr0]; [lia |].
  rewrite (upd_node_spec _ 0 _ r0) by (auto; lia). cbn [mbind result_bind].
  rewrite (upd_node_spec _ 0 _ (BVHNode.set_leftFirst 0 r0))
    by (try lia; rewrite list_lookup_insert_eq by (apply lookup_lt_Some in Hr0; lia);
        reflexivity).
  cbn [mbind result_bind]. rewrite list_insert_insert_eq.
  assert (HT' : Mesh.triCount {| Mesh.tri := map with_centroid (Mesh.tri (BVH.mesh s)) |} = T)
    by (rewrite ET; unfold Mesh.triCount; simpl; rewrite length_map; reflexivity).
  rewrite HT'.
  set (n0 := BVHNode.set_triCount T (BVHNode.set_leftFirst 0 r0)).
  match goal with |- context [BVH.UpdateNodeBounds 0 ?x] => set (s1 := x) end.
  assert (Hv1 : valid_idx s1).
  { unfold valid_idx, s1.
    cbn [BVH.mesh BVH.triIdx BVH.set_bvhNode BVH.bvhNode BVH.nodesUsed].
    rewrite HT'. apply Forall_forall.
    intros k Hk. apply elem_of_seqZ in Hk. lia. }
  assert (Hlen1 : Z.of_nat (length (BVH.triIdx s1)) = T)
    by (unfold s1; simpl; rewrite length_seqZ; lia).
  apply lookup_lt_Some in Hr0 as Hr0'.
  rewrite (UpdateNodeBounds_spec s1 0 n0);
    [| lia | unfold s1; simpl; rewrite list_lookup_insert_eq by lia; reflexivity
     | simpl; lia | simpl; lia | rewrite Hlen1; simpl; lia | exact Hv1].
  cbn [mbind result_bind].
  match goal with |- context [BVH.Subdivide fuel 0 ?x] => set (s2 := x) end.
  assert (Hn2 : BVH.bvhNode s2 !! Z.to_nat 0
                = Some (let b := fold_box (tris_of (BVH.mesh s1) (range (BVH.triIdx s1) 0 T)) in
                        BVHNode.set_bounds (fst b) (snd b) n0))
    by (unfold s2; simpl; rewrite list_lookup_insert_eq
          by (rewrite length_insert; lia); reflexivity).
  eapply sat_mono; [apply (Subdivide_spec fuel s2 0 0 T) | |].
  - unfold sub_pre, s2, s1. simpl. rewrite !length_insert, length_seqZ.
    repeat (split; [lia || assumption |]).
    eexists. split; [exact Hn2 |]. auto.
  - eexists _, (range (BVH.triIdx s2) 0 T). split; [exact Hn2 |].
    split; [reflexivity |]. simpl. symmetry. apply surjective_pairing.
  - intros s3 (Hm3 & Hpl3 & Hil3 & Hperm3 & Hout3 & Hfr3 & t & Ht1 & Ht2 & Ht3 & Hsh & Hnu & Hall).
    assert (Hm3' : Mesh.triCount (BVH.mesh s3) = T) by (rewrite Hm3; exact HT').
    change (BVH.nodesUsed s2) with 2 in Hsh, Hnu, Hfr3.
    pose proof (shaped_facts _ _ _ Hsh) as Ft.
    unfold built, wf_blas, allocated.
    split; [split; [| split] |].
    + rewrite Hil3, Hpl3, Hm3', Hm3. unfold s2, s1.
      cbn [BVH.mesh BVH.triIdx BVH.set_bvhNode BVH.bvhNode BVH.nodesUsed Mesh.tri].
      rewrite !length_insert, length_seqZ, length_map.
      unfold Mesh.triCount in ET. split; lia.
    + apply (valid_idx_perm s2); [exact Hm3 | exact Hperm3 | exact Hv1].
    + exists t. rewrite Hm3'. repeat (split; [assumption |]). assumption.
    + rewrite Hm3. split; [reflexivity |].
      split; [rewrite Hperm3, <- ET; reflexivity |].
      intros k Hk. destruct (decide (0 <= k)) as [Hk0 | Hk0].
      * rewrite Hfr3 by lia. unfold s2, s1.
        cbn [BVH.mesh BVH.triIdx BVH.set_bvhNode BVH.bvhNode BVH.nodesUsed Mesh.tri].
        rewrite !list_lookup_insert_ne by lia. reflexivity.
      * lia.
  - auto.
Qed.
(** ** The node pool is never overrun, and [Subdivide] terminates *)

Lemma Build_empty fuel s :
  BVH.bvhNode s = [] -> length (BVH.triIdx s) = length (Mesh.tri (BVH.mesh s)) ->
  BVH.Build fuel s = Fault (OutOfBounds NodePool).
Proof.
  intros Hpool Hlen. unfold BVH.Build. rewrite (Build_init_spec s Hlen).
  cbn [mbind result_bind BVH.bvhNode]. rewrite Hpool. reflexivity.
Qed.

Lemma alloc_empty m rawNode rawIdx rawUsed :
  Mesh.triCount m = 0 -> BVH.bvhNode (BVH.alloc m rawNode rawIdx rawUsed) = [].
Proof. intros H. unfold BVH.alloc. simpl. rewrite H. reflexivity. Qed.

(** The result of [Build] on a freshly constructed BLAS. *)
Lemma Build_alloc_spec m rawNode rawIdx rawUsed fuel :
  1 <= Mesh.triCount m ->
  satisfies (BVH.Build fuel (BVH.alloc m rawNode rawIdx rawUsed))
    (sub_fault fuel (Mesh.triCount m))
    (built (BVH.alloc m rawNode rawIdx rawUsed)).
Proof.
  intros HT. apply (Build_spec fuel (BVH.alloc m rawNode rawIdx rawUsed)).
  - apply alloc_allocated.
  - exact HT.
Qed.

Lemma Build_Ok_built m rawNode rawIdx rawUsed fuel b :
  BVH.Build fuel (BVH.alloc m rawNode rawIdx rawUsed) = Ok b ->
  1 <= Mesh.triCount m /\ built (BVH.alloc m rawNode rawIdx rawUsed) b.
Proof.
  intros HB. destruct (decide (1 <= Mesh.triCount m)) as [HT | HT].
  - split; [exact HT |]. exact (sat_inv _ _ _ _ (Build_alloc_spec m _ _ _ fuel HT) HB).
  - rewrite Build_empty in HB; [discriminate | |].
    + apply alloc_empty. unfold Mesh.triCount in *. lia.
    + apply alloc_allocated.
Qed.

(** C9: for every mesh with at least one triangle, [Build] on the freshly
    constructed BLAS never accesses the node pool outside its [2 * triCount]
    slots, whatever the fuel; and when it completes, [nodesUsed] lies between 2
    and [2 * triCount], slot 0 is the root of the tree, slot 1 still holds what
    the allocation left there, and the other nodes of the tree fill the slots
    from 2 to [nodesUsed - 1], the two children of a node side by side. *)
Theorem Build_within_pool (m : Mesh.t) rawNode rawIdx rawUsed (fuel : nat) :
  1 <= Mesh.triCount m ->
  BVH.Build fuel (BVH.alloc m rawNode rawIdx rawUsed) <> Fault (OutOfBounds NodePool) /\
  forall b, BVH.Build fuel (BVH.alloc m rawNode rawIdx rawUsed) = Ok b ->
    Z.of_nat (length (BVH.bvhNode b)) = 2 * Mesh.triCount m /\
    2 <= BVH.nodesUsed b <= 2 * Mesh.triCount m /\
    BVH.bvhNode b !! 1%nat = Some (rawNode 1%nat) /\
    exists t, troot t = 0 /\ shaped (BVH.bvhNode b) t 2 /\ BVH.nodesUsed b = 2 + desc t.
Proof.
  intros HT. pose proof (Build_alloc_spec m rawNode rawIdx rawUsed fuel HT) as H.
  split.
  - intros E. rewrite E in H. destruct H as [H | [H | [H _]]]; discriminate.
  - intros b E. rewrite E in H.
    destruct H as (([Hal1 Hal2] & Hv & t & Ht1 & Ht2 & Ht3 & Hsh & Hnu & Hall) & Hm & Hperm & Hfr).
    assert (HTb : Mesh.triCount (BVH.mesh b) = Mesh.triCount m).
    { unfold Mesh.triCount. rewrite Hm. simpl. rewrite length_map. reflexivity. }
    pose proof (shaped_facts _ _ _ Hsh) as Ft.
    split; [lia |]. split; [lia |]. split.
    + change 1%nat with (Z.to_nat 1). rewrite Hfr by auto. simpl.
      apply list_lookup_fmap_Some. exists 1%nat. split; [reflexivity |].
      apply lookup_seq. unfold Mesh.triCount in *. lia.
    + exists t. auto.
Qed.

Definition unit_tri : Tri :=
  mkTri (make_float3 F32.zero F32.zero F32.zero)
        (make_float3 F32.one F32.zero F32.zero)
        (make_float3 F32.zero F32.one F32.zero)
        (float3_of F32.zero).

Definition raw_node : nat -> BVHNode.t :=
  fun _ => BVHNode.mk (float3_of F32.zero) 77 (float3_of F32.zero) 99.
Definition raw_idx : nat -> Z := fun _ => 55.

Definition mesh1 : Mesh.t := Mesh.mk [unit_tri].

Lemma Build_within_pool_witness :
  BVH.Build 1 (BVH.alloc mesh1 raw_node raw_idx 0) <> Fault (OutOfBounds NodePool).
Proof.
  refine (proj1 (Build_within_pool mesh1 raw_node raw_idx 0 1 _)).
  vm_compute. discriminate.
Defined.

(** C10: [Subdivide] terminates.  On a node of [n] triangles that meets the
    calling conditions [sub_pre], fuel [n] is enough: the call ends in a BLAS
    or in one of the two faults that do not depend on fuel; [Build] on a fresh
    BLAS never runs out of fuel that covers the triangle count; and the two
    recursive calls are only made on children that hold at least one triangle
    and strictly fewer than the node, which share the triangles of the node. *)
Theorem Subdivide_terminates :
  (forall (m : Mesh.t) rawNode rawIdx rawUsed (fuel : nat),
     Mesh.triCount m <= Z.of_nat fuel ->
     BVH.Build fuel (BVH.alloc m rawNode rawIdx rawUsed) <> Fault OutOfFuel) /\
  (forall (s : BVH.t) (idx lo n : Z) (fuel : nat),
     sub_pre s idx lo n -> n <= Z.of_nat fuel ->
     (exists s', BVH.Subdivide fuel idx s = Ok s') \/
     BVH.Subdivide fuel idx s = Fault (OutOfBounds BinArr) \/
     BVH.Subdivide fuel idx s = Fault Uninitialised) /\
  (forall (s : BVH.t) (idx lo n : Z) (fuel : nat) s' l r,
     sub_pre s idx lo n ->
     BVH.split_node fuel idx s = Ok (s', Some (l, r)) ->
     exists nl nr,
       BVH.bvhNode s' !! Z.to_nat l = Some nl /\ BVH.bvhNode s' !! Z.to_nat r = Some nr /\
       1 <= BVHNode.triCount nl < n /\ 1 <= BVHNode.triCount nr < n /\
       BVHNode.triCount nl + BVHNode.triCount nr = n).
Proof.
  split; [| split].
  - intros m rawNode rawIdx rawUsed fuel Hfuel E.
    destruct (decide (1 <= Mesh.triCount m)) as [HT | HT].
    + pose proof (Build_alloc_spec m rawNode rawIdx rawUsed fuel HT) as H.
      rewrite E in H. destruct H as [H | [H | [_ H]]]; try discriminate. lia.
    + rewrite Build_empty in E; [discriminate | |].
      * apply alloc_empty. unfold Mesh.triCount in *. lia.
      * apply alloc_allocated.
  - intros s idx lo n fuel Hpre Hfuel.
    revert s idx lo n Hpre Hfuel. induction fuel as [| fuel IH]; intros s idx lo n Hpre Hfuel.
    { destruct Hpre as (_ & _ & Hn & _). lia. }
    cbn [BVH.Subdivide].
    pose proof (split_node_spec (S fuel) s idx lo n Hpre) as Hs.
    destruct (BVH.split_node (S fuel) idx s) as [[s1 [[l r] |]] | f]; cbn [mbind result_bind].
    + destruct Hpre as (Hidx & Hlo & Hn & Hlen & Hcap & Hv & nd0 & Hnd0 & Hnd0lo & Hnd0n).
      destruct Hs as (Hm1 & Hpl1 & Hil1 & Hperm1 & Hout1 & Hch). cbn [fst snd] in *.
      destruct Hch as (-> & -> & Hnu1 & k & nd & nl & nr & Hk & Hnd & Hidx1 & Hnl & Hnl1 &
                       Hnl2 & Hbl & Hnr & Hnr1 & Hnr2 & Hbr & Hfr1).
      assert (Hv1 : valid_idx s1) by (apply (valid_idx_perm s); auto).
      assert (Hpre1 : sub_pre s1 (BVH.nodesUsed s) lo k).
      { unfold sub_pre. rewrite Hnu1, Hpl1, Hil1.
        repeat (split; [lia || assumption |]). exists nl. auto. }
      pose proof (Subdivide_spec fuel s1 (BVH.nodesUsed s) lo k Hpre1
                    ltac:(exists nl, (range (BVH.triIdx s1) lo k); auto)) as Hl.
      destruct (IH s1 (BVH.nodesUsed s) lo k Hpre1 ltac:(lia)) as [[s2 E2] | [E2 | E2]];
        rewrite E2 in *; cbn [mbind result_bind]; auto.
      destruct Hl as (Hm2 & Hpl2 & Hil2 & Hperm2 & Hout2 & Hfr2 & tl & Htl1 & Htl2 & Htl3 &
                      Hsh2 & Hnu2 & Hall2).
      rewrite Hnu1 in Hsh2, Hnu2, Hfr2.
      pose proof (shaped_facts _ _ _ Hsh2) as Fl. rewrite Htl3 in Fl.
      apply (IH s2 (BVH.nodesUsed s + 1) (lo + k) (n - k)); [| lia].
      unfold sub_pre. rewrite Hnu2, Hpl2, Hil2, Hpl1, Hil1.
      repeat (split; [lia || (apply (valid_idx_perm s1); assumption) |]).
      exists nr. rewrite Hfr2 by lia. auto.
    + left. eauto.
    + destruct Hs as [-> | [-> | [-> Hf]]]; auto. lia.
  - intros s idx lo n fuel s' l r Hpre E.
    pose proof (split_node_spec fuel s idx lo n Hpre) as Hs. rewrite E in Hs.
    destruct Hs as (_ & _ & _ & _ & _ & Hch). cbn [fst snd] in Hch.
    destruct Hch as (-> & -> & Hnu1 & k & nd & nl & nr & Hk & Hnd & Hidx1 & Hnl & Hnl1 &
                     Hnl2 & Hbl & Hnr & Hnr1 & Hnr2 & Hbr & Hfr1).
    exists nl, nr. repeat (split; [assumption || lia |]). lia.
Qed.

Lemma Subdivide_terminates_witness :
  BVH.Build 1 (BVH.alloc mesh1 raw_node raw_idx 0) <> Fault OutOfFuel.
Proof.
  refine (proj1 Subdivide_terminates mesh1 raw_node raw_idx 0 1%nat _).
  vm_compute. discriminate.
Defined.
(** ** The order of single-precision numbers, continued *)

Definition good (a : float) : Prop := a <> S754_nan.

Ltac cmp_cases :=
  repeat match goal with
  | H : context [Pos.compare_cont Eq ?a ?b] |- _ =>
      change (Pos.compare_cont Eq a b) with (Pos.compare a b) in H
  | |- context [Pos.compare_cont Eq ?a ?b] =>
      change (Pos.compare_cont Eq a b) with (Pos.compare a b)
  end;
  repeat match goal with
  | H : context [Z.compare ?a ?b] |- _ => destruct (Z.compare_spec a b); simpl in H
  | |- context [Z.compare ?a ?b] => destruct (Z.compare_spec a b); simpl
  | H : context [Pos.compare ?a ?b] |- _ => destruct (Pos.compare_spec a b); simpl in H
  | |- context [Pos.compare ?a ?b] => destruct (Pos.compare_spec a b); simpl
  end;
  try discriminate; try congruence; try lia; auto.

Lemma ltb_true_good a b : (a <? b)%f32 = true -> good a /\ good b.
Proof.
  unfold F32.ltb, SFltb, good.
  destruct a, b; simpl; try discriminate; intros _; split; discriminate.
Qed.

Lemma ltb_asym a b : (a <? b)%f32 = true -> (b <? a)%f32 = false.
Proof.
  unfold F32.ltb, SFltb.
  destruct a as [[] | [] | | [] ma ea], b as [[] | [] | | [] mb eb]; simpl;
    try discriminate; try reflexivity; cmp_cases.
Qed.

Lemma ltb_negtrans a b c :
  good b -> (a <? c)%f32 = true -> (a <? b)%f32 = true \/ (b <? c)%f32 = true.
Proof.
  unfold F32.ltb, SFltb, good.
  destruct a as [[] | [] | | [] ma ea], b as [[] | [] | | [] mb eb],
           c as [[] | [] | | [] mc ec]; simpl;
    intros Hb; try congruence; try discriminate; auto; intros H; cmp_cases.
Qed.

Lemma ltb_trans a b c :
  (a <? b)%f32 = true -> (b <? c)%f32 = true -> (a <? c)%f32 = true.
Proof.
  intros Hab Hbc. destruct (ltb_true_good _ _ Hbc) as [_ Hc].
  destruct (ltb_negtrans a c b Hc Hab) as [H | H]; [exact H |].
  rewrite (ltb_asym _ _ Hbc) in H. discriminate.
Qed.

(** Numbers that are neither below nor above one another are equal, but for
    the sign of zero. *)
Lemma ltb_antisym a b :
  good a -> good b -> (a <? b)%f32 = false -> (b <? a)%f32 = false ->
  a = b \/ exists s s', a = S754_zero s /\ b = S754_zero s'.
Proof.
  unfold F32.ltb, SFltb, good.
  destruct a as [[] | [] | | [] ma ea], b as [[] | [] | | [] mb eb]; simpl;
    intros Ha Hb; try congruence; try discriminate; eauto; intros H1 H2;
    cmp_cases; left; f_equal; congruence.
Qed.
(** ** [Refit] *)

(** What the pool says of the node in slot [i]: a leaf over a range of
    [triIdx], or an interior node whose children lie after it and below
    [hi]. *)
Definition node_view (s : BVH.t) (hi i : Z) : Prop :=
  exists nd,
    BVH.bvhNode s !! Z.to_nat i = Some nd /\
    ((0 < BVHNode.triCount nd /\ 0 <= BVHNode.leftFirst nd /\
      BVHNode.leftFirst nd + BVHNode.triCount nd <= Z.of_nat (length (BVH.triIdx s))) \/
     (BVHNode.triCount nd = 0 /\ i < BVHNode.leftFirst nd /\ 2 <= BVHNode.leftFirst nd /\
      BVHNode.leftFirst nd + 1 < hi)).

Lemma shaped_views s t : forall a,
  shaped (BVH.bvhNode s) t a -> 2 <= a ->
  tlo t + tn t <= Z.of_nat (length (BVH.triIdx s)) ->
  forall i, i = troot t \/ a <= i < a + desc t -> node_view s (a + desc t) i.
Proof.
  induction t as [i0 lo n | i0 lo n l IHl r IHr]; intros a; simpl.
  - intros (Hi & Hlo & Hn & nd & Hnd & H1 & H2) Ha Hlen i [-> | Hi']; [| lia].
    exists nd. split; [exact Hnd |]. left. lia.
  - intros (Hi & Hlo & (nd & Hnd & H1 & H2) & Hrl & Hrr & Hll & Hlr & Hn & Hl & Hr) Ha Hlen i Hi'.
    pose proof (shaped_facts _ _ _ Hl) as Fl. pose proof (shaped_facts _ _ _ Hr) as Fr.
    destruct Hi' as [-> | Hi'].
    { exists nd. split; [exact Hnd |]. right. lia. }
    destruct (decide (i = a \/ a + 2 <= i < a + 2 + desc l)) as [Hil | Hil].
    + destruct (IHl (a + 2) Hl ltac:(lia) ltac:(lia) i ltac:(lia)) as (ndi & Hndi & Hv).
      exists ndi. split; [exact Hndi |]. destruct Hv as [Hv | Hv]; [left; exact Hv | right; lia].
    + destruct (IHr (a + 2 + desc l) Hr ltac:(lia) ltac:(lia) i ltac:(lia)) as (ndi & Hndi & Hv).
      exists ndi. split; [exact Hndi |]. destruct Hv as [Hv | Hv]; [left; exact Hv | right; lia].
Qed.

(** The topology of a BLAS, without its boxes. *)
Definition topo_ok (s : BVH.t) : Prop :=
  allocated s /\ valid_idx s /\
  exists t,
    troot t = 0 /\ tlo t = 0 /\ tn t = Mesh.triCount (BVH.mesh s) /\
    shaped (BVH.bvhNode s) t 2 /\ BVH.nodesUsed s = 2 + desc t.

Lemma wf_blas_topo s : wf_blas s -> topo_ok s.
Proof.
  intros (Hal & Hv & t & H1 & H2 & H3 & H4 & H5 & _). split; [exact Hal |].
  split; [exact Hv |]. exists t. auto.
Qed.

Lemma topo_ok_set_mesh s m' :
  length (Mesh.tri m') = length (Mesh.tri (BVH.mesh s)) ->
  topo_ok s -> topo_ok (BVH.set_mesh m' s).
Proof.
  intros Hlen ([Hal1 Hal2] & Hv & t & H1 & H2 & H3 & H4 & H5).
  unfold topo_ok, allocated, valid_idx, Mesh.triCount in *. simpl. rewrite Hlen.
  split; [auto |]. split; [exact Hv |]. exists t. auto.
Qed.

Lemma topo_views s :
  topo_ok s ->
  2 <= BVH.nodesUsed s <= Z.of_nat (length (BVH.bvhNode s)) /\
  forall i, 0 <= i < BVH.nodesUsed s -> i <> 1 -> node_view s (BVH.nodesUsed s) i.
Proof.
  intros ([Hal1 Hal2] & Hv & t & H1 & H2 & H3 & H4 & H5).
  pose proof (shaped_facts _ _ _ H4) as Ft. rewrite H3 in Ft. split; [lia |].
  intros i Hi Hi1. rewrite H5. apply (shaped_views s t 2 H4); [lia | | lia].
  rewrite H2, H3. unfold Mesh.triCount. lia.
Qed.

(** The node in slot [i] holds the box that [Refit] gives it: for a leaf the
    box of its triangles, for an interior node the union of the boxes of its
    two children. *)
Definition refitted (s : BVH.t) (i : Z) : Prop :=
  exists nd,
    BVH.bvhNode s !! Z.to_nat i = Some nd /\
    if BVHNode.isLeaf nd
    then (BVHNode.aabbMin nd, BVHNode.aabbMax nd)
         = fold_box (tris_of (BVH.mesh s)
                       (range (BVH.triIdx s) (BVHNode.leftFirst nd) (BVHNode.triCount nd)))
    else exists cl cr,
           BVH.bvhNode s !! Z.to_nat (BVHNode.leftFirst nd) = Some cl /\
           BVH.bvhNode s !! Z.to_nat (BVHNode.leftFirst nd + 1) = Some cr /\
           BVHNode.aabbMin nd = fminf3 (BVHNode.aabbMin cl) (BVHNode.aabbMin cr) /\
           BVHNode.aabbMax nd = fmaxf3 (BVHNode.aabbMax cl) (BVHNode.aabbMax cr).

Definition same_topology (s0 s : BVH.t) : Prop :=
  BVH.mesh s = BVH.mesh s0 /\ BVH.triIdx s = BVH.triIdx s0 /\
  BVH.nodesUsed s = BVH.nodesUsed s0 /\
  length (BVH.bvhNode s) = length (BVH.bvhNode s0) /\
  forall k nd0, BVH.bvhNode s0 !! k = Some nd0 ->
    exists nd, BVH.bvhNode s !! k = Some nd /\
               BVHNode.leftFirst nd = BVHNode.leftFirst nd0 /\
               BVHNode.triCount nd = BVHNode.triCount nd0.

(** The state of [Refit] when the slots from [n] upwards have been visited. *)
Definition refit_inv (s0 : BVH.t) (n : Z) (s : BVH.t) : Prop :=
  same_topology s0 s /\
  (forall k, 0 <= k -> k < n \/ k = 1 \/ BVH.nodesUsed s0 <= k ->
             BVH.bvhNode s !! Z.to_nat k = BVH.bvhNode s0 !! Z.to_nat k) /\
  (forall i, n <= i < BVH.nodesUsed s0 -> i <> 1 -> refitted s i).

Lemma refit_node_step s0 s k :
  topo_ok s0 -> 0 <= k < BVH.nodesUsed s0 ->
  refit_inv s0 (k + 1) s ->
  exists s', BVH.refit_node k s = Ok s' /\ refit_inv s0 k s'.
Proof.
  intros Htopo Hk ((Hm & Hi & Hnu & Hlen & Htop) & Hlow & Hhigh).
  destruct (topo_views s0 Htopo) as [Hnu0 Hviews].
  unfold BVH.refit_node. destruct (Z.eqb_spec k 1) as [-> | Hk1].
  { exists s. split; [reflexivity |]. split; [split; auto |]. split.
    - intros j Hj0 Hj. apply Hlow; lia.
    - intros i Hi' Hi1. apply Hhigh; lia. }
  destruct (Hviews k Hk Hk1) as (nd & Hnd & Hview).
  assert (Hnds : BVH.bvhNode s !! Z.to_nat k = Some nd) by (rewrite Hlow by lia; exact Hnd).
  rewrite (proj2 (rd_Ok NodePool _ k nd)) by (split; [lia | exact Hnds]).
  cbn [mbind result_bind].
  apply lookup_lt_Some in Hnds as Hklt.
  (* refitted nodes above [k] stay so when slot [k] is written *)
  assert (Hkeep : forall nd' i, k + 1 <= i < BVH.nodesUsed s0 -> i <> 1 ->
            BVHNode.leftFirst nd' = BVHNode.leftFirst nd ->
            BVHNode.triCount nd' = BVHNode.triCount nd ->
            refitted (BVH.set_bvhNode (<[Z.to_nat k := nd']> (BVH.bvhNode s)) s) i).
  { intros nd' i Hi' Hi1 _ _.
    destruct (Hhigh i Hi' Hi1) as (ndi & Hndi & Hr).
    destruct (Hviews i ltac:(lia) Hi1) as (ndi0 & Hndi0 & Hvi).
    destruct (Htop _ _ Hndi0) as (ndi' & Hndi' & Hl' & Hc').
    assert (ndi' = ndi) by congruence. subst ndi'.
    exists ndi. simpl. split; [rewrite list_lookup_insert_ne by lia; exact Hndi |].
    unfold BVHNode.isLeaf in *. destruct (Z.ltb_spec 0 (BVHNode.triCount ndi)).
    - exact Hr.
    - destruct Hr as (cl & cr & Hcl & Hcr & H1 & H2).
      destruct Hvi as [Hvi | Hvi]; [lia |].
      exists cl, cr. rewrite !list_lookup_insert_ne by lia. auto. }
  unfold BVHNode.isLeaf. destruct Hview as [(Hc & Hlo & Hrange) | (Hc & Hl1 & Hl2 & Hl3)].
  - (* a leaf *)
    rewrite (proj2 (Z.ltb_lt _ _) Hc).
    rewrite (UpdateNodeBounds_spec s k nd);
      [| lia | exact Hnds | lia | lia | rewrite Hi; exact Hrange
       | destruct Htopo as (_ & Hv & _); unfold valid_idx in *; rewrite Hm, Hi; exact Hv].
    eexists. split; [reflexivity |].
    split; [split; [| split; [| split; [| split]]] | split]; simpl; auto.
    + rewrite length_insert. exact Hlen.
    + intros j nd0 Hnd0. destruct (decide (j = Z.to_nat k)) as [-> | Hne].
      * rewrite list_lookup_insert_eq by lia. eexists. split; [reflexivity |].
        simpl. split; congruence.
      * rewrite list_lookup_insert_ne by lia. apply Htop. exact Hnd0.
    + intros j Hj0 Hj. rewrite list_lookup_insert_ne by lia. apply Hlow; lia.
    + intros i Hi' Hi1. destruct (decide (i = k)) as [-> | Hne].
      * eexists. simpl. split; [apply list_lookup_insert_eq; lia |].
        unfold BVHNode.isLeaf. simpl. rewrite (proj2 (Z.ltb_lt _ _) Hc). simpl.
        symmetry. apply surjective_pairing.
      * apply Hkeep; auto; lia.
  - (* an interior node *)
    rewrite Hc. simpl.
    destruct (rd_in_range NodePool (BVH.bvhNode s) (BVHNode.leftFirst nd)) as (cl & -> & Hcl);
      [lia |].
    cbn [mbind result_bind].
    destruct (rd_in_range NodePool (BVH.bvhNode s) (BVHNode.leftFirst nd + 1)) as (cr & -> & Hcr);
      [lia |].
    cbn [mbind result_bind].
    rewrite wr_in_range by lia. cbn [mbind result_bind].
    eexists. split; [reflexivity |].
    split; [split; [| split; [| split; [| split]]] | split]; simpl; auto.
    + rewrite length_insert. exact Hlen.
    + intros j nd0 Hnd0. destruct (decide (j = Z.to_nat k)) as [-> | Hne].
      * rewrite list_lookup_insert_eq by lia. eexists. split; [reflexivity |].
        simpl. split; congruence.
      * rewrite list_lookup_insert_ne by lia. apply Htop. exact Hnd0.
    + intros j Hj0 Hj. rewrite list_lookup_insert_ne by lia. apply Hlow; lia.
    + intros i Hi' Hi1. destruct (decide (i = k)) as [-> | Hne].
      * eexists. simpl. split; [apply list_lookup_insert_eq; lia |].
        unfold BVHNode.isLeaf. simpl. rewrite Hc. simpl.
        exists cl, cr. rewrite !list_lookup_insert_ne by lia. auto.
      * apply Hkeep; auto; lia.
Qed.

Lemma refit_down_spec s0 : topo_ok s0 -> forall (n : nat) s,
  Z.of_nat n <= BVH.nodesUsed s0 ->
  refit_inv s0 (Z.of_nat n) s ->
  exists s', BVH.refit_down n s = Ok s' /\ refit_inv s0 0 s'.
Proof.
  intros Htopo. induction n as [| n IH]; intros s Hn Hinv.
  - exists s. split; [reflexivity | exact Hinv].
  - cbn [BVH.refit_down].
    destruct (refit_node_step s0 s (Z.of_nat n) Htopo ltac:(lia)) as (s1 & -> & Hinv1).
    { replace (Z.of_nat n + 1) with (Z.of_nat (S n)) by lia. exact Hinv. }
    cbn [mbind result_bind]. apply IH; [lia | exact Hinv1].
Qed.

Lemma Refit_spec s :
  topo_ok s -> exists s', BVH.Refit s = Ok s' /\ refit_inv s 0 s'.
Proof.
  intros Htopo. destruct (topo_views s Htopo) as [Hnu _].
  unfold BVH.Refit. apply (refit_down_spec s Htopo); [lia |].
  split; [| split].
  - repeat (split; [reflexivity |]). intros k nd0 H. exists nd0. auto.
  - reflexivity.
  - intros i Hi. lia.
Qed.
(** C5: [Refit] preserves the topology.  On every built BLAS, with the
    vertices of the mesh changed at will (the triangle count kept), [Refit]
    completes; [triIdx], [nodesUsed] and the [leftFirst] and [triCount] of
    every node are as before; slot 1 and the slots from [nodesUsed] on are not
    written; and every node in use holds afterwards the box of its triangles
    when it is a leaf, the component-wise [fminf]/[fmaxf] of the boxes of its
    two children when it is an interior node.  The walk itself,
    [BVH.refit_down], goes down from slot [nodesUsed - 1] to slot 0 and
    passes over slot 1. *)
Theorem Refit_preserves_topology (m : Mesh.t) rawNode rawIdx rawUsed (fuel : nat)
    (b : BVH.t) (m' : Mesh.t) :
  BVH.Build fuel (BVH.alloc m rawNode rawIdx rawUsed) = Ok b ->
  length (Mesh.tri m') = length (Mesh.tri (BVH.mesh b)) ->
  exists b',
    BVH.Refit (BVH.set_mesh m' b) = Ok b' /\
    BVH.triIdx b' = BVH.triIdx b /\
    BVH.nodesUsed b' = BVH.nodesUsed b /\
    BVH.mesh b' = m' /\
    length (BVH.bvhNode b') = length (BVH.bvhNode b) /\
    (forall k nd, BVH.bvhNode b !! k = Some nd ->
       exists nd', BVH.bvhNode b' !! k = Some nd' /\
                   BVHNode.leftFirst nd' = BVHNode.leftFirst nd /\
                   BVHNode.triCount nd' = BVHNode.triCount nd) /\
    (forall k, 0 <= k -> k = 1 \/ BVH.nodesUsed b <= k ->
       BVH.bvhNode b' !! Z.to_nat k = BVH.bvhNode b !! Z.to_nat k) /\
    (forall i, 0 <= i < BVH.nodesUsed b -> i <> 1 -> refitted b' i).
Proof.
  intros HB Hlen. destruct (Build_Ok_built _ _ _ _ _ _ HB) as (_ & Hwf & _).
  pose proof (topo_ok_set_mesh b m' Hlen (wf_blas_topo b Hwf)) as Htopo.
  destruct (Refit_spec _ Htopo) as (b' & HR & (Hm & Hi & Hnu & Hl & Htop) & Hlow & Hhigh).
  exists b'. simpl in *.
  repeat (split; [assumption |]).
  split; [intros k Hk0 Hk; apply Hlow; lia |].
  exact Hhigh.
Qed.

(** The mesh of one triangle, its BLAS, and the triangle moved by (5,0,0). *)
Definition built1 : BVH.t :=
  Eval vm_compute in
    match BVH.Build 1 (BVH.alloc mesh1 raw_node raw_idx 0) with
    | Ok b => b
    | Fault _ => BVH.alloc mesh1 raw_node raw_idx 0
    end.

Lemma built1_eq : BVH.Build 1 (BVH.alloc mesh1 raw_node raw_idx 0) = Ok built1.
Proof. vm_compute. reflexivity. Qed.

Definition moved_tri : Tri :=
  mkTri (make_float3 (F32.of_Z 5) F32.zero F32.zero)
        (make_float3 (F32.of_Z 6) F32.zero F32.zero)
        (make_float3 (F32.of_Z 5) F32.one F32.zero)
        (float3_of F32.zero).

Lemma Refit_preserves_topology_witness :
  exists b', BVH.Refit (BVH.set_mesh (Mesh.mk [moved_tri]) built1) = Ok b' /\
             BVH.triIdx b' = BVH.triIdx built1.
Proof.
  destruct (Refit_preserves_topology mesh1 raw_node raw_idx 0 1 built1 (Mesh.mk [moved_tri])
              built1_eq eq_refl) as (b' & H1 & H2 & _).
  exists b'. split; assumption.
Defined.
(** ** Least elements under a selection *)

(** [fminf] and [fmaxf] are selections [if lt a b then a else b], for [<] and
    for [>]; what follows holds for both. *)
Section Selection.
  Variable lt : float -> float -> bool.
  Hypothesis lt_good : forall a b, lt a b = true -> good a /\ good b.
  Hypothesis lt_asym : forall a b, lt a b = true -> lt b a = false.
  Hypothesis lt_negtrans :
    forall a b c, good b -> lt a c = true -> lt a b = true \/ lt b c = true.
  Hypothesis lt_antisym :
    forall a b, good a -> good b -> lt a b = false -> lt b a = false ->
                a = b \/ exists s s', a = S754_zero s /\ b = S754_zero s'.

Definition sel (a b : float) : float := if lt a b then a else b.

(** [x] is an element of [cs] that no element of [cs] precedes. *)
Definition is_least (x : float) (cs : list float) : Prop :=
  x ∈ cs /\ forall c, c ∈ cs -> lt c x = false.

Lemma is_least_perm x cs cs' : cs ≡ₚ cs' -> is_least x cs -> is_least x cs'.
Proof.
  intros Hp [Hin Hle]. split.
  - rewrite <- Hp. exact Hin.
  - intros c Hc. apply Hle. rewrite Hp. exact Hc.
Qed.

Lemma is_least_sel a b cs1 cs2 :
  good a -> is_least a cs1 -> is_least b cs2 -> is_least (sel a b) (cs1 ++ cs2).
Proof.
  intros Ha [Hina Hlea] [Hinb Hleb]. unfold sel. destruct (lt a b) eqn:E.
  - split; [apply elem_of_app; auto |].
    intros c Hc. apply elem_of_app in Hc as [Hc | Hc]; [auto |].
    destruct (lt c a) eqn:E'; [| reflexivity].
    destruct (lt_good _ _ E) as [_ Hgb].
    destruct (lt_negtrans c b a Hgb E') as [H | H].
    + rewrite Hleb in H by exact Hc. discriminate.
    + rewrite (lt_asym _ _ E) in H. discriminate.
  - split; [apply elem_of_app; auto |].
    intros c Hc. apply elem_of_app in Hc as [Hc | Hc]; [| auto].
    destruct (lt c b) eqn:E'; [| reflexivity].
    destruct (lt_negtrans c a b Ha E') as [H | H].
    + rewrite Hlea in H by exact Hc. discriminate.
    + congruence.
Qed.

Lemma lt_irrefl' a : lt a a = false.
Proof. destruct (lt a a) eqn:E; [| reflexivity]. rewrite (lt_asym _ _ E) in E. discriminate. Qed.

Lemma sel_good a b : good a -> good b -> good (sel a b).
Proof. unfold sel. destruct (lt a b); auto. Qed.

Lemma is_least_equiv x cs cs' :
  (forall c, c ∈ cs <-> c ∈ cs') -> is_least x cs -> is_least x cs'.
Proof.
  intros Heq [Hin Hle]. split; [apply Heq; exact Hin |].
  intros c Hc. apply Hle. apply Heq. exact Hc.
Qed.

Lemma is_least_fold cs : forall acc pre,
  good acc -> Forall good cs -> is_least acc pre ->
  is_least (foldl sel acc cs) (pre ++ cs).
Proof.
  induction cs as [| c cs IH]; intros acc pre Hacc Hcs Hl; simpl.
  - rewrite app_nil_r. exact Hl.
  - apply Forall_cons in Hcs as [Hc Hcs].
    replace (pre ++ c :: cs) with ((pre ++ [c]) ++ cs) by (rewrite <- app_assoc; reflexivity).
    apply IH; [apply sel_good; assumption | exact Hcs |].
    apply is_least_sel; [exact Hacc | exact Hl |].
    split; [apply list_elem_of_singleton; reflexivity |].
    intros c' Hc'. apply list_elem_of_singleton in Hc' as ->. apply lt_irrefl'.
Qed.

Lemma is_least_unique x y cs :
  Forall good cs -> is_least x cs -> is_least y cs ->
  x = y \/ exists s s', x = S754_zero s /\ y = S754_zero s'.
Proof.
  intros Hg [Hx Hlx] [Hy Hly].
  apply lt_antisym; auto; eapply (proj1 (Forall_forall _ _) Hg); assumption.
Qed.
End Selection.

Definition gtb (a b : float) : bool := (b <? a)%f32.

Lemma fminf_sel a b : fminf a b = sel F32.ltb a b.
Proof. reflexivity. Qed.
Lemma fmaxf_sel a b : fmaxf a b = sel gtb a b.
Proof. reflexivity. Qed.

Lemma gtb_good a b : gtb a b = true -> good a /\ good b.
Proof. unfold gtb. intros H. destruct (ltb_true_good _ _ H). auto. Qed.
Lemma gtb_asym a b : gtb a b = true -> gtb b a = false.
Proof. unfold gtb. apply ltb_asym. Qed.
Lemma gtb_negtrans a b c : good b -> gtb a c = true -> gtb a b = true \/ gtb b c = true.
Proof. unfold gtb. intros Hb H. destruct (ltb_negtrans c b a Hb H); auto. Qed.
Lemma gtb_antisym a b :
  good a -> good b -> gtb a b = false -> gtb b a = false ->
  a = b \/ exists s s', a = S754_zero s /\ b = S754_zero s'.
Proof. unfold gtb. intros Ha Hb H1 H2. apply ltb_antisym; auto. Qed.

Lemma eqb_of_least a b :
  good a -> (a = b \/ exists s s', a = S754_zero s /\ b = S754_zero s') ->
  (a =? b)%f32 = true.
Proof.
  intros Ha [<- | (s & s' & -> & ->)].
  - unfold F32.eqb, SFeqb. rewrite SFcompare_refl by exact Ha. reflexivity.
  - reflexivity.
Qed.
(** ** Boxes as least and greatest coordinates *)

Definition good3 (v : float3) : Prop := good (x v) /\ good (y v) /\ good (z v).

(** No coordinate of the mesh is a NaN. *)
Definition mesh_good (m : Mesh.t) : Prop :=
  Forall (fun tr => good3 (vertex0 tr) /\ good3 (vertex1 tr) /\ good3 (vertex2 tr))
         (Mesh.tri m).

Definition plain (a : float) : Prop := a <> S754_zero true.
Definition plain3 (v : float3) : Prop := plain (x v) /\ plain (y v) /\ plain (z v).

(** No coordinate of the mesh is the negative zero. *)
Definition mesh_plain (m : Mesh.t) : Prop :=
  Forall (fun tr => plain3 (vertex0 tr) /\ plain3 (vertex1 tr) /\ plain3 (vertex2 tr))
         (Mesh.tri m).

Definition is_proj (p : float3 -> float) : Prop := p = x \/ p = y \/ p = z.

Definition coords (p : float3 -> float) (trs : list Tri) : list float :=
  trs ≫= (fun tr => [p (vertex0 tr); p (vertex1 tr); p (vertex2 tr)]).

Lemma fold_box_proj p trs : is_proj p -> forall acc,
  p (fst (foldl box_step acc trs)) = foldl fminf (p (fst acc)) (coords p trs) /\
  p (snd (foldl box_step acc trs)) = foldl fmaxf (p (snd acc)) (coords p trs).
Proof.
  intros Hp. induction trs as [| tr trs IH]; intros acc; simpl; [auto |].
  destruct (IH (box_step acc tr)) as [-> ->].
  destruct Hp as [-> | [-> | ->]]; split; reflexivity.
Qed.

Lemma coords_elem p m ks c :
  c ∈ coords p (tris_of m ks) ->
  exists tr, tr ∈ Mesh.tri m /\ (c = p (vertex0 tr) \/ c = p (vertex1 tr) \/ c = p (vertex2 tr)).
Proof.
  unfold coords, tris_of. intros H.
  apply list_elem_of_bind in H as (tr & Hc & Htr).
  apply list_elem_of_omap in Htr as (k & _ & Hk).
  exists tr. split; [eapply list_elem_of_lookup_2; exact Hk |].
  repeat (apply elem_of_cons in Hc as [Hc | Hc]; [auto |]).
  apply elem_of_nil in Hc. contradiction.
Qed.

Lemma coords_good p m ks : is_proj p -> mesh_good m -> Forall good (coords p (tris_of m ks)).
Proof.
  intros Hp Hm. apply Forall_forall. intros c Hc.
  destruct (coords_elem _ _ _ _ Hc) as (tr & Htr & Hc').
  destruct (proj1 (Forall_forall _ _) Hm tr Htr) as ((? & ? & ?) & (? & ? & ?) & (? & ? & ?)).
  destruct Hp as [-> | [-> | ->]]; destruct Hc' as [-> | [-> | ->]]; assumption.
Qed.

Lemma coords_plain p m ks : is_proj p -> mesh_plain m -> Forall plain (coords p (tris_of m ks)).
Proof.
  intros Hp Hm. apply Forall_forall. intros c Hc.
  destruct (coords_elem _ _ _ _ Hc) as (tr & Htr & Hc').
  destruct (proj1 (Forall_forall _ _) Hm tr Htr) as ((? & ? & ?) & (? & ? & ?) & (? & ? & ?)).
  destruct Hp as [-> | [-> | ->]]; destruct Hc' as [-> | [-> | ->]]; assumption.
Qed.

(** [mn] and [mx] are, on every axis, a least and a greatest among the
    sentinel and the coordinates of the triangles [ks]. *)
Definition least_box (m : Mesh.t) (mn mx : float3) (ks : list Z) : Prop :=
  forall p, is_proj p ->
    is_least F32.ltb (p mn) (F32.f1e30 :: coords p (tris_of m ks)) /\
    is_least gtb (p mx) (F32.fm1e30 :: coords p (tris_of m ks)).

Lemma good_f1e30 : good F32.f1e30.
Proof. discriminate. Qed.
Lemma good_fm1e30 : good F32.fm1e30.
Proof. discriminate. Qed.

Lemma is_least_singleton lt a : (forall a, lt a a = false) -> is_least lt a [a].
Proof.
  intros Hirr. split; [apply list_elem_of_singleton; reflexivity |].
  intros c Hc. apply list_elem_of_singleton in Hc as ->. apply Hirr.
Qed.

Lemma fold_box_least m ks :
  mesh_good m ->
  least_box m (fst (fold_box (tris_of m ks))) (snd (fold_box (tris_of m ks))) ks.
Proof.
  intros Hm p Hp. unfold fold_box.
  destruct (fold_box_proj p (tris_of m ks) Hp (float3_of F32.f1e30, float3_of F32.fm1e30))
    as [-> ->].
  assert (H1 : p (float3_of F32.f1e30) = F32.f1e30)
    by (destruct Hp as [-> | [-> | ->]]; reflexivity).
  assert (H2 : p (float3_of F32.fm1e30) = F32.fm1e30)
    by (destruct Hp as [-> | [-> | ->]]; reflexivity).
  simpl. rewrite H1, H2. split.
  - apply (is_least_fold F32.ltb ltb_true_good ltb_asym ltb_negtrans _ _ [F32.f1e30]);
      [exact good_f1e30 | apply coords_good; assumption |].
    apply is_least_singleton. apply ltb_irrefl.
  - apply (is_least_fold gtb gtb_good gtb_asym gtb_negtrans _ _ [F32.fm1e30]);
      [exact good_fm1e30 | apply coords_good; assumption |].
    apply is_least_singleton. intros a. apply ltb_irrefl.
Qed.

Lemma least_box_perm m mn mx ks ks' :
  ks ≡ₚ ks' -> least_box m mn mx ks -> least_box m mn mx ks'.
Proof.
  intros Hp H p Hproj. destruct (H p Hproj) as [H1 H2].
  assert (Hc : coords p (tris_of m ks) ≡ₚ coords p (tris_of m ks'))
    by (unfold coords, tris_of; rewrite Hp; reflexivity).
  split; eapply is_least_perm; try eassumption; rewrite Hc; reflexivity.
Qed.

Lemma least_box_good m mn mx ks :
  mesh_good m -> least_box m mn mx ks -> good3 mn /\ good3 mx.
Proof.
  intros Hm H.
  assert (Hg : forall p, is_proj p -> good (p mn) /\ good (p mx)).
  { intros p Hp. destruct (H p Hp) as [[H1 _] [H2 _]].
    pose proof (coords_good p m ks Hp Hm) as Hc.
    split.
    - apply elem_of_cons in H1 as [-> | H1]; [exact good_f1e30 |].
      exact (proj1 (Forall_forall _ _) Hc _ H1).
    - apply elem_of_cons in H2 as [-> | H2]; [exact good_fm1e30 |].
      exact (proj1 (Forall_forall _ _) Hc _ H2). }
  unfold good3, is_proj in *.
  destruct (Hg x), (Hg y), (Hg z); auto.
Qed.

Lemma least_box_merge m mn1 mx1 ks1 mn2 mx2 ks2 :
  mesh_good m ->
  least_box m mn1 mx1 ks1 -> least_box m mn2 mx2 ks2 ->
  least_box m (fminf3 mn1 mn2) (fmaxf3 mx1 mx2) (ks1 ++ ks2).
Proof.
  intros Hm H1 H2 p Hp.
  destruct (least_box_good _ _ _ _ Hm H1) as [(? & ? & ?) (? & ? & ?)].
  destruct (H1 p Hp) as [Ha1 Hb1]. destruct (H2 p Hp) as [Ha2 Hb2].
  assert (Hmn : p (fminf3 mn1 mn2) = sel F32.ltb (p mn1) (p mn2))
    by (destruct Hp as [-> | [-> | ->]]; reflexivity).
  assert (Hmx : p (fmaxf3 mx1 mx2) = sel gtb (p mx1) (p mx2))
    by (destruct Hp as [-> | [-> | ->]]; reflexivity).
  assert (Hg1 : good (p mn1) /\ good (p mx1))
    by (destruct Hp as [-> | [-> | ->]]; auto).
  rewrite Hmn, Hmx. unfold tris_of, coords. rewrite omap_app, bind_app.
  split.
  - eapply is_least_equiv;
      [| apply (is_least_sel F32.ltb ltb_true_good ltb_asym ltb_negtrans _ _ _ _
                  (proj1 Hg1) Ha1 Ha2)].
    intros c. rewrite !elem_of_app, !elem_of_cons, !elem_of_app. tauto.
  - eapply is_least_equiv;
      [| apply (is_least_sel gtb gtb_good gtb_asym gtb_negtrans _ _ _ _
                  (proj2 Hg1) Hb1 Hb2)].
    intros c. rewrite !elem_of_app, !elem_of_cons, !elem_of_app. tauto.
Qed.

(** [a == b] on every component *)
Definition vec_eqb (a b : float3) : bool :=
  (x a =? x b)%f32 && (y a =? y b)%f32 && (z a =? z b)%f32.

Lemma least_box_unique m mn mx mn' mx' ks :
  mesh_good m ->
  least_box m mn mx ks -> least_box m mn' mx' ks ->
  (vec_eqb mn mn' = true /\ vec_eqb mx mx' = true) /\
  (mesh_plain m -> mn = mn' /\ mx = mx').
Proof.
  intros Hm H H'.
  assert (Hp : forall p, is_proj p ->
            ((p mn =? p mn')%f32 = true /\ (p mx =? p mx')%f32 = true) /\
            (mesh_plain m -> p mn = p mn' /\ p mx = p mx')).
  { intros p Hp. destruct (H p Hp) as [H1 H2]. destruct (H' p Hp) as [H1' H2'].
    pose proof (coords_good p m ks Hp Hm) as Hc.
    pose proof (is_least_unique F32.ltb ltb_antisym _ _ _
                  (Forall_cons_2 _ _ _ good_f1e30 Hc) H1 H1') as U1.
    pose proof (is_least_unique gtb gtb_antisym _ _ _
                  (Forall_cons_2 _ _ _ good_fm1e30 Hc) H2 H2') as U2.
    destruct (least_box_good _ _ _ _ Hm H) as [(? & ? & ?) (? & ? & ?)].
    assert (Hg : good (p mn) /\ good (p mx)) by (destruct Hp as [-> | [-> | ->]]; auto).
    split; [split; apply eqb_of_least; tauto |].
    intros Hpl. pose proof (coords_plain p m ks Hp Hpl) as Hcp.
    assert (Hz : forall c seed, plain seed -> c ∈ seed :: coords p (tris_of m ks) -> plain c).
    { intros c seed Hs Hc'. apply elem_of_cons in Hc' as [-> | Hc']; [exact Hs |].
      exact (proj1 (Forall_forall _ _) Hcp _ Hc'). }
    assert (E : forall a b seed, plain seed ->
              a ∈ seed :: coords p (tris_of m ks) -> b ∈ seed :: coords p (tris_of m ks) ->
              (a = b \/ exists s s', a = S754_zero s /\ b = S754_zero s') -> a = b).
    { intros a b seed Hs Ha Hb [E | (s & s' & -> & ->)]; [exact E |].
      pose proof (Hz _ _ Hs Ha) as Pa. pose proof (Hz _ _ Hs Hb) as Pb.
      destruct s, s'; try reflexivity; unfold plain in *; congruence. }
    split.
    - apply (E _ _ F32.f1e30); [discriminate | apply H1 | apply H1' | exact U1].
    - apply (E _ _ F32.fm1e30); [discriminate | apply H2 | apply H2' | exact U2]. }
  unfold is_proj in Hp.
  destruct (Hp x) as [[X1 X2] X3]; auto. destruct (Hp y) as [[Y1 Y2] Y3]; auto.
  destruct (Hp z) as [[Z1 Z2] Z3]; auto.
  split.
  - unfold vec_eqb. rewrite X1, X2, Y1, Y2, Z1, Z2. auto.
  - intros Hpl. destruct (X3 Hpl), (Y3 Hpl), (Z3 Hpl).
    destruct mn, mn', mx, mx'; simpl in *. split; congruence.
Qed.
(** ** [Build] followed by [Refit] *)

Definition least_at (s : BVH.t) (i lo n : Z) : Prop :=
  exists nd,
    BVH.bvhNode s !! Z.to_nat i = Some nd /\
    least_box (BVH.mesh s) (BVHNode.aabbMin nd) (BVHNode.aabbMax nd)
              (range (BVH.triIdx s) lo n).

Lemma boxed_least s i lo n :
  mesh_good (BVH.mesh s) -> boxed s i lo n -> least_at s i lo n.
Proof.
  intros Hm (nd & ks & Hnd & Hks & Hbox). exists nd. split; [exact Hnd |].
  apply (least_box_perm _ _ _ ks); [exact Hks |].
  pose proof (fold_box_least (BVH.mesh s) ks Hm) as H.
  rewrite <- Hbox in H. exact H.
Qed.

Lemma tree_all_root P t : tree_all P t -> P (troot t) (tlo t) (tn t).
Proof. destruct t; simpl; tauto. Qed.

Lemma tree_all_and (P Q : Z -> Z -> Z -> Prop) t :
  tree_all P t -> tree_all Q t -> tree_all (fun i lo n => P i lo n /\ Q i lo n) t.
Proof. induction t; simpl; tauto. Qed.

Lemma tree_all_at pool (P : Z -> Z -> Z -> Prop) t : forall a,
  shaped pool t a -> tree_all P t ->
  forall i, i = troot t \/ a <= i < a + desc t -> exists lo n, P i lo n.
Proof.
  induction t as [i0 lo n | i0 lo n l IHl r IHr]; intros a; simpl.
  - intros _ HP i [-> | Hi]; [eauto | lia].
  - intros (Hi & Hlo & _ & Hrl & Hrr & Hll & Hlr & Hn & Hl & Hr) (HP & HPl & HPr) i Hi'.
    pose proof (shaped_facts _ _ _ Hl) as Fl. pose proof (shaped_facts _ _ _ Hr) as Fr.
    destruct Hi' as [-> | Hi']; [eauto |].
    destruct (decide (i = a \/ a + 2 <= i < a + 2 + desc l)) as [Hil | Hil].
    + apply (IHl (a + 2) Hl HPl). lia.
    + apply (IHr (a + 2 + desc l) Hr HPr). lia.
Qed.

Lemma shaped_same_topology s0 s t : forall a,
  same_topology s0 s -> shaped (BVH.bvhNode s0) t a -> shaped (BVH.bvhNode s) t a.
Proof.
  intros a (_ & _ & _ & _ & Htop). revert a.
  induction t as [i0 lo n | i0 lo n l IHl r IHr]; intros a; simpl.
  - intros (Hi & Hlo & Hn & nd & Hnd & H1 & H2).
    destruct (Htop _ _ Hnd) as (nd' & Hnd' & E1 & E2).
    repeat (split; [assumption |]). exists nd'. repeat split; congruence.
  - intros (Hi & Hlo & (nd & Hnd & H1 & H2) & Hrl & Hrr & Hll & Hlr & Hn & Hl & Hr).
    destruct (Htop _ _ Hnd) as (nd' & Hnd' & E1 & E2).
    repeat (split; [assumption |]).
    split; [exists nd'; repeat split; congruence |].
    repeat (split; [assumption |]). auto.
Qed.

Lemma refitted_least s t : forall a,
  shaped (BVH.bvhNode s) t a -> mesh_good (BVH.mesh s) ->
  (forall i, i = troot t \/ a <= i < a + desc t -> refitted s i) ->
  tree_all (least_at s) t.
Proof.
  induction t as [i0 lo n | i0 lo n l IHl r IHr]; intros a; simpl.
  - intros (Hi & Hlo & Hn & nd & Hnd & H1 & H2) Hm Hre.
    destruct (Hre i0 (or_introl eq_refl)) as (nd' & Hnd' & Hbox).
    assert (nd' = nd) by congruence. subst nd'.
    unfold BVHNode.isLeaf in Hbox. rewrite H2, (proj2 (Z.ltb_lt _ _) Hn), H1 in Hbox.
    exists nd. split; [exact Hnd |].
    pose proof (fold_box_least (BVH.mesh s) (range (BVH.triIdx s) lo n) Hm) as H.
    rewrite <- Hbox in H. exact H.
  - intros (Hi & Hlo & (nd & Hnd & H1 & H2) & Hrl & Hrr & Hll & Hlr & Hn & Hl & Hr) Hm Hre.
    pose proof (shaped_facts _ _ _ Hl) as Fl. pose proof (shaped_facts _ _ _ Hr) as Fr.
    assert (HAl : tree_all (least_at s) l)
      by (apply (IHl (a + 2)); auto; intros i Hi'; apply Hre; lia).
    assert (HAr : tree_all (least_at s) r)
      by (apply (IHr (a + 2 + desc l)); auto; intros i Hi'; apply Hre; lia).
    split; [| split; assumption].
    destruct (Hre i0 (or_introl eq_refl)) as (nd' & Hnd' & Hbox).
    assert (nd' = nd) by congruence. subst nd'.
    unfold BVHNode.isLeaf in Hbox. rewrite H2 in Hbox. simpl in Hbox.
    destruct Hbox as (cl & cr & Hcl & Hcr & Emn & Emx). rewrite H1 in Hcl, Hcr.
    destruct (tree_all_root _ _ HAl) as (ndl & Hndl & Ll).
    destruct (tree_all_root _ _ HAr) as (ndr & Hndr & Lr).
    rewrite Hrl in Hndl. rewrite Hrr in Hndr.
    assert (ndl = cl) by congruence. assert (ndr = cr) by congruence. subst ndl ndr.
    exists nd. split; [exact Hnd |]. rewrite Emn, Emx.
    rewrite (range_app _ lo (tn l) n) by lia.
    rewrite Hll in Ll. rewrite Hlr in Lr.
    replace (n - tn l) with (tn r) by lia.
    apply least_box_merge; assumption.
Qed.

Lemma with_centroid_good m :
  mesh_good m -> mesh_good (Mesh.mk (map with_centroid (Mesh.tri m))).
Proof.
  unfold mesh_good. simpl. intros H. apply Forall_fmap. eapply Forall_impl; [exact H |].
  intros tr Htr. exact Htr.
Qed.

Lemma with_centroid_plain m :
  mesh_plain m -> mesh_plain (Mesh.mk (map with_centroid (Mesh.tri m))).
Proof.
  unfold mesh_plain. simpl. intros H. apply Forall_fmap. eapply Forall_impl; [exact H |].
  intros tr Htr. exact Htr.
Qed.

(** C6, amended: for every mesh whose coordinates are numbers (no NaN),
    [Refit] right after [Build], with the mesh unchanged, completes and
    leaves every node in use with a box equal (the [==] of single precision,
    on each component of [aabbMin] and [aabbMax]) to the one [Build] gave
    it; when moreover no coordinate is a negative zero, the BLAS after
    [Refit] is the very same as before. *)
Theorem Build_Refit_same_boxes (m : Mesh.t) rawNode rawIdx rawUsed (fuel : nat) (b : BVH.t) :
  mesh_good m ->
  BVH.Build fuel (BVH.alloc m rawNode rawIdx rawUsed) = Ok b ->
  exists b',
    BVH.Refit b = Ok b' /\
    (forall i nd, 0 <= i < BVH.nodesUsed b -> i <> 1 ->
       BVH.bvhNode b !! Z.to_nat i = Some nd ->
       exists nd',
         BVH.bvhNode b' !! Z.to_nat i = Some nd' /\
         vec_eqb (BVHNode.aabbMin nd') (BVHNode.aabbMin nd) = true /\
         vec_eqb (BVHNode.aabbMax nd') (BVHNode.aabbMax nd) = true) /\
    (mesh_plain m -> b' = b).
Proof.
  intros Hgood HB. destruct (Build_Ok_built _ _ _ _ _ _ HB) as (HT & Hwf & Hmesh & _).
  pose proof Hwf as ([Hal1 Hal2] & Hv & t & Ht1 & Ht2 & Ht3 & Hsh & Hnu & Hall).
  simpl in Hmesh.
  assert (Hmb : BVH.mesh b = Mesh.mk (map with_centroid (Mesh.tri m)))
    by (destruct (BVH.mesh b); simpl in *; congruence).
  assert (Hgb : mesh_good (BVH.mesh b)) by (rewrite Hmb; apply with_centroid_good; exact Hgood).
  destruct (Refit_spec b (wf_blas_topo b Hwf)) as (b' & HR & Hsame & Hlow & Hhigh).
  pose proof Hsame as (Hm' & Hi' & Hnu' & Hl' & Htop).
  exists b'. split; [exact HR |].
  (* both states give least boxes to the nodes of the same tree *)
  assert (HL : tree_all (least_at b) t)
    by (eapply tree_all_mono; [| exact Hall]; intros; apply boxed_least; assumption).
  assert (HL' : tree_all (least_at b') t).
  { apply (refitted_least b' t 2); [eapply shaped_same_topology; eassumption | congruence |].
    pose proof (shaped_facts _ _ _ Hsh) as Ft.
    intros i Hi. apply Hhigh; lia. }
  assert (Hnodes : forall i nd, 0 <= i < BVH.nodesUsed b -> i <> 1 ->
            BVH.bvhNode b !! Z.to_nat i = Some nd ->
            exists nd',
              BVH.bvhNode b' !! Z.to_nat i = Some nd' /\
              BVHNode.leftFirst nd' = BVHNode.leftFirst nd /\
              BVHNode.triCount nd' = BVHNode.triCount nd /\
              (vec_eqb (BVHNode.aabbMin nd') (BVHNode.aabbMin nd) = true /\
               vec_eqb (BVHNode.aabbMax nd') (BVHNode.aabbMax nd) = true) /\
              (mesh_plain (BVH.mesh b) ->
               BVHNode.aabbMin nd' = BVHNode.aabbMin nd /\
               BVHNode.aabbMax nd' = BVHNode.aabbMax nd)).
  { intros i nd Hi Hi1 Hnd.
    destruct (tree_all_at _ _ t 2 Hsh (tree_all_and _ _ _ HL HL') i ltac:(lia))
      as (lo & n & (nd0 & Hnd0 & L0) & (nd' & Hnd' & L')).
    assert (nd0 = nd) by congruence. subst nd0.
    destruct (Htop _ _ Hnd) as (nd'' & Hnd'' & E1 & E2).
    assert (nd'' = nd') by congruence. subst nd''.
    exists nd'. split; [exact Hnd' |]. split; [exact E1 |]. split; [exact E2 |].
    rewrite Hm', Hi' in L'.
    exact (least_box_unique _ _ _ _ _ _ Hgb L' L0). }
  split.
  - intros i nd Hi Hi1 Hnd. destruct (Hnodes i nd Hi Hi1 Hnd) as (nd' & H1 & _ & _ & H2 & _).
    exists nd'. tauto.
  - intros Hplain.
    assert (Hpb : mesh_plain (BVH.mesh b))
      by (rewrite Hmb; apply with_centroid_plain; exact Hplain).
    assert (Hpool : BVH.bvhNode b' = BVH.bvhNode b).
    { apply list_eq. intros k.
      destruct (decide (Z.of_nat k < BVH.nodesUsed b /\ k <> 1%nat)) as [[Hk Hk1] | Hk].
      - destruct (BVH.bvhNode b !! k) as [nd |] eqn:Hnd.
        + destruct (Hnodes (Z.of_nat k) nd ltac:(lia) ltac:(lia)) as (nd' & H1 & E1 & E2 & _ & H3);
            [rewrite Nat2Z.id; exact Hnd |].
          rewrite Nat2Z.id in H1. rewrite H1. f_equal.
          destruct (H3 Hpb) as [E3 E4]. destruct nd, nd'; simpl in *. congruence.
        + apply lookup_ge_None in Hnd. apply lookup_ge_None. lia.
      - specialize (Hlow (Z.of_nat k) ltac:(lia) ltac:(lia)).
        rewrite Nat2Z.id in Hlow. exact Hlow. }
    destruct b, b'; simpl in *. congruence.
Qed.

(** Two triangles far apart: [Build] splits them into two leaves. *)
Definition far_tri : Tri :=
  mkTri (make_float3 (F32.of_Z 10) F32.zero F32.zero)
        (make_float3 (F32.of_Z 11) F32.zero F32.zero)
        (make_float3 (F32.of_Z 10) F32.one F32.zero)
        (float3_of F32.zero).

Definition mesh2 : Mesh.t := Mesh.mk [unit_tri; far_tri].

Definition built2 : BVH.t :=
  Eval vm_compute in
    match BVH.Build 2 (BVH.alloc mesh2 raw_node raw_idx 0) with
    | Ok b => b
    | Fault _ => BVH.alloc mesh2 raw_node raw_idx 0
    end.

Lemma built2_eq : BVH.Build 2 (BVH.alloc mesh2 raw_node raw_idx 0) = Ok built2.
Proof. vm_compute. reflexivity. Qed.

Lemma built2_split : BVH.nodesUsed built2 = 4 /\ BVH.triIdx built2 = [0; 1].
Proof. split; reflexivity. Qed.

Lemma mesh2_good : mesh_good mesh2.
Proof. repeat constructor; discriminate. Qed.

Lemma mesh2_plain : mesh_plain mesh2.
Proof. repeat constructor; discriminate. Qed.

Lemma Build_Refit_same_boxes_witness : BVH.Refit built2 = Ok built2.
Proof.
  destruct (Build_Refit_same_boxes mesh2 raw_node raw_idx 0 2 built2 mesh2_good built2_eq)
    as (b' & HR & _ & Hsame).
  rewrite HR. f_equal. exact (Hsame mesh2_plain).
Defined.

(** Two triangles apart along y; the upper one comes first and has its
    least x at [+0], the lower one has it at [-0]. *)
Definition tri_upper : Tri :=
  mkTri (make_float3 F32.zero (F32.of_Z 10) F32.zero)
        (make_float3 F32.one (F32.of_Z 10) F32.zero)
        (make_float3 F32.zero (F32.of_Z 11) F32.zero)
        (float3_of F32.zero).

Definition tri_lower : Tri :=
  mkTri (make_float3 (S754_zero true) F32.zero F32.zero)
        (make_float3 F32.one F32.zero F32.zero)
        (make_float3 (S754_zero true) F32.one F32.zero)
        (float3_of F32.zero).

Definition mesh_negzero : Mesh.t := Mesh.mk [tri_upper; tri_lower].

(** A triangle that reaches down to x = -50, high up along y, and three
    copies of the unit triangle, the first of them with a NaN for the x of
    its first vertex. *)
Definition tri_wide : Tri :=
  mkTri (make_float3 (F32.of_Z (-50)) (F32.of_Z 40) F32.zero)
        (make_float3 (F32.of_Z 51) (F32.of_Z 40) F32.zero)
        (make_float3 F32.zero (F32.of_Z 41) F32.zero)
        (float3_of F32.zero).

Definition tri_nan : Tri :=
  mkTri (make_float3 S754_nan F32.zero F32.zero)
        (make_float3 F32.one F32.zero F32.zero)
        (make_float3 F32.zero F32.one F32.zero)
        (float3_of F32.zero).

Definition mesh_nan : Mesh.t := Mesh.mk [tri_wide; tri_nan; unit_tri; unit_tri].

(** The x of [aabbMin] of the root after [Build], and after [Build] and
    [Refit]. *)
Definition root_min_x (fuel : nat) (m : Mesh.t) : option (float * float) :=
  match BVH.Build fuel (BVH.alloc m raw_node raw_idx 0) with
  | Ok b =>
      match BVH.Refit b with
      | Ok b' =>
          match BVH.bvhNode b !! 0%nat, BVH.bvhNode b' !! 0%nat with
          | Some nd, Some nd' => Some (x (BVHNode.aabbMin nd), x (BVHNode.aabbMin nd'))
          | _, _ => None
          end
      | Fault _ => None
      end
  | Fault _ => None
  end.

(** C6, as stated, fails.  [fminf] keeps its second argument when the two
    are equal or the first is a NaN, and [Build] folds the vertices of a node
    in the order of the triangles where [Refit] joins the boxes of the two
    children.  On [mesh_negzero], which has no NaN, [Build] splits the two
    triangles and leaves the root with [aabbMin.x = -0]; [Refit] makes it
    [+0]: the boxes are equal as numbers but not identical.  On [mesh_nan]
    [Build] completes with a root whose [aabbMin.x] is 0, the NaN having
    hidden the -50 before it; [Refit] makes it -50. *)
Lemma Build_Refit_changes_a_box :
  (mesh_good mesh_negzero /\
   root_min_x 2 mesh_negzero = Some (S754_zero true, S754_zero false)) /\
  root_min_x 4 mesh_nan = Some (F32.zero, F32.of_Z (-50)).
Proof.
  split; [split |].
  - repeat constructor; discriminate.
  - vm_compute. reflexivity.
  - vm_compute. reflexivity.
Qed.

(** ** The centroids *)

(** The centroid as the specification has it: the sum of the three vertices
    divided by 3, in single precision. *)
Definition third_of_sum (tr : Tri) : float3 :=
  let sum := add3 (add3 (vertex0 tr) (vertex1 tr)) (vertex2 tr) in
  make_float3 (x sum / F32.of_Z 3)%f32 (y sum / F32.of_Z 3)%f32 (z sum / F32.of_Z 3)%f32.

(** A triangle in the plane x = 3. *)
Definition tri_x3 : Tri :=
  mkTri (make_float3 (F32.of_Z 3) F32.zero F32.zero)
        (make_float3 (F32.of_Z 3) (F32.of_Z 3) F32.zero)
        (make_float3 (F32.of_Z 3) F32.zero (F32.of_Z 3))
        (float3_of F32.zero).

(** C8, as stated, fails: [Build] stores for this triangle a centroid whose
    x is below 3, while the three vertices have x = 3 and a third of their
    sum is 3. *)
Lemma centroid_not_third :
  exists b tr,
    BVH.Build 1 (BVH.alloc (Mesh.mk [tri_x3]) raw_node raw_idx 0) = Ok b /\
    Mesh.tri (BVH.mesh b) !! 0%nat = Some tr /\
    x (third_of_sum tr) = F32.of_Z 3 /\
    (x (centroid tr) <? F32.of_Z 3)%f32 = true /\
    centroid tr <> third_of_sum tr.
Proof.
  eexists _, _. split; [vm_compute; reflexivity |].
  split; [reflexivity |]. split; [vm_compute; reflexivity |].
  split; [vm_compute; reflexivity |]. vm_compute. discriminate.
Qed.

(** C8, amended: at its start [Build] recomputes the centroid of every
    triangle as the sum (v0 + v1) + v2 multiplied by the constant 0.3333f, in
    single precision, and leaves the vertices as they are; the triangles of a
    BLAS that [Build] returns are these. *)
Theorem Build_centroids (m : Mesh.t) rawNode rawIdx rawUsed :
  let stored := fun tr =>
    mkTri (vertex0 tr) (vertex1 tr) (vertex2 tr)
          (scale3 (add3 (add3 (vertex0 tr) (vertex1 tr)) (vertex2 tr)) F32.f03333) in
  (exists s, BVH.Build_init (BVH.alloc m rawNode rawIdx rawUsed) = Ok s /\
             Mesh.tri (BVH.mesh s) = map stored (Mesh.tri m)) /\
  (forall fuel b, BVH.Build fuel (BVH.alloc m rawNode rawIdx rawUsed) = Ok b ->
                  Mesh.tri (BVH.mesh b) = map stored (Mesh.tri m)).
Proof.
  cbv zeta. split.
  - eexists. split; [apply Build_init_spec; apply alloc_allocated | reflexivity].
  - intros fuel b HB. destruct (Build_Ok_built _ _ _ _ _ _ HB) as (_ & _ & Hm & _).
    exact Hm.
Qed.

Lemma Build_centroids_witness :
  Mesh.tri (BVH.mesh built1)
  = [mkTri (vertex0 unit_tri) (vertex1 unit_tri) (vertex2 unit_tri)
           (make_float3 F32.f03333 F32.f03333 F32.zero)].
Proof.
  rewrite (proj2 (Build_centroids mesh1 raw_node raw_idx 0) 1%nat built1 built1_eq).
  vm_compute. reflexivity.
Defined.
(** ** Empty inputs *)

(** A ray from (0.25, 0.25, -1) along +z, with its reciprocal direction. *)
Definition ray_z : Ray :=
  mkRay (make_float3 (F32.of_ratio 1 4) (F32.of_ratio 1 4) (F32.of_Z (-1)))
        (make_float3 F32.zero F32.zero F32.one)
        (make_float3 (S754_infinity false) (S754_infinity false) F32.one)
        (mkIntersection F32.f1e30 F32.zero F32.zero 0).

(** A BLAS over the empty mesh in a pool that has two slots: what the
    constructor gives when the allocation of zero bytes leaves room. *)
Definition roomy_empty : BVH.t := BVH.mk (Mesh.mk []) [raw_node 0%nat; raw_node 1%nat] [] 0.

Definition built_empty : BVH.t :=
  Eval vm_compute in
    match BVH.Build 1 roomy_empty with
    | Ok b => b
    | Fault _ => roomy_empty
    end.

Lemma built_empty_eq : BVH.Build 1 roomy_empty = Ok built_empty.
Proof. vm_compute. reflexivity. Qed.

(** A root that is an interior node with itself as first child, a box that
    the ray passes and a second child that the ray misses: the loop of
    [Intersect] comes back to the root with nothing changed. *)
Lemma traverse_self_loop s inst ray nd n1 fuel :
  BVH.bvhNode s !! 0%nat = Some nd -> BVH.bvhNode s !! 1%nat = Some n1 ->
  BVHNode.isLeaf nd = false -> BVHNode.leftFirst nd = 0 ->
  (IntersectAABB ray (BVHNode.aabbMin nd) (BVHNode.aabbMax nd)
   >? IntersectAABB ray (BVHNode.aabbMin n1) (BVHNode.aabbMax n1))%f32 = false ->
  (IntersectAABB ray (BVHNode.aabbMin nd) (BVHNode.aabbMax nd) =? F32.f1e30)%f32 = false ->
  (IntersectAABB ray (BVHNode.aabbMin n1) (BVHNode.aabbMax n1) =? F32.f1e30)%f32 = true ->
  BVH.traverse (S fuel) s inst 0 [] ray = BVH.traverse fuel s inst 0 [] ray.
Proof.
  intros H0 H1 Hleaf Hl Hgt Hd1 Hd2.
  change (BVH.traverse (S fuel) s inst 0 [] ray) with
    (nd ← rd NodePool (BVH.bvhNode s) 0;
     if BVHNode.isLeaf nd then
       ray ← BVH.leaf_tris s inst nd ray;
       Ok ray
     else
       c1 ← rd NodePool (BVH.bvhNode s) (BVHNode.leftFirst nd);
       c2 ← rd NodePool (BVH.bvhNode s) (BVHNode.leftFirst nd + 1);
       let dist1 := IntersectAABB ray (BVHNode.aabbMin c1) (BVHNode.aabbMax c1) in
       let dist2 := IntersectAABB ray (BVHNode.aabbMin c2) (BVHNode.aabbMax c2) in
       let '(dist1, dist2, child1, child2) :=
         if (dist1 >? dist2)%f32
         then (dist2, dist1, BVHNode.leftFirst nd + 1, BVHNode.leftFirst nd)
         else (dist1, dist2, BVHNode.leftFirst nd, BVHNode.leftFirst nd + 1) in
       if (dist1 =? F32.f1e30)%f32 then Ok ray
       else if negb (dist2 =? F32.f1e30)%f32 then
         if 64 <=? Z.of_nat (length (@nil Z)) then Fault (OutOfBounds StackArr)
         else BVH.traverse fuel s inst child1 [child2] ray
       else BVH.traverse fuel s inst child1 [] ray).
  assert (R0 : rd NodePool (BVH.bvhNode s) 0 = Ok nd) by (apply rd_Ok; auto with lia).
  assert (R1 : rd NodePool (BVH.bvhNode s) (0 + 1) = Ok n1) by (apply rd_Ok; auto with lia).
  rewrite R0. cbn [mbind result_bind]. rewrite Hleaf, Hl, R0. cbn [mbind result_bind].
  rewrite R1. cbn [mbind result_bind]. cbv zeta. rewrite Hgt, Hd1, Hd2. reflexivity.
Qed.

Lemma traverse_empty_step fuel :
  BVH.traverse (S fuel) built_empty 0 0 [] ray_z = BVH.traverse fuel built_empty 0 0 [] ray_z.
Proof.
  eapply traverse_self_loop;
    [reflexivity | reflexivity | reflexivity | reflexivity | vm_compute; reflexivity
     | vm_compute; reflexivity | vm_compute; reflexivity].
Qed.

Lemma traverse_empty_diverges fuel :
  BVH.Intersect fuel built_empty ray_z 0 = Fault OutOfFuel.
Proof.
  unfold BVH.Intersect. induction fuel as [| fuel IH]; [reflexivity |].
  rewrite traverse_empty_step. exact IH.
Qed.

(** C7, evaluated on the empty inputs.  [Build] on the BLAS constructed over
    a mesh without triangles writes the root into a pool of no slot; where
    the pool has room all the same, [Build] completes with a root that is not
    a leaf ([triCount = 0]) and whose first child is the root itself, and the
    traversal of a ray does not end, whatever the fuel; [TLAS::Build] over no
    instance reads [nodeIdx[0]] in an array of no entry. *)
Theorem empty_inputs :
  (forall fuel rawNode rawIdx rawUsed,
     BVH.Build fuel (BVH.alloc (Mesh.mk []) rawNode rawIdx rawUsed)
     = Fault (OutOfBounds NodePool)) /\
  (BVH.Build 1 roomy_empty = Ok built_empty /\
   (exists root, BVH.bvhNode built_empty !! 0%nat = Some root /\
                 BVHNode.isLeaf root = false /\ BVHNode.leftFirst root = 0) /\
   forall fuel, BVH.Intersect fuel built_empty ray_z 0 = Fault OutOfFuel) /\
  (forall fuel rawNode rawIdx,
     TLAS.Build fuel (TLAS.alloc [] rawNode rawIdx) = Fault (OutOfBounds NodeIdxArr)).
Proof.
  split; [| split; [split; [| split] |]].
  - intros. apply Build_empty; [reflexivity | apply alloc_allocated].
  - exact built_empty_eq.
  - eexists. split; [reflexivity |]. split; reflexivity.
  - exact traverse_empty_diverges.
  - intros fuel rawNode rawIdx. destruct fuel; reflexivity.
Qed.

(** ** The sort of the fast TLAS build *)

(** The midpoint of the world-space box of an instance along an axis, as the
    specification has it. *)
Definition midpoint (b : BVHInstance) (axis : Z) : float :=
  ((axis_get (bmin (bounds b)) axis + axis_get (bmax (bounds b)) axis) * F32.fhalf)%f32.

Fixpoint nondecreasing (l : list float) : bool :=
  match l with
  | a :: (b :: _) as rest => (a <=? b)%f32 && nondecreasing rest
  | _ => true
  end.

(** The midpoints, along [axis], of the instances in the order of the items. *)
Definition midpoints (blas : list BVHInstance) (axis : Z) (items : list SortItem)
  : list float :=
  omap (fun it => option_map (fun b => midpoint b axis) (blas !! Z.to_nat (blasIdx it))) items.

(** 32 instances of the one-triangle BLAS: instance 0 stretched to the box
    [0,100] x [0,1] x [0,0], instance k moved to [k,k+1] x [0,1] x [0,0]. *)
Definition mat_identity : mat4 :=
  mkMat4 (fun i => if (i mod 5 =? 0)%nat then F32.one else F32.zero).

Definition instance_at (k lo hi : Z) : BVHInstance :=
  mkInstance built1
    (mkAabb (make_float3 (F32.of_Z lo) F32.zero F32.zero)
            (make_float3 (F32.of_Z hi) F32.one F32.zero))
    k mat_identity.

Definition instances32 : list BVHInstance :=
  instance_at 0 0 100 :: map (fun k => instance_at k k (k + 1)) (seqZ 1 31).

Definition raw_item : nat -> SortItem := fun _ => mkSortItem F32.zero 7.
Definition raw_tnode : nat -> TLASNode.t :=
  fun _ => TLASNode.mk (float3_of F32.zero) 9 (float3_of F32.zero) 9.

(** The items as [SortAndSplit] holds them at level 0 before its sort. *)
Definition items32 : list SortItem := map (fun k => mkSortItem F32.zero k) (seqZ 0 32).

(** C4, evaluated: the sort of the whole list at level 0 (axis 0) puts the
    items in the order of the keys the code computes, which are the lower
    bounds [bmin[axis]] of the boxes; the instance with the box [0,100]
    comes first and the midpoints along the axis, 50, 1.5, 2.5, ..., are not
    in non-decreasing order.  The pre-split of [BuildQuick] completes on these
    instances. *)
Theorem sort_is_by_lower_bound :
  exists items,
    sort_range 32 instances32 0 0 31 items32 = Ok items /\
    map blasIdx items = seqZ 0 32 /\
    map pos items = map (fun k => F32.of_Z k) (seqZ 0 32) /\
    nondecreasing (map pos items) = true /\
    nondecreasing (midpoints instances32 0 items) = false /\
    exists r, BuildQuick_presplit 32 raw_item (TLAS.alloc instances32 raw_tnode raw_idx)
                statics_init = Ok r.
Proof.
  eexists. split; [vm_compute; reflexivity |].
  repeat (split; [vm_compute; reflexivity |]).
  eexists. vm_compute. reflexivity.
Qed.

(** ** A mesh of any size is built *)

(** The triangle with its three vertices at the origin. *)
Definition zero_tri : Tri :=
  mkTri (float3_of F32.zero) (float3_of F32.zero) (float3_of F32.zero) (float3_of F32.zero).

Definition zero_box : float3 * float3 := (float3_of F32.zero, float3_of F32.zero).

Lemma tris_of_replicate (M : nat) (tr : Tri) ks :
  Forall (fun k => 0 <= k < Z.of_nat M) ks ->
  tris_of (Mesh.mk (replicate M tr)) ks = replicate (length ks) tr.
Proof.
  unfold tris_of. simpl. induction ks as [| k ks IH]; intros H; [reflexivity |].
  apply Forall_cons in H as [Hk Hks]. csimpl.
  rewrite lookup_replicate_2 by lia. csimpl. rewrite IH by exact Hks. reflexivity.
Qed.

Lemma fold_box_zero (n : nat) :
  (0 < n)%nat -> fold_box (replicate n zero_tri) = zero_box.
Proof.
  destruct n as [| n]; [lia |]. intros _. unfold fold_box. simpl.
  change (box_step (float3_of F32.f1e30, float3_of F32.fm1e30) zero_tri) with zero_box.
  induction n as [| n IH]; [reflexivity |]. simpl.
  change (box_step zero_box zero_tri) with zero_box. exact IH.
Qed.

Section Uniform.
  Variable N : nat.
  Hypothesis HN : (0 < N)%nat.
  Variable s : BVH.t.
  Hypothesis Hmesh : BVH.mesh s = Mesh.mk (replicate N zero_tri).
  Hypothesis Hidx : BVH.triIdx s = seqZ 0 (Z.of_nat N).

Lemma uniform_tri_of k : 0 <= k < Z.of_nat N -> BVH.tri_of s k = Ok zero_tri.
Proof.
  intros Hk. unfold BVH.tri_of. rewrite Hidx, Hmesh.
  rewrite (proj2 (rd_Ok TriIdxArr (seqZ 0 (Z.of_nat N)) k k)).
  2: { split; [lia |]. apply lookup_seqZ. lia. }
  cbn [mbind result_bind Mesh.tri]. apply rd_Ok. split; [lia |].
  apply lookup_replicate_2. lia.
Qed.

Lemma uniform_centroid_span node a :
  BVHNode.leftFirst node = 0 -> BVHNode.triCount node = Z.of_nat N ->
  BVH.centroid_span s node a = Ok (F32.zero, F32.zero).
Proof.
  intros Hl Hc. unfold BVH.centroid_span. rewrite Hl, Hc, Nat2Z.id.
  apply for_loop_total with
    (I := fun k acc => 0 <= k /\ (if k =? 0 then acc = (F32.f1e30, F32.fm1e30)
                                  else acc = (F32.zero, F32.zero))).
  - split; [lia | reflexivity].
  - intros k [mn mx] Hk [Hk0 Hacc]. rewrite uniform_tri_of by lia.
    cbn [mbind result_bind]. unfold satisfies. split; [lia |].
    replace (k + 1 =? 0) with false by (symmetry; apply Z.eqb_neq; lia).
    assert (Hax : axis_get (centroid zero_tri) a = F32.zero)
      by (unfold axis_get; destruct (a =? 0), (a =? 1); reflexivity).
    rewrite Hax. destruct (k =? 0); injection Hacc as -> ->; reflexivity.
  - intros [mn mx] [_ Hacc].
    replace (0 + Z.of_nat N =? 0) with false in Hacc by (symmetry; apply Z.eqb_neq; lia).
    exact Hacc.
Qed.

Lemma uniform_FindBestSplitPlane node :
  BVHNode.leftFirst node = 0 -> BVHNode.triCount node = Z.of_nat N ->
  BVH.FindBestSplitPlane s node = Ok (F32.f1e30, None).
Proof.
  intros Hl Hc. unfold BVH.FindBestSplitPlane.
  apply for_loop_total with (I := fun _ best => best = (F32.f1e30, None)).
  - reflexivity.
  - intros a best _ ->. rewrite uniform_centroid_span by assumption.
    cbn [mbind result_bind]. reflexivity.
  - auto.
Qed.
End Uniform.

(** [Build] on a mesh of [N] triangles at the origin: the root stays the only
    node.  [N] is any number that single precision takes to a positive
    number. *)
Lemma Build_uniform (N : nat) rawNode rawIdx rawUsed m e :
  (0 < N)%nat -> F32.of_Z (Z.of_nat N) = S754_finite false m e ->
  exists b,
    BVH.Build 1 (BVH.alloc (Mesh.mk (replicate N zero_tri)) rawNode rawIdx rawUsed) = Ok b /\
    BVH.nodesUsed b = 2 /\
    BVH.triIdx b = seqZ 0 (Z.of_nat N) /\
    exists root, BVH.bvhNode b !! 0%nat = Some root /\
                 BVHNode.leftFirst root = 0 /\ BVHNode.triCount root = Z.of_nat N.
Proof.
  intros HN HofZ.
  set (s := BVH.alloc (Mesh.mk (replicate N zero_tri)) rawNode rawIdx rawUsed).
  assert (Hal : allocated s) by apply alloc_allocated.
  assert (HT : Mesh.triCount (BVH.mesh s) = Z.of_nat N)
    by (unfold Mesh.triCount; simpl; rewrite length_replicate; reflexivity).
  unfold BVH.Build. rewrite (Build_init_spec s (proj1 Hal)).
  cbn [mbind result_bind BVH.bvhNode BVH.mesh]. rewrite HT.
  assert (Hmap : map with_centroid (Mesh.tri (BVH.mesh s)) = replicate N zero_tri).
  { simpl. change (map with_centroid) with (fmap (M := list) with_centroid).
    rewrite fmap_replicate. reflexivity. }
  rewrite Hmap.
  assert (Hplen : Z.of_nat (length (BVH.bvhNode s)) = Z.of_nat N * 2)
    by (rewrite <- HT; exact (proj2 Hal)).
  destruct (lookup_lt_is_Some_2 (BVH.bvhNode s) (Z.to_nat 0)) as [r0 Hr0]; [lia |].
  rewrite (upd_node_spec _ 0 _ r0) by first [lia | exact Hr0]. cbn [mbind result_bind].
  rewrite (upd_node_spec _ 0 _ (BVHNode.set_leftFirst 0 r0))
    by (try lia; rewrite list_lookup_insert_eq by (apply lookup_lt_Some in Hr0; lia);
        reflexivity).
  cbn [mbind result_bind]. rewrite list_insert_insert_eq.
  assert (HT' : Mesh.triCount {| Mesh.tri := replicate N zero_tri |} = Z.of_nat N)
    by (unfold Mesh.triCount; simpl; rewrite length_replicate; reflexivity).
  rewrite HT'.
  set (n0 := BVHNode.set_triCount (Z.of_nat N) (BVHNode.set_leftFirst 0 r0)).
  match goal with |- context [BVH.UpdateNodeBounds 0 ?x] => set (s1 := x) end.
  assert (Hv1 : valid_idx s1).
  { unfold valid_idx, s1.
    cbn [BVH.mesh BVH.triIdx BVH.set_bvhNode BVH.bvhNode BVH.nodesUsed].
    rewrite HT'. apply Forall_forall. intros k Hk. apply elem_of_seqZ in Hk. lia. }
  apply lookup_lt_Some in Hr0 as Hr0'.
  rewrite (UpdateNodeBounds_spec s1 0 n0);
    [| lia | unfold s1; cbn [BVH.bvhNode BVH.set_bvhNode];
             rewrite list_lookup_insert_eq by exact Hr0'; reflexivity
     | simpl; lia | simpl; lia
     | unfold s1; cbn [BVH.triIdx BVH.set_bvhNode]; rewrite length_seqZ; simpl; lia
     | exact Hv1].
  cbn [mbind result_bind].
  (* the box of the root *)
  assert (Hbox : fold_box (tris_of (BVH.mesh s1)
                   (range (BVH.triIdx s1) (BVHNode.leftFirst n0) (BVHNode.triCount n0)))
                 = zero_box).
  { unfold s1. cbn [BVH.mesh BVH.triIdx BVH.set_bvhNode n0 BVHNode.leftFirst
                    BVHNode.triCount BVHNode.set_triCount BVHNode.set_leftFirst].
    rewrite tris_of_replicate.
    - apply fold_box_zero. rewrite length_range; rewrite ?length_seqZ; lia.
    - apply Forall_forall. intros k Hk. unfold range in Hk.
      apply subseteq_take, subseteq_drop in Hk.
      apply elem_of_seqZ in Hk. lia. }
  rewrite Hbox. cbn [fst snd zero_box].
  match goal with |- context [BVH.Subdivide 1 0 ?x] => set (s2 := x) end.
  set (root := BVHNode.set_bounds (float3_of F32.zero) (float3_of F32.zero) n0).
  assert (Hroot : BVH.bvhNode s2 !! Z.to_nat 0 = Some root)
    by (unfold s2, s1; cbn [BVH.bvhNode BVH.set_bvhNode];
        rewrite list_lookup_insert_eq by (rewrite length_insert; exact Hr0');
        reflexivity).
  cbn [BVH.Subdivide]. unfold BVH.split_node.
  rewrite (proj2 (rd_Ok NodePool _ 0 root)) by (split; [lia | exact Hroot]).
  cbn [mbind result_bind].
  rewrite (uniform_FindBestSplitPlane N HN s2) by reflexivity.
  cbn [mbind result_bind].
  assert (Hcost : (BVHNode.CalculateNodeCost root <=? F32.f1e30)%f32 = true).
  { unfold BVHNode.CalculateNodeCost, root, n0.
    cbn [BVHNode.aabbMin BVHNode.aabbMax BVHNode.triCount BVHNode.set_bounds
         BVHNode.set_triCount BVHNode.set_leftFirst].
    rewrite HofZ. reflexivity. }
  rewrite Hcost. cbn [mbind result_bind].
  exists s2. split; [reflexivity |]. split; [reflexivity |]. split; [reflexivity |].
  exists root. split; [exact Hroot |]. split; reflexivity.
Qed.
(** The leaf that [TLAS::Build] writes for instance [i], lines 359-364. *)
Definition leaf_of (b : BVHInstance) (i : Z) : TLASNode.t :=
  TLASNode.mk (bmin (bounds b)) 0 (bmax (bounds b)) i.

Definition leaves_assigned (insts : list BVHInstance) (k : Z) (s : TLAS.t) : Prop :=
  TLAS.blas s = insts /\
  TLAS.blasCount s = Z.of_nat (length insts) /\
  TLAS.nodesUsed s = 1 + k /\
  Z.of_nat (length (TLAS.nodeIdx s)) = Z.of_nat (length insts) /\
  Z.of_nat (length (TLAS.tlasNode s)) = 2 * Z.of_nat (length insts) + 2 /\
  forall i b, 0 <= i < k -> insts !! Z.to_nat i = Some b ->
    TLAS.nodeIdx s !! Z.to_nat i = Some (1 + i) /\
    TLAS.tlasNode s !! Z.to_nat (1 + i) = Some (leaf_of b i).

(** Lines 357-365 run to their end for any number of instances. *)
Lemma assign_leaves_total insts rawNode rawIdx :
  exists s, TLAS.assign_leaves (TLAS.alloc insts rawNode rawIdx) = Ok s /\
            leaves_assigned insts (Z.of_nat (length insts)) s.
Proof.
  apply sat_never. unfold TLAS.assign_leaves.
  set (s0 := TLAS.alloc insts rawNode rawIdx).
  assert (HN : TLAS.blasCount s0 = Z.of_nat (length insts)) by reflexivity.
  rewrite HN, Nat2Z.id.
  apply (sat_for_loop (leaves_assigned insts) (fun _ => False) (length insts) 0).
  - unfold leaves_assigned, s0. cbn. rewrite !length_map, !length_seq.
    repeat split; try lia. all: intros; lia.
  - intros k s Hk (Hb & Hc & Hu & Hli & Hlp & Hl).
    rewrite wr_in_range by lia. cbn [mbind result_bind].
    destruct (lookup_lt_is_Some_2 insts (Z.to_nat k)) as [b Hbk]; [lia |].
    rewrite (proj2 (rd_Ok BlasArr (TLAS.blas s) k b)) by (rewrite Hb; split; [lia | exact Hbk]).
    cbn [mbind result_bind]. unfold upd_tnode.
    destruct (lookup_lt_is_Some_2 (TLAS.tlasNode s) (Z.to_nat (TLAS.nodesUsed s)))
      as [n Hn]; [lia |].
    rewrite (proj2 (rd_Ok TlasPool _ _ n)) by (split; [lia | exact Hn]).
    cbn [mbind result_bind]. rewrite wr_in_range by lia.
    cbn [mbind result_bind]. unfold satisfies, leaves_assigned.
    cbn [TLAS.blas TLAS.blasCount TLAS.nodesUsed TLAS.nodeIdx TLAS.tlasNode
         TLAS.set_nodesUsed TLAS.set_tlasNode TLAS.set_nodeIdx].
    rewrite !length_insert.
    repeat split; try assumption; try lia.
    + destruct (Z.eq_dec i k) as [-> | Hne].
      * rewrite list_lookup_insert_eq by lia. f_equal. lia.
      * rewrite list_lookup_insert_ne by lia. apply (Hl i b0); [lia | assumption].
    + destruct (Z.eq_dec i k) as [-> | Hne].
      * rewrite Hu. rewrite list_lookup_insert_eq by lia.
        assert (b0 = b) by congruence. subst b0. reflexivity.
      * rewrite list_lookup_insert_ne by lia. apply (Hl i b0); [lia | assumption].
Qed.
(** A mesh of [2^20 + 1] triangles, and [65536] instances. *)
Definition big_mesh : Mesh.t := Mesh.mk (replicate (Z.to_nat 1048577) zero_tri).

Definition many_instances : list BVHInstance :=
  replicate (Z.to_nat 65536) (instance_at 0 0 1).

Lemma big_mesh_triCount : Mesh.triCount big_mesh = 1048577.
Proof.
  unfold Mesh.triCount, big_mesh. cbn [Mesh.tri]. rewrite length_replicate. lia.
Qed.

Lemma many_instances_length : Z.of_nat (length many_instances) = 65536.
Proof. unfold many_instances. rewrite length_replicate. lia. Qed.

(** C3, as stated, fails: [BVH::Build] over [2^20 + 1] triangles raises no
    error.  On the mesh of that many triangles at the origin it returns
    with a hierarchy of the root alone, a leaf over all the triangles. *)
Lemma Build_accepts_oversized_mesh :
  2 ^ 20 < Mesh.triCount big_mesh /\
  exists b, BVH.Build 1 (BVH.alloc big_mesh raw_node raw_idx 0) = Ok b /\
            BVH.nodesUsed b = 2 /\
            exists root, BVH.bvhNode b !! 0%nat = Some root /\
                         BVHNode.leftFirst root = 0 /\
                         BVHNode.triCount root = 1048577.
Proof.
  split; [rewrite big_mesh_triCount; lia |].
  assert (HofZ : F32.of_Z (Z.of_nat (Z.to_nat 1048577)) = S754_finite false 8388616 (-3)).
  { rewrite Z2Nat.id by lia. vm_compute. reflexivity. }
  destruct (Build_uniform (Z.to_nat 1048577) raw_node raw_idx 0 _ _ ltac:(lia) HofZ)
    as (b & Hb & Hu & _ & root & Hr & Hl & Hc).
  exists b. split; [exact Hb |]. split; [exact Hu |].
  exists root. split; [exact Hr |]. split; [exact Hl |]. rewrite Hc. lia.
Qed.

(** C3, amended: neither build checks a capacity, and nothing is refused at
    entry.  [BVH::Build] over more than [2^20] triangles builds the whole
    hierarchy as for any other mesh (given fuel for one call per triangle,
    the only faults left are the two undefined paths of the split search),
    and [TLAS::Build] over more than [65535] instances starts its work:
    lines 357-365 write a leaf for every instance. *)
Theorem Build_no_capacity_check m rawNode rawIdx rawUsed fuel insts rawTNode rawNodeIdx :
  2 ^ 20 < Mesh.triCount m -> Mesh.triCount m <= Z.of_nat fuel ->
  65535 < Z.of_nat (length insts) ->
  satisfies (BVH.Build fuel (BVH.alloc m rawNode rawIdx rawUsed))
    (fun f => f = OutOfBounds BinArr \/ f = Uninitialised)
    (built (BVH.alloc m rawNode rawIdx rawUsed)) /\
  exists s, TLAS.assign_leaves (TLAS.alloc insts rawTNode rawNodeIdx) = Ok s /\
            leaves_assigned insts (Z.of_nat (length insts)) s.
Proof.
  intros HT Hfuel _. split.
  - eapply sat_mono; [apply (Build_alloc_spec m rawNode rawIdx rawUsed fuel); lia | | ].
    + auto.
    + intros f [H | [H | [_ H]]]; [left; exact H | right; exact H | lia].
  - apply assign_leaves_total.
Qed.

Lemma Build_no_capacity_check_witness :
  2 ^ 20 < Mesh.triCount big_mesh /\
  Mesh.triCount big_mesh <= Z.of_nat (Z.to_nat 1048577) /\
  65535 < Z.of_nat (length many_instances) /\
  satisfies (BVH.Build (Z.to_nat 1048577) (BVH.alloc big_mesh raw_node raw_idx 0))
    (fun f => f = OutOfBounds BinArr \/ f = Uninitialised)
    (built (BVH.alloc big_mesh raw_node raw_idx 0)) /\
  exists s, TLAS.assign_leaves (TLAS.alloc many_instances raw_tnode raw_idx) = Ok s /\
            leaves_assigned many_instances (Z.of_nat (length many_instances)) s.
Proof.
  assert (H1 : 2 ^ 20 < Mesh.triCount big_mesh) by (rewrite big_mesh_triCount; lia).
  assert (H2 : Mesh.triCount big_mesh <= Z.of_nat (Z.to_nat 1048577))
    by (rewrite big_mesh_triCount; lia).
  assert (H3 : 65535 < Z.of_nat (length many_instances))
    by (rewrite many_instances_length; lia).
  split; [exact H1 |]. split; [exact H2 |]. split; [exact H3 |].
  exact (Build_no_capacity_check big_mesh raw_node raw_idx 0 (Z.to_nat 1048577)
           many_instances raw_tnode raw_idx H1 H2 H3).
Defined.

(** ** The closest hit *)

(** The tests of [IntersectTri] that do not read the hit record. *)
Definition accepts (ray : Ray) (tr : Tri) : bool :=
  negb (F32.fabs (tri_a ray tr) <? F32.f1em5)%f32 &&
  negb ((tri_u ray tr <? F32.zero)%f32 || (tri_u ray tr >? F32.one)%f32) &&
  negb ((tri_v ray tr <? F32.zero)%f32 || (tri_u ray tr + tri_v ray tr >? F32.one)%f32) &&
  (tri_t ray tr >? F32.f1em4)%f32.

(** The record that [IntersectTri] writes when it takes the triangle. *)
Definition hit_of (ray : Ray) (tr : Tri) (instPrim : Z) : Intersection :=
  mkIntersection (tri_t ray tr) (tri_u ray tr) (tri_v ray tr) instPrim.

Lemma IntersectTri_eq ray tr ip :
  IntersectTri ray tr ip
  = if accepts ray tr && (tri_t ray tr <? t (hit ray))%f32
    then set_hit ray (hit_of ray tr ip) else ray.
Proof.
  unfold IntersectTri, accepts, hit_of.
  destruct (F32.fabs (tri_a ray tr) <? F32.f1em5)%f32; [reflexivity |].
  destruct ((tri_u ray tr <? F32.zero)%f32 || (tri_u ray tr >? F32.one)%f32);
    [reflexivity |].
  destruct ((tri_v ray tr <? F32.zero)%f32 || (tri_u ray tr + tri_v ray tr >? F32.one)%f32);
    reflexivity.
Qed.

Lemma accepts_pos ray tr s : accepts ray tr = true -> tri_t ray tr <> S754_zero s.
Proof.
  unfold accepts. intros H. apply andb_true_iff in H as [_ H]. intros E.
  rewrite E in H. destruct s; discriminate.
Qed.

Section Closest.
  Variable m : Mesh.t.
  Variable inst : Z.
  Variable ray : Ray.

(** [h1] is [h0], or the record of a triangle among [ks] that the ray hits
    closer than [h0]. *)
Definition sound (ks : list Z) (h0 h1 : Intersection) : Prop :=
  h1 = h0 \/
  exists k tr, k ∈ ks /\ Mesh.tri m !! Z.to_nat k = Some tr /\
               accepts ray tr = true /\ (tri_t ray tr <? t h0)%f32 = true /\
               h1 = hit_of ray tr (inst_prim inst k).

(** No triangle among [ks] is hit closer than [h]. *)
Definition closed (ks : list Z) (h : Intersection) : Prop :=
  forall k tr, k ∈ ks -> Mesh.tri m !! Z.to_nat k = Some tr ->
               accepts ray tr = true -> (tri_t ray tr <? t h)%f32 = false.

Lemma sound_refl ks h : sound ks h h.
Proof. left. reflexivity. Qed.

Lemma sound_below ks h0 h1 c :
  sound ks h0 h1 -> (c <? t h1)%f32 = true -> (c <? t h0)%f32 = true.
Proof.
  intros [-> | (k & tr & _ & _ & _ & Hlt & ->)] Hc; [exact Hc |].
  eapply ltb_trans; [exact Hc | exact Hlt].
Qed.

Lemma sound_weaken ks ks' h0 h1 : ks ⊆ ks' -> sound ks h0 h1 -> sound ks' h0 h1.
Proof.
  intros Hs [-> | (k & tr & Hk & H)]; [left; reflexivity |].
  right. exists k, tr. split; [apply Hs; exact Hk | exact H].
Qed.

Lemma sound_trans ks h0 h1 h2 : sound ks h0 h1 -> sound ks h1 h2 -> sound ks h0 h2.
Proof.
  intros H01 [-> | (k & tr & Hk & Htr & Ha & Hlt & ->)]; [exact H01 |].
  right. exists k, tr. repeat split; try assumption.
  eapply sound_below; eassumption.
Qed.

Lemma closed_mono ks ks' h0 h1 : sound ks' h0 h1 -> closed ks h0 -> closed ks h1.
Proof.
  intros Hs Hc k tr Hk Htr Ha.
  destruct (tri_t ray tr <? t h1)%f32 eqn:E; [| reflexivity].
  rewrite <- (Hc k tr Hk Htr Ha). symmetry. eapply sound_below; eassumption.
Qed.

Lemma closed_below ks h0 h1 :
  (forall c, (c <? t h1)%f32 = true -> (c <? t h0)%f32 = true) ->
  closed ks h0 -> closed ks h1.
Proof.
  intros Hb Hc k tr Hk Htr Ha.
  destruct (tri_t ray tr <? t h1)%f32 eqn:E; [| reflexivity].
  rewrite <- (Hc k tr Hk Htr Ha). symmetry. apply Hb. exact E.
Qed.

Lemma sound_lower ks h0 h1 h2 :
  (forall c, (c <? t h1)%f32 = true -> (c <? t h0)%f32 = true) ->
  sound ks h1 h2 -> h2 = h1 \/ sound ks h0 h2.
Proof.
  intros Hb [-> | (k & tr & Hk & Htr & Ha & Hlt & ->)]; [left; reflexivity |].
  right. right. exists k, tr. repeat split; try assumption. apply Hb. exact Hlt.
Qed.

Lemma closed_app ks ks' h : closed ks h -> closed ks' h -> closed (ks ++ ks') h.
Proof.
  intros H1 H2 k tr Hk. apply elem_of_app in Hk as [Hk | Hk]; eauto.
Qed.

Lemma closed_perm ks ks' h : ks ≡ₚ ks' -> closed ks h -> closed ks' h.
Proof. intros Hp Hc k tr Hk. apply Hc. rewrite Hp. exact Hk. Qed.

(** The two properties fix the distance. *)
Lemma closest_unique ks h0 h1 h2 :
  sound ks h0 h1 -> closed ks h1 -> sound ks h0 h2 -> closed ks h2 -> t h1 = t h2.
Proof.
  intros [-> | (k1 & tr1 & Hk1 & Htr1 & Ha1 & Hlt1 & ->)] Hc1
         [-> | (k2 & tr2 & Hk2 & Htr2 & Ha2 & Hlt2 & ->)] Hc2.
  - reflexivity.
  - rewrite (Hc1 k2 tr2 Hk2 Htr2 Ha2) in Hlt2. discriminate.
  - rewrite (Hc2 k1 tr1 Hk1 Htr1 Ha1) in Hlt1. discriminate.
  - pose proof (Hc1 k2 tr2 Hk2 Htr2 Ha2) as H21.
    pose proof (Hc2 k1 tr1 Hk1 Htr1 Ha1) as H12. cbn [t hit_of] in *.
    destruct (ltb_antisym (tri_t ray tr1) (tri_t ray tr2)) as [E | (s & s' & E & _)];
      try assumption.
    + apply (ltb_true_good _ _ Hlt1).
    + apply (ltb_true_good _ _ Hlt2).
    + exfalso. exact (accepts_pos _ _ _ Ha1 E).
Qed.

Lemma hit_tri_spec h k :
  exists h', hit_tri m inst (set_hit ray h) k = set_hit ray h' /\
             sound [k] h h' /\ closed [k] h'.
Proof.
  unfold hit_tri. destruct (Mesh.tri m !! Z.to_nat k) as [tr |] eqn:Htr.
  - rewrite IntersectTri_eq.
    change (accepts (set_hit ray h) tr) with (accepts ray tr).
    change (tri_t (set_hit ray h) tr) with (tri_t ray tr).
    change (hit (set_hit ray h)) with h.
    destruct (accepts ray tr && (tri_t ray tr <? t h)%f32) eqn:E.
    + apply andb_true_iff in E as [Ha Hlt].
      exists (hit_of ray tr (inst_prim inst k)). split; [reflexivity |]. split.
      * right. exists k, tr. repeat split; try assumption. apply list_elem_of_singleton.
        reflexivity.
      * intros k' tr' Hk' Htr' _. apply list_elem_of_singleton in Hk'. subst k'.
        assert (tr' = tr) by congruence. subst tr'. apply ltb_irrefl.
    + exists h. split; [reflexivity |]. split; [apply sound_refl |].
      intros k' tr' Hk' Htr' Ha. apply list_elem_of_singleton in Hk'. subst k'.
      assert (tr' = tr) by congruence. subst tr'. rewrite Ha in E. exact E.
  - exists h. split; [reflexivity |]. split; [apply sound_refl |].
    intros k' tr' Hk' Htr'. apply list_elem_of_singleton in Hk'. subst k'. congruence.
Qed.

Lemma scan_spec ks : forall h,
  exists h', scan m inst ks (set_hit ray h) = set_hit ray h' /\
             sound ks h h' /\ closed ks h'.
Proof.
  induction ks as [| k ks IH] using rev_ind; intros h.
  - exists h. split; [reflexivity |]. split; [apply sound_refl |].
    intros k tr Hk. apply elem_of_nil in Hk. contradiction.
  - destruct (IH h) as (h1 & E1 & S1 & C1).
    destruct (hit_tri_spec h1 k) as (h2 & E2 & S2 & C2).
    exists h2. unfold scan in *. rewrite foldl_app. cbn [foldl]. rewrite E1, E2.
    split; [reflexivity |]. split.
    + eapply sound_trans.
      * eapply sound_weaken; [| exact S1]. intros z Hz. apply elem_of_app. auto.
      * eapply sound_weaken; [| exact S2]. intros z Hz. apply elem_of_app. auto.
    + apply closed_app; [| exact C2]. eapply closed_mono; eassumption.
Qed.

End Closest.
(** ** Boxes and the slab test *)

(** The three vertices of [tr] lie in the box, in the order of [<]. *)
Definition inside (tr : Tri) (bmin bmax : float3) : bool :=
  forallb (fun p : float3 -> float =>
    forallb (fun v => negb (p v <? p bmin)%f32 && negb (p bmax <? p v)%f32)
            [vertex0 tr; vertex1 tr; vertex2 tr])
    [x; y; z].

Lemma least_box_inside m mn mx ks k tr :
  least_box m mn mx ks -> k ∈ ks -> Mesh.tri m !! Z.to_nat k = Some tr ->
  inside tr mn mx = true.
Proof.
  intros Hl Hk Htr. unfold inside.
  assert (Hin : tr ∈ tris_of m ks).
  { unfold tris_of. apply list_elem_of_omap. exists k. auto. }
  assert (Hp : forall p, is_proj p ->
            forallb (fun v => negb (p v <? p mn)%f32 && negb (p mx <? p v)%f32)
                    [vertex0 tr; vertex1 tr; vertex2 tr] = true).
  { intros p Hproj. destruct (Hl p Hproj) as [[_ Hlo] [_ Hhi]].
    assert (Hc : forall v, v ∈ [vertex0 tr; vertex1 tr; vertex2 tr] ->
                 p v ∈ F32.f1e30 :: coords p (tris_of m ks) /\
                 p v ∈ F32.fm1e30 :: coords p (tris_of m ks)).
    { intros v Hv.
      assert (p v ∈ coords p (tris_of m ks)).
      { unfold coords. apply list_elem_of_bind. exists tr. split; [| exact Hin].
        change (p v ∈ p <$> [vertex0 tr; vertex1 tr; vertex2 tr]).
        apply list_elem_of_fmap. exists v. auto. }
      split; apply elem_of_cons; right; assumption. }
    apply forallb_forall. intros v Hv. apply list_elem_of_In in Hv.
    destruct (Hc v Hv) as [H1 H2].
    rewrite (Hlo _ H1). pose proof (Hhi _ H2) as H3. unfold gtb in H3. rewrite H3.
    reflexivity. }
  apply forallb_forall. intros p Hin'. apply Hp. unfold is_proj.
  destruct Hin' as [<- | [<- | [<- | []]]]; auto.
Qed.

Lemma guarded_cases (c1 c3 : bool) (a d h : float) :
  (if c1 && (a <? h)%f32 && c3 then a else d) = d \/
  ((if c1 && (a <? h)%f32 && c3 then a else d) <? h)%f32 = true.
Proof.
  destruct c1; [| left; reflexivity].
  destruct (a <? h)%f32 eqn:E; [| left; reflexivity].
  destruct c3; [right; exact E | left; reflexivity].
Qed.

(** The result of the slab test is the miss value or below the hit. *)
Lemma IntersectAABB_cases ray bmin bmax :
  IntersectAABB ray bmin bmax = F32.f1e30 \/
  (IntersectAABB ray bmin bmax <? t (hit ray))%f32 = true.
Proof.
  unfold IntersectAABB, IntersectAABB_with. cbv zeta.
  match goal with
  | |- context [if ?c1 && (?a <? ?h)%f32 && ?c3 then _ else ?d] =>
      exact (guarded_cases c1 c3 a d h)
  end.
Qed.

Lemma ltb_eqb_false a b : (a <? b)%f32 = true -> (a =? b)%f32 = false.
Proof.
  unfold F32.ltb, F32.eqb, SFltb, SFeqb.
  destruct (SFcompare a b) as [[] |]; try discriminate; reflexivity.
Qed.

Lemma eqb_finite_eq a mb eb :
  (a =? S754_finite false mb eb)%f32 = true -> a = S754_finite false mb eb.
Proof.
  unfold F32.eqb, SFeqb.
  destruct a as [[] | [] | | [] ma ea]; simpl; try discriminate.
  destruct (Z.compare_spec ea eb) as [-> | |]; try discriminate.
  change (Pos.compare_cont Eq ma mb) with (Pos.compare ma mb).
  destruct (Pos.compare_spec ma mb) as [-> | |]; try discriminate. reflexivity.
Qed.

Lemma eqb_f1e30 a : (a =? F32.f1e30)%f32 = true -> a = F32.f1e30.
Proof. apply eqb_finite_eq. Qed.

(** Below a hit no farther than [1e30], a distance is the miss value or
    less. *)
Lemma dist_cases ray bmin bmax :
  (F32.f1e30 <? t (hit ray))%f32 = false ->
  IntersectAABB ray bmin bmax = F32.f1e30 \/
  (IntersectAABB ray bmin bmax <? F32.f1e30)%f32 = true.
Proof.
  intros Hcap. destruct (IntersectAABB_cases ray bmin bmax) as [H | H]; [auto |].
  right. destruct (ltb_negtrans _ F32.f1e30 _ good_f1e30 H) as [H' | H']; [exact H' |].
  rewrite Hcap in H'. discriminate.
Qed.

(** ** The triangles of a leaf *)

Lemma inst_prim_low inst k :
  0 <= k < 2 ^ 20 -> Z.land (inst_prim inst k) 1048575 = k.
Proof.
  intros Hk. unfold inst_prim, wrap32.
  change 1048575 with (Z.ones 20). rewrite Z.land_ones by lia.
  rewrite Z.mod_mod_divide by (exists (2 ^ 12); reflexivity).
  rewrite Z.shiftl_mul_pow2 by lia. rewrite Z.add_comm, Z_mod_plus_full.
  apply Z.mod_small. exact Hk.
Qed.

Lemma hit_tri_Some m inst ray k tr :
  Mesh.tri m !! Z.to_nat k = Some tr ->
  hit_tri m inst ray k = IntersectTri ray tr (inst_prim inst k).
Proof. intros H. unfold hit_tri. rewrite H. reflexivity. Qed.

Lemma leaf_tris_scan s inst nd ray :
  valid_idx s -> Mesh.triCount (BVH.mesh s) <= 2 ^ 20 ->
  0 <= BVHNode.leftFirst nd -> 0 <= BVHNode.triCount nd ->
  BVHNode.leftFirst nd + BVHNode.triCount nd <= Z.of_nat (length (BVH.triIdx s)) ->
  BVH.leaf_tris s inst nd ray
  = Ok (scan (BVH.mesh s) inst
          (range (BVH.triIdx s) (BVHNode.leftFirst nd) (BVHNode.triCount nd)) ray).
Proof.
  intros Hv HT Hlo Hn Hlen. unfold BVH.leaf_tris.
  apply for_loop_total with
    (I := fun k r => 0 <= k /\
            r = scan (BVH.mesh s) inst (range (BVH.triIdx s) (BVHNode.leftFirst nd) k) ray).
  - split; [lia | reflexivity].
  - intros k r Hk [Hk0 ->].
    destruct (rd_in_range TriIdxArr (BVH.triIdx s) (BVHNode.leftFirst nd + k))
      as (ti & -> & Hti); [lia |].
    cbn [mbind result_bind].
    assert (Hvti : 0 <= ti < Mesh.triCount (BVH.mesh s)).
    { apply (proj1 (Forall_forall _ _) Hv). eapply list_elem_of_lookup_2. exact Hti. }
    change (wrap32 (Z.shiftl inst 20 + ti)) with (inst_prim inst ti).
    rewrite inst_prim_low by lia.
    destruct (rd_in_range MeshTri (Mesh.tri (BVH.mesh s)) ti) as (tr & -> & Htr);
      [unfold Mesh.triCount in Hvti; lia |].
    cbn [mbind result_bind]. unfold satisfies. split; [lia |].
    rewrite (range_snoc _ _ k ti) by (try lia; exact Hti).
    unfold scan. rewrite foldl_app. cbn [foldl].
    rewrite (hit_tri_Some _ _ _ ti tr Htr). reflexivity.
  - intros r [_ ->]. rewrite Z.add_0_l, Z2Nat.id by lia. reflexivity.
Qed.
(** ** The traversal *)

(** Line 120 and 132: the next node is popped, or the loop ends. *)
Definition resume (fuel : nat) (s : BVH.t) (inst : Z) (stack : list Z) (ray : Ray)
  : result Ray :=
  match stack with
  | [] => Ok ray
  | top :: rest => BVH.traverse fuel s inst top rest ray
  end.

Lemma traverse_node fuel s inst i stack ray nd nl nr A B l :
  0 <= i -> BVH.bvhNode s !! Z.to_nat i = Some nd ->
  BVHNode.triCount nd = 0 -> BVHNode.leftFirst nd = l -> 0 <= l ->
  BVH.bvhNode s !! Z.to_nat l = Some nl ->
  BVH.bvhNode s !! Z.to_nat (l + 1) = Some nr ->
  A = IntersectAABB ray (BVHNode.aabbMin nl) (BVHNode.aabbMax nl) ->
  B = IntersectAABB ray (BVHNode.aabbMin nr) (BVHNode.aabbMax nr) ->
  BVH.traverse (S fuel) s inst i stack ray
  = if (B <? A)%f32 then
      if (B =? F32.f1e30)%f32 then resume fuel s inst stack ray
      else if negb (A =? F32.f1e30)%f32 then
        if 64 <=? Z.of_nat (length stack) then Fault (OutOfBounds StackArr)
        else BVH.traverse fuel s inst (l + 1) (l :: stack) ray
      else BVH.traverse fuel s inst (l + 1) stack ray
    else
      if (A =? F32.f1e30)%f32 then resume fuel s inst stack ray
      else if negb (B =? F32.f1e30)%f32 then
        if 64 <=? Z.of_nat (length stack) then Fault (OutOfBounds StackArr)
        else BVH.traverse fuel s inst l ((l + 1) :: stack) ray
      else BVH.traverse fuel s inst l stack ray.
Proof.
  intros Hi Hnd Hleaf <- Hl Hnl Hnr -> ->. cbn [BVH.traverse].
  rewrite (proj2 (rd_Ok NodePool _ i nd)) by auto. cbn [mbind result_bind].
  unfold BVHNode.isLeaf. rewrite Hleaf. change (0 <? 0) with false. cbv iota.
  rewrite (proj2 (rd_Ok NodePool _ (BVHNode.leftFirst nd) nl))
    by (split; [exact Hl | exact Hnl]).
  cbn [mbind result_bind].
  rewrite (proj2 (rd_Ok NodePool _ (BVHNode.leftFirst nd + 1) nr))
    by (split; [lia | exact Hnr]).
  cbn [mbind result_bind]. cbv zeta.
  destruct (IntersectAABB ray (BVHNode.aabbMin nr) (BVHNode.aabbMax nr)
            <? IntersectAABB ray (BVHNode.aabbMin nl) (BVHNode.aabbMax nl))%f32;
    reflexivity.
Qed.

Lemma traverse_leaf fuel s inst i stack ray nd :
  valid_idx s -> Mesh.triCount (BVH.mesh s) <= 2 ^ 20 ->
  0 <= i -> BVH.bvhNode s !! Z.to_nat i = Some nd ->
  0 <= BVHNode.leftFirst nd -> 0 < BVHNode.triCount nd ->
  BVHNode.leftFirst nd + BVHNode.triCount nd <= Z.of_nat (length (BVH.triIdx s)) ->
  BVH.traverse (S fuel) s inst i stack ray
  = resume fuel s inst stack
      (scan (BVH.mesh s) inst
         (range (BVH.triIdx s) (BVHNode.leftFirst nd) (BVHNode.triCount nd)) ray).
Proof.
  intros Hv HT Hi Hnd Hlo Hn Hlen. cbn [BVH.traverse].
  rewrite (proj2 (rd_Ok NodePool _ i nd)) by auto. cbn [mbind result_bind].
  unfold BVHNode.isLeaf. replace (0 <? BVHNode.triCount nd) with true
    by (symmetry; apply Z.ltb_lt; exact Hn).
  rewrite leaf_tris_scan by (try assumption; lia). cbn [mbind result_bind].
  reflexivity.
Qed.

(** [IntersectTri] takes the triangle: it lowers [hit.t]. *)
Definition takes (ray : Ray) (tr : Tri) : bool :=
  (t (hit (IntersectTri ray tr 0)) <? t (hit ray))%f32.

Lemma takes_eq ray tr :
  takes ray tr = accepts ray tr && (tri_t ray tr <? t (hit ray))%f32.
Proof.
  unfold takes. rewrite IntersectTri_eq.
  destruct (accepts ray tr && (tri_t ray tr <? t (hit ray))%f32) eqn:E.
  - apply andb_true_iff in E as [_ E]. exact E.
  - apply ltb_irrefl.
Qed.

(** The triangles below node [i], by the links of the pool: the range of a
    leaf, the triangles below the two children of an interior node. *)
Fixpoint tris_below (fuel : nat) (s : BVH.t) (i : Z) : list Z :=
  match fuel with
  | O => []
  | S fuel' =>
      match BVH.bvhNode s !! Z.to_nat i with
      | None => []
      | Some nd =>
          if BVHNode.isLeaf nd
          then range (BVH.triIdx s) (BVHNode.leftFirst nd) (BVHNode.triCount nd)
          else tris_below fuel' s (BVHNode.leftFirst nd)
               ++ tris_below fuel' s (BVHNode.leftFirst nd + 1)
      end
  end.

(** A slab test loses nothing: it reports a hit of the box, or no triangle
    below the node is one that [IntersectTri] takes with the ray as it is
    at that moment. *)
Definition lossless (s : BVH.t) (p : BVH.probe) : bool :=
  match BVH.bvhNode s !! Z.to_nat (fst p) with
  | None => true
  | Some nd =>
      negb (IntersectAABB (snd p) (BVHNode.aabbMin nd) (BVHNode.aabbMax nd)
            =? F32.f1e30)%f32
      || forallb (fun k => match Mesh.tri (BVH.mesh s) !! Z.to_nat k with
                           | Some tr => negb (takes (snd p) tr)
                           | None => true
                           end)
                 (tris_below (Z.to_nat (BVH.nodesUsed s)) s (fst p))
  end.

Lemma erase_after {A B} (tests : list B) (r : result (A * list B)) :
  erase (after tests r) = erase r.
Proof. destruct r as [[a log] | f]; reflexivity. Qed.

Lemma after_after {A B} (l1 l2 : list B) (r : result (A * list B)) :
  after l1 (after l2 r) = after (l1 ++ l2) r.
Proof.
  destruct r as [[a log] | f]; [| reflexivity]. cbn. rewrite app_assoc. reflexivity.
Qed.

Lemma after_nil {A B} (r : result (A * list B)) : after [] r = r.
Proof. destruct r as [[a log] | f]; reflexivity. Qed.

(** But for the list, [traverse_log] is [traverse]. *)
Lemma traverse_log_erase fuel s inst : forall node stack ray,
  BVH.traverse fuel s inst node stack ray
  = erase (BVH.traverse_log fuel s inst node stack ray).
Proof.
  induction fuel as [| fuel IH]; intros node stack ray; [reflexivity |].
  cbn [BVH.traverse BVH.traverse_log].
  destruct (rd NodePool (BVH.bvhNode s) node) as [nd | f]; [| reflexivity].
  cbn [mbind result_bind].
  destruct (BVHNode.isLeaf nd).
  - destruct (BVH.leaf_tris s inst nd ray) as [r | f]; [| reflexivity].
    cbn [mbind result_bind]. destruct stack; [reflexivity | apply IH].
  - destruct (rd NodePool (BVH.bvhNode s) (BVHNode.leftFirst nd)) as [c1 | f];
      [| reflexivity].
    cbn [mbind result_bind].
    destruct (rd NodePool (BVH.bvhNode s) (BVHNode.leftFirst nd + 1)) as [c2 | f];
      [| reflexivity].
    cbn [mbind result_bind]. cbv zeta.
    destruct (_ <? _)%f32; rewrite erase_after;
      (destruct (_ =? F32.f1e30)%f32;
       [destruct stack; [reflexivity | apply IH] |]);
      (destruct (negb _); [| apply IH]);
      (destruct (64 <=? _); [reflexivity | apply IH]).
Qed.

Lemma Intersect_log_erase fuel s ray inst :
  BVH.Intersect fuel s ray inst = erase (BVH.Intersect_log fuel s ray inst).
Proof. apply traverse_log_erase. Qed.

(** Line 120 and 132: the next node is popped, or the loop ends. *)
Definition resume_log (fuel : nat) (s : BVH.t) (inst : Z) (stack : list Z) (ray : Ray)
  : result (Ray * list BVH.probe) :=
  match stack with
  | [] => Ok (ray, [])
  | top :: rest => BVH.traverse_log fuel s inst top rest ray
  end.

Lemma traverse_log_node fuel s inst i stack ray nd nl nr A B l :
  0 <= i -> BVH.bvhNode s !! Z.to_nat i = Some nd ->
  BVHNode.triCount nd = 0 -> BVHNode.leftFirst nd = l -> 0 <= l ->
  BVH.bvhNode s !! Z.to_nat l = Some nl ->
  BVH.bvhNode s !! Z.to_nat (l + 1) = Some nr ->
  A = IntersectAABB ray (BVHNode.aabbMin nl) (BVHNode.aabbMax nl) ->
  B = IntersectAABB ray (BVHNode.aabbMin nr) (BVHNode.aabbMax nr) ->
  BVH.traverse_log (S fuel) s inst i stack ray
  = after [(l, ray); (l + 1, ray)]
      (if (B <? A)%f32 then
         if (B =? F32.f1e30)%f32 then resume_log fuel s inst stack ray
         else if negb (A =? F32.f1e30)%f32 then
           if 64 <=? Z.of_nat (length stack) then Fault (OutOfBounds StackArr)
           else BVH.traverse_log fuel s inst (l + 1) (l :: stack) ray
         else BVH.traverse_log fuel s inst (l + 1) stack ray
       else
         if (A =? F32.f1e30)%f32 then resume_log fuel s inst stack ray
         else if negb (B =? F32.f1e30)%f32 then
           if 64 <=? Z.of_nat (length stack) then Fault (OutOfBounds StackArr)
           else BVH.traverse_log fuel s inst l ((l + 1) :: stack) ray
         else BVH.traverse_log fuel s inst l stack ray).
Proof.
  intros Hi Hnd Hleaf <- Hl Hnl Hnr -> ->. cbn [BVH.traverse_log].
  rewrite (proj2 (rd_Ok NodePool _ i nd)) by auto. cbn [mbind result_bind].
  unfold BVHNode.isLeaf. rewrite Hleaf. change (0 <? 0) with false. cbv iota.
  rewrite (proj2 (rd_Ok NodePool _ (BVHNode.leftFirst nd) nl))
    by (split; [exact Hl | exact Hnl]).
  cbn [mbind result_bind].
  rewrite (proj2 (rd_Ok NodePool _ (BVHNode.leftFirst nd + 1) nr))
    by (split; [lia | exact Hnr]).
  cbn [mbind result_bind]. cbv zeta.
  destruct (IntersectAABB ray (BVHNode.aabbMin nr) (BVHNode.aabbMax nr)
            <? IntersectAABB ray (BVHNode.aabbMin nl) (BVHNode.aabbMax nl))%f32;
    reflexivity.
Qed.

Lemma traverse_log_leaf fuel s inst i stack ray nd :
  valid_idx s -> Mesh.triCount (BVH.mesh s) <= 2 ^ 20 ->
  0 <= i -> BVH.bvhNode s !! Z.to_nat i = Some nd ->
  0 <= BVHNode.leftFirst nd -> 0 < BVHNode.triCount nd ->
  BVHNode.leftFirst nd + BVHNode.triCount nd <= Z.of_nat (length (BVH.triIdx s)) ->
  BVH.traverse_log (S fuel) s inst i stack ray
  = resume_log fuel s inst stack
      (scan (BVH.mesh s) inst
         (range (BVH.triIdx s) (BVHNode.leftFirst nd) (BVHNode.triCount nd)) ray).
Proof.
  intros Hv HT Hi Hnd Hlo Hn Hlen. cbn [BVH.traverse_log].
  rewrite (proj2 (rd_Ok NodePool _ i nd)) by auto. cbn [mbind result_bind].
  unfold BVHNode.isLeaf. replace (0 <? BVHNode.triCount nd) with true
    by (symmetry; apply Z.ltb_lt; exact Hn).
  rewrite leaf_tris_scan by (try assumption; lia). cbn [mbind result_bind].
  reflexivity.
Qed.

(** The triangles below the root of a subtree are those of its range. *)
Lemma tris_below_shaped s t' : forall a fuel,
  shaped (BVH.bvhNode s) t' a -> desc t' < Z.of_nat fuel ->
  tris_below fuel s (troot t') = range (BVH.triIdx s) (tlo t') (tn t').
Proof.
  induction t' as [i lo n | i lo n l IHl r IHr]; intros a fuel Hsh Hfuel;
    (destruct fuel as [| fuel]; [cbn [desc] in Hfuel; pose proof (shaped_facts _ _ _ Hsh); cbn [desc] in *; lia |]).
  - cbn [shaped troot tlo tn] in *.
    destruct Hsh as (Hi & Hlo & Hn & nd & Hnd & <- & <-).
    cbn [tris_below]. rewrite Hnd. unfold BVHNode.isLeaf.
    replace (0 <? BVHNode.triCount nd) with true by (symmetry; apply Z.ltb_lt; exact Hn).
    reflexivity.
  - cbn [shaped troot tlo tn desc] in *.
    destruct Hsh as (Hi & Hlo & (nd & Hnd & Hlf & Htc) & Hrl & Hrr & Hll & Hlr & Hn & Hsl & Hsr).
    pose proof (shaped_facts _ _ _ Hsl) as (Fl1 & Fl2 & Fl3 & Fl4 & Fl5).
    pose proof (shaped_facts _ _ _ Hsr) as (Fr1 & Fr2 & Fr3 & Fr4 & Fr5).
    cbn [tris_below]. rewrite Hnd. unfold BVHNode.isLeaf. rewrite Htc.
    change (0 <? 0) with false. cbv iota. rewrite Hlf, <- Hrl.
    rewrite (IHl _ fuel Hsl) by lia.
    replace (troot l + 1) with (troot r) by lia.
    rewrite (IHr _ fuel Hsr) by lia.
    rewrite (range_app _ lo (tn l) n) by lia.
    rewrite Hll, Hlr. do 2 f_equal. lia.
Qed.

Lemma shaped_node pool t a :
  shaped pool t a -> exists nd, pool !! Z.to_nat (troot t) = Some nd.
Proof.
  destruct t; simpl.
  - intros (_ & _ & _ & nd & H & _). eauto.
  - intros (_ & _ & (nd & H & _) & _). eauto.
Qed.

Section Traversal.
  Variable s : BVH.t.
  Variable inst : Z.
  Variable ray : Ray.
  Hypothesis Hv : valid_idx s.
  Hypothesis HT : Mesh.triCount (BVH.mesh s) <= 2 ^ 20.

(** From node [i] the loop comes to the pop that follows the subtree of [i]
    in at most [bound] turns, or its stack overflows.  The hit it has then
    is the one it came with or one of a triangle among [ks]; when none of
    the slab tests made on the way has lost a hit, no triangle among [ks]
    is closer. *)
Definition visits (i : Z) (ks : list Z) (bound : Z) : Prop :=
  forall stack h, (F32.f1e30 <? t h)%f32 = false ->
  exists c : nat, (1 <= c)%nat /\ Z.of_nat c <= bound /\
    ((forall fuel, BVH.traverse_log (c + fuel) s inst i stack (set_hit ray h)
                   = Fault (OutOfBounds StackArr)) \/
     exists h' log,
       sound (BVH.mesh s) inst ray ks h h' /\
       (forallb (lossless s) log = true -> closed (BVH.mesh s) ray ks h') /\
       forall fuel, BVH.traverse_log (c + fuel) s inst i stack (set_hit ray h)
                    = after log (resume_log fuel s inst stack (set_hit ray h'))).

Lemma sound_cap ks h h' :
  sound (BVH.mesh s) inst ray ks h h' ->
  (F32.f1e30 <? t h)%f32 = false -> (F32.f1e30 <? t h')%f32 = false.
Proof.
  intros Hs Hcap. destruct (F32.f1e30 <? t h')%f32 eqn:E; [| reflexivity].
  rewrite <- Hcap. symmetry. eapply sound_below; eassumption.
Qed.

(** A miss that loses nothing leaves no closer triangle below the node. *)
Lemma miss_closed i nd ks h :
  BVH.bvhNode s !! Z.to_nat i = Some nd ->
  tris_below (Z.to_nat (BVH.nodesUsed s)) s i = ks ->
  IntersectAABB (set_hit ray h) (BVHNode.aabbMin nd) (BVHNode.aabbMax nd) = F32.f1e30 ->
  lossless s (i, set_hit ray h) = true ->
  closed (BVH.mesh s) ray ks h.
Proof.
  intros Hnd Hks Hmiss Hl k tr Hk Htr Ha.
  unfold lossless in Hl. cbn [fst snd] in Hl. rewrite Hnd, Hmiss, Hks in Hl.
  change (F32.f1e30 =? F32.f1e30)%f32 with true in Hl. cbn [negb orb] in Hl.
  rewrite forallb_forall in Hl. specialize (Hl k). rewrite Htr in Hl.
  assert (Hin : In k ks) by (apply list_elem_of_In; exact Hk).
  specialize (Hl Hin). apply negb_true_iff in Hl. rewrite takes_eq in Hl.
  change (accepts (set_hit ray h) tr) with (accepts ray tr) in Hl.
  change (tri_t (set_hit ray h) tr) with (tri_t ray tr) in Hl.
  change (hit (set_hit ray h)) with h in Hl. rewrite Ha in Hl. exact Hl.
Qed.

(** The near child, then the far one from the stack. *)
Lemma visits_two ix kx bx iy ky by' stack h :
  visits ix kx bx -> visits iy ky by' ->
  (F32.f1e30 <? t h)%f32 = false ->
  exists c : nat, (1 <= c)%nat /\ Z.of_nat c <= bx + by' /\
    ((forall fuel,
        (if 64 <=? Z.of_nat (length stack) then Fault (OutOfBounds StackArr)
         else BVH.traverse_log (c + fuel) s inst ix (iy :: stack) (set_hit ray h))
        = Fault (OutOfBounds StackArr)) \/
     exists h' log,
       sound (BVH.mesh s) inst ray (kx ++ ky) h h' /\
       (forallb (lossless s) log = true ->
        closed (BVH.mesh s) ray kx h' /\ closed (BVH.mesh s) ray ky h') /\
       forall fuel,
         (if 64 <=? Z.of_nat (length stack) then Fault (OutOfBounds StackArr)
          else BVH.traverse_log (c + fuel) s inst ix (iy :: stack) (set_hit ray h))
         = after log (resume_log fuel s inst stack (set_hit ray h'))).
Proof.
  intros Vx Vy Hcap.
  destruct (Vx (iy :: stack) h Hcap) as (cx & Hcx1 & Hcx & Hx).
  destruct (64 <=? Z.of_nat (length stack)) eqn:Estack.
  { exists cx. split; [exact Hcx1 |].
    split; [destruct (Vy stack h Hcap) as (cy & ? & ? & _); lia |]. left. reflexivity. }
  destruct Hx as [Hx | (h1 & log1 & S1 & C1 & Hx)].
  { exists cx. split; [exact Hcx1 |].
    split; [destruct (Vy stack h Hcap) as (cy & ? & ? & _); lia |]. left. exact Hx. }
  destruct (Vy stack h1 (sound_cap _ _ _ S1 Hcap)) as (cy & Hcy1 & Hcy & Hy).
  exists (cx + cy)%nat. split; [lia |]. split; [lia |].
  assert (Hstep : forall fuel,
            BVH.traverse_log (cx + cy + fuel) s inst ix (iy :: stack) (set_hit ray h)
            = after log1 (BVH.traverse_log (cy + fuel) s inst iy stack (set_hit ray h1))).
  { intros fuel. rewrite <- Nat.add_assoc. rewrite Hx. reflexivity. }
  destruct Hy as [Hy | (h2 & log2 & S2 & C2 & Hy)].
  - left. intros fuel. rewrite Hstep, Hy. reflexivity.
  - right. exists h2, (log1 ++ log2). split; [| split].
    + eapply sound_trans.
      * eapply sound_weaken; [| exact S1]. intros z Hz. apply elem_of_app. auto.
      * eapply sound_weaken; [| exact S2]. intros z Hz. apply elem_of_app. auto.
    + intros Hl. rewrite forallb_app in Hl. apply andb_true_iff in Hl as [Hl1 Hl2].
      split; [| exact (C2 Hl2)]. eapply closed_mono; [exact S2 | exact (C1 Hl1)].
    + intros fuel. rewrite Hstep, Hy. apply after_after.
Qed.

(** One child is missed, the other is visited. *)
Lemma visits_one ix kx bx ky stack h :
  visits ix kx bx ->
  (F32.f1e30 <? t h)%f32 = false ->
  exists c : nat, (1 <= c)%nat /\ Z.of_nat c <= bx /\
    ((forall fuel, BVH.traverse_log (c + fuel) s inst ix stack (set_hit ray h)
                   = Fault (OutOfBounds StackArr)) \/
     exists h' log,
       sound (BVH.mesh s) inst ray kx h h' /\
       (forallb (lossless s) log = true -> closed (BVH.mesh s) ray ky h ->
        closed (BVH.mesh s) ray kx h' /\ closed (BVH.mesh s) ray ky h') /\
       forall fuel, BVH.traverse_log (c + fuel) s inst ix stack (set_hit ray h)
                    = after log (resume_log fuel s inst stack (set_hit ray h'))).
Proof.
  intros Vx Hcap.
  destruct (Vx stack h Hcap) as (c & Hc1 & Hc & [HF | (h' & log & S' & C' & HE)]).
  - exists c. auto.
  - exists c. split; [exact Hc1 |]. split; [exact Hc |]. right. exists h', log.
    split; [exact S' |]. split; [| exact HE].
    intros Hl Cy. split; [exact (C' Hl) |]. eapply closed_mono; eassumption.
Qed.

Lemma visits_subtree t' : forall a,
  shaped (BVH.bvhNode s) t' a -> 2 <= a -> a + desc t' <= BVH.nodesUsed s ->
  tlo t' + tn t' <= Z.of_nat (length (BVH.triIdx s)) ->
  visits (troot t') (range (BVH.triIdx s) (tlo t') (tn t')) (1 + desc t').
Proof.
  induction t' as [i lo n | i lo n l IHl r IHr]; intros a Hsh Ha Hused Hlen.
  - cbn [shaped troot tlo tn desc] in *.
    destruct Hsh as (Hi & Hlo & Hn & nd & Hnd & <- & <-).
    intros stack h Hcap. exists 1%nat. split; [lia |]. split; [lia |]. right.
    destruct (scan_spec (BVH.mesh s) inst ray
                (range (BVH.triIdx s) (BVHNode.leftFirst nd) (BVHNode.triCount nd)) h)
      as (h' & E & S' & C').
    exists h', []. split; [exact S' |]. split; [intros _; exact C' |]. intros fuel.
    change (1 + fuel)%nat with (S fuel).
    rewrite (traverse_log_leaf fuel s inst i stack _ nd) by assumption.
    rewrite E, after_nil. reflexivity.
  - cbn [shaped troot tlo tn desc] in *.
    destruct Hsh as (Hi & Hlo & (nd & Hnd & Hlf & Htc) & Hrl & Hrr & Hll & Hlr & Hn & Hsl & Hsr).
    pose proof (shaped_facts _ _ _ Hsl) as (Fl1 & Fl2 & Fl3 & Fl4 & Fl5).
    pose proof (shaped_facts _ _ _ Hsr) as (Fr1 & Fr2 & Fr3 & Fr4 & Fr5).
    assert (Vl := IHl (a + 2) Hsl ltac:(lia) ltac:(lia) ltac:(lia)).
    assert (Vr := IHr (a + 2 + desc l) Hsr ltac:(lia) ltac:(lia) ltac:(lia)).
    assert (Bl := tris_below_shaped s l (a + 2) (Z.to_nat (BVH.nodesUsed s)) Hsl ltac:(lia)).
    assert (Br := tris_below_shaped s r (a + 2 + desc l) (Z.to_nat (BVH.nodesUsed s)) Hsr
                    ltac:(lia)).
    destruct (shaped_node _ _ _ Hsl) as (nl & Hnl).
    destruct (shaped_node _ _ _ Hsr) as (nr & Hnr).
    rewrite Hrl in Hnl, Vl, Bl. rewrite Hrr in Hnr, Vr, Br.
    set (KL := range (BVH.triIdx s) (tlo l) (tn l)) in *.
    set (KR := range (BVH.triIdx s) (tlo r) (tn r)) in *.
    assert (HK : range (BVH.triIdx s) lo n = KL ++ KR).
    { rewrite (range_app _ lo (tn l) n) by lia. unfold KL, KR.
      rewrite Hll, Hlr. do 2 f_equal. lia. }
    rewrite HK. clear IHl IHr.
    intros stack h Hcap.
    remember (IntersectAABB (set_hit ray h) (BVHNode.aabbMin nl) (BVHNode.aabbMax nl))
      as A eqn:EA.
    remember (IntersectAABB (set_hit ray h) (BVHNode.aabbMin nr) (BVHNode.aabbMax nr))
      as B eqn:EB.
    assert (Enode := fun fuel =>
      traverse_log_node fuel s inst i stack (set_hit ray h) nd nl nr A B a
        (proj1 Hi) Hnd Htc Hlf ltac:(lia) Hnl Hnr EA EB).
    set (tests := [(a, set_hit ray h); (a + 1, set_hit ray h)]) in *.
    assert (HA : A = F32.f1e30 \/ (A <? F32.f1e30)%f32 = true)
      by (rewrite EA; apply dist_cases; exact Hcap).
    assert (HB : B = F32.f1e30 \/ (B <? F32.f1e30)%f32 = true)
      by (rewrite EB; apply dist_cases; exact Hcap).
    assert (CL : forall log, A = F32.f1e30 ->
                   forallb (lossless s) (tests ++ log) = true ->
                   closed (BVH.mesh s) ray KL h).
    { intros log E Hl. apply (miss_closed a nl); try assumption.
      - rewrite <- EA. exact E.
      - cbn [tests app forallb] in Hl. apply andb_true_iff in Hl as [Hl _]. exact Hl. }
    assert (CR : forall log, B = F32.f1e30 ->
                   forallb (lossless s) (tests ++ log) = true ->
                   closed (BVH.mesh s) ray KR h).
    { intros log E Hl. apply (miss_closed (a + 1) nr); try assumption.
      - rewrite <- EB. exact E.
      - cbn [tests app forallb] in Hl. apply andb_true_iff in Hl as [_ Hl].
        apply andb_true_iff in Hl as [Hl _]. exact Hl. }
    assert (Hrest : forall log, forallb (lossless s) (tests ++ log) = true ->
                      forallb (lossless s) log = true).
    { intros log Hl. rewrite forallb_app in Hl. apply andb_true_iff in Hl as [_ Hl].
      exact Hl. }
    assert (Hsub : forall h1 h2, sound (BVH.mesh s) inst ray (KR ++ KL) h1 h2 ->
                                 sound (BVH.mesh s) inst ray (KL ++ KR) h1 h2).
    { intros h1 h2. apply sound_weaken. intros z Hz.
      apply elem_of_app in Hz. apply elem_of_app. tauto. }
    destruct HA as [HA | HA], HB as [HB | HB].
    + (* both boxes are missed *)
      exists 1%nat. split; [lia |]. split; [lia |]. right. exists h, tests.
      split; [apply sound_refl |]. split.
      * intros Hl. rewrite <- (app_nil_r tests) in Hl.
        apply closed_app; [exact (CL _ HA Hl) | exact (CR _ HB Hl)].
      * intros fuel. change (1 + fuel)%nat with (S fuel). rewrite Enode.
        rewrite HA, HB. rewrite ltb_irrefl. reflexivity.
    + (* the left box is missed *)
      destruct (visits_one _ _ _ KL stack h Vr Hcap)
        as (c & Hc1 & Hc & [HF | (h' & log & S' & C' & HE)]).
      * exists (S c). split; [lia |]. split; [lia |]. left. intros fuel.
        change (S c + fuel)%nat with (S (c + fuel)). rewrite Enode.
        rewrite HA. rewrite HB. rewrite (ltb_eqb_false _ _ HB). cbn [negb].
        rewrite HF. reflexivity.
      * exists (S c). split; [lia |]. split; [lia |]. right. exists h', (tests ++ log).
        split; [eapply sound_weaken; [| exact S']; intros z Hz; apply elem_of_app; auto |].
        split.
        -- intros Hl. destruct (C' (Hrest _ Hl) (CL _ HA Hl)) as [C1 C2].
           apply closed_app; assumption.
        -- intros fuel. change (S c + fuel)%nat with (S (c + fuel)). rewrite Enode.
           rewrite HA. rewrite HB. rewrite (ltb_eqb_false _ _ HB). cbn [negb].
           rewrite HE. apply after_after.
    + (* the right box is missed *)
      destruct (visits_one _ _ _ KR stack h Vl Hcap)
        as (c & Hc1 & Hc & [HF | (h' & log & S' & C' & HE)]).
      * exists (S c). split; [lia |]. split; [lia |]. left. intros fuel.
        change (S c + fuel)%nat with (S (c + fuel)). rewrite Enode.
        rewrite HB. rewrite (ltb_asym _ _ HA). rewrite (ltb_eqb_false _ _ HA). cbn [negb].
        rewrite HF. reflexivity.
      * exists (S c). split; [lia |]. split; [lia |]. right. exists h', (tests ++ log).
        split; [eapply sound_weaken; [| exact S']; intros z Hz; apply elem_of_app; auto |].
        split.
        -- intros Hl. destruct (C' (Hrest _ Hl) (CR _ HB Hl)) as [C1 C2].
           apply closed_app; assumption.
        -- intros fuel. change (S c + fuel)%nat with (S (c + fuel)). rewrite Enode.
           rewrite HB. rewrite (ltb_asym _ _ HA). rewrite (ltb_eqb_false _ _ HA).
           cbn [negb]. rewrite HE. apply after_after.
    + (* both boxes are hit: the nearer first *)
      destruct (B <? A)%f32 eqn:EBA.
      * destruct (visits_two _ _ _ _ _ _ stack h Vr Vl Hcap)
          as (c & Hc1 & Hc & [HF | (h' & log & S' & C' & HE)]).
        -- exists (S c). split; [lia |]. split; [lia |]. left. intros fuel.
           change (S c + fuel)%nat with (S (c + fuel)). rewrite Enode.
           rewrite (ltb_eqb_false _ _ HB), (ltb_eqb_false _ _ HA). cbn [negb].
           rewrite HF. reflexivity.
        -- exists (S c). split; [lia |]. split; [lia |]. right. exists h', (tests ++ log).
           split; [apply Hsub; exact S' |]. split.
           ++ intros Hl. destruct (C' (Hrest _ Hl)) as [C1 C2].
              apply closed_app; assumption.
           ++ intros fuel. change (S c + fuel)%nat with (S (c + fuel)). rewrite Enode.
              rewrite (ltb_eqb_false _ _ HB), (ltb_eqb_false _ _ HA). cbn [negb].
              rewrite HE. apply after_after.
      * destruct (visits_two _ _ _ _ _ _ stack h Vl Vr Hcap)
          as (c & Hc1 & Hc & [HF | (h' & log & S' & C' & HE)]).
        -- exists (S c). split; [lia |]. split; [lia |]. left. intros fuel.
           change (S c + fuel)%nat with (S (c + fuel)). rewrite Enode.
           rewrite (ltb_eqb_false _ _ HB), (ltb_eqb_false _ _ HA). cbn [negb].
           rewrite HF. reflexivity.
        -- exists (S c). split; [lia |]. split; [lia |]. right. exists h', (tests ++ log).
           split; [exact S' |]. split.
           ++ intros Hl. destruct (C' (Hrest _ Hl)) as [C1 C2].
              apply closed_app; assumption.
           ++ intros fuel. change (S c + fuel)%nat with (S (c + fuel)). rewrite Enode.
              rewrite (ltb_eqb_false _ _ HB), (ltb_eqb_false _ _ HA). cbn [negb].
              rewrite HE. apply after_after.
Qed.
End Traversal.

(** ** The traversal of a built BLAS *)

Lemma range_all (idx : list Z) : range idx 0 (Z.of_nat (length idx)) = idx.
Proof. unfold range. rewrite Nat2Z.id. cbn [Z.to_nat drop]. apply firstn_all. Qed.

Lemma ray_eta ray : ray = set_hit ray (hit ray).
Proof. destruct ray. reflexivity. Qed.

(** A BLAS that [BVH::Build] has built over at most [2^20] triangles, and
    that [fuelB] turns of the loop of its traversal are enough for. *)
Definition blas_ready (fuelB : nat) (b : BVH.t) : Prop :=
  exists m rawNode rawIdx rawUsed fuel,
    BVH.Build fuel (BVH.alloc m rawNode rawIdx rawUsed) = Ok b /\
    Mesh.triCount m <= 2 ^ 20 /\ BVH.nodesUsed b <= Z.of_nat fuelB.

Definition all_tris (b : BVH.t) : list Z := seqZ 0 (Mesh.triCount (BVH.mesh b)).

Lemma Intersect_visits fuel b inst ray h :
  blas_ready fuel b ->
  (F32.f1e30 <? t h)%f32 = false ->
  BVH.Intersect_log fuel b (set_hit ray h) inst = Fault (OutOfBounds StackArr) \/
  exists h' log,
    BVH.Intersect_log fuel b (set_hit ray h) inst = Ok (set_hit ray h', log) /\
    sound (BVH.mesh b) inst ray (all_tris b) h h' /\
    (forallb (lossless b) log = true -> closed (BVH.mesh b) ray (all_tris b) h').
Proof.
  intros (m & rawNode & rawIdx & rawUsed & fuelB & HB & HT & Hfuel) Hcap.
  destruct (Build_Ok_built _ _ _ _ _ _ HB) as (HT1 & Hwf & Htri & Hperm & _).
  destruct Hwf as ((Hal1 & Hal2) & Hv & t0 & Hr0 & Hlo0 & Hn0 & Hsh & Hused & Hbox).
  cbn [BVH.mesh BVH.alloc] in Htri, Hperm.
  assert (HTb : Mesh.triCount (BVH.mesh b) = Mesh.triCount m).
  { unfold Mesh.triCount. rewrite Htri, length_map. reflexivity. }
  assert (Hlen : Z.of_nat (length (BVH.triIdx b)) = Mesh.triCount (BVH.mesh b)).
  { unfold Mesh.triCount. rewrite Hal1. reflexivity. }
  pose proof (visits_subtree b inst ray Hv ltac:(lia) t0 2 Hsh ltac:(lia)
                ltac:(lia) ltac:(lia)) as V.
  rewrite Hr0, Hlo0, Hn0, <- Hlen, range_all in V.
  destruct (V [] h Hcap) as (c & Hc1 & Hc & HV).
  unfold BVH.Intersect_log.
  replace fuel with (c + (fuel - c))%nat by lia.
  destruct HV as [HF | (h' & log & S' & C' & HE)]; [left; apply HF |].
  right. exists h', log. split; [rewrite HE; cbn; rewrite app_nil_r; reflexivity |].
  assert (Hp : BVH.triIdx b ≡ₚ all_tris b) by (unfold all_tris; rewrite HTb; exact Hperm).
  split.
  - eapply sound_weaken; [| exact S']. intros z Hz. rewrite <- Hp. exact Hz.
  - intros Hl. eapply closed_perm; [exact Hp | exact (C' Hl)].
Qed.

Lemma brute_force_spec b inst ray h :
  exists hb, brute_force b inst (set_hit ray h) = set_hit ray hb /\
             sound (BVH.mesh b) inst ray (all_tris b) h hb /\
             closed (BVH.mesh b) ray (all_tris b) hb.
Proof. apply scan_spec. Qed.

Lemma sound_hit m inst ray ks h' :
  sound m inst ray ks (hit ray) h' ->
  h' = hit ray \/
  exists k tr, k ∈ ks /\ Mesh.tri m !! Z.to_nat k = Some tr /\
               h' = hit (IntersectTri ray tr (inst_prim inst k)).
Proof.
  intros [-> | (k & tr & Hk & Htr & Ha & Hlt & ->)]; [left; reflexivity |].
  right. exists k, tr. split; [exact Hk |]. split; [exact Htr |].
  rewrite IntersectTri_eq, Ha, Hlt. reflexivity.
Qed.

(** ** The hierarchy that [TLAS::Build] leaves *)

Definition any_fault (f : fault) : Prop := True.

Lemma sat_rd_any {A} id (a : list A) i :
  satisfies (rd id a i) any_fault (fun v => 0 <= i /\ a !! Z.to_nat i = Some v).
Proof.
  destruct (rd id a i) as [v | f] eqn:E; [| exact I]. apply rd_Ok in E. exact E.
Qed.

Lemma sat_wr_any {A} id (a : list A) i v :
  satisfies (wr id a i v) any_fault
    (fun a' => 0 <= i < Z.of_nat (length a) /\ a' = <[Z.to_nat i := v]> a).
Proof.
  destruct (wr id a i v) as [a' | f] eqn:E; [| exact I]. apply wr_Ok in E. exact E.
Qed.

(** The ghost of a TLAS tree: a leaf at node [i] for instance [j], or an
    interior node at [i] over two subtrees. *)
Inductive ttree :=
  | TL (i j : Z)
  | TN (i : Z) (l r : ttree).

Definition ttroot (t : ttree) : Z := match t with TL i _ | TN i _ _ => i end.

Fixpoint tleaves (t : ttree) : list Z :=
  match t with
  | TL _ j => [j]
  | TN _ l r => tleaves l ++ tleaves r
  end.

Fixpoint tsize (t : ttree) : nat :=
  match t with
  | TL _ _ => 1
  | TN _ l r => S (tsize l + tsize r)
  end.

Definition reroot (i : Z) (t : ttree) : ttree :=
  match t with TL _ j => TL i j | TN _ l r => TN i l r end.

(** [tshaped s hi t]: the pool of [s] holds [t] below [hi]; the two children
    of an interior node are packed in [leftRight], 16 bits each, and neither
    is node 0. *)
Fixpoint tshaped (s : TLAS.t) (hi : Z) (t : ttree) : Prop :=
  match t with
  | TL i j =>
      0 <= i < hi /\ 0 <= j < Z.of_nat (length (TLAS.blas s)) /\
      exists nd, TLAS.tlasNode s !! Z.to_nat i = Some nd /\
                 TLASNode.leftRight nd = 0 /\ TLASNode.BLAS nd = j
  | TN i l r =>
      0 <= i < hi /\
      (exists nd, TLAS.tlasNode s !! Z.to_nat i = Some nd /\
                  TLASNode.leftRight nd = wrap32 (ttroot l + Z.shiftl (ttroot r) 16)) /\
      1 <= ttroot l < 2 ^ 16 /\ 1 <= ttroot r < 2 ^ 16 /\
      tshaped s hi l /\ tshaped s hi r
  end.

Lemma tsize_leaves t : (tsize t + 1 = 2 * length (tleaves t))%nat.
Proof.
  induction t as [i j | i l IHl r IHr]; simpl; [reflexivity |].
  rewrite length_app. lia.
Qed.

Lemma tshaped_root s hi t : tshaped s hi t -> 0 <= ttroot t < hi.
Proof. destruct t; simpl; tauto. Qed.

(** Writes at or above [hi], and at a root that is no child, keep the tree. *)
Lemma tshaped_ext s s' hi hi' t :
  tshaped s hi t -> hi <= hi' ->
  length (TLAS.blas s') = length (TLAS.blas s) ->
  (forall k, 1 <= k < hi -> TLAS.tlasNode s' !! Z.to_nat k = TLAS.tlasNode s !! Z.to_nat k) ->
  1 <= ttroot t -> tshaped s' hi' t.
Proof.
  intros Hsh Hhi Hb Hext. induction t as [i j | i l IHl r IHr]; simpl in *; intros Hr.
  - destruct Hsh as (Hi & Hj & nd & Hnd & H1 & H2). split; [lia |]. split; [lia |].
    exists nd. rewrite Hext by lia. auto.
  - destruct Hsh as (Hi & (nd & Hnd & Hlr) & Hl & Hrr & Hsl & Hsr).
    split; [lia |]. split; [exists nd; rewrite Hext by lia; auto |].
    split; [lia |]. split; [lia |]. split; [apply IHl | apply IHr]; auto; lia.
Qed.

Lemma tshaped_reroot s s' hi t nd :
  tshaped s hi t -> 1 <= ttroot t -> 0 < hi ->
  TLAS.tlasNode s !! Z.to_nat (ttroot t) = Some nd ->
  TLAS.tlasNode s' !! 0%nat = Some nd ->
  length (TLAS.blas s') = length (TLAS.blas s) ->
  (forall k, 1 <= k < hi -> TLAS.tlasNode s' !! Z.to_nat k = TLAS.tlasNode s !! Z.to_nat k) ->
  tshaped s' hi (reroot 0 t).
Proof.
  intros Hsh Hr Hhi Hnd H0 Hb Hext. destruct t as [i j | i l r]; simpl in *.
  - destruct Hsh as (Hi & Hj & nd' & Hnd' & H1 & H2).
    assert (nd' = nd) by congruence. subst nd'.
    split; [lia |]. split; [lia |]. exists nd. auto.
  - destruct Hsh as (Hi & (nd' & Hnd' & Hlr) & Hl & Hrr & Hsl & Hsr).
    assert (nd' = nd) by congruence. subst nd'.
    split; [lia |]. split; [exists nd; auto |]. split; [lia |]. split; [lia |].
    split; eapply tshaped_ext; try eassumption; lia.
Qed.

(** The two halves of [leftRight], lines 581-582. *)
Lemma leftRight_unpack a b :
  0 <= a < 2 ^ 16 -> 0 <= b < 2 ^ 16 ->
  Z.land (wrap32 (a + Z.shiftl b 16)) 65535 = a /\
  Z.shiftr (wrap32 (a + Z.shiftl b 16)) 16 = b.
Proof.
  intros Ha Hb. unfold wrap32. rewrite Z.shiftl_mul_pow2 by lia.
  rewrite Z.mod_small by lia. split.
  - change 65535 with (Z.ones 16). rewrite Z.land_ones by lia.
    rewrite Z_mod_plus_full. apply Z.mod_small. exact Ha.
  - rewrite Z.shiftr_div_pow2 by lia. rewrite Z.div_add by lia.
    rewrite Z.div_small by lia. reflexivity.
Qed.

Lemma leftRight_pos a b :
  1 <= a < 2 ^ 16 -> 0 <= b < 2 ^ 16 -> wrap32 (a + Z.shiftl b 16) <> 0.
Proof.
  intros Ha Hb. unfold wrap32. rewrite Z.shiftl_mul_pow2 by lia.
  rewrite Z.mod_small by lia. lia.
Qed.

Lemma sat_node_of s k :
  satisfies (TLAS.node_of s k) any_fault
    (fun nd => 0 <= k < Z.of_nat (length (TLAS.nodeIdx s)) /\
               exists i, TLAS.nodeIdx s !! Z.to_nat k = Some i /\ 0 <= i /\
                         TLAS.tlasNode s !! Z.to_nat i = Some nd).
Proof.
  unfold TLAS.node_of. eapply sat_bind; [apply sat_rd_any |].
  intros i [Hk Hi]. eapply sat_mono; [apply sat_rd_any | | auto].
  intros nd [Hi0 Hnd]. apply lookup_lt_Some in Hi as Hlt.
  split; [lia |]. exists i. auto.
Qed.

(** [FindBestMatch] returns [-1] or another index of the active list; with
    two entries or more it has read the entry [A]. *)
Lemma FindBestMatch_spec s N A :
  satisfies (TLAS.FindBestMatch s N A) any_fault
    (fun r => (r = -1 \/ (0 <= r < N /\ r <> A)) /\
              (2 <= N -> 0 <= A < Z.of_nat (length (TLAS.nodeIdx s)))).
Proof.
  unfold TLAS.FindBestMatch.
  eapply sat_bind with
    (Q := fun acc : float * Z =>
            (snd acc = -1 \/ (0 <= snd acc < 0 + Z.of_nat (Z.to_nat N) /\ snd acc <> A)) /\
            (forall B, 0 <= B < 0 + Z.of_nat (Z.to_nat N) -> B <> A ->
                       0 <= A < Z.of_nat (length (TLAS.nodeIdx s)))).
  - apply (sat_for_loop
      (fun k (acc : float * Z) =>
         (snd acc = -1 \/ (0 <= snd acc < k /\ snd acc <> A)) /\
         (forall B, 0 <= B < k -> B <> A -> 0 <= A < Z.of_nat (length (TLAS.nodeIdx s))))
      any_fault).
    + split; [left; reflexivity | intros; lia].
    + intros B [smallest bestB] HB [Hbest Hread]. cbn [snd] in *.
      destruct (Z.eqb_spec B A) as [-> | Hne].
      * unfold satisfies. cbn [snd]. split; [destruct Hbest; [auto | right; lia] |].
        intros B' HB' Hne'. apply (Hread B'); lia.
      * eapply sat_bind; [apply sat_node_of |].
        intros nA [HA _].
        eapply sat_bind; [apply sat_node_of |].
        intros nB _. cbv zeta.
        match goal with |- context [if ?c then _ else _] => destruct c end;
          unfold satisfies; cbn [snd]; (split; [| intros; lia]).
        -- right. lia.
        -- destruct Hbest; [auto | right; lia].
  - intros [smallest bestB] [Hbest Hread]. cbn [snd] in *. unfold satisfies. split.
    + destruct Hbest as [-> | Hb]; [auto | right; lia].
    + intros HN. destruct (Z.eq_dec A 0) as [-> | HA0].
      * apply (Hread 1); lia.
      * apply (Hread 0); lia.
Qed.

(** *** The active list of the clustering *)

Lemma insert_Permutation_delete {A} (l : list A) i x a :
  l !! i = Some a -> <[i:=x]> l ≡ₚ x :: delete i l.
Proof.
  revert i. induction l as [| c l IH]; intros [| i] H; try discriminate.
  - reflexivity.
  - simpl in *. rewrite (IH i H). apply perm_swap.
Qed.

Lemma insert2_Permutation {A} (l : list A) i j x y a b :
  i <> j -> l !! i = Some a -> l !! j = Some b ->
  exists rest, l ≡ₚ a :: b :: rest /\ <[j:=y]> (<[i:=x]> l) ≡ₚ x :: y :: rest.
Proof.
  revert i j. induction l as [| c l IH]; intros [| i] [| j] Hne Hi Hj;
    try discriminate; try congruence; simpl in *.
  - injection Hi as ->. exists (delete j l). split.
    + rewrite <- (delete_Permutation l j b Hj). reflexivity.
    + rewrite (insert_Permutation_delete l j y b Hj). reflexivity.
  - injection Hj as ->. exists (delete i l). split.
    + rewrite (delete_Permutation l i a Hi) at 1. apply perm_swap.
    + rewrite (insert_Permutation_delete l i x a Hi). apply perm_swap.
  - destruct (IH i j ltac:(congruence) Hi Hj) as (rest & H1 & H2).
    exists (c :: rest). split.
    + rewrite H1. rewrite (perm_swap a c). apply perm_skip. apply perm_swap.
    + rewrite H2. rewrite (perm_swap x c). apply perm_skip. apply perm_swap.
Qed.

(** The list after a merge, lines 380-385: the new tree takes the place of
    [A], the last tree the place of [B], and the list loses its last
    entry. *)
Definition merged {A} (F : list A) (a b : nat) (new last : A) : list A :=
  take (length F - 1) (<[b:=last]> (<[a:=new]> F)).

Lemma merged_Permutation {A} (F : list A) a b new last fa fb :
  a <> b -> F !! a = Some fa -> F !! b = Some fb ->
  <[a:=new]> F !! (length F - 1)%nat = Some last ->
  exists rest, F ≡ₚ fa :: fb :: rest /\ merged F a b new last ≡ₚ new :: rest.
Proof.
  intros Hne Ha Hb Hlast.
  destruct (insert2_Permutation F a b new last fa fb Hne Ha Hb) as (rest & H1 & H2).
  exists rest. split; [exact H1 |]. unfold merged.
  set (G := <[b:=last]> (<[a:=new]> F)) in *.
  assert (HG : G !! (length F - 1)%nat = Some last).
  { unfold G. destruct (decide (b = (length F - 1)%nat)) as [-> | Hb'].
    - apply list_lookup_insert_eq. rewrite length_insert.
      apply lookup_lt_Some in Hb. exact Hb.
    - rewrite list_lookup_insert_ne by exact Hb'. exact Hlast. }
  assert (Hsplit : G = take (length F - 1) G ++ [last]).
  { rewrite <- (take_drop (length F - 1) G) at 1. f_equal.
    assert (HlenG : length G = length F) by (unfold G; rewrite !length_insert; reflexivity).
    rewrite (drop_S G last (length F - 1) HG).
    rewrite drop_ge by lia. reflexivity. }
  rewrite Hsplit in H2. rewrite <- Permutation_cons_append in H2.
  rewrite (perm_swap last new) in H2. apply Permutation_cons_inv in H2. exact H2.
Qed.

Lemma length_merged {A} (F : list A) a b new last :
  length (merged F a b new last) = (length F - 1)%nat.
Proof. unfold merged. rewrite length_take, !length_insert. lia. Qed.

(** Entry [i] of the index list is the root of tree [i]. *)
Definition roots_of (F : list ttree) (idx : list Z) : Prop :=
  forall i f, F !! i = Some f -> idx !! i = Some (ttroot f).

Lemma roots_of_insert F idx a f :
  roots_of F idx -> (a < length idx)%nat ->
  roots_of (<[a:=f]> F) (<[a:=ttroot f]> idx).
Proof.
  intros HR Ha i g Hg. destruct (decide (i = a)) as [-> | Hne].
  - rewrite list_lookup_insert_eq by exact Ha.
    assert (a < length F)%nat.
    { apply lookup_lt_Some in Hg. rewrite length_insert in Hg. exact Hg. }
    rewrite list_lookup_insert_eq in Hg by assumption. congruence.
  - rewrite list_lookup_insert_ne in Hg by congruence.
    rewrite list_lookup_insert_ne by congruence. apply HR. exact Hg.
Qed.

Lemma roots_of_merged F idx a b new last lasti :
  roots_of F idx -> (a < length idx)%nat -> (b < length idx)%nat ->
  <[a:=new]> F !! (length F - 1)%nat = Some last ->
  <[a:=ttroot new]> idx !! (length F - 1)%nat = Some lasti ->
  roots_of (merged F a b new last) (<[b:=lasti]> (<[a:=ttroot new]> idx)).
Proof.
  intros HR Ha Hb Hlast Hlasti.
  pose proof (roots_of_insert F idx a new HR Ha) as H1.
  assert (lasti = ttroot last) by (pose proof (H1 _ _ Hlast); congruence). subst lasti.
  pose proof (roots_of_insert _ _ b last H1 ltac:(rewrite length_insert; exact Hb)) as H2.
  intros i f Hf. unfold merged in Hf. apply lookup_take_Some in Hf as [Hf _].
  apply H2. exact Hf.
Qed.

Lemma sat_upd_tnode_any pool i f :
  satisfies (upd_tnode pool i f) any_fault
    (fun p => 0 <= i < Z.of_nat (length pool) /\
              exists nd, pool !! Z.to_nat i = Some nd /\ p = <[Z.to_nat i := f nd]> pool).
Proof.
  unfold upd_tnode. eapply sat_bind; [apply sat_rd_any |].
  intros nd [Hi Hnd]. eapply sat_mono; [apply sat_wr_any | | auto].
  intros p [Hi' ->]. split; [exact Hi' |]. exists nd. auto.
Qed.

(** What the clustering keeps: [n] trees, rooted where the first [n] entries
    of [nodeIdx] say, shaped below [nodesUsed], their leaves the instances. *)
Definition forest_inv (insts : list BVHInstance) (s : TLAS.t) (n : Z) (F : list ttree)
  : Prop :=
  let N := Z.of_nat (length insts) in
  TLAS.blas s = insts /\
  Z.of_nat (length (TLAS.nodeIdx s)) = N /\
  Z.of_nat (length (TLAS.tlasNode s)) = 2 * N + 2 /\
  1 <= n <= N /\ N <= 2 ^ 15 /\
  TLAS.nodesUsed s = 2 * N + 1 - n /\
  Z.of_nat (length F) = n /\
  roots_of F (TLAS.nodeIdx s) /\
  Forall (fun f => 1 <= ttroot f /\ tshaped s (TLAS.nodesUsed s) f) F /\
  F ≫= tleaves ≡ₚ seqZ 0 N.

Lemma cluster_unfold fuel s n A B :
  TLAS.cluster fuel s n A B
  = if n <=? 1 then Ok (s, A) else
    match fuel with
    | O => Fault OutOfFuel
    | S fuel' =>
        C ← TLAS.FindBestMatch s n B;
        if A =? C then
          nodeIdxA ← rd NodeIdxArr (TLAS.nodeIdx s) A;
          nodeIdxB ← rd NodeIdxArr (TLAS.nodeIdx s) B;
          nodeA ← rd TlasPool (TLAS.tlasNode s) nodeIdxA;
          nodeB ← rd TlasPool (TLAS.tlasNode s) nodeIdxB;
          pool ← upd_tnode (TLAS.tlasNode s) (TLAS.nodesUsed s)
                   (fun n => TLASNode.mk
                      (fminf3 (TLASNode.aabbMin nodeA) (TLASNode.aabbMin nodeB))
                      (wrap32 (nodeIdxA + Z.shiftl nodeIdxB 16))
                      (fmaxf3 (TLASNode.aabbMax nodeA) (TLASNode.aabbMax nodeB))
                      (TLASNode.BLAS n));
          idx ← wr NodeIdxArr (TLAS.nodeIdx s) A (TLAS.nodesUsed s);
          last ← rd NodeIdxArr idx (n - 1);
          idx ← wr NodeIdxArr idx B last;
          let s := TLAS.set_nodesUsed (TLAS.nodesUsed s + 1)
                     (TLAS.set_nodeIdx idx (TLAS.set_tlasNode pool s)) in
          B ← TLAS.FindBestMatch s (n - 1) A;
          TLAS.cluster fuel' s (n - 1) A B
        else TLAS.cluster fuel' s n B C
    end.
Proof. destruct fuel; reflexivity. Qed.

Lemma cluster_spec insts fuel : forall s n A B F,
  forest_inv insts s n F ->
  B = -1 \/ 0 <= B < n ->
  (n = 1 -> exists f, F = [f] /\ 0 <= A /\ TLAS.nodeIdx s !! Z.to_nat A = Some (ttroot f)) ->
  satisfies (TLAS.cluster fuel s n A B) any_fault
    (fun r => exists f, forest_inv insts (fst r) 1 [f] /\ 0 <= snd r /\
                        TLAS.nodeIdx (fst r) !! Z.to_nat (snd r) = Some (ttroot f)).
Proof.
  induction fuel as [| fuel IH]; intros s n A B F Hinv HB Hone;
    rewrite cluster_unfold; destruct (Z.leb_spec n 1) as [Hn | Hn].
  - assert (n = 1) by (destruct Hinv as (_ & _ & _ & ? & _); lia). subst n.
    destruct (Hone eq_refl) as (f & -> & HA & Hf). exists f. auto.
  - exact I.
  - assert (n = 1) by (destruct Hinv as (_ & _ & _ & ? & _); lia). subst n.
    destruct (Hone eq_refl) as (f & -> & HA & Hf). exists f. auto.
  - pose proof Hinv as (Hbl & Hli & Hlp & Hn' & HN & Hused & HlF & Hroots & Hsh & Hleaves).
    eapply sat_bind; [apply FindBestMatch_spec |].
    intros C [HC HBr]. specialize (HBr ltac:(lia)).
    assert (HB' : 0 <= B < n) by lia. clear HB.
    destruct (Z.eqb_spec A C) as [<- | HAC]; [| apply (IH s n B C F Hinv); [lia | lia]].
    eapply sat_bind; [apply sat_rd_any |]. intros a [HA0 Ha].
    assert (HA : 0 <= A < n /\ A <> B) by lia. clear HC.
    eapply sat_bind; [apply sat_rd_any |]. intros b [_ Hb].
    destruct (lookup_lt_is_Some_2 F (Z.to_nat A)) as [fA HfA]; [lia |].
    destruct (lookup_lt_is_Some_2 F (Z.to_nat B)) as [fB HfB]; [lia |].
    assert (a = ttroot fA) by (pose proof (Hroots _ _ HfA); congruence). subst a.
    assert (b = ttroot fB) by (pose proof (Hroots _ _ HfB); congruence). subst b.
    eapply sat_bind; [apply sat_rd_any |]. intros nodeA _.
    eapply sat_bind; [apply sat_rd_any |]. intros nodeB _.
    eapply sat_bind; [apply sat_upd_tnode_any |]. intros pool (Hu & nd0 & Hnd0 & ->).
    eapply sat_bind; [apply sat_wr_any |]. intros idx1 (_ & ->).
    eapply sat_bind; [apply sat_rd_any |]. intros lasti [_ Hlasti].
    eapply sat_bind; [apply sat_wr_any |]. intros idx2 (_ & ->).
    cbv zeta.
    set (newN := TLASNode.mk (fminf3 (TLASNode.aabbMin nodeA) (TLASNode.aabbMin nodeB))
                   (wrap32 (ttroot fA + Z.shiftl (ttroot fB) 16))
                   (fmaxf3 (TLASNode.aabbMax nodeA) (TLASNode.aabbMax nodeB))
                   (TLASNode.BLAS nd0)).
    set (newT := TN (TLAS.nodesUsed s) fA fB).
    set (s' := TLAS.set_nodesUsed _ _).
    destruct (lookup_lt_is_Some_2 (<[Z.to_nat A:=newT]> F) (length F - 1)) as [lastF HlastF];
      [rewrite length_insert; lia |].
    replace (Z.to_nat (n - 1)) with (length F - 1)%nat in Hlasti by lia.
    change (TLAS.nodesUsed s) with (ttroot newT) in Hlasti.
    destruct (merged_Permutation F (Z.to_nat A) (Z.to_nat B) newT lastF fA fB
                ltac:(lia) HfA HfB HlastF) as (rest & HpF & HpF').
    (* the old trees stay shaped *)
    assert (Hold : forall f, 1 <= ttroot f -> tshaped s (TLAS.nodesUsed s) f ->
                             tshaped s' (TLAS.nodesUsed s + 1) f).
    { intros f Hr Hf. apply (tshaped_ext s s' (TLAS.nodesUsed s)); auto; try lia.
      intros k Hk. unfold s'. cbn [TLAS.tlasNode TLAS.set_nodesUsed TLAS.set_nodeIdx
                                   TLAS.set_tlasNode].
      apply list_lookup_insert_ne. lia. }
    pose proof (proj1 (Forall_forall _ _) Hsh) as Hsh'.
    assert (HinA : fA ∈ F) by (eapply list_elem_of_lookup_2; exact HfA).
    assert (HinB : fB ∈ F) by (eapply list_elem_of_lookup_2; exact HfB).
    destruct (Hsh' fA HinA) as [HrA HsA]. destruct (Hsh' fB HinB) as [HrB HsB].
    pose proof (tshaped_root _ _ _ HsA) as HrA'. pose proof (tshaped_root _ _ _ HsB) as HrB'.
    assert (Hnew : tshaped s' (TLAS.nodesUsed s + 1) newT).
    { cbn [tshaped newT ttroot]. split; [lia |]. split.
      - exists newN. split; [| reflexivity]. unfold s'.
        cbn [TLAS.tlasNode TLAS.set_nodesUsed TLAS.set_nodeIdx TLAS.set_tlasNode].
        apply list_lookup_insert_eq. lia.
      - split; [lia |]. split; [lia |]. split; apply Hold; assumption. }
    assert (Hinv' : forest_inv insts s' (n - 1)
                      (merged F (Z.to_nat A) (Z.to_nat B) newT lastF)).
    { unfold forest_inv, s'.
      cbn [TLAS.blas TLAS.nodeIdx TLAS.tlasNode TLAS.nodesUsed
           TLAS.set_nodesUsed TLAS.set_nodeIdx TLAS.set_tlasNode].
      rewrite !length_insert, length_merged.
      split; [exact Hbl |]. split; [exact Hli |]. split; [exact Hlp |].
      split; [lia |]. split; [exact HN |]. split; [lia |]. split; [lia |]. split.
      - apply roots_of_merged; try assumption; lia.
      - split.
        + apply Forall_forall. intros f Hf. rewrite HpF' in Hf.
          apply elem_of_cons in Hf as [-> | Hf].
          * split; [cbn [ttroot newT]; lia | exact Hnew].
          * assert (f ∈ F) by (rewrite HpF; do 2 (apply elem_of_cons; right); exact Hf).
            destruct (Hsh' f H) as [Hr Hs]. split; [exact Hr |]. apply Hold; assumption.
        + rewrite HpF'. rewrite <- Hleaves, HpF. cbn [mbind list_bind tleaves newT].
          rewrite <- app_assoc. reflexivity. }
    eapply sat_bind; [apply FindBestMatch_spec |]. intros B2 [HB2 _].
    apply (IH s' (n - 1) A B2 _ Hinv'); [lia |].
    intros Hn1.
    assert (Hrest : rest = []).
    { apply Permutation_length in HpF'. rewrite length_merged in HpF'. simpl in HpF'.
      destruct rest; [reflexivity | simpl in HpF'; lia]. }
    subst rest. apply Permutation_singleton_r in HpF'. exists newT.
    split; [exact HpF' |]. split; [lia |]. unfold s'.
    cbn [TLAS.nodeIdx TLAS.set_nodesUsed TLAS.set_nodeIdx TLAS.set_tlasNode ttroot newT].
    rewrite list_lookup_insert_ne by lia. apply list_lookup_insert_eq. lia.
Qed.

(** A TLAS as [TLAS::Build] leaves it: a tree rooted at node 0 over all the
    instances. *)
Definition tlas_wf (insts : list BVHInstance) (s : TLAS.t) : Prop :=
  exists t, ttroot t = 0 /\ tshaped s (TLAS.nodesUsed s) t /\
            tleaves t ≡ₚ seqZ 0 (Z.of_nat (length insts)) /\
            TLAS.blas s = insts /\
            TLAS.nodesUsed s = 2 * Z.of_nat (length insts).

Lemma leaves_forest (l : list Z) : (map (fun i => TL (1 + i) i) l) ≫= tleaves = l.
Proof. induction l as [| i l IH]; [reflexivity |]. simpl. f_equal. exact IH. Qed.

Lemma Build_tlas_wf insts rawNode rawIdx fuel :
  1 <= Z.of_nat (length insts) <= 2 ^ 15 ->
  satisfies (TLAS.Build fuel (TLAS.alloc insts rawNode rawIdx)) any_fault (tlas_wf insts).
Proof.
  intros HN. unfold TLAS.Build.
  destruct (assign_leaves_total insts rawNode rawIdx)
    as (s1 & -> & Hb & Hc & Hu & Hli & Hlp & Hl).
  cbn [mbind result_bind]. cbv zeta. rewrite Hc.
  set (N := Z.of_nat (length insts)) in *.
  set (F0 := map (fun i => TL (1 + i) i) (seqZ 0 N)).
  assert (HF0 : forall i f, F0 !! i = Some f ->
                  Z.of_nat i < N /\ f = TL (1 + Z.of_nat i) (Z.of_nat i)).
  { intros i f Hf. unfold F0 in Hf. rewrite list_lookup_fmap in Hf.
    destruct (seqZ 0 N !! i) as [k |] eqn:E; [| discriminate].
    apply lookup_seqZ in E as [-> Hi]. injection Hf as <-. split; [lia |].
    f_equal; lia. }
  assert (Hinv : forest_inv insts s1 N F0).
  { unfold forest_inv. fold N. split; [exact Hb |]. split; [exact Hli |].
    split; [exact Hlp |]. split; [lia |]. split; [lia |]. split; [lia |].
    split; [unfold F0; rewrite length_map, length_seqZ; lia |]. split.
    - intros i f Hf. destruct (HF0 i f Hf) as [Hi ->]. cbn [ttroot].
      destruct (lookup_lt_is_Some_2 insts i) as [b Hbi]; [lia |].
      destruct (Hl (Z.of_nat i) b ltac:(lia) ltac:(rewrite Nat2Z.id; exact Hbi)) as [H1 _].
      rewrite Nat2Z.id in H1. exact H1.
    - split; [| unfold F0; rewrite leaves_forest; reflexivity].
      apply Forall_forall. intros f Hf. apply list_elem_of_lookup in Hf as [i Hf].
      destruct (HF0 i f Hf) as [Hi ->]. cbn [ttroot tshaped]. split; [lia |].
      destruct (lookup_lt_is_Some_2 insts i) as [b Hbi]; [lia |].
      destruct (Hl (Z.of_nat i) b ltac:(lia) ltac:(rewrite Nat2Z.id; exact Hbi)) as [_ H2].
      split; [lia |]. split; [rewrite Hb; lia |].
      exists (leaf_of b (Z.of_nat i)). split; [exact H2 |]. split; reflexivity. }
  eapply sat_bind; [apply FindBestMatch_spec |]. intros B [HB _].
  eapply sat_bind.
  - apply (cluster_spec insts fuel s1 N 0 B F0 Hinv); [lia |].
    intros HN1. exists (TL 1 0). unfold F0. rewrite HN1. split; [reflexivity |].
    split; [lia |].
    destruct (lookup_lt_is_Some_2 insts 0) as [b Hb0]; [lia |].
    destruct (Hl 0 b ltac:(lia) Hb0) as [H1 _]. exact H1.
  - intros [s2 A] (f & Hinv2 & HA & Hroot). cbn [fst snd] in *.
    destruct Hinv2 as (Hbl & Hli2 & Hlp2 & _ & _ & Hused & _ & _ & Hsh & Hleaves).
    apply Forall_cons in Hsh as [[Hr Hs] _].
    eapply sat_bind; [apply sat_node_of |]. intros nd (_ & i & Hi & Hi0 & Hnd).
    assert (i = ttroot f) by congruence. subst i.
    eapply sat_bind; [apply sat_wr_any |]. intros pool [_ ->].
    unfold satisfies, tlas_wf. exists (reroot 0 f).
    cbn [TLAS.nodesUsed TLAS.blas TLAS.set_tlasNode].
    split; [destruct f; reflexivity |]. split; [| split; [| split; [exact Hbl | lia]]].
    + apply (tshaped_reroot s2 _ _ f nd); try assumption; try lia.
      * cbn [TLAS.tlasNode TLAS.set_tlasNode]. apply list_lookup_insert_eq. lia.
      * reflexivity.
      * intros k Hk. cbn [TLAS.tlasNode TLAS.set_tlasNode].
        apply list_lookup_insert_ne. lia.
    + rewrite <- Hleaves. cbn [mbind list_bind]. rewrite app_nil_r.
      destruct f; reflexivity.
Qed.

(** ** The closest hit over the instances *)

Section Scene.
  Variable insts : list BVHInstance.
  Variable ray : Ray.

(** [h1] is [h0], or the record of a triangle of an instance among [js],
    hit by the ray in the space of that instance closer than [h0]. *)
Definition sound_s (js : list Z) (h0 h1 : Intersection) : Prop :=
  h1 = h0 \/
  exists j b, j ∈ js /\ 0 <= j /\ insts !! Z.to_nat j = Some b /\
              sound (BVH.mesh (bvh b)) (idx b) (local_ray b ray) (all_tris (bvh b)) h0 h1.

(** No triangle of the instances among [js] is hit closer than [h]. *)
Definition closed_s (js : list Z) (h : Intersection) : Prop :=
  forall j b, j ∈ js -> 0 <= j -> insts !! Z.to_nat j = Some b ->
              closed (BVH.mesh (bvh b)) (local_ray b ray) (all_tris (bvh b)) h.

Lemma sound_s_refl js h : sound_s js h h.
Proof. left. reflexivity. Qed.

Lemma sound_s_below js h0 h1 c :
  sound_s js h0 h1 -> (c <? t h1)%f32 = true -> (c <? t h0)%f32 = true.
Proof.
  intros [-> | (j & b & _ & _ & _ & Hs)] Hc; [exact Hc |].
  eapply sound_below; eassumption.
Qed.

Lemma sound_s_weaken js js' h0 h1 : js ⊆ js' -> sound_s js h0 h1 -> sound_s js' h0 h1.
Proof.
  intros Hsub [-> | (j & b & Hj & H)]; [left; reflexivity |].
  right. exists j, b. split; [apply Hsub; exact Hj | exact H].
Qed.

Lemma sound_s_trans js h0 h1 h2 : sound_s js h0 h1 -> sound_s js h1 h2 -> sound_s js h0 h2.
Proof.
  intros H01 [-> | (j & b & Hj & Hj0 & Hb & Hs)]; [exact H01 |].
  destruct (sound_lower _ _ _ _ h0 h1 h2 (fun c => sound_s_below js h0 h1 c H01) Hs)
    as [-> | Hs']; [exact H01 |].
  right. exists j, b. auto.
Qed.

Lemma sound_s_cap js h h' :
  sound_s js h h' -> (F32.f1e30 <? t h)%f32 = false -> (F32.f1e30 <? t h')%f32 = false.
Proof.
  intros Hs Hcap. destruct (F32.f1e30 <? t h')%f32 eqn:E; [| reflexivity].
  rewrite <- Hcap. symmetry. eapply sound_s_below; eassumption.
Qed.

Lemma closed_s_mono js js' h0 h1 : sound_s js' h0 h1 -> closed_s js h0 -> closed_s js h1.
Proof.
  intros Hs Hc j b Hj Hj0 Hb. eapply closed_below; [| exact (Hc j b Hj Hj0 Hb)].
  intros c. apply (sound_s_below js' h0 h1 c Hs).
Qed.

Lemma closed_s_app js js' h : closed_s js h -> closed_s js' h -> closed_s (js ++ js') h.
Proof. intros H1 H2 j b Hj. apply elem_of_app in Hj as [Hj | Hj]; eauto. Qed.

Lemma closed_s_perm js js' h : js ≡ₚ js' -> closed_s js h -> closed_s js' h.
Proof. intros Hp Hc j b Hj. apply Hc. rewrite Hp. exact Hj. Qed.

Lemma closest_unique_s js h0 h1 h2 :
  sound_s js h0 h1 -> closed_s js h1 -> sound_s js h0 h2 -> closed_s js h2 ->
  t h1 = t h2.
Proof.
  intros S1 C1 S2 C2.
  assert (Hcase : forall ha hb, sound_s js h0 ha -> closed_s js hb ->
            ha = h0 \/ (exists c, t ha = c /\ (c <? t h0)%f32 = true /\
                                  (c <? t hb)%f32 = false /\ forall s, c <> S754_zero s)).
  { intros ha hb [-> | (j & b & Hj & Hj0 & Hb & [-> | (k & tr & Hk & Htr & Ha & Hlt & ->)])] Hc;
      [left; reflexivity | left; reflexivity |].
    right. exists (tri_t (local_ray b ray) tr). split; [reflexivity |].
    split; [exact Hlt |]. split; [exact (Hc j b Hj Hj0 Hb k tr Hk Htr Ha) |].
    intros s. apply accepts_pos. exact Ha. }
  pose proof (Hcase h1 h2 S1 C2) as H12. pose proof (Hcase h2 h1 S2 C1) as H21.
  destruct H12 as [E1 | (c1 & E1 & L1 & N1 & Z1)];
    destruct H21 as [E2 | (c2 & E2 & L2 & N2 & Z2)].
  - congruence.
  - rewrite E1 in N2. rewrite L2 in N2. discriminate.
  - rewrite E2 in N1. rewrite L1 in N1. discriminate.
  - rewrite E1, E2. rewrite E2 in N1. rewrite E1 in N2.
    destruct (ltb_antisym c1 c2) as [E | (s & s' & E & _)]; try assumption.
    + apply (ltb_true_good _ _ L1).
    + apply (ltb_true_good _ _ L2).
    + exfalso. exact (Z1 _ E).
Qed.

End Scene.

(** ** The traversal of the TLAS *)

(** Instance [j] is a leaf below node [i], by the links of the pool. *)
Inductive under (s : TLAS.t) : Z -> Z -> Prop :=
  | under_leaf i nd :
      TLAS.tlasNode s !! Z.to_nat i = Some nd -> TLASNode.isLeaf nd = true ->
      under s i (TLASNode.BLAS nd)
  | under_left i nd j :
      TLAS.tlasNode s !! Z.to_nat i = Some nd -> TLASNode.isLeaf nd = false ->
      under s (Z.land (TLASNode.leftRight nd) 65535) j -> under s i j
  | under_right i nd j :
      TLAS.tlasNode s !! Z.to_nat i = Some nd -> TLASNode.isLeaf nd = false ->
      under s (Z.shiftr (TLASNode.leftRight nd) 16) j -> under s i j.

Definition tresume (fuel fuelB : nat) (s : TLAS.t) (stack : list Z) (ray : Ray)
  : result Ray :=
  match stack with
  | [] => Ok ray
  | top :: rest => TLAS.traverse fuel fuelB s top rest ray
  end.

Lemma ttraverse_leaf fuel fuelB s i stack ray nd b :
  0 <= i -> TLAS.tlasNode s !! Z.to_nat i = Some nd ->
  TLASNode.leftRight nd = 0 -> 0 <= TLASNode.BLAS nd ->
  TLAS.blas s !! Z.to_nat (TLASNode.BLAS nd) = Some b ->
  TLAS.traverse (S fuel) fuelB s i stack ray
  = r ← BVHInstance_Intersect fuelB b ray; tresume fuel fuelB s stack r.
Proof.
  intros Hi Hnd Hleaf Hj Hb. cbn [TLAS.traverse].
  rewrite (proj2 (rd_Ok TlasPool _ i nd)) by auto. cbn [mbind result_bind].
  unfold TLASNode.isLeaf. rewrite Hleaf. change (0 =? 0) with true. cbv iota.
  rewrite (proj2 (rd_Ok BlasArr _ (TLASNode.BLAS nd) b)) by auto.
  cbn [mbind result_bind]. reflexivity.
Qed.

Lemma ttraverse_node fuel fuelB s i stack ray nd nl nr A B l r :
  0 <= i -> TLAS.tlasNode s !! Z.to_nat i = Some nd ->
  TLASNode.leftRight nd = wrap32 (l + Z.shiftl r 16) ->
  1 <= l < 2 ^ 16 -> 1 <= r < 2 ^ 16 ->
  TLAS.tlasNode s !! Z.to_nat l = Some nl ->
  TLAS.tlasNode s !! Z.to_nat r = Some nr ->
  A = IntersectAABB ray (TLASNode.aabbMin nl) (TLASNode.aabbMax nl) ->
  B = IntersectAABB ray (TLASNode.aabbMin nr) (TLASNode.aabbMax nr) ->
  TLAS.traverse (S fuel) fuelB s i stack ray
  = if (B <? A)%f32 then
      if (B =? F32.f1e30)%f32 then tresume fuel fuelB s stack ray
      else if negb (A =? F32.f1e30)%f32 then
        if 64 <=? Z.of_nat (length stack) then Fault (OutOfBounds StackArr)
        else TLAS.traverse fuel fuelB s r (l :: stack) ray
      else TLAS.traverse fuel fuelB s r stack ray
    else
      if (A =? F32.f1e30)%f32 then tresume fuel fuelB s stack ray
      else if negb (B =? F32.f1e30)%f32 then
        if 64 <=? Z.of_nat (length stack) then Fault (OutOfBounds StackArr)
        else TLAS.traverse fuel fuelB s l (r :: stack) ray
      else TLAS.traverse fuel fuelB s l stack ray.
Proof.
  intros Hi Hnd Hlr Hl Hr Hnl Hnr -> ->. cbn [TLAS.traverse].
  rewrite (proj2 (rd_Ok TlasPool _ i nd)) by auto. cbn [mbind result_bind].
  unfold TLASNode.isLeaf. rewrite Hlr.
  replace (wrap32 (l + Z.shiftl r 16) =? 0) with false
    by (symmetry; apply Z.eqb_neq; apply leftRight_pos; lia).
  cbv zeta.
  destruct (leftRight_unpack l r ltac:(lia) ltac:(lia)) as [-> ->].
  rewrite (proj2 (rd_Ok TlasPool _ l nl)) by (split; [lia | exact Hnl]).
  cbn [mbind result_bind].
  rewrite (proj2 (rd_Ok TlasPool _ r nr)) by (split; [lia | exact Hnr]).
  cbn [mbind result_bind].
  destruct (IntersectAABB ray (TLASNode.aabbMin nr) (TLASNode.aabbMax nr)
            <? IntersectAABB ray (TLASNode.aabbMin nl) (TLASNode.aabbMax nl))%f32;
    reflexivity.
Qed.

Lemma tshaped_node s hi t :
  tshaped s hi t -> exists nd, TLAS.tlasNode s !! Z.to_nat (ttroot t) = Some nd.
Proof.
  destruct t; simpl.
  - intros (_ & _ & nd & H & _). eauto.
  - intros (_ & (nd & H & _) & _). eauto.
Qed.

Lemma tshaped_under s hi t :
  tshaped s hi t -> forall j, j ∈ tleaves t -> under s (ttroot t) j /\ 0 <= j.
Proof.
  induction t as [i j0 | i l IHl r IHr]; simpl.
  - intros (Hi & Hj & nd & Hnd & Hlr & <-) j Hin.
    apply list_elem_of_singleton in Hin. subst j. split; [| lia].
    apply (under_leaf s i nd Hnd). unfold TLASNode.isLeaf. rewrite Hlr. reflexivity.
  - intros (Hi & (nd & Hnd & Hlr) & Hl & Hr & Hsl & Hsr) j Hin.
    assert (Hleaf : TLASNode.isLeaf nd = false).
    { unfold TLASNode.isLeaf. rewrite Hlr. apply Z.eqb_neq. apply leftRight_pos; lia. }
    destruct (leftRight_unpack (ttroot l) (ttroot r) ltac:(lia) ltac:(lia)) as [E1 E2].
    apply elem_of_app in Hin as [Hin | Hin].
    + destruct (IHl Hsl j Hin) as [Hu Hj]. split; [| exact Hj].
      apply (under_left s i nd j Hnd Hleaf). rewrite Hlr, E1. exact Hu.
    + destruct (IHr Hsr j Hin) as [Hu Hj]. split; [| exact Hj].
      apply (under_right s i nd j Hnd Hleaf). rewrite Hlr, E2. exact Hu.
Qed.

(** The instances below node [i], by the links of the pool. *)
Fixpoint insts_below (fuel : nat) (s : TLAS.t) (i : Z) : list Z :=
  match fuel with
  | O => []
  | S fuel' =>
      match TLAS.tlasNode s !! Z.to_nat i with
      | None => []
      | Some nd =>
          if TLASNode.isLeaf nd then [TLASNode.BLAS nd]
          else insts_below fuel' s (Z.land (TLASNode.leftRight nd) 65535)
               ++ insts_below fuel' s (Z.shiftr (TLASNode.leftRight nd) 16)
      end
  end.

(** A slab test of the traversal of a scene loses nothing.  On the box of a
    TLAS node: it reports a hit of the box, or no triangle of an instance
    below the node is one that [IntersectTri] takes with the ray as it is at
    that moment, in the space of the instance.  In the BLAS of an instance:
    as for that BLAS. *)
Definition lossless_t (s : TLAS.t) (p : TLAS.probe) : bool :=
  match p with
  | TLAS.OnNode i ray =>
      match TLAS.tlasNode s !! Z.to_nat i with
      | None => true
      | Some nd =>
          negb (IntersectAABB ray (TLASNode.aabbMin nd) (TLASNode.aabbMax nd)
                =? F32.f1e30)%f32
          || forallb (fun j => match TLAS.blas s !! Z.to_nat j with
                               | Some b =>
                                   forallb (fun tr => negb (takes (local_ray b ray) tr))
                                           (Mesh.tri (BVH.mesh (bvh b)))
                               | None => true
                               end)
                     (insts_below (Z.to_nat (TLAS.nodesUsed s)) s i)
      end
  | TLAS.InBlas j p =>
      match TLAS.blas s !! Z.to_nat j with
      | Some b => lossless (bvh b) p
      | None => true
      end
  end.

Lemma BVHInstance_Intersect_log_erase fuel b ray :
  BVHInstance_Intersect fuel b ray = erase (BVHInstance_Intersect_log fuel b ray).
Proof.
  unfold BVHInstance_Intersect, BVHInstance_Intersect_log.
  rewrite Intersect_log_erase.
  destruct (BVH.Intersect_log fuel (bvh b) (local_ray b ray) (idx b)) as [[r log] | f];
    reflexivity.
Qed.

(** But for the list, [traverse_log] is [traverse]. *)
Lemma ttraverse_log_erase fuel fuelB s : forall node stack ray,
  TLAS.traverse fuel fuelB s node stack ray
  = erase (TLAS.traverse_log fuel fuelB s node stack ray).
Proof.
  induction fuel as [| fuel IH]; intros node stack ray; [reflexivity |].
  cbn [TLAS.traverse TLAS.traverse_log].
  destruct (rd TlasPool (TLAS.tlasNode s) node) as [nd | f]; [| reflexivity].
  cbn [mbind result_bind].
  destruct (TLASNode.isLeaf nd).
  - destruct (rd BlasArr (TLAS.blas s) (TLASNode.BLAS nd)) as [b | f]; [| reflexivity].
    cbn [mbind result_bind]. rewrite BVHInstance_Intersect_log_erase.
    destruct (BVHInstance_Intersect_log fuelB b ray) as [[r log] | f]; [| reflexivity].
    change (erase (Ok (r, log))) with (@Ok Ray r).
    cbn [mbind result_bind]. rewrite erase_after.
    destruct stack; [reflexivity | apply IH].
  - cbv zeta.
    destruct (rd TlasPool (TLAS.tlasNode s) (Z.land (TLASNode.leftRight nd) 65535))
      as [c1 | f]; [| reflexivity].
    cbn [mbind result_bind].
    destruct (rd TlasPool (TLAS.tlasNode s) (Z.shiftr (TLASNode.leftRight nd) 16))
      as [c2 | f]; [| reflexivity].
    cbn [mbind result_bind].
    destruct (_ <? _)%f32; rewrite erase_after;
      (destruct (_ =? F32.f1e30)%f32;
       [destruct stack; [reflexivity | apply IH] |]);
      (destruct (negb _); [| apply IH]);
      (destruct (64 <=? _); [reflexivity | apply IH]).
Qed.

Lemma TLAS_Intersect_log_erase fuel fuelB s ray :
  TLAS.Intersect fuel fuelB s ray = erase (TLAS.Intersect_log fuel fuelB s ray).
Proof. apply ttraverse_log_erase. Qed.

Definition tresume_log (fuel fuelB : nat) (s : TLAS.t) (stack : list Z) (ray : Ray)
  : result (Ray * list TLAS.probe) :=
  match stack with
  | [] => Ok (ray, [])
  | top :: rest => TLAS.traverse_log fuel fuelB s top rest ray
  end.

Lemma ttraverse_log_leaf fuel fuelB s i stack ray nd b :
  0 <= i -> TLAS.tlasNode s !! Z.to_nat i = Some nd ->
  TLASNode.leftRight nd = 0 -> 0 <= TLASNode.BLAS nd ->
  TLAS.blas s !! Z.to_nat (TLASNode.BLAS nd) = Some b ->
  TLAS.traverse_log (S fuel) fuelB s i stack ray
  = '(r, log) ← BVHInstance_Intersect_log fuelB b ray;
    after (map (TLAS.InBlas (TLASNode.BLAS nd)) log) (tresume_log fuel fuelB s stack r).
Proof.
  intros Hi Hnd Hleaf Hj Hb. cbn [TLAS.traverse_log].
  rewrite (proj2 (rd_Ok TlasPool _ i nd)) by auto. cbn [mbind result_bind].
  unfold TLASNode.isLeaf. rewrite Hleaf. change (0 =? 0) with true. cbv iota.
  rewrite (proj2 (rd_Ok BlasArr _ (TLASNode.BLAS nd) b)) by auto.
  cbn [mbind result_bind]. reflexivity.
Qed.

Lemma ttraverse_log_node fuel fuelB s i stack ray nd nl nr A B l r :
  0 <= i -> TLAS.tlasNode s !! Z.to_nat i = Some nd ->
  TLASNode.leftRight nd = wrap32 (l + Z.shiftl r 16) ->
  1 <= l < 2 ^ 16 -> 1 <= r < 2 ^ 16 ->
  TLAS.tlasNode s !! Z.to_nat l = Some nl ->
  TLAS.tlasNode s !! Z.to_nat r = Some nr ->
  A = IntersectAABB ray (TLASNode.aabbMin nl) (TLASNode.aabbMax nl) ->
  B = IntersectAABB ray (TLASNode.aabbMin nr) (TLASNode.aabbMax nr) ->
  TLAS.traverse_log (S fuel) fuelB s i stack ray
  = after [TLAS.OnNode l ray; TLAS.OnNode r ray]
      (if (B <? A)%f32 then
         if (B =? F32.f1e30)%f32 then tresume_log fuel fuelB s stack ray
         else if negb (A =? F32.f1e30)%f32 then
           if 64 <=? Z.of_nat (length stack) then Fault (OutOfBounds StackArr)
           else TLAS.traverse_log fuel fuelB s r (l :: stack) ray
         else TLAS.traverse_log fuel fuelB s r stack ray
       else
         if (A =? F32.f1e30)%f32 then tresume_log fuel fuelB s stack ray
         else if negb (B =? F32.f1e30)%f32 then
           if 64 <=? Z.of_nat (length stack) then Fault (OutOfBounds StackArr)
           else TLAS.traverse_log fuel fuelB s l (r :: stack) ray
         else TLAS.traverse_log fuel fuelB s l stack ray).
Proof.
  intros Hi Hnd Hlr Hl Hr Hnl Hnr -> ->. cbn [TLAS.traverse_log].
  rewrite (proj2 (rd_Ok TlasPool _ i nd)) by auto. cbn [mbind result_bind].
  unfold TLASNode.isLeaf. rewrite Hlr.
  replace (wrap32 (l + Z.shiftl r 16) =? 0) with false
    by (symmetry; apply Z.eqb_neq; apply leftRight_pos; lia).
  cbv zeta.
  destruct (leftRight_unpack l r ltac:(lia) ltac:(lia)) as [-> ->].
  rewrite (proj2 (rd_Ok TlasPool _ l nl)) by (split; [lia | exact Hnl]).
  cbn [mbind result_bind].
  rewrite (proj2 (rd_Ok TlasPool _ r nr)) by (split; [lia | exact Hnr]).
  cbn [mbind result_bind].
  destruct (IntersectAABB ray (TLASNode.aabbMin nr) (TLASNode.aabbMax nr)
            <? IntersectAABB ray (TLASNode.aabbMin nl) (TLASNode.aabbMax nl))%f32;
    reflexivity.
Qed.

(** The instances below the root of a subtree are its leaves. *)
Lemma insts_below_shaped s hi t : forall fuel,
  tshaped s hi t -> (tsize t <= fuel)%nat ->
  insts_below fuel s (ttroot t) = tleaves t.
Proof.
  induction t as [i j | i l IHl r IHr]; intros fuel Hsh Hfuel;
    (destruct fuel as [| fuel]; [cbn [tsize] in Hfuel; lia |]).
  - cbn [tshaped ttroot tleaves] in *. destruct Hsh as (Hi & Hj & nd & Hnd & Hlr & HB).
    cbn [insts_below]. rewrite Hnd. unfold TLASNode.isLeaf. rewrite Hlr, HB. reflexivity.
  - cbn [tshaped ttroot tleaves tsize] in *.
    destruct Hsh as (Hi & (nd & Hnd & Hlr) & Hl & Hr & Hsl & Hsr).
    cbn [insts_below]. rewrite Hnd. unfold TLASNode.isLeaf. rewrite Hlr.
    replace (wrap32 (ttroot l + Z.shiftl (ttroot r) 16) =? 0) with false
      by (symmetry; apply Z.eqb_neq; apply leftRight_pos; lia).
    destruct (leftRight_unpack (ttroot l) (ttroot r) ltac:(lia) ltac:(lia)) as [-> ->].
    rewrite (IHl fuel Hsl) by lia. rewrite (IHr fuel Hsr) by lia. reflexivity.
Qed.

Section TTraversal.
  Variable s : TLAS.t.
  Variable fuelB : nat.
  Variable ray : Ray.
  Hypothesis Hinst : forall j b, 0 <= j -> TLAS.blas s !! Z.to_nat j = Some b ->
    blas_ready fuelB (bvh b).

Definition visits_t (i : Z) (js : list Z) (bound : Z) : Prop :=
  forall stack h, (F32.f1e30 <? t h)%f32 = false ->
  exists c : nat, (1 <= c)%nat /\ Z.of_nat c <= bound /\
    ((forall fuel, TLAS.traverse_log (c + fuel) fuelB s i stack (set_hit ray h)
                   = Fault (OutOfBounds StackArr)) \/
     exists h' log,
       sound_s (TLAS.blas s) ray js h h' /\
       (forallb (lossless_t s) log = true -> closed_s (TLAS.blas s) ray js h') /\
       forall fuel, TLAS.traverse_log (c + fuel) fuelB s i stack (set_hit ray h)
                    = after log (tresume_log fuel fuelB s stack (set_hit ray h'))).

(** One instance: the traversal of its BLAS with the ray in its space. *)
Lemma visit_instance j b h :
  0 <= j -> TLAS.blas s !! Z.to_nat j = Some b ->
  (F32.f1e30 <? t h)%f32 = false ->
  BVHInstance_Intersect_log fuelB b (set_hit ray h) = Fault (OutOfBounds StackArr) \/
  exists h' log,
    BVHInstance_Intersect_log fuelB b (set_hit ray h) = Ok (set_hit ray h', log) /\
    sound_s (TLAS.blas s) ray [j] h h' /\
    (forallb (lossless_t s) (map (TLAS.InBlas j) log) = true ->
     closed_s (TLAS.blas s) ray [j] h').
Proof.
  intros Hj Hb Hcap. pose proof (Hinst j b Hj Hb) as Hready.
  unfold BVHInstance_Intersect_log.
  change (local_ray b (set_hit ray h)) with (set_hit (local_ray b ray) h).
  destruct (Intersect_visits fuelB (bvh b) (idx b) (local_ray b ray) h Hready Hcap)
    as [-> | (h' & log & -> & S' & C')]; [left; reflexivity |].
  right. exists h', log. split; [reflexivity |]. split.
  - right. exists j, b. split; [apply list_elem_of_singleton; reflexivity |]. auto.
  - intros Hl j' b' Hj' _ Hb'. apply list_elem_of_singleton in Hj'. subst j'.
    assert (b' = b) by congruence. subst b'. apply C'.
    rewrite forallb_forall in Hl. apply forallb_forall. intros p Hp.
    specialize (Hl (TLAS.InBlas j p) (in_map _ _ _ Hp)).
    cbn [lossless_t] in Hl. rewrite Hb in Hl. exact Hl.
Qed.

(** A miss that loses nothing leaves no closer triangle below the node. *)
Lemma miss_closed_s i nd js h :
  TLAS.tlasNode s !! Z.to_nat i = Some nd ->
  insts_below (Z.to_nat (TLAS.nodesUsed s)) s i = js ->
  IntersectAABB (set_hit ray h) (TLASNode.aabbMin nd) (TLASNode.aabbMax nd) = F32.f1e30 ->
  lossless_t s (TLAS.OnNode i (set_hit ray h)) = true ->
  closed_s (TLAS.blas s) ray js h.
Proof.
  intros Hnd Hjs Hmiss Hl j b Hj Hj0 Hb k tr Hk Htr Ha.
  cbn [lossless_t] in Hl. rewrite Hnd, Hmiss, Hjs in Hl.
  change (F32.f1e30 =? F32.f1e30)%f32 with true in Hl. cbn [negb orb] in Hl.
  rewrite forallb_forall in Hl.
  assert (Hin : In j js) by (apply list_elem_of_In; exact Hj).
  specialize (Hl j Hin). rewrite Hb in Hl. rewrite forallb_forall in Hl.
  assert (Hin' : In tr (Mesh.tri (BVH.mesh (bvh b)))).
  { apply list_elem_of_In. eapply list_elem_of_lookup_2. exact Htr. }
  specialize (Hl tr Hin'). apply negb_true_iff in Hl. rewrite takes_eq in Hl.
  change (accepts (local_ray b (set_hit ray h)) tr) with (accepts (local_ray b ray) tr) in Hl.
  change (tri_t (local_ray b (set_hit ray h)) tr) with (tri_t (local_ray b ray) tr) in Hl.
  change (hit (local_ray b (set_hit ray h))) with h in Hl. rewrite Ha in Hl. exact Hl.
Qed.

Lemma visits_t_two ix kx bx iy ky by' stack h :
  visits_t ix kx bx -> visits_t iy ky by' ->
  (F32.f1e30 <? t h)%f32 = false ->
  exists c : nat, (1 <= c)%nat /\ Z.of_nat c <= bx + by' /\
    ((forall fuel,
        (if 64 <=? Z.of_nat (length stack) then Fault (OutOfBounds StackArr)
         else TLAS.traverse_log (c + fuel) fuelB s ix (iy :: stack) (set_hit ray h))
        = Fault (OutOfBounds StackArr)) \/
     exists h' log,
       sound_s (TLAS.blas s) ray (kx ++ ky) h h' /\
       (forallb (lossless_t s) log = true ->
        closed_s (TLAS.blas s) ray kx h' /\ closed_s (TLAS.blas s) ray ky h') /\
       forall fuel,
         (if 64 <=? Z.of_nat (length stack) then Fault (OutOfBounds StackArr)
          else TLAS.traverse_log (c + fuel) fuelB s ix (iy :: stack) (set_hit ray h))
         = after log (tresume_log fuel fuelB s stack (set_hit ray h'))).
Proof.
  intros Vx Vy Hcap.
  destruct (Vx (iy :: stack) h Hcap) as (cx & Hcx1 & Hcx & Hx).
  destruct (64 <=? Z.of_nat (length stack)) eqn:Estack.
  { exists cx. split; [exact Hcx1 |].
    split; [destruct (Vy stack h Hcap) as (cy & ? & ? & _); lia |]. left. reflexivity. }
  destruct Hx as [Hx | (h1 & log1 & S1 & C1 & Hx)].
  { exists cx. split; [exact Hcx1 |].
    split; [destruct (Vy stack h Hcap) as (cy & ? & ? & _); lia |]. left. exact Hx. }
  destruct (Vy stack h1 (sound_s_cap _ _ _ _ _ S1 Hcap)) as (cy & Hcy1 & Hcy & Hy).
  exists (cx + cy)%nat. split; [lia |]. split; [lia |].
  assert (Hstep : forall fuel,
            TLAS.traverse_log (cx + cy + fuel) fuelB s ix (iy :: stack) (set_hit ray h)
            = after log1 (TLAS.traverse_log (cy + fuel) fuelB s iy stack (set_hit ray h1))).
  { intros fuel. rewrite <- Nat.add_assoc. rewrite Hx. reflexivity. }
  destruct Hy as [Hy | (h2 & log2 & S2 & C2 & Hy)].
  - left. intros fuel. rewrite Hstep, Hy. reflexivity.
  - right. exists h2, (log1 ++ log2). split; [| split].
    + eapply sound_s_trans.
      * eapply sound_s_weaken; [| exact S1]. intros z Hz. apply elem_of_app. auto.
      * eapply sound_s_weaken; [| exact S2]. intros z Hz. apply elem_of_app. auto.
    + intros Hl. rewrite forallb_app in Hl. apply andb_true_iff in Hl as [Hl1 Hl2].
      split; [| exact (C2 Hl2)]. eapply closed_s_mono; [exact S2 | exact (C1 Hl1)].
    + intros fuel. rewrite Hstep, Hy. apply after_after.
Qed.

Lemma visits_t_one ix kx bx ky stack h :
  visits_t ix kx bx ->
  (F32.f1e30 <? t h)%f32 = false ->
  exists c : nat, (1 <= c)%nat /\ Z.of_nat c <= bx /\
    ((forall fuel, TLAS.traverse_log (c + fuel) fuelB s ix stack (set_hit ray h)
                   = Fault (OutOfBounds StackArr)) \/
     exists h' log,
       sound_s (TLAS.blas s) ray kx h h' /\
       (forallb (lossless_t s) log = true -> closed_s (TLAS.blas s) ray ky h ->
        closed_s (TLAS.blas s) ray kx h' /\ closed_s (TLAS.blas s) ray ky h') /\
       forall fuel, TLAS.traverse_log (c + fuel) fuelB s ix stack (set_hit ray h)
                    = after log (tresume_log fuel fuelB s stack (set_hit ray h'))).
Proof.
  intros Vx Hcap.
  destruct (Vx stack h Hcap) as (c & Hc1 & Hc & [HF | (h' & log & S' & C' & HE)]).
  - exists c. auto.
  - exists c. split; [exact Hc1 |]. split; [exact Hc |]. right. exists h', log.
    split; [exact S' |]. split; [| exact HE].
    intros Hl Cy. split; [exact (C' Hl) |]. eapply closed_s_mono; eassumption.
Qed.

Lemma visits_t_subtree t' :
  tshaped s (TLAS.nodesUsed s) t' ->
  Z.of_nat (tsize t') <= TLAS.nodesUsed s ->
  visits_t (ttroot t') (tleaves t') (Z.of_nat (tsize t')).
Proof.
  induction t' as [i j | i l IHl r IHr]; intros Hsh Hsize.
  - cbn [tshaped ttroot tleaves tsize] in *.
    destruct Hsh as (Hi & Hj & nd & Hnd & Hlr & HB).
    destruct (lookup_lt_is_Some_2 (TLAS.blas s) (Z.to_nat j)) as [b Hb]; [lia |].
    intros stack h Hcap. exists 1%nat. split; [lia |]. split; [lia |].
    assert (Estep : forall fuel,
              TLAS.traverse_log (S fuel) fuelB s i stack (set_hit ray h)
              = '(r, log) ← BVHInstance_Intersect_log fuelB b (set_hit ray h);
                after (map (TLAS.InBlas j) log) (tresume_log fuel fuelB s stack r)).
    { intros fuel. rewrite <- HB.
      apply (ttraverse_log_leaf fuel fuelB s i stack _ nd b); try assumption;
        try lia. rewrite HB. exact Hb. }
    destruct (visit_instance j b h ltac:(lia) Hb Hcap) as [HF | (h' & log & HE & S' & C')].
    + left. intros fuel. change (1 + fuel)%nat with (S fuel).
      rewrite Estep, HF. reflexivity.
    + right. exists h', (map (TLAS.InBlas j) log).
      split; [exact S' |]. split; [exact C' |]. intros fuel.
      change (1 + fuel)%nat with (S fuel). rewrite Estep, HE. reflexivity.
  - cbn [tshaped ttroot tleaves tsize] in *.
    destruct Hsh as (Hi & (nd & Hnd & Hlr) & Hl & Hr & Hsl & Hsr).
    assert (Vl := IHl Hsl ltac:(lia)). assert (Vr := IHr Hsr ltac:(lia)). clear IHl IHr.
    assert (Bl := insts_below_shaped s _ l (Z.to_nat (TLAS.nodesUsed s)) Hsl ltac:(lia)).
    assert (Br := insts_below_shaped s _ r (Z.to_nat (TLAS.nodesUsed s)) Hsr ltac:(lia)).
    destruct (tshaped_node _ _ _ Hsl) as (nl & Hnl).
    destruct (tshaped_node _ _ _ Hsr) as (nr & Hnr).
    pose proof (tshaped_root _ _ _ Hsl) as Hrl.
    pose proof (tshaped_root _ _ _ Hsr) as Hrr.
    set (KL := tleaves l) in *. set (KR := tleaves r) in *.
    intros stack h Hcap.
    remember (IntersectAABB (set_hit ray h) (TLASNode.aabbMin nl) (TLASNode.aabbMax nl))
      as A eqn:EA.
    remember (IntersectAABB (set_hit ray h) (TLASNode.aabbMin nr) (TLASNode.aabbMax nr))
      as B eqn:EB.
    assert (Enode := fun fuel =>
      ttraverse_log_node fuel fuelB s i stack (set_hit ray h) nd nl nr A B (ttroot l) (ttroot r)
        (proj1 Hi) Hnd Hlr Hl Hr Hnl Hnr EA EB).
    set (tests := [TLAS.OnNode (ttroot l) (set_hit ray h);
                   TLAS.OnNode (ttroot r) (set_hit ray h)]) in *.
    assert (HA : A = F32.f1e30 \/ (A <? F32.f1e30)%f32 = true)
      by (rewrite EA; apply dist_cases; exact Hcap).
    assert (HB : B = F32.f1e30 \/ (B <? F32.f1e30)%f32 = true)
      by (rewrite EB; apply dist_cases; exact Hcap).
    assert (CL : forall log, A = F32.f1e30 ->
                   forallb (lossless_t s) (tests ++ log) = true ->
                   closed_s (TLAS.blas s) ray KL h).
    { intros log E Hlo. apply (miss_closed_s (ttroot l) nl); try assumption.
      - rewrite <- EA. exact E.
      - cbn [tests app forallb] in Hlo. apply andb_true_iff in Hlo as [Hlo _]. exact Hlo. }
    assert (CR : forall log, B = F32.f1e30 ->
                   forallb (lossless_t s) (tests ++ log) = true ->
                   closed_s (TLAS.blas s) ray KR h).
    { intros log E Hlo. apply (miss_closed_s (ttroot r) nr); try assumption.
      - rewrite <- EB. exact E.
      - cbn [tests app forallb] in Hlo. apply andb_true_iff in Hlo as [_ Hlo].
        apply andb_true_iff in Hlo as [Hlo _]. exact Hlo. }
    assert (Hrest : forall log, forallb (lossless_t s) (tests ++ log) = true ->
                      forallb (lossless_t s) log = true).
    { intros log Hlo. rewrite forallb_app in Hlo. apply andb_true_iff in Hlo as [_ Hlo].
      exact Hlo. }
    assert (Hsub : forall h1 h2, sound_s (TLAS.blas s) ray (KR ++ KL) h1 h2 ->
                                 sound_s (TLAS.blas s) ray (KL ++ KR) h1 h2).
    { intros h1 h2. apply sound_s_weaken. intros z Hz.
      apply elem_of_app in Hz. apply elem_of_app. tauto. }
    assert (Hsz : Z.of_nat (S (tsize l + tsize r))
                  = 1 + Z.of_nat (tsize l) + Z.of_nat (tsize r)) by lia.
    rewrite Hsz.
    assert (Hl1 : 1 <= Z.of_nat (tsize l)) by (destruct l; simpl; lia).
    assert (Hr1 : 1 <= Z.of_nat (tsize r)) by (destruct r; simpl; lia).
    destruct HA as [HA | HA], HB as [HB | HB].
    + exists 1%nat. split; [lia |]. split; [lia |]. right. exists h, tests.
      split; [apply sound_s_refl |]. split.
      * intros Hlo. rewrite <- (app_nil_r tests) in Hlo.
        apply closed_s_app; [exact (CL _ HA Hlo) | exact (CR _ HB Hlo)].
      * intros fuel. change (1 + fuel)%nat with (S fuel). rewrite Enode.
        rewrite HA, HB. rewrite ltb_irrefl. reflexivity.
    + destruct (visits_t_one _ _ _ KL stack h Vr Hcap)
        as (c & Hc1 & Hc & [HF | (h' & log & S' & C' & HE)]).
      * exists (S c). split; [lia |]. split; [lia |]. left. intros fuel.
        change (S c + fuel)%nat with (S (c + fuel)). rewrite Enode.
        rewrite HA. rewrite HB. rewrite (ltb_eqb_false _ _ HB). cbn [negb].
        rewrite HF. reflexivity.
      * exists (S c). split; [lia |]. split; [lia |]. right. exists h', (tests ++ log).
        split; [eapply sound_s_weaken; [| exact S']; intros z Hz; apply elem_of_app; auto |].
        split.
        -- intros Hlo. destruct (C' (Hrest _ Hlo) (CL _ HA Hlo)) as [C1 C2].
           apply closed_s_app; assumption.
        -- intros fuel. change (S c + fuel)%nat with (S (c + fuel)). rewrite Enode.
           rewrite HA. rewrite HB. rewrite (ltb_eqb_false _ _ HB). cbn [negb].
           rewrite HE. apply after_after.
    + destruct (visits_t_one _ _ _ KR stack h Vl Hcap)
        as (c & Hc1 & Hc & [HF | (h' & log & S' & C' & HE)]).
      * exists (S c). split; [lia |]. split; [lia |]. left. intros fuel.
        change (S c + fuel)%nat with (S (c + fuel)). rewrite Enode.
        rewrite HB. rewrite (ltb_asym _ _ HA). rewrite (ltb_eqb_false _ _ HA). cbn [negb].
        rewrite HF. reflexivity.
      * exists (S c). split; [lia |]. split; [lia |]. right. exists h', (tests ++ log).
        split; [eapply sound_s_weaken; [| exact S']; intros z Hz; apply elem_of_app; auto |].
        split.
        -- intros Hlo. destruct (C' (Hrest _ Hlo) (CR _ HB Hlo)) as [C1 C2].
           apply closed_s_app; assumption.
        -- intros fuel. change (S c + fuel)%nat with (S (c + fuel)). rewrite Enode.
           rewrite HB. rewrite (ltb_asym _ _ HA). rewrite (ltb_eqb_false _ _ HA).
           cbn [negb]. rewrite HE. apply after_after.
    + destruct (B <? A)%f32 eqn:EBA.
      * destruct (visits_t_two _ _ _ _ _ _ stack h Vr Vl Hcap)
          as (c & Hc1 & Hc & [HF | (h' & log & S' & C' & HE)]).
        -- exists (S c). split; [lia |]. split; [lia |]. left. intros fuel.
           change (S c + fuel)%nat with (S (c + fuel)). rewrite Enode.
           rewrite (ltb_eqb_false _ _ HB), (ltb_eqb_false _ _ HA). cbn [negb].
           rewrite HF. reflexivity.
        -- exists (S c). split; [lia |]. split; [lia |]. right. exists h', (tests ++ log).
           split; [apply Hsub; exact S' |]. split.
           ++ intros Hlo. destruct (C' (Hrest _ Hlo)) as [C1 C2].
              apply closed_s_app; assumption.
           ++ intros fuel. change (S c + fuel)%nat with (S (c + fuel)). rewrite Enode.
              rewrite (ltb_eqb_false _ _ HB), (ltb_eqb_false _ _ HA). cbn [negb].
              rewrite HE. apply after_after.
      * destruct (visits_t_two _ _ _ _ _ _ stack h Vl Vr Hcap)
          as (c & Hc1 & Hc & [HF | (h' & log & S' & C' & HE)]).
        -- exists (S c). split; [lia |]. split; [lia |]. left. intros fuel.
           change (S c + fuel)%nat with (S (c + fuel)). rewrite Enode.
           rewrite (ltb_eqb_false _ _ HB), (ltb_eqb_false _ _ HA). cbn [negb].
           rewrite HF. reflexivity.
        -- exists (S c). split; [lia |]. split; [lia |]. right. exists h', (tests ++ log).
           split; [exact S' |]. split.
           ++ intros Hlo. destruct (C' (Hrest _ Hlo)) as [C1 C2].
              apply closed_s_app; assumption.
           ++ intros fuel. change (S c + fuel)%nat with (S (c + fuel)). rewrite Enode.
              rewrite (ltb_eqb_false _ _ HB), (ltb_eqb_false _ _ HA). cbn [negb].
              rewrite HE. apply after_after.
Qed.
End TTraversal.

(** ** The scan over the instances *)

Lemma scene_scan_spec insts ray : forall l rest h,
  insts = l ++ rest ->
  exists hb,
    foldl (fun r b => set_hit r (hit (brute_force (bvh b) (idx b) (local_ray b r))))
          (set_hit ray h) l = set_hit ray hb /\
    sound_s insts ray (seqZ 0 (Z.of_nat (length l))) h hb /\
    closed_s insts ray (seqZ 0 (Z.of_nat (length l))) hb.
Proof.
  induction l as [| b l IH] using rev_ind; intros rest h Hin.
  - exists h. split; [reflexivity |]. split; [apply sound_s_refl |].
    intros j b Hj. apply elem_of_nil in Hj. contradiction.
  - rewrite <- app_assoc in Hin. destruct (IH _ h Hin) as (h1 & E1 & S1 & C1).
    destruct (brute_force_spec (bvh b) (idx b) (local_ray b ray) h1) as (hb & Eb & Sb & Cb).
    exists hb. rewrite foldl_app. cbn [foldl]. rewrite E1.
    change (local_ray b (set_hit ray h1)) with (set_hit (local_ray b ray) h1).
    rewrite Eb. split; [reflexivity |].
    rewrite length_app. cbn [length]. rewrite Nat.add_1_r, seqZ_S, Z.add_0_l.
    assert (Hb : insts !! Z.to_nat (Z.of_nat (length l)) = Some b).
    { rewrite Nat2Z.id, Hin. rewrite lookup_app_r by lia.
      rewrite Nat.sub_diag. reflexivity. }
    split.
    + eapply sound_s_trans.
      * eapply sound_s_weaken; [| exact S1]. intros z Hz. apply elem_of_app. auto.
      * right. exists (Z.of_nat (length l)), b.
        split; [apply elem_of_app; right; apply list_elem_of_singleton; reflexivity |].
        split; [lia |]. split; [exact Hb | exact Sb].
    + apply closed_s_app.
      * eapply closed_s_mono; [| exact C1].
        right. exists (Z.of_nat (length l)), b.
        split; [apply list_elem_of_singleton; reflexivity |].
        split; [lia |]. split; [exact Hb | exact Sb].
      * intros j b' Hj _ Hb'. apply list_elem_of_singleton in Hj. subst j.
        assert (b' = b) by congruence. subst b'. exact Cb.
Qed.

Lemma scene_brute_force_spec insts ray h :
  exists hb, scene_brute_force insts (set_hit ray h) = set_hit ray hb /\
             sound_s insts ray (seqZ 0 (Z.of_nat (length insts))) h hb /\
             closed_s insts ray (seqZ 0 (Z.of_nat (length insts))) hb.
Proof. apply (scene_scan_spec insts ray insts [] h). rewrite app_nil_r. reflexivity. Qed.

(** The traversal of a built TLAS. *)
Lemma TLAS_Intersect_visits insts s ray h fuel fuelB :
  tlas_wf insts s ->
  (forall j b, 0 <= j -> insts !! Z.to_nat j = Some b -> blas_ready fuelB (bvh b)) ->
  (F32.f1e30 <? t h)%f32 = false ->
  TLAS.nodesUsed s <= Z.of_nat fuel ->
  TLAS.traverse_log fuel fuelB s 0 [] (set_hit ray h) = Fault (OutOfBounds StackArr) \/
  exists h' log,
    TLAS.traverse_log fuel fuelB s 0 [] (set_hit ray h) = Ok (set_hit ray h', log) /\
    sound_s insts ray (seqZ 0 (Z.of_nat (length insts))) h h' /\
    (forallb (lossless_t s) log = true ->
     closed_s insts ray (seqZ 0 (Z.of_nat (length insts))) h').
Proof.
  intros (t0 & Hr0 & Hsh & Hleaves & Hbl & Hused) Hinst Hcap Hfuel.
  rewrite <- Hbl in Hinst.
  pose proof (tsize_leaves t0) as Hsz.
  apply Permutation_length in Hleaves as Hlen. rewrite length_seqZ in Hlen.
  pose proof (visits_t_subtree s fuelB ray Hinst t0 Hsh ltac:(lia)) as V.
  rewrite Hr0 in V. destruct (V [] h Hcap) as (c & Hc1 & Hc & HV).
  replace fuel with (c + (fuel - c))%nat by lia.
  destruct HV as [HF | (h' & log & S' & C' & HE)]; [left; apply HF |].
  right. exists h', log. split; [rewrite HE; cbn; rewrite app_nil_r; reflexivity |].
  rewrite Hbl in S', C'. split.
  - eapply sound_s_weaken; [| exact S']. intros z Hz. rewrite <- Hleaves. exact Hz.
  - intros Hlo. eapply closed_s_perm; [exact Hleaves | exact (C' Hlo)].
Qed.

(** ** The closest hit of the two traversals *)

(** C1, amended.  For one mesh: on a BLAS built over at most [2^20]
    triangles, for a ray whose hit starts no farther than [1e30],
    [BVH::Intersect] returns within one turn of its loop per node, or
    overruns its stack of 64 entries; the hit record of the ray it returns
    is the one it came with or the one [IntersectTri] writes for a triangle
    of the mesh, which need not be the triangle the scan reports.  And when
    none of the slab tests that it has made on its way has lost a hit, that
    is, has reported a miss for the box of a node while [IntersectTri] takes
    a triangle below that node with the ray as it is at that moment, then
    the ray it returns has the distance [hit.t] of the brute-force scan,
    exactly.  For a scene: the same of [TLAS::Intersect] on a TLAS that
    [TLAS::Build] has built over at most [2^15] instances of such BLASes,
    against the scan over the triangles of every instance with the ray in
    the space of the instance; the slab tests are those on the boxes of the
    TLAS nodes, over the triangles of the instances below the node, and
    those made in the BLASes.  The slab tests of a run are those of
    [Intersect_log], which is [Intersect] but for the list of them. *)
Theorem Intersect_closest_hit
    m rawNode rawIdx rawUsed fuelM b ray inst fuel
    insts rawTNode rawNodeIdx fuelC s rayT fuelT fuelB :
  BVH.Build fuelM (BVH.alloc m rawNode rawIdx rawUsed) = Ok b ->
  Mesh.triCount m <= 2 ^ 20 ->
  (F32.f1e30 <? t (hit ray))%f32 = false ->
  BVH.nodesUsed b <= Z.of_nat fuel ->
  TLAS.Build fuelC (TLAS.alloc insts rawTNode rawNodeIdx) = Ok s ->
  1 <= Z.of_nat (length insts) <= 2 ^ 15 ->
  (forall j bj, 0 <= j -> insts !! Z.to_nat j = Some bj -> blas_ready fuelB (bvh bj)) ->
  (F32.f1e30 <? t (hit rayT))%f32 = false ->
  TLAS.nodesUsed s <= Z.of_nat fuelT ->
  (BVH.Intersect fuel b ray inst = erase (BVH.Intersect_log fuel b ray inst) /\
   satisfies (BVH.Intersect fuel b ray inst)
     (fun f => f = OutOfBounds StackArr)
     (fun r =>
        rayO r = rayO ray /\ rayD r = rayD ray /\ rayrD r = rayrD ray /\
        (hit r = hit ray \/
         exists k tr, 0 <= k < Mesh.triCount m /\
                      Mesh.tri (BVH.mesh b) !! Z.to_nat k = Some tr /\
                      hit r = hit (IntersectTri ray tr (inst_prim inst k))) /\
        (forallb (lossless b) (BVH.slab_tests fuel b ray inst) = true ->
         t (hit r) = t (hit (brute_force b inst ray))))) /\
  (TLAS.Intersect fuelT fuelB s rayT = erase (TLAS.Intersect_log fuelT fuelB s rayT) /\
   satisfies (TLAS.Intersect fuelT fuelB s rayT)
     (fun f => f = OutOfBounds StackArr)
     (fun r =>
        rayO r = rayO rayT /\ rayD r = rayD rayT /\
        (hit r = hit rayT \/
         exists j bj k tr,
           0 <= j /\ insts !! Z.to_nat j = Some bj /\
           0 <= k < Mesh.triCount (BVH.mesh (bvh bj)) /\
           Mesh.tri (BVH.mesh (bvh bj)) !! Z.to_nat k = Some tr /\
           hit r = hit (IntersectTri (local_ray bj rayT) tr (inst_prim (idx bj) k))) /\
        (forallb (lossless_t s) (TLAS.slab_tests fuelT fuelB s rayT) = true ->
         t (hit r) = t (hit (scene_brute_force insts rayT))))).
Proof.
  intros HB HT Hcap Hfuel HBT HN Hinst HcapT HfuelT. split.
  - split; [apply Intersect_log_erase |].
    assert (Hready : blas_ready fuel b) by (exists m, rawNode, rawIdx, rawUsed, fuelM; auto).
    destruct (Build_Ok_built _ _ _ _ _ _ HB) as (_ & _ & Htri & _).
    cbn [BVH.mesh BVH.alloc] in Htri.
    assert (HTb : Mesh.triCount (BVH.mesh b) = Mesh.triCount m).
    { unfold Mesh.triCount. rewrite Htri, length_map. reflexivity. }
    rewrite Intersect_log_erase. unfold BVH.slab_tests.
    pose proof (Intersect_visits fuel b inst ray (hit ray) Hready Hcap) as HV.
    rewrite <- ray_eta in HV.
    destruct HV as [-> | (h' & log & -> & S' & C')]; [reflexivity |].
    cbn [erase mbind result_bind satisfies rayO rayD rayrD hit set_hit].
    split; [reflexivity |]. split; [reflexivity |]. split; [reflexivity |]. split.
    + destruct (sound_hit _ _ _ _ _ S') as [E | (k & tr & Hk & Htr & E)]; [left; exact E |].
      right. exists k, tr. split; [| split; assumption].
      unfold all_tris in Hk. apply elem_of_seqZ in Hk. lia.
    + intros Hl. destruct (brute_force_spec b inst ray (hit ray)) as (hb & Eb & Sb & Cb).
      rewrite <- ray_eta in Eb. rewrite Eb. cbn [hit set_hit].
      eapply closest_unique; [exact S' | exact (C' Hl) | exact Sb | exact Cb].
  - split; [apply TLAS_Intersect_log_erase |].
    pose proof (sat_inv _ _ _ _ (Build_tlas_wf insts rawTNode rawNodeIdx fuelC HN) HBT) as Hwf.
    rewrite TLAS_Intersect_log_erase. unfold TLAS.slab_tests, TLAS.Intersect_log.
    pose proof (TLAS_Intersect_visits insts s (TLAS.with_rD rayT) (hit rayT) fuelT fuelB
                  Hwf Hinst HcapT HfuelT) as HV.
    change (set_hit (TLAS.with_rD rayT) (hit rayT)) with (TLAS.with_rD rayT) in HV.
    destruct HV as [-> | (h' & log & -> & S' & C')]; [reflexivity |].
    cbn [erase mbind result_bind satisfies rayO rayD hit set_hit TLAS.with_rD].
    split; [reflexivity |]. split; [reflexivity |]. split.
    + destruct S' as [-> | (j & bj & _ & Hj0 & Hbj & Sj)]; [left; reflexivity |].
      destruct (sound_hit _ _ (local_ray bj rayT) _ _ Sj)
        as [E | (k & tr & Hk & Htr & E)]; [left; exact E |].
      right. exists j, bj, k, tr. split; [exact Hj0 |]. split; [exact Hbj |].
      split; [| split; assumption].
      unfold all_tris in Hk. apply elem_of_seqZ in Hk. lia.
    + intros Hl.
      destruct (scene_brute_force_spec insts rayT (hit rayT)) as (hb & Eb & Sb & Cb).
      rewrite <- ray_eta in Eb. rewrite Eb. cbn [hit set_hit].
      exact (closest_unique_s insts rayT _ _ _ _ S' (C' Hl) Sb Cb).
Qed.

(** ** Scenes *)

(** Two copies of a triangle and a third one apart from them. *)
Definition mesh3 : Mesh.t := Mesh.mk [far_tri; far_tri; unit_tri].

Definition built3 : BVH.t :=
  Eval vm_compute in
    match BVH.Build 3 (BVH.alloc mesh3 raw_node raw_idx 0) with
    | Ok b => b
    | Fault _ => BVH.alloc mesh3 raw_node raw_idx 0
    end.

Lemma built3_eq : BVH.Build 3 (BVH.alloc mesh3 raw_node raw_idx 0) = Ok built3.
Proof. vm_compute. reflexivity. Qed.

(** A ray along [z] through the two copies. *)
Definition ray_tie : Ray :=
  mkRay (make_float3 (F32.of_ratio 41 4) (F32.of_ratio 1 4) (F32.of_Z (-1)))
        (make_float3 F32.zero F32.zero F32.one)
        (make_float3 (S754_infinity false) (S754_infinity false) F32.one)
        (mkIntersection F32.f1e30 F32.zero F32.zero 0).

(** A ray along [z] through the edge [x = 0] of [unit_tri], in the plane of
    a face of its box. *)
Definition ray_edge : Ray :=
  mkRay (make_float3 F32.zero (F32.of_ratio 1 4) (F32.of_Z (-1)))
        (make_float3 F32.zero F32.zero F32.one)
        (make_float3 (S754_infinity false) (S754_infinity false) F32.one)
        (mkIntersection F32.f1e30 F32.zero F32.zero 0).

(** The BLAS [built3] as the one instance of a scene, under the identity. *)
Definition insts_tie : list BVHInstance :=
  [mkInstance built3
     (mkAabb (float3_of F32.zero) (make_float3 (F32.of_Z 11) F32.one F32.zero))
     0 mat_identity].

Definition tlas_tie : TLAS.t :=
  Eval vm_compute in
    match TLAS.Build 1 (TLAS.alloc insts_tie raw_tnode raw_idx) with
    | Ok s => s
    | Fault _ => TLAS.alloc insts_tie raw_tnode raw_idx
    end.

Lemma tlas_tie_eq : TLAS.Build 1 (TLAS.alloc insts_tie raw_tnode raw_idx) = Ok tlas_tie.
Proof. vm_compute. reflexivity. Qed.

(** C1, as stated, fails.  Of two triangles at the same distance the
    traversal reports the one it meets first in the order of its leaves, the
    scan the one of lower index: [instPrim] is 1 against 0 on [built3], and
    the same through the TLAS over it.  And the slab test misses a box when
    the ray runs in the plane of one of its faces ([0 * inf] is a NaN): on
    [built2] the traversal finds no hit where the scan finds [unit_tri] at
    distance 1. *)
Lemma Intersect_differs_from_brute_force :
  (exists r, BVH.Intersect 4 built3 ray_tie 0 = Ok r /\
             t (hit r) = t (hit (brute_force built3 0 ray_tie)) /\
             instPrim (hit r) = 1 /\
             instPrim (hit (brute_force built3 0 ray_tie)) = 0) /\
  (exists r, TLAS.Intersect 2 4 tlas_tie ray_tie = Ok r /\
             t (hit r) = t (hit (scene_brute_force insts_tie ray_tie)) /\
             instPrim (hit r) = 1 /\
             instPrim (hit (scene_brute_force insts_tie ray_tie)) = 0) /\
  (exists r, BVH.Intersect 4 built2 ray_edge 0 = Ok r /\
             t (hit r) = F32.f1e30 /\
             t (hit (brute_force built2 0 ray_edge)) = F32.one).
Proof.
  split; [| split].
  - eexists. split; [vm_compute; reflexivity |]. vm_compute. auto.
  - eexists. split; [vm_compute; reflexivity |]. vm_compute. auto.
  - eexists. split; [vm_compute; reflexivity |]. vm_compute. auto.
Qed.

(** Two instances under the identity: [built2] and [built1], one over the
    other. *)
Definition inst_two : BVHInstance :=
  mkInstance built2
    (mkAabb (float3_of F32.zero) (make_float3 (F32.of_Z 11) F32.one F32.zero))
    0 mat_identity.

Definition insts2 : list BVHInstance := [inst_two; instance_at 1 0 1].

Definition tlas2 : TLAS.t :=
  Eval vm_compute in
    match TLAS.Build 1 (TLAS.alloc insts2 raw_tnode raw_idx) with
    | Ok s => s
    | Fault _ => TLAS.alloc insts2 raw_tnode raw_idx
    end.

Lemma tlas2_eq : TLAS.Build 1 (TLAS.alloc insts2 raw_tnode raw_idx) = Ok tlas2.
Proof. vm_compute. reflexivity. Qed.

Lemma insts2_ready j bj :
  0 <= j -> insts2 !! Z.to_nat j = Some bj -> blas_ready 4 (bvh bj).
Proof.
  intros _ Hb. destruct (Z.to_nat j) as [| [| n]]; cbn in Hb; try discriminate Hb;
    injection Hb as <-.
  - exists mesh2, raw_node, raw_idx, 0, 2%nat. split; [exact built2_eq |].
    split; [change (2 <= 2 ^ 20); lia | change (4 <= 4); lia].
  - exists mesh1, raw_node, raw_idx, 0, 1%nat. split; [exact built1_eq |].
    split; [change (1 <= 2 ^ 20); lia | change (2 <= 4); lia].
Qed.

Lemma Intersect_closest_hit_witness :
  forallb (lossless built2) (BVH.slab_tests 4 built2 ray_z 0) = true /\
  forallb (lossless_t tlas2) (TLAS.slab_tests 4 4 tlas2 ray_z) = true /\
  (exists r, BVH.Intersect 4 built2 ray_z 0 = Ok r /\
             t (hit r) = t (hit (brute_force built2 0 ray_z))) /\
  (exists r, TLAS.Intersect 4 4 tlas2 ray_z = Ok r /\
             t (hit r) = t (hit (scene_brute_force insts2 ray_z))).
Proof.
  assert (L1 : forallb (lossless built2) (BVH.slab_tests 4 built2 ray_z 0) = true)
    by (vm_compute; reflexivity).
  assert (L2 : forallb (lossless_t tlas2) (TLAS.slab_tests 4 4 tlas2 ray_z) = true)
    by (vm_compute; reflexivity).
  split; [exact L1 |]. split; [exact L2 |].
  assert (H20 : Mesh.triCount mesh2 <= 2 ^ 20) by (change (2 <= 2 ^ 20); lia).
  assert (Hf : BVH.nodesUsed built2 <= Z.of_nat 4) by (change (4 <= 4); lia).
  assert (HN : 1 <= Z.of_nat (length insts2) <= 2 ^ 15) by (change (1 <= 2 <= 2 ^ 15); lia).
  assert (HfT : TLAS.nodesUsed tlas2 <= Z.of_nat 4) by (change (4 <= 4); lia).
  destruct (Intersect_closest_hit mesh2 raw_node raw_idx 0 2 built2 ray_z 0 4
              insts2 raw_tnode raw_idx 1 tlas2 ray_z 4 4
              built2_eq H20 eq_refl Hf tlas2_eq HN insts2_ready eq_refl HfT)
    as ((_ & H1) & (_ & H2)).
  split.
  - destruct (BVH.Intersect 4 built2 ray_z 0) as [r | f] eqn:E;
      [| vm_compute in E; discriminate E].
    exists r. split; [reflexivity |]. apply H1. exact L1.
  - destruct (TLAS.Intersect 4 4 tlas2 ray_z) as [r | f] eqn:E;
      [| vm_compute in E; discriminate E].
    exists r. split; [reflexivity |]. apply H2. exact L2.
Defined.

(** Three triangles: a large one in the plane z = 0, a flat one a tenth of a
    thousandth in front of it, and a third one beside them. *)
Definition tri_back : Tri :=
  mkTri (make_float3 (F32.of_Z (-9000)) (F32.of_Z (-9000)) F32.zero)
        (make_float3 (F32.of_Z 2000) (F32.of_Z (-9000)) F32.zero)
        (make_float3 F32.zero (F32.of_Z 9000) F32.zero)
        (float3_of F32.zero).

Definition tri_front : Tri :=
  mkTri (make_float3 (F32.of_Z (-500)) (F32.of_Z (-1000)) (F32.of_ratio (-1) 10000))
        (make_float3 (F32.of_Z 20000) (F32.of_Z (-1000)) (F32.of_ratio (-1) 10000))
        (make_float3 (F32.of_Z (-500)) (F32.of_Z 2000) (F32.of_ratio (-1) 10000))
        (float3_of F32.zero).

Definition tri_aside : Tri :=
  mkTri (make_float3 (F32.of_Z 15000) (F32.of_Z (-1000)) F32.zero)
        (make_float3 (F32.of_Z 20000) (F32.of_Z (-1000)) F32.zero)
        (make_float3 (F32.of_Z 20000) (F32.of_Z 2000) F32.zero)
        (float3_of F32.zero).

Definition mesh_far : Mesh.t := Mesh.mk [tri_back; tri_front; tri_aside].

Definition built_far : BVH.t :=
  Eval vm_compute in
    match BVH.Build 3 (BVH.alloc mesh_far raw_node raw_idx 0) with
    | Ok b => b
    | Fault _ => BVH.alloc mesh_far raw_node raw_idx 0
    end.

Lemma built_far_eq : BVH.Build 3 (BVH.alloc mesh_far raw_node raw_idx 0) = Ok built_far.
Proof. vm_compute. reflexivity. Qed.

(** An oblique ray from 3000 below the plane, through the first two
    triangles; its direction has no zero, so that no product of a slab test
    is a NaN. *)
Definition ray_far : Ray :=
  mkRay (make_float3 (F32.of_ratio 1 3) (F32.of_ratio 1 5) (F32.of_Z (-3000)))
        (make_float3 (F32.of_ratio 1 7) (F32.of_ratio 1 11) (F32.of_ratio 3 5))
        (make_float3 (F32.one / F32.of_ratio 1 7) (F32.one / F32.of_ratio 1 11)
                     (F32.one / F32.of_ratio 3 5))%f32
        (mkIntersection F32.f1e30 F32.zero F32.zero 0).

(** The condition on the slab tests is needed also where no product is a
    NaN and no two triangles are at the same distance: a slab test can lose
    a hit by rounding.  On [built_far] the traversal first takes [tri_back],
    at distance 5000; the slab test on the leaf of [tri_front], made with
    this hit, enters the box at 5000 and reports a miss, although
    [IntersectTri] takes [tri_front] at the distance next below 5000.  The
    traversal returns [tri_back] at 5000, the scan [tri_front] at
    5000 - 2^-11. *)
Lemma slab_test_loses_a_hit :
  mesh_good mesh_far /\
  BVH.nodesUsed built_far = 6 /\
  (exists r, BVH.Intersect 6 built_far ray_far 0 = Ok r /\
             t (hit r) = F32.of_Z 5000 /\ instPrim (hit r) = 0) /\
  t (hit (brute_force built_far 0 ray_far)) = S754_finite false 10239999 (-11) /\
  instPrim (hit (brute_force built_far 0 ray_far)) = 1 /\
  map (lossless built_far) (BVH.slab_tests 6 built_far ray_far 0)
  = [true; true; false; true].
Proof.
  split; [repeat constructor; discriminate |]. split; [reflexivity |].
  split; [eexists; split; [vm_compute; reflexivity | split; vm_compute; reflexivity] |].
  repeat split; vm_compute; reflexivity.
Qed.

(** The slab test of the probe returns the same with [std::min] and
    [std::max] for the [min] and [max] of the header. *)
Definition same_slab (s : BVH.t) (p : BVH.probe) : Prop :=
  forall nd, BVH.bvhNode s !! Z.to_nat (fst p) = Some nd ->
    IntersectAABB_with std_min std_max (snd p) (BVHNode.aabbMin nd) (BVHNode.aabbMax nd)
    = IntersectAABB (snd p) (BVHNode.aabbMin nd) (BVHNode.aabbMax nd).

Ltac by_slab_tests :=
  match goal with
  | |- Forall _ ?l => let l' := eval vm_compute in l in change l with l'
  end;
  repeat constructor;
  intros nd Hnd; vm_compute in Hnd; injection Hnd as <-; vm_compute; reflexivity.

(** The runs above do not depend on which [min] and [max] the header
    defines: each of their slab tests returns the same with [std::min] and
    [std::max], also the two on the ray in the plane of a face, which are
    misses either way. *)
Lemma slab_tests_whatever_min_max :
  Forall (same_slab built3) (BVH.slab_tests 4 built3 ray_tie 0) /\
  Forall (same_slab built2) (BVH.slab_tests 4 built2 ray_edge 0) /\
  Forall (same_slab built_far) (BVH.slab_tests 6 built_far ray_far 0).
Proof. split; [| split]; by_slab_tests. Qed.

(** * Further properties of the code *)

(** ** The boxes of a BLAS bound what is below them *)

(** The box [cmin, cmax] lies in the box [pmin, pmax], in the order of [<]. *)
Definition box_inside (cmin cmax pmin pmax : float3) : bool :=
  forallb (fun p : float3 -> float =>
             negb (p cmin <? p pmin)%f32 && negb (p pmax <? p cmax)%f32)
          [x; y; z].

(** Node [i] bounds what is right below it: a leaf the vertices of the
    triangles of its range, an interior node the boxes of its two
    children. *)
Definition bounding_at (s : BVH.t) (i : Z) : Prop :=
  exists nd,
    BVH.bvhNode s !! Z.to_nat i = Some nd /\
    if BVHNode.isLeaf nd
    then forall p k tr,
           BVHNode.leftFirst nd <= p < BVHNode.leftFirst nd + BVHNode.triCount nd ->
           BVH.triIdx s !! Z.to_nat p = Some k ->
           Mesh.tri (BVH.mesh s) !! Z.to_nat k = Some tr ->
           inside tr (BVHNode.aabbMin nd) (BVHNode.aabbMax nd) = true
    else forall c, c = BVHNode.leftFirst nd \/ c = BVHNode.leftFirst nd + 1 ->
           exists nc, BVH.bvhNode s !! Z.to_nat c = Some nc /\
                      box_inside (BVHNode.aabbMin nc) (BVHNode.aabbMax nc)
                                 (BVHNode.aabbMin nd) (BVHNode.aabbMax nd) = true.

Lemma least_box_nested m mn mx ks mn' mx' ks' :
  least_box m mn mx ks -> least_box m mn' mx' ks' -> ks' ⊆ ks ->
  box_inside mn' mx' mn mx = true.
Proof.
  intros H H' Hsub. unfold box_inside. apply forallb_forall. intros p Hp.
  assert (Hproj : is_proj p).
  { unfold is_proj. destruct Hp as [<- | [<- | [<- | []]]]; auto. }
  destruct (H p Hproj) as [[_ Hlo] [_ Hhi]]. destruct (H' p Hproj) as [[Hin1 _] [Hin2 _]].
  assert (Hc : forall c, c ∈ coords p (tris_of m ks') -> c ∈ coords p (tris_of m ks)).
  { intros c Hc. unfold coords, tris_of in *.
    apply list_elem_of_bind in Hc as (tr & Hc & Htr).
    apply list_elem_of_omap in Htr as (k & Hk & Htr).
    apply list_elem_of_bind. exists tr. split; [exact Hc |].
    apply list_elem_of_omap. exists k. split; [apply Hsub; exact Hk | exact Htr]. }
  assert (H1 : p mn' ∈ F32.f1e30 :: coords p (tris_of m ks)).
  { apply elem_of_cons in Hin1 as [-> | Hin1]; apply elem_of_cons; auto. }
  assert (H2 : p mx' ∈ F32.fm1e30 :: coords p (tris_of m ks)).
  { apply elem_of_cons in Hin2 as [-> | Hin2]; apply elem_of_cons; auto. }
  rewrite (Hlo _ H1). pose proof (Hhi _ H2) as H3. unfold gtb in H3. rewrite H3.
  reflexivity.
Qed.

Lemma range_lookup idx lo n p k :
  0 <= lo -> lo <= p < lo + n -> idx !! Z.to_nat p = Some k -> k ∈ range idx lo n.
Proof.
  intros Hlo Hp Hk. unfold range. apply list_elem_of_lookup.
  exists (Z.to_nat (p - lo)). rewrite lookup_take_lt by lia. rewrite lookup_drop.
  rewrite <- Hk. f_equal. lia.
Qed.

Lemma least_tree_bounding s t : forall a,
  shaped (BVH.bvhNode s) t a -> tree_all (least_at s) t ->
  tree_all (fun i _ _ => bounding_at s i) t.
Proof.
  induction t as [i lo n | i lo n l IHl r IHr]; intros a; simpl.
  - intros (Hi & Hlo & Hn & nd & Hnd & H1 & H2) (nd' & Hnd' & Hl).
    assert (nd' = nd) by congruence. subst nd'. exists nd. split; [exact Hnd |].
    unfold BVHNode.isLeaf. rewrite H2, (proj2 (Z.ltb_lt _ _) Hn).
    intros p k tr Hp Hk Htr. rewrite H1 in Hp.
    eapply least_box_inside; [exact Hl | | exact Htr].
    apply (range_lookup _ lo n p); try assumption; lia.
  - intros (Hi & Hlo & (nd & Hnd & H1 & H2) & Hrl & Hrr & Hll & Hlr & Hn & Hsl & Hsr)
           ((nd' & Hnd' & Hbox) & Hal & Har).
    assert (nd' = nd) by congruence. subst nd'.
    pose proof (shaped_facts _ _ _ Hsl) as Fl. pose proof (shaped_facts _ _ _ Hsr) as Fr.
    split; [| split; [apply (IHl _ Hsl Hal) | apply (IHr _ Hsr Har)]].
    exists nd. split; [exact Hnd |]. unfold BVHNode.isLeaf. rewrite H2. cbn [Z.ltb Z.compare].
    assert (Hsplit : range (BVH.triIdx s) lo n
                     = range (BVH.triIdx s) (tlo l) (tn l)
                       ++ range (BVH.triIdx s) (tlo r) (tn r)).
    { rewrite (range_app _ lo (tn l) n) by lia. rewrite Hll, Hlr. do 2 f_equal. lia. }
    destruct (tree_all_root _ _ Hal) as (nl & Hnl & Hbl).
    destruct (tree_all_root _ _ Har) as (nr & Hnr & Hbr).
    rewrite Hsplit in Hbox. intros c [-> | ->]; rewrite H1.
    + exists nl. split; [rewrite <- Hrl; exact Hnl |].
      eapply least_box_nested; [exact Hbox | exact Hbl |].
      intros z Hz. apply elem_of_app. auto.
    + exists nr. split; [rewrite <- Hrr; exact Hnr |].
      eapply least_box_nested; [exact Hbox | exact Hbr |].
      intros z Hz. apply elem_of_app. auto.
Qed.

(** X1: after [Build] on a mesh without a NaN, every node in use bounds what
    is right below it: the box of a leaf holds the three vertices of every
    triangle of its range of [triIdx], and the box of an interior node holds
    the boxes of its two children. *)
Theorem Build_boxes_bound (m : Mesh.t) rawNode rawIdx rawUsed (fuel : nat) (b : BVH.t) :
  mesh_good m ->
  BVH.Build fuel (BVH.alloc m rawNode rawIdx rawUsed) = Ok b ->
  forall i, 0 <= i < BVH.nodesUsed b -> i <> 1 -> bounding_at b i.
Proof.
  intros Hgood HB i Hi Hi1.
  destruct (Build_Ok_built _ _ _ _ _ _ HB) as (_ & Hwf & Htri & _).
  destruct Hwf as (_ & _ & t & Hr & _ & _ & Hsh & Hused & Hbox).
  cbn [BVH.mesh BVH.alloc] in Htri.
  assert (Hgb : mesh_good (BVH.mesh b)).
  { unfold mesh_good. rewrite Htri. exact (with_centroid_good m Hgood). }
  assert (Hl : tree_all (least_at b) t).
  { eapply tree_all_mono; [| exact Hbox]. intros j lo n. apply boxed_least. exact Hgb. }
  destruct (tree_all_at _ _ t 2 Hsh (least_tree_bounding b t 2 Hsh Hl) i) as (_ & _ & H);
    [lia | exact H].
Qed.

Lemma Build_boxes_bound_witness : bounding_at built2 0.
Proof.
  apply (Build_boxes_bound mesh2 raw_node raw_idx 0 2 built2 mesh2_good built2_eq).
  - change (0 <= 0 < 4). lia.
  - discriminate.
Defined.

(** X2: [Refit] restores the bounds after the vertices have moved.  On a
    built BLAS whose mesh has been replaced by one of the same size without
    a NaN, [Refit] completes and every node in use bounds again what is
    right below it. *)
Theorem Refit_boxes_bound (m : Mesh.t) rawNode rawIdx rawUsed (fuel : nat)
    (b : BVH.t) (m' : Mesh.t) :
  BVH.Build fuel (BVH.alloc m rawNode rawIdx rawUsed) = Ok b ->
  length (Mesh.tri m') = length (Mesh.tri (BVH.mesh b)) ->
  mesh_good m' ->
  exists b', BVH.Refit (BVH.set_mesh m' b) = Ok b' /\
             forall i, 0 <= i < BVH.nodesUsed b' -> i <> 1 -> bounding_at b' i.
Proof.
  intros HB Hlen Hgood.
  destruct (Build_Ok_built _ _ _ _ _ _ HB) as (_ & Hwf & _).
  pose proof (topo_ok_set_mesh b m' Hlen (wf_blas_topo b Hwf)) as Htopo.
  destruct (Refit_spec _ Htopo) as (b' & HR & Hsame & _ & Hre).
  exists b'. split; [exact HR |].
  destruct Htopo as (_ & _ & t & Hr & _ & _ & Hsh & Hused).
  pose proof (shaped_same_topology _ _ t 2 Hsame Hsh) as Hsh'.
  destruct Hsame as (Hm & _ & Hnu & _).
  cbn [BVH.mesh BVH.nodesUsed BVH.set_mesh] in *.
  assert (Hl : tree_all (least_at b') t).
  { apply (refitted_least b' t 2 Hsh'); [rewrite Hm; exact Hgood |].
    intros i Hi. apply Hre; [| pose proof (shaped_facts _ _ _ Hsh); lia].
    rewrite Hused. pose proof (shaped_facts _ _ _ Hsh). lia. }
  intros i Hi Hi1.
  destruct (tree_all_at _ _ t 2 Hsh' (least_tree_bounding b' t 2 Hsh' Hl) i) as (_ & _ & H);
    [lia | exact H].
Qed.

Lemma moved_mesh_good : mesh_good (Mesh.mk [moved_tri]).
Proof. repeat constructor; discriminate. Qed.

Lemma Refit_boxes_bound_witness :
  exists b', BVH.Refit (BVH.set_mesh (Mesh.mk [moved_tri]) built1) = Ok b' /\
             forall i, 0 <= i < BVH.nodesUsed b' -> i <> 1 -> bounding_at b' i.
Proof.
  exact (Refit_boxes_bound mesh1 raw_node raw_idx 0 1 built1 (Mesh.mk [moved_tri])
           built1_eq eq_refl moved_mesh_good).
Defined.

(** ** The leaves of a BLAS share out the triangles *)

(** Node [i] is a leaf in use whose range of [triIdx] holds position [p]. *)
Definition leaf_over (s : BVH.t) (i p : Z) : Prop :=
  0 <= i < BVH.nodesUsed s /\ i <> 1 /\
  exists nd, BVH.bvhNode s !! Z.to_nat i = Some nd /\
             BVHNode.isLeaf nd = true /\
             BVHNode.leftFirst nd <= p < BVHNode.leftFirst nd + BVHNode.triCount nd.

Lemma shaped_cover pool t : forall a p,
  shaped pool t a -> tlo t <= p < tlo t + tn t ->
  exists i nd, (i = troot t \/ a <= i < a + desc t) /\
               pool !! Z.to_nat i = Some nd /\ BVHNode.isLeaf nd = true /\
               BVHNode.leftFirst nd <= p < BVHNode.leftFirst nd + BVHNode.triCount nd.
Proof.
  induction t as [i lo n | i lo n l IHl r IHr]; intros a p; simpl.
  - intros (Hi & Hlo & Hn & nd & Hnd & H1 & H2) Hp. exists i, nd.
    split; [auto |]. split; [exact Hnd |].
    unfold BVHNode.isLeaf. rewrite H1, H2. split; [apply Z.ltb_lt; lia | lia].
  - intros (Hi & Hlo & _ & Hrl & Hrr & Hll & Hlr & Hn & Hsl & Hsr) Hp.
    pose proof (shaped_facts _ _ _ Hsl) as Fl. pose proof (shaped_facts _ _ _ Hsr) as Fr.
    destruct (Z_lt_dec p (tlo l + tn l)) as [Hpl | Hpr].
    + destruct (IHl (a + 2) p Hsl ltac:(lia)) as (j & nd & Hj & H).
      exists j, nd. split; [right; lia | exact H].
    + destruct (IHr (a + 2 + desc l) p Hsr ltac:(lia)) as (j & nd & Hj & H).
      exists j, nd. split; [right; lia | exact H].
Qed.

Lemma shaped_leaf_range pool t : forall a i nd,
  shaped pool t a -> 2 <= a -> (i = troot t \/ a <= i < a + desc t) ->
  pool !! Z.to_nat i = Some nd -> BVHNode.isLeaf nd = true ->
  tlo t <= BVHNode.leftFirst nd /\
  BVHNode.leftFirst nd + BVHNode.triCount nd <= tlo t + tn t.
Proof.
  induction t as [i0 lo n | i0 lo n l IHl r IHr]; intros a i nd; simpl.
  - intros (Hi & Hlo & Hn & nd' & Hnd' & H1 & H2) Ha [-> | Hi'] Hnd Hleaf; [| lia].
    assert (nd' = nd) by congruence. subst nd'. lia.
  - intros (Hi & Hlo & (nd' & Hnd' & H1 & H2) & Hrl & Hrr & Hll & Hlr & Hn & Hsl & Hsr)
           Ha Hi' Hnd Hleaf.
    pose proof (shaped_facts _ _ _ Hsl) as Fl. pose proof (shaped_facts _ _ _ Hsr) as Fr.
    destruct Hi' as [-> | Hi'].
    { assert (nd' = nd) by congruence. subst nd'.
      unfold BVHNode.isLeaf in Hleaf. rewrite H2 in Hleaf. discriminate. }
    destruct (decide (i = a \/ a + 2 <= i < a + 2 + desc l)) as [Hil | Hil].
    + destruct (IHl (a + 2) i nd Hsl ltac:(lia) ltac:(lia) Hnd Hleaf). lia.
    + destruct (IHr (a + 2 + desc l) i nd Hsr ltac:(lia) ltac:(lia) Hnd Hleaf). lia.
Qed.

Lemma shaped_leaf_unique pool t : forall a i i' nd nd' p,
  shaped pool t a -> 2 <= a -> troot t < a ->
  (i = troot t \/ a <= i < a + desc t) -> (i' = troot t \/ a <= i' < a + desc t) ->
  pool !! Z.to_nat i = Some nd -> BVHNode.isLeaf nd = true ->
  BVHNode.leftFirst nd <= p < BVHNode.leftFirst nd + BVHNode.triCount nd ->
  pool !! Z.to_nat i' = Some nd' -> BVHNode.isLeaf nd' = true ->
  BVHNode.leftFirst nd' <= p < BVHNode.leftFirst nd' + BVHNode.triCount nd' ->
  i = i'.
Proof.
  induction t as [i0 lo n | i0 lo n l IHl r IHr]; intros a i i' nd nd' p; simpl.
  - intros _ _ _ [-> | Hi] [-> | Hi']; intros; lia.
  - intros (Hi & Hlo & (nd0 & Hnd0 & H1 & H2) & Hrl & Hrr & Hll & Hlr & Hn & Hsl & Hsr)
           Ha _ Hi1 Hi2 Hnd Hleaf Hp Hnd' Hleaf' Hp'.
    pose proof (shaped_facts _ _ _ Hsl) as Fl. pose proof (shaped_facts _ _ _ Hsr) as Fr.
    assert (Hroot : forall j ndj, j = i0 -> pool !! Z.to_nat j = Some ndj ->
                                  BVHNode.isLeaf ndj = true -> False).
    { intros j ndj -> Hj Hlj. assert (ndj = nd0) by congruence. subst ndj.
      unfold BVHNode.isLeaf in Hlj. rewrite H2 in Hlj. discriminate. }
    destruct Hi1 as [Hi1 | Hi1]; [destruct (Hroot _ _ Hi1 Hnd Hleaf) |].
    destruct Hi2 as [Hi2 | Hi2]; [destruct (Hroot _ _ Hi2 Hnd' Hleaf') |].
    destruct (decide (i = a \/ a + 2 <= i < a + 2 + desc l)) as [Hil | Hil];
      destruct (decide (i' = a \/ a + 2 <= i' < a + 2 + desc l)) as [Hil' | Hil'].
    + apply (IHl (a + 2) i i' nd nd' p Hsl); try assumption; lia.
    + pose proof (shaped_leaf_range _ _ (a + 2) i nd Hsl ltac:(lia) ltac:(lia) Hnd Hleaf).
      pose proof (shaped_leaf_range _ _ (a + 2 + desc l) i' nd' Hsr ltac:(lia) ltac:(lia)
                    Hnd' Hleaf'). lia.
    + pose proof (shaped_leaf_range _ _ (a + 2) i' nd' Hsl ltac:(lia) ltac:(lia) Hnd' Hleaf').
      pose proof (shaped_leaf_range _ _ (a + 2 + desc l) i nd Hsr ltac:(lia) ltac:(lia)
                    Hnd Hleaf). lia.
    + apply (IHr (a + 2 + desc l) i i' nd nd' p Hsr); try assumption; lia.
Qed.

(** X3: [Build] keeps [triIdx] a permutation of the triangle indices
    [0 .. triCount - 1]: the swaps of the partition lose and duplicate
    nothing. *)
Theorem Build_triIdx_permutation (m : Mesh.t) rawNode rawIdx rawUsed (fuel : nat)
    (b : BVH.t) :
  BVH.Build fuel (BVH.alloc m rawNode rawIdx rawUsed) = Ok b ->
  BVH.triIdx b ≡ₚ seqZ 0 (Mesh.triCount m) /\
  NoDup (BVH.triIdx b) /\
  forall k, 0 <= k < Mesh.triCount m -> k ∈ BVH.triIdx b.
Proof.
  intros HB. destruct (Build_Ok_built _ _ _ _ _ _ HB) as (_ & _ & _ & Hperm & _).
  cbn [BVH.mesh BVH.alloc] in Hperm. split; [exact Hperm |]. split.
  - rewrite Hperm. apply NoDup_seqZ.
  - intros k Hk. rewrite Hperm. apply elem_of_seqZ. lia.
Qed.

Lemma Build_triIdx_permutation_witness :
  BVH.triIdx built2 ≡ₚ seqZ 0 (Mesh.triCount mesh2) /\
  NoDup (BVH.triIdx built2) /\
  forall k, 0 <= k < Mesh.triCount mesh2 -> k ∈ BVH.triIdx built2.
Proof. exact (Build_triIdx_permutation mesh2 raw_node raw_idx 0 2 built2 built2_eq). Defined.

(** X4: after [Build] the ranges of the leaves share out [triIdx]: every
    position [0 <= p < triCount] lies in the range of one leaf in use and of
    no other, so every triangle of the mesh is held by exactly one leaf. *)
Theorem Build_leaves_partition (m : Mesh.t) rawNode rawIdx rawUsed (fuel : nat)
    (b : BVH.t) (p : Z) :
  BVH.Build fuel (BVH.alloc m rawNode rawIdx rawUsed) = Ok b ->
  0 <= p < Mesh.triCount m ->
  exists i, leaf_over b i p /\ forall i', leaf_over b i' p -> i' = i.
Proof.
  intros HB Hp. destruct (Build_Ok_built _ _ _ _ _ _ HB) as (_ & Hwf & Htri & _).
  destruct Hwf as (_ & _ & t & Hr & Hlo & Hn & Hsh & Hused & _).
  cbn [BVH.mesh BVH.alloc] in Htri.
  assert (HTb : Mesh.triCount (BVH.mesh b) = Mesh.triCount m).
  { unfold Mesh.triCount. rewrite Htri, length_map. reflexivity. }
  pose proof (shaped_facts _ _ _ Hsh) as Ft.
  destruct (shaped_cover _ t 2 p Hsh ltac:(lia)) as (i & nd & Hi & Hnd & Hleaf & Hrange).
  exists i. split.
  - split; [lia |]. split; [lia |]. exists nd. auto.
  - intros i' (Hi' & Hi1' & nd' & Hnd' & Hleaf' & Hrange').
    apply (shaped_leaf_unique _ t 2 i' i nd' nd p Hsh); try assumption; try lia.
Qed.

Lemma Build_leaves_partition_witness :
  exists i, leaf_over built2 i 1 /\ forall i', leaf_over built2 i' 1 -> i' = i.
Proof.
  apply (Build_leaves_partition mesh2 raw_node raw_idx 0 2 built2 1 built2_eq).
  change (0 <= 1 < 2). lia.
Defined.

(** ** Packed indices *)

(** X5: the [instPrim] of line 117.  Its low 20 bits, which line 118 uses to
    fetch the triangle, are the triangle index modulo [2^20]; for an
    instance index below [2^12] and a triangle index below [2^20] the two
    parts are recovered from it, and the triangle index [2^20] already reads
    as triangle 0 of the next instance. *)
Theorem instPrim_roundtrip :
  (forall inst k, Z.land (inst_prim inst k) 1048575 = k mod 2 ^ 20) /\
  (forall inst k, 0 <= inst < 2 ^ 12 -> 0 <= k < 2 ^ 20 ->
     Z.land (inst_prim inst k) 1048575 = k /\ Z.shiftr (inst_prim inst k) 20 = inst) /\
  (forall inst, inst_prim inst (2 ^ 20) = inst_prim (inst + 1) 0).
Proof.
  assert (Hlow : forall inst k, Z.land (inst_prim inst k) 1048575 = k mod 2 ^ 20).
  { intros inst k. unfold inst_prim, wrap32.
    change 1048575 with (Z.ones 20). rewrite Z.land_ones by lia.
    rewrite Z.mod_mod_divide by (exists (2 ^ 12); reflexivity).
    rewrite Z.shiftl_mul_pow2 by lia. rewrite Z.add_comm, Z_mod_plus_full. reflexivity. }
  split; [exact Hlow |]. split.
  - intros inst k Hi Hk. split; [rewrite Hlow; apply Z.mod_small; exact Hk |].
    unfold inst_prim, wrap32. rewrite Z.shiftl_mul_pow2 by lia.
    rewrite Z.mod_small by lia. rewrite Z.shiftr_div_pow2 by lia.
    rewrite Z.add_comm, Z.div_add by lia. rewrite Z.div_small by lia. reflexivity.
  - intros inst. unfold inst_prim. rewrite !Z.shiftl_mul_pow2 by lia. f_equal. lia.
Qed.

Lemma instPrim_roundtrip_witness :
  Z.land (inst_prim 3 5) 1048575 = 5 /\ Z.shiftr (inst_prim 3 5) 20 = 3.
Proof.
  destruct instPrim_roundtrip as (_ & H & _). apply (H 3 5); lia.
Defined.

(** X6: the [leftRight] of a TLAS node, packed at line 378 as
    [nodeIdxA + (nodeIdxB << 16)] and unpacked at lines 581-582.  Two indices
    below [2^16] are recovered, and the node is no leaf ([leftRight <> 0])
    unless both are 0; a left index of [2^16] reads back as 0 with the right
    index one higher. *)
Theorem leftRight_roundtrip :
  (forall a b, 0 <= a < 2 ^ 16 -> 0 <= b < 2 ^ 16 ->
     let lr := wrap32 (a + Z.shiftl b 16) in
     Z.land lr 65535 = a /\ Z.shiftr lr 16 = b /\
     (TLASNode.isLeaf (TLASNode.mk (float3_of F32.zero) lr (float3_of F32.zero) 0) = true
      <-> a = 0 /\ b = 0)) /\
  (forall b, 0 <= b < 2 ^ 16 - 1 ->
     let lr := wrap32 (2 ^ 16 + Z.shiftl b 16) in
     Z.land lr 65535 = 0 /\ Z.shiftr lr 16 = b + 1).
Proof.
  split.
  - intros a b Ha Hb. cbv zeta.
    destruct (leftRight_unpack a b Ha Hb) as [H1 H2]. split; [exact H1 |].
    split; [exact H2 |]. unfold TLASNode.isLeaf. cbn [TLASNode.leftRight].
    rewrite Z.eqb_eq. unfold wrap32. rewrite Z.shiftl_mul_pow2 by lia.
    rewrite Z.mod_small by lia. lia.
  - intros b Hb. cbv zeta. unfold wrap32. rewrite Z.shiftl_mul_pow2 by lia.
    rewrite Z.mod_small by lia.
    replace (2 ^ 16 + b * 2 ^ 16) with ((b + 1) * 2 ^ 16) by lia. split.
    + change 65535 with (Z.ones 16). rewrite Z.land_ones by lia. apply Z_mod_mult.
    + rewrite Z.shiftr_div_pow2 by lia. apply Z_div_mult. lia.
Qed.

Lemma leftRight_roundtrip_witness :
  Z.land (wrap32 (1 + Z.shiftl 2 16)) 65535 = 1 /\ Z.shiftr (wrap32 (1 + Z.shiftl 2 16)) 16 = 2.
Proof.
  destruct leftRight_roundtrip as (H & _).
  destruct (H 1 2 ltac:(lia) ltac:(lia)) as (H1 & H2 & _). split; assumption.
Defined.

(** ** The slab test and the order of the triangles *)

(** X7: what [IntersectAABB] returns.  It is never a NaN, whatever the ray
    and the box; it is the miss value [1e30f] or a distance below the
    [hit.t] of the ray; and for a ray whose [hit.t] is no farther than
    [1e30f] any other value than [1e30f] is below it, so that the test
    [dist == 1e30f] of the traversals tells a miss from a hit. *)
Theorem IntersectAABB_result (ray : Ray) (bmin bmax : float3) :
  let d := IntersectAABB ray bmin bmax in
  d <> S754_nan /\
  (d = F32.f1e30 \/ (d <? t (hit ray))%f32 = true) /\
  ((F32.f1e30 <? t (hit ray))%f32 = false ->
   d = F32.f1e30 \/ (d <? F32.f1e30)%f32 = true).
Proof.
  cbv zeta. split; [| split].
  - destruct (IntersectAABB_cases ray bmin bmax) as [-> | H]; [discriminate |].
    exact (proj1 (ltb_true_good _ _ H)).
  - apply IntersectAABB_cases.
  - apply dist_cases.
Qed.

Lemma IntersectAABB_result_witness :
  IntersectAABB ray_z (float3_of F32.zero) (float3_of F32.one) = F32.f1e30 \/
  (IntersectAABB ray_z (float3_of F32.zero) (float3_of F32.one) <? F32.f1e30)%f32 = true.
Proof.
  destruct (IntersectAABB_result ray_z (float3_of F32.zero) (float3_of F32.one))
    as (_ & _ & H).
  apply H. reflexivity.
Defined.

(** X8: the distance that the tests of a list of triangles leave in the ray
    does not depend on the order of the list: [IntersectTri] over the same
    triangles in two orders ends with the same [hit.t] (the triangle
    reported may differ when two are at the same distance). *)
Theorem scan_any_order (m : Mesh.t) (inst : Z) (ks ks' : list Z) (ray : Ray) :
  ks ≡ₚ ks' ->
  t (hit (scan m inst ks ray)) = t (hit (scan m inst ks' ray)).
Proof.
  intros Hp. rewrite (ray_eta ray).
  destruct (scan_spec m inst ray ks (hit ray)) as (h1 & -> & S1 & C1).
  destruct (scan_spec m inst ray ks' (hit ray)) as (h2 & -> & S2 & C2).
  cbn [hit set_hit].
  apply (closest_unique m inst ray ks (hit ray)); try assumption.
  - eapply sound_weaken; [| exact S2]. intros z Hz. rewrite Hp. exact Hz.
  - eapply closed_perm; [symmetry; exact Hp | exact C2].
Qed.

Lemma scan_any_order_witness :
  t (hit (scan mesh2 0 [0; 1] ray_z)) = t (hit (scan mesh2 0 [1; 0] ray_z)).
Proof. apply scan_any_order. apply perm_swap. Defined.

(** ** The traversal of a BLAS, whatever the slab test does *)

Fixpoint theight (t : ntree) : Z :=
  match t with
  | TLeaf _ _ _ => 0
  | TNode _ _ _ l r => 1 + Z.max (theight l) (theight r)
  end.

Lemma theight_leaves pool t a : shaped pool t a -> 0 <= theight t <= leaves t - 1.
Proof.
  revert a. induction t as [i lo n | i lo n l IHl r IHr]; intros a; simpl; [lia |].
  intros (_ & _ & _ & _ & _ & _ & _ & _ & Hsl & Hsr).
  specialize (IHl _ Hsl). specialize (IHr _ Hsr).
  pose proof (shaped_facts _ _ _ Hsl). pose proof (shaped_facts _ _ _ Hsr). lia.
Qed.

Section Walk.
  Variable s : BVH.t.
  Variable inst : Z.
  Variable ray : Ray.
  Hypothesis Hv : valid_idx s.
  Hypothesis HT : Mesh.triCount (BVH.mesh s) <= 2 ^ 20.

(** From node [i] the loop comes to the pop that follows the subtree in at
    most [bound] turns, with a hit that is sound for [ks]; its stack can only
    overflow when its length and the height [hgt] of the subtree exceed 64
    together. *)
Definition walks (i : Z) (ks : list Z) (bound hgt : Z) : Prop :=
  forall stack h,
  exists c : nat, (1 <= c)%nat /\ Z.of_nat c <= bound /\
    ((64 < Z.of_nat (length stack) + hgt /\
      forall fuel, BVH.traverse (c + fuel) s inst i stack (set_hit ray h)
                   = Fault (OutOfBounds StackArr)) \/
     exists h', sound (BVH.mesh s) inst ray ks h h' /\
       forall fuel, BVH.traverse (c + fuel) s inst i stack (set_hit ray h)
                    = resume fuel s inst stack (set_hit ray h')).

Lemma walks_two ix kx bx hx iy ky by' hy stack h :
  walks ix kx bx hx -> walks iy ky by' hy -> 0 <= hx -> 0 <= hy ->
  exists c : nat, (1 <= c)%nat /\ Z.of_nat c <= bx + by' /\
    ((64 < Z.of_nat (length stack) + (1 + Z.max hx hy) /\
      forall fuel,
        (if 64 <=? Z.of_nat (length stack) then Fault (OutOfBounds StackArr)
         else BVH.traverse (c + fuel) s inst ix (iy :: stack) (set_hit ray h))
        = Fault (OutOfBounds StackArr)) \/
     exists h', sound (BVH.mesh s) inst ray (kx ++ ky) h h' /\
       forall fuel,
         (if 64 <=? Z.of_nat (length stack) then Fault (OutOfBounds StackArr)
          else BVH.traverse (c + fuel) s inst ix (iy :: stack) (set_hit ray h))
         = resume fuel s inst stack (set_hit ray h')).
Proof.
  intros Vx Vy Hhx Hhy.
  destruct (Vx (iy :: stack) h) as (cx & Hcx1 & Hcx & Hx).
  assert (Hby : 1 <= by') by (destruct (Vy stack h) as (cy & ? & ? & _); lia).
  destruct (Z.leb_spec 64 (Z.of_nat (length stack))) as [Hfull | Hroom].
  { exists cx. split; [exact Hcx1 |]. split; [lia |]. left. split; [lia | reflexivity]. }
  cbn [length] in Hx.
  destruct Hx as [[Hover Hx] | (h1 & S1 & Hx)].
  { exists cx. split; [exact Hcx1 |]. split; [lia |]. left. split; [lia | exact Hx]. }
  destruct (Vy stack h1) as (cy & Hcy1 & Hcy & Hy).
  exists (cx + cy)%nat. split; [lia |]. split; [lia |].
  assert (Hstep : forall fuel,
            BVH.traverse (cx + cy + fuel) s inst ix (iy :: stack) (set_hit ray h)
            = BVH.traverse (cy + fuel) s inst iy stack (set_hit ray h1)).
  { intros fuel. rewrite <- Nat.add_assoc. rewrite Hx. reflexivity. }
  destruct Hy as [[Hover Hy] | (h2 & S2 & Hy)].
  - left. split; [lia |]. intros fuel. rewrite Hstep. apply Hy.
  - right. exists h2. split.
    + eapply sound_trans.
      * eapply sound_weaken; [| exact S1]. intros z Hz. apply elem_of_app. auto.
      * eapply sound_weaken; [| exact S2]. intros z Hz. apply elem_of_app. auto.
    + intros fuel. rewrite Hstep. apply Hy.
Qed.

Lemma walks_subtree t' : forall a,
  shaped (BVH.bvhNode s) t' a -> 2 <= a ->
  tlo t' + tn t' <= Z.of_nat (length (BVH.triIdx s)) ->
  walks (troot t') (range (BVH.triIdx s) (tlo t') (tn t')) (1 + desc t') (theight t').
Proof.
  induction t' as [i lo n | i lo n l IHl r IHr]; intros a Hsh Ha Hlen.
  - cbn [shaped troot tlo tn desc theight] in *.
    destruct Hsh as (Hi & Hlo & Hn & nd & Hnd & <- & <-).
    intros stack h. exists 1%nat. split; [lia |]. split; [lia |]. right.
    destruct (scan_spec (BVH.mesh s) inst ray
                (range (BVH.triIdx s) (BVHNode.leftFirst nd) (BVHNode.triCount nd)) h)
      as (h' & E & S' & _).
    exists h'. split; [exact S' |]. intros fuel. change (1 + fuel)%nat with (S fuel).
    rewrite (traverse_leaf fuel s inst i stack _ nd) by assumption.
    rewrite E. reflexivity.
  - cbn [shaped troot tlo tn desc theight] in *.
    destruct Hsh as (Hi & Hlo & (nd & Hnd & Hlf & Htc) & Hrl & Hrr & Hll & Hlr & Hn & Hsl & Hsr).
    pose proof (shaped_facts _ _ _ Hsl) as (Fl1 & Fl2 & Fl3 & Fl4 & Fl5).
    pose proof (shaped_facts _ _ _ Hsr) as (Fr1 & Fr2 & Fr3 & Fr4 & Fr5).
    pose proof (theight_leaves _ _ _ Hsl) as Hhl.
    pose proof (theight_leaves _ _ _ Hsr) as Hhr.
    assert (Vl := IHl (a + 2) Hsl ltac:(lia) ltac:(lia)).
    assert (Vr := IHr (a + 2 + desc l) Hsr ltac:(lia) ltac:(lia)).
    rewrite Hrl in Vl. rewrite Hrr in Vr. clear IHl IHr.
    assert (Hnl : exists nl, BVH.bvhNode s !! Z.to_nat a = Some nl).
    { destruct l; simpl in Hsl, Hrl; subst.
      - destruct Hsl as (_ & _ & _ & nl & H & _). eauto.
      - destruct Hsl as (_ & _ & (nl & H & _) & _). eauto. }
    assert (Hnr : exists nr, BVH.bvhNode s !! Z.to_nat (a + 1) = Some nr).
    { destruct r; simpl in Hsr, Hrr; subst.
      - destruct Hsr as (_ & _ & _ & nr & H & _). eauto.
      - destruct Hsr as (_ & _ & (nr & H & _) & _). eauto. }
    destruct Hnl as (nl & Hnl). destruct Hnr as (nr & Hnr).
    set (KL := range (BVH.triIdx s) (tlo l) (tn l)) in *.
    set (KR := range (BVH.triIdx s) (tlo r) (tn r)) in *.
    assert (HK : range (BVH.triIdx s) lo n = KL ++ KR).
    { rewrite (range_app _ lo (tn l) n) by lia. unfold KL, KR.
      rewrite Hll, Hlr. do 2 f_equal. lia. }
    rewrite HK.
    intros stack h.
    remember (IntersectAABB (set_hit ray h) (BVHNode.aabbMin nl) (BVHNode.aabbMax nl))
      as A eqn:EA.
    remember (IntersectAABB (set_hit ray h) (BVHNode.aabbMin nr) (BVHNode.aabbMax nr))
      as B eqn:EB.
    assert (Enode := fun fuel =>
      traverse_node fuel s inst i stack (set_hit ray h) nd nl nr A B a
        (proj1 Hi) Hnd Htc Hlf ltac:(lia) Hnl Hnr EA EB).
    assert (Hsub : forall h1 h2, sound (BVH.mesh s) inst ray (KR ++ KL) h1 h2 ->
                                 sound (BVH.mesh s) inst ray (KL ++ KR) h1 h2).
    { intros h1 h2. apply sound_weaken. intros z Hz.
      apply elem_of_app in Hz. apply elem_of_app. tauto. }
    (* the three ways out of an interior node *)
    assert (Hmiss : (forall fuel, BVH.traverse (S fuel) s inst i stack (set_hit ray h)
                                  = resume fuel s inst stack (set_hit ray h)) ->
              exists c : nat, (1 <= c)%nat /\ Z.of_nat c <= 1 + (2 + desc l + desc r) /\
                ((64 < Z.of_nat (length stack) + (1 + Z.max (theight l) (theight r)) /\
                  forall fuel, BVH.traverse (c + fuel) s inst i stack (set_hit ray h)
                               = Fault (OutOfBounds StackArr)) \/
                 exists h', sound (BVH.mesh s) inst ray (KL ++ KR) h h' /\
                   forall fuel, BVH.traverse (c + fuel) s inst i stack (set_hit ray h)
                                = resume fuel s inst stack (set_hit ray h'))).
    { intros E. exists 1%nat. split; [lia |]. split; [lia |]. right. exists h.
      split; [apply sound_refl | exact E]. }
    assert (Hone : forall ix kx bx hx,
              walks ix kx bx hx -> bx <= 2 + desc l + desc r ->
              hx <= Z.max (theight l) (theight r) -> kx ⊆ KL ++ KR ->
              (forall fuel, BVH.traverse (S fuel) s inst i stack (set_hit ray h)
                            = BVH.traverse fuel s inst ix stack (set_hit ray h)) ->
              exists c : nat, (1 <= c)%nat /\ Z.of_nat c <= 1 + (2 + desc l + desc r) /\
                ((64 < Z.of_nat (length stack) + (1 + Z.max (theight l) (theight r)) /\
                  forall fuel, BVH.traverse (c + fuel) s inst i stack (set_hit ray h)
                               = Fault (OutOfBounds StackArr)) \/
                 exists h', sound (BVH.mesh s) inst ray (KL ++ KR) h h' /\
                   forall fuel, BVH.traverse (c + fuel) s inst i stack (set_hit ray h)
                                = resume fuel s inst stack (set_hit ray h'))).
    { intros ix kx bx hx Vx Hbx Hhx Hkx E.
      destruct (Vx stack h) as (c & Hc1 & Hc & [[Hover HF] | (h' & S' & HE)]).
      - exists (S c). split; [lia |]. split; [lia |]. left. split; [lia |].
        intros fuel. change (S c + fuel)%nat with (S (c + fuel)). rewrite E. apply HF.
      - exists (S c). split; [lia |]. split; [lia |]. right. exists h'.
        split; [eapply sound_weaken; [exact Hkx | exact S'] |].
        intros fuel. change (S c + fuel)%nat with (S (c + fuel)). rewrite E. apply HE. }
    assert (Htwo : forall ix kx bx hx iy ky by' hy,
              walks ix kx bx hx -> walks iy ky by' hy -> 0 <= hx -> 0 <= hy ->
              bx + by' <= 2 + desc l + desc r ->
              Z.max hx hy <= Z.max (theight l) (theight r) -> kx ++ ky ⊆ KL ++ KR ->
              (forall fuel, BVH.traverse (S fuel) s inst i stack (set_hit ray h)
                 = if 64 <=? Z.of_nat (length stack) then Fault (OutOfBounds StackArr)
                   else BVH.traverse fuel s inst ix (iy :: stack) (set_hit ray h)) ->
              exists c : nat, (1 <= c)%nat /\ Z.of_nat c <= 1 + (2 + desc l + desc r) /\
                ((64 < Z.of_nat (length stack) + (1 + Z.max (theight l) (theight r)) /\
                  forall fuel, BVH.traverse (c + fuel) s inst i stack (set_hit ray h)
                               = Fault (OutOfBounds StackArr)) \/
                 exists h', sound (BVH.mesh s) inst ray (KL ++ KR) h h' /\
                   forall fuel, BVH.traverse (c + fuel) s inst i stack (set_hit ray h)
                                = resume fuel s inst stack (set_hit ray h'))).
    { intros ix kx bx hx iy ky by' hy Vx Vy Hhx Hhy Hb Hh Hk E.
      destruct (walks_two ix kx bx hx iy ky by' hy stack h Vx Vy Hhx Hhy)
        as (c & Hc1 & Hc & [[Hover HF] | (h' & S' & HE)]).
      - exists (S c). split; [lia |]. split; [lia |]. left. split; [lia |].
        intros fuel. change (S c + fuel)%nat with (S (c + fuel)). rewrite E. apply HF.
      - exists (S c). split; [lia |]. split; [lia |]. right. exists h'.
        split; [eapply sound_weaken; [exact Hk | exact S'] |].
        intros fuel. change (S c + fuel)%nat with (S (c + fuel)). rewrite E. apply HE. }
    destruct (B <? A)%f32.
    + destruct (B =? F32.f1e30)%f32; [apply Hmiss; exact Enode |].
      destruct (A =? F32.f1e30)%f32; cbn [negb] in Enode.
      * apply (Hone (a + 1) KR _ _ Vr); [lia | lia | | exact Enode].
        intros z Hz. apply elem_of_app. auto.
      * apply (Htwo (a + 1) KR _ _ a KL _ _ Vr Vl); [lia | lia | lia | lia | | exact Enode].
        intros z Hz. apply elem_of_app in Hz. apply elem_of_app. tauto.
    + destruct (A =? F32.f1e30)%f32; [apply Hmiss; exact Enode |].
      destruct (B =? F32.f1e30)%f32; cbn [negb] in Enode.
      * apply (Hone a KL _ _ Vl); [lia | lia | | exact Enode].
        intros z Hz. apply elem_of_app. auto.
      * apply (Htwo a KL _ _ (a + 1) KR _ _ Vl Vr); [lia | lia | lia | lia | | exact Enode].
        intros z Hz. exact Hz.
Qed.
End Walk.

Lemma Intersect_walks m rawNode rawIdx rawUsed fuelM b inst ray h fuel :
  BVH.Build fuelM (BVH.alloc m rawNode rawIdx rawUsed) = Ok b ->
  Mesh.triCount m <= 2 ^ 20 ->
  BVH.nodesUsed b <= Z.of_nat fuel ->
  (65 < Mesh.triCount m /\
   BVH.Intersect fuel b (set_hit ray h) inst = Fault (OutOfBounds StackArr)) \/
  exists h', BVH.Intersect fuel b (set_hit ray h) inst = Ok (set_hit ray h') /\
             sound (BVH.mesh b) inst ray (all_tris b) h h'.
Proof.
  intros HB HT Hfuel.
  destruct (Build_Ok_built _ _ _ _ _ _ HB) as (HT1 & Hwf & Htri & Hperm & _).
  destruct Hwf as ((Hal1 & Hal2) & Hv & t0 & Hr0 & Hlo0 & Hn0 & Hsh & Hused & Hbox).
  cbn [BVH.mesh BVH.alloc] in Htri, Hperm.
  assert (HTb : Mesh.triCount (BVH.mesh b) = Mesh.triCount m).
  { unfold Mesh.triCount. rewrite Htri, length_map. reflexivity. }
  assert (Hlen : Z.of_nat (length (BVH.triIdx b)) = Mesh.triCount (BVH.mesh b)).
  { unfold Mesh.triCount. rewrite Hal1. reflexivity. }
  pose proof (walks_subtree b inst ray Hv ltac:(lia) t0 2 Hsh ltac:(lia) ltac:(lia)) as V.
  pose proof (theight_leaves _ _ _ Hsh) as Hh.
  pose proof (shaped_facts _ _ _ Hsh) as (_ & _ & Hlv & _).
  rewrite Hr0, Hlo0, Hn0, <- Hlen, range_all in V.
  destruct (V [] h) as (c & Hc1 & Hc & HV).
  unfold BVH.Intersect.
  replace fuel with (c + (fuel - c))%nat by lia.
  destruct HV as [[Hover HF] | (h' & S' & HE)].
  - left. cbn [length] in Hover. split; [lia | apply HF].
  - right. exists h'. split; [rewrite HE; reflexivity |].
    assert (Hp : BVH.triIdx b ≡ₚ all_tris b) by (unfold all_tris; rewrite HTb; exact Hperm).
    eapply sound_weaken; [| exact S']. intros z Hz. rewrite <- Hp. exact Hz.
Qed.

(** X9: what [BVH::Intersect] returns on a built BLAS, whatever the slab
    test says of the boxes.  With at least [nodesUsed] turns of its loop it
    returns or overflows its stack of 64 entries; the ray it returns has the
    origin and the directions it was given, and its hit is the one it was
    given or that of [IntersectTri] on a triangle of the mesh that the ray
    hits closer than that, with the [instPrim] of this triangle; and it is
    never closer than the hit of the scan over all the triangles. *)
Theorem Intersect_reports_a_triangle
    m rawNode rawIdx rawUsed fuelM b ray inst fuel :
  BVH.Build fuelM (BVH.alloc m rawNode rawIdx rawUsed) = Ok b ->
  Mesh.triCount m <= 2 ^ 20 ->
  BVH.nodesUsed b <= Z.of_nat fuel ->
  satisfies (BVH.Intersect fuel b ray inst)
    (fun f => f = OutOfBounds StackArr)
    (fun r =>
       rayO r = rayO ray /\ rayD r = rayD ray /\ rayrD r = rayrD ray /\
       (t (hit r) <? t (hit (brute_force b inst ray)))%f32 = false /\
       (hit r = hit ray \/
        exists k tr, 0 <= k < Mesh.triCount m /\
                     Mesh.tri (BVH.mesh b) !! Z.to_nat k = Some tr /\
                     accepts ray tr = true /\
                     (t (hit r) <? t (hit ray))%f32 = true /\
                     hit r = hit (IntersectTri ray tr (inst_prim inst k)))).
Proof.
  intros HB HT Hfuel.
  destruct (Build_Ok_built _ _ _ _ _ _ HB) as (_ & _ & Htri & _).
  cbn [BVH.mesh BVH.alloc] in Htri.
  assert (HTb : Mesh.triCount (BVH.mesh b) = Mesh.triCount m).
  { unfold Mesh.triCount. rewrite Htri, length_map. reflexivity. }
  rewrite (ray_eta ray) at 1.
  destruct (Intersect_walks _ _ _ _ _ _ inst ray (hit ray) fuel HB HT Hfuel)
    as [[_ ->] | (h' & -> & S')]; [reflexivity |].
  cbn [satisfies rayO rayD rayrD hit set_hit].
  split; [reflexivity |]. split; [reflexivity |]. split; [reflexivity |].
  destruct (brute_force_spec b inst ray (hit ray)) as (hb & Eb & Sb & Cb).
  rewrite <- ray_eta in Eb. rewrite Eb. cbn [hit set_hit]. split.
  - destruct S' as [-> | (k & tr & Hk & Htr & Ha & Hlt & ->)].
    + destruct Sb as [-> | (k & tr & _ & _ & _ & Hlt & ->)]; [apply ltb_irrefl |].
      cbn [t hit_of]. apply ltb_asym. exact Hlt.
    + cbn [t hit_of]. exact (Cb k tr Hk Htr Ha).
  - destruct S' as [-> | (k & tr & Hk & Htr & Ha & Hlt & ->)]; [left; reflexivity |].
    right. exists k, tr. split.
    { unfold all_tris in Hk. apply elem_of_seqZ in Hk. lia. }
    split; [exact Htr |]. split; [exact Ha |]. split; [exact Hlt |].
    rewrite IntersectTri_eq, Ha, Hlt. reflexivity.
Qed.

Lemma Intersect_reports_a_triangle_witness :
  satisfies (BVH.Intersect 4 built2 ray_z 3)
    (fun f => f = OutOfBounds StackArr)
    (fun r =>
       rayO r = rayO ray_z /\ rayD r = rayD ray_z /\ rayrD r = rayrD ray_z /\
       (t (hit r) <? t (hit (brute_force built2 3 ray_z)))%f32 = false /\
       (hit r = hit ray_z \/
        exists k tr, 0 <= k < Mesh.triCount mesh2 /\
                     Mesh.tri (BVH.mesh built2) !! Z.to_nat k = Some tr /\
                     accepts ray_z tr = true /\
                     (t (hit r) <? t (hit ray_z))%f32 = true /\
                     hit r = hit (IntersectTri ray_z tr (inst_prim 3 k)))).
Proof.
  refine (Intersect_reports_a_triangle mesh2 raw_node raw_idx 0 2 built2 ray_z 3 4
            built2_eq _ _).
  - change (2 <= 2 ^ 20). lia.
  - change (4 <= 4). lia.
Defined.

(** X10: the stack of 64 entries is enough for a small mesh.  On a BLAS
    built over at most 65 triangles, [BVH::Intersect] with at least
    [nodesUsed] turns of its loop returns a ray, for every ray and every
    content of the boxes. *)
Theorem Intersect_small_mesh_returns
    m rawNode rawIdx rawUsed fuelM b ray inst fuel :
  BVH.Build fuelM (BVH.alloc m rawNode rawIdx rawUsed) = Ok b ->
  Mesh.triCount m <= 65 ->
  BVH.nodesUsed b <= Z.of_nat fuel ->
  exists r, BVH.Intersect fuel b ray inst = Ok r.
Proof.
  intros HB HT Hfuel. rewrite (ray_eta ray).
  destruct (Intersect_walks _ _ _ _ _ _ inst ray (hit ray) fuel HB ltac:(lia) Hfuel)
    as [[Hbig _] | (h' & E & _)]; [lia |].
  eauto.
Qed.

Lemma Intersect_small_mesh_returns_witness :
  exists r, BVH.Intersect 4 built2 ray_z 0 = Ok r.
Proof.
  refine (Intersect_small_mesh_returns mesh2 raw_node raw_idx 0 2 built2 ray_z 0 4
            built2_eq _ _).
  - change (2 <= 65). lia.
  - change (4 <= 4). lia.
Defined.

(** ** The tree of [TLAS::Build] *)

Lemma tshaped_under_inv s hi t :
  tshaped s hi t -> forall j, under s (ttroot t) j -> j ∈ tleaves t.
Proof.
  induction t as [i j0 | i l IHl r IHr]; simpl.
  - intros (Hi & Hj & nd & Hnd & Hlr & <-) j Hu.
    inversion Hu as [i' nd' Hnd' Hleaf | i' nd' j' Hnd' Hleaf Hu' | i' nd' j' Hnd' Hleaf Hu'];
      subst; rewrite Hnd in Hnd'; injection Hnd' as <-.
    + apply list_elem_of_singleton. reflexivity.
    + unfold TLASNode.isLeaf in Hleaf. rewrite Hlr in Hleaf. discriminate Hleaf.
    + unfold TLASNode.isLeaf in Hleaf. rewrite Hlr in Hleaf. discriminate Hleaf.
  - intros (Hi & (nd & Hnd & Hlr) & Hl & Hr & Hsl & Hsr) j Hu.
    assert (Hnl : TLASNode.isLeaf nd = false).
    { unfold TLASNode.isLeaf. rewrite Hlr. apply Z.eqb_neq. apply leftRight_pos; lia. }
    destruct (leftRight_unpack (ttroot l) (ttroot r) ltac:(lia) ltac:(lia)) as [E1 E2].
    inversion Hu as [i' nd' Hnd' Hleaf | i' nd' j' Hnd' Hleaf Hu' | i' nd' j' Hnd' Hleaf Hu'];
      subst; rewrite Hnd in Hnd'; injection Hnd' as <-.
    + rewrite Hnl in Hleaf. discriminate Hleaf.
    + rewrite Hlr, E1 in Hu'. apply elem_of_app. left. apply IHl; assumption.
    + rewrite Hlr, E2 in Hu'. apply elem_of_app. right. apply IHr; assumption.
Qed.

(** X11: the tree that [TLAS::Build] leaves.  When it completes on between 1
    and [2^15] instances, it has used [2 * N] nodes, the list of instances is
    the one it was given, and the instances that are met by following the
    [leftRight] links from node 0 down to the leaves are exactly the [N]
    instances [0 .. N - 1]. *)
Theorem TLAS_Build_reaches_instances insts rawNode rawIdx fuel s :
  1 <= Z.of_nat (length insts) <= 2 ^ 15 ->
  TLAS.Build fuel (TLAS.alloc insts rawNode rawIdx) = Ok s ->
  TLAS.nodesUsed s = 2 * Z.of_nat (length insts) /\
  TLAS.blas s = insts /\
  forall j, under s 0 j <-> 0 <= j < Z.of_nat (length insts).
Proof.
  intros HN HB.
  destruct (sat_inv _ _ _ _ (Build_tlas_wf insts rawNode rawIdx fuel HN) HB)
    as (t0 & Hr & Hsh & Hl & Hb & Hu).
  split; [exact Hu |]. split; [exact Hb |]. intros j. split.
  - intros Hj. rewrite <- Hr in Hj. apply (tshaped_under_inv _ _ _ Hsh) in Hj.
    rewrite Hl in Hj. apply elem_of_seqZ in Hj. lia.
  - intros Hj. rewrite <- Hr. apply (tshaped_under _ _ _ Hsh).
    rewrite Hl. apply elem_of_seqZ. lia.
Qed.

Lemma TLAS_Build_reaches_instances_witness :
  TLAS.nodesUsed tlas2 = 2 * Z.of_nat (length insts2) /\
  TLAS.blas tlas2 = insts2 /\
  forall j, under tlas2 0 j <-> 0 <= j < Z.of_nat (length insts2).
Proof.
  apply (TLAS_Build_reaches_instances insts2 raw_tnode raw_idx 1 tlas2); [| exact tlas2_eq].
  change (1 <= 2 <= 2 ^ 15). lia.
Defined.

(** ** The best match *)

(** The area that [FindBestMatch] computes for the union of two boxes,
    lines 345-348. *)
Definition union_area (nA nB : TLASNode.t) : float :=
  let bmax := fmaxf3 (TLASNode.aabbMax nA) (TLASNode.aabbMax nB) in
  let bmin := fminf3 (TLASNode.aabbMin nA) (TLASNode.aabbMin nB) in
  let e := sub3 bmax bmin in
  (x e * y e + y e * z e + z e * x e)%f32.

(** What the loop of [FindBestMatch] holds after the entries below [k]: no
    match yet, or the first of the least of them. *)
Definition best_so_far (s : TLAS.t) (A k : Z) (acc : float * Z) : Prop :=
    (snd acc = -1 /\ fst acc = F32.f1e30 /\
     forall B nA nB, 0 <= B < k -> B <> A ->
       TLAS.node_of s A = Ok nA -> TLAS.node_of s B = Ok nB ->
       (union_area nA nB <? F32.f1e30)%f32 = false) \/
    (0 <= snd acc < k /\ snd acc <> A /\
     exists nA nR, TLAS.node_of s A = Ok nA /\ TLAS.node_of s (snd acc) = Ok nR /\
       fst acc = union_area nA nR /\
       (union_area nA nR <? F32.f1e30)%f32 = true /\
       forall B nB, 0 <= B < k -> B <> A -> TLAS.node_of s B = Ok nB ->
         (union_area nA nB <? union_area nA nR)%f32 = false /\
         (B < snd acc -> union_area nA nB <> S754_nan ->
          (union_area nA nR <? union_area nA nB)%f32 = true)).

Lemma FindBestMatch_scan s N A r :
  TLAS.FindBestMatch s N A = Ok r ->
  exists smallest, best_so_far s A (0 + Z.of_nat (Z.to_nat N)) (smallest, r).
Proof.
  unfold TLAS.FindBestMatch. intros H.
  apply bind_Ok in H as ([smallest bestB] & Hloop & Hret). injection Hret as ->.
  set (Inv := best_so_far s A).
  match type of Hloop with ?l = _ =>
    assert (HI : satisfies l any_fault (Inv (0 + Z.of_nat (Z.to_nat N)))) end.
  { apply (sat_for_loop Inv any_fault).
    - left. split; [reflexivity |]. split; [reflexivity |]. intros; lia.
    - intros B [sm bb] HB HIk.
      destruct (Z.eqb_spec B A) as [-> | Hne].
      + unfold satisfies. destruct HIk as [(Hb & Hs & Hall) | (Hb & Hne & nA & nR & HA & HR & Hs & Hlt & Hall)].
        * left. split; [exact Hb |]. split; [exact Hs |].
          intros B' nA nB HB' Hne'. apply Hall; [lia | exact Hne'].
        * right. split; [lia |]. split; [exact Hne |]. exists nA, nR.
          repeat (split; [assumption |]).
          intros B' nB HB' Hne'. apply Hall; [lia | exact Hne'].
      + destruct (TLAS.node_of s A) as [nA | f] eqn:EA; [| exact I]. cbn [mbind result_bind].
        destruct (TLAS.node_of s B) as [nB | f] eqn:EB; [| exact I]. cbn [mbind result_bind].
        cbv zeta.
        match goal with |- context [(?a <? sm)%f32] => change a with (union_area nA nB) end.
        destruct (union_area nA nB <? sm)%f32 eqn:Elt; unfold satisfies, Inv, best_so_far.
        * (* a better match *)
          right. cbn [fst snd]. split; [lia |]. split; [exact Hne |].
          exists nA, nB. split; [exact EA |]. split; [exact EB |]. split; [reflexivity |].
          destruct HIk as [(Hb & Hs & Hall) | (Hb & Hne' & nA' & nR & HA & HR & Hs & Hlt & Hall)];
            cbn [fst snd] in *; try rewrite EA in HA.
          -- subst sm. split; [exact Elt |]. intros B' nB' HB' HneB HnB'.
             destruct (Z.eq_dec B' B) as [-> | HBB].
             { assert (nB' = nB) by congruence. subst nB'.
               split; [apply ltb_irrefl | intros Hlt'; lia]. }
             pose proof (Hall B' nA nB' ltac:(lia) HneB EA HnB') as Hge.
             split.
             ++ destruct (union_area nA nB' <? union_area nA nB)%f32 eqn:E; [| reflexivity].
                rewrite (ltb_trans _ _ _ E Elt) in Hge. discriminate Hge.
             ++ intros _ Hgood.
                destruct (ltb_negtrans _ (union_area nA nB') _ Hgood Elt) as [H1 | H1];
                  [exact H1 | rewrite H1 in Hge; discriminate Hge].
          -- injection HA as <-. subst sm.
             split; [exact (ltb_trans _ _ _ Elt Hlt) |]. intros B' nB' HB' HneB HnB'.
             destruct (Z.eq_dec B' B) as [-> | HBB].
             { assert (nB' = nB) by congruence. subst nB'.
               split; [apply ltb_irrefl | intros Hlt'; lia]. }
             destruct (Hall B' nB' ltac:(lia) HneB HnB') as [Hge _].
             split.
             ++ destruct (union_area nA nB' <? union_area nA nB)%f32 eqn:E; [| reflexivity].
                rewrite (ltb_trans _ _ _ E Elt) in Hge. discriminate Hge.
             ++ intros _ Hgood.
                destruct (ltb_negtrans _ (union_area nA nB') _ Hgood Elt) as [H1 | H1];
                  [exact H1 | rewrite H1 in Hge; discriminate Hge].
        * (* the match at hand stays *)
          destruct HIk as [(Hb & Hs & Hall) | (Hb & Hne' & nA' & nR & HA & HR & Hs & Hlt & Hall)];
            cbn [fst snd] in *; try rewrite EA in HA.
          -- left. cbn [fst snd]. split; [exact Hb |]. split; [exact Hs |]. subst sm.
             intros B' nA' nB' HB' HneB HnA' HnB'.
             destruct (Z.eq_dec B' B) as [-> | HBB].
             { assert (nB' = nB) by congruence. assert (nA' = nA) by congruence.
               subst. exact Elt. }
             apply (Hall B'); [lia | assumption..].
          -- right. cbn [fst snd]. injection HA as <-. subst sm.
             split; [lia |]. split; [exact Hne' |].
             exists nA, nR. split; [exact EA |]. split; [exact HR |].
             split; [reflexivity |]. split; [exact Hlt |].
             intros B' nB' HB' HneB HnB'.
             destruct (Z.eq_dec B' B) as [-> | HBB].
             { assert (nB' = nB) by congruence. subst. split; [exact Elt | lia]. }
             apply (Hall B'); [lia | assumption..]. }
  rewrite Hloop in HI. exists smallest. exact HI.
Qed.

(** X12: what [FindBestMatch] picks.  When it returns, the result is [-1]
    and no other entry of the list makes with [A] a union of area below
    [1e30f]; or it is another entry of the list whose union with [A] has an
    area below [1e30f] that the area of no other union with [A] is below,
    and that is below the area of every union with an earlier entry whose
    area is a number. *)
Theorem FindBestMatch_least s N A r :
  TLAS.FindBestMatch s N A = Ok r ->
  (r = -1 /\
   forall B nA nB, 0 <= B < N -> B <> A ->
     TLAS.node_of s A = Ok nA -> TLAS.node_of s B = Ok nB ->
     (union_area nA nB <? F32.f1e30)%f32 = false) \/
  (0 <= r < N /\ r <> A /\
   exists nA nR, TLAS.node_of s A = Ok nA /\ TLAS.node_of s r = Ok nR /\
     (union_area nA nR <? F32.f1e30)%f32 = true /\
     forall B nB, 0 <= B < N -> B <> A -> TLAS.node_of s B = Ok nB ->
       (union_area nA nB <? union_area nA nR)%f32 = false /\
       (B < r -> union_area nA nB <> S754_nan ->
        (union_area nA nR <? union_area nA nB)%f32 = true)).
Proof.
  intros H. destruct (FindBestMatch_scan s N A r H) as (smallest & HI).
  unfold best_so_far in HI. cbn [fst snd] in HI.
  destruct HI as [(Hb & Hs & Hall) | (Hb & Hne & nA & nR & HA & HR & Hs & Hlt & Hall)].
  - left. split; [exact Hb |]. intros B nA nB HB. apply Hall. lia.
  - right. split; [lia |]. split; [exact Hne |]. exists nA, nR.
    split; [exact HA |]. split; [exact HR |]. split; [exact Hlt |].
    intros B nB HB. apply Hall. lia.
Qed.

Lemma FindBestMatch_least_witness :
  (1 = -1 /\
   forall B nA nB, 0 <= B < 2 -> B <> 0 ->
     TLAS.node_of tlas2 0 = Ok nA -> TLAS.node_of tlas2 B = Ok nB ->
     (union_area nA nB <? F32.f1e30)%f32 = false) \/
  (0 <= 1 < 2 /\ 1 <> 0 /\
   exists nA nR, TLAS.node_of tlas2 0 = Ok nA /\ TLAS.node_of tlas2 1 = Ok nR /\
     (union_area nA nR <? F32.f1e30)%f32 = true /\
     forall B nB, 0 <= B < 2 -> B <> 0 -> TLAS.node_of tlas2 B = Ok nB ->
       (union_area nA nB <? union_area nA nR)%f32 = false /\
       (B < 1 -> union_area nA nB <> S754_nan ->
        (union_area nA nR <? union_area nA nB)%f32 = true)).
Proof.
  apply (FindBestMatch_least tlas2 2 0 1). vm_compute. reflexivity.
Defined.

(** ** The boxes of [TLAS::Build] *)

(** Node [i] of a TLAS bounds what is right below it: a leaf has the box of
    its instance, an interior node the union of the boxes of the two
    children that its [leftRight] names, which holds both. *)
Definition tbounding_at (s : TLAS.t) (i : Z) : Prop :=
  exists nd, TLAS.tlasNode s !! Z.to_nat i = Some nd /\
    if TLASNode.isLeaf nd then
      exists b, 0 <= TLASNode.BLAS nd /\
        TLAS.blas s !! Z.to_nat (TLASNode.BLAS nd) = Some b /\
        TLASNode.aabbMin nd = bmin (bounds b) /\ TLASNode.aabbMax nd = bmax (bounds b)
    else
      exists c1 c2,
        TLAS.tlasNode s !! Z.to_nat (Z.land (TLASNode.leftRight nd) 65535) = Some c1 /\
        TLAS.tlasNode s !! Z.to_nat (Z.shiftr (TLASNode.leftRight nd) 16) = Some c2 /\
        TLASNode.aabbMin nd = fminf3 (TLASNode.aabbMin c1) (TLASNode.aabbMin c2) /\
        TLASNode.aabbMax nd = fmaxf3 (TLASNode.aabbMax c1) (TLASNode.aabbMax c2) /\
        box_inside (TLASNode.aabbMin c1) (TLASNode.aabbMax c1)
                   (TLASNode.aabbMin nd) (TLASNode.aabbMax nd) = true /\
        box_inside (TLASNode.aabbMin c2) (TLASNode.aabbMax c2)
                   (TLASNode.aabbMin nd) (TLASNode.aabbMax nd) = true.

(** What a node in use holds while the clustering runs; the children of an
    interior node lie below [hi]. *)
Definition tnode_ok (insts : list BVHInstance) (pool : list TLASNode.t) (hi : Z)
    (nd : TLASNode.t) : Prop :=
  (TLASNode.leftRight nd = 0 /\
   exists b, 0 <= TLASNode.BLAS nd /\ insts !! Z.to_nat (TLASNode.BLAS nd) = Some b /\
     TLASNode.aabbMin nd = bmin (bounds b) /\ TLASNode.aabbMax nd = bmax (bounds b)) \/
  (exists a b na nb,
     TLASNode.leftRight nd = wrap32 (a + Z.shiftl b 16) /\
     1 <= a < hi /\ 1 <= b < hi /\
     pool !! Z.to_nat a = Some na /\ pool !! Z.to_nat b = Some nb /\
     TLASNode.aabbMin nd = fminf3 (TLASNode.aabbMin na) (TLASNode.aabbMin nb) /\
     TLASNode.aabbMax nd = fmaxf3 (TLASNode.aabbMax na) (TLASNode.aabbMax nb)).

Definition box_inv (insts : list BVHInstance) (s : TLAS.t) (n : Z) : Prop :=
  (forall k, 0 <= k < n ->
     exists i, TLAS.nodeIdx s !! Z.to_nat k = Some i /\ 1 <= i < TLAS.nodesUsed s) /\
  (forall i nd, 1 <= i < TLAS.nodesUsed s -> TLAS.tlasNode s !! Z.to_nat i = Some nd ->
     tnode_ok insts (TLAS.tlasNode s) i nd).

Lemma tnode_ok_ext insts pool pool' hi hi' nd :
  tnode_ok insts pool hi nd -> hi <= hi' ->
  (forall k, 1 <= k < hi -> pool' !! Z.to_nat k = pool !! Z.to_nat k) ->
  tnode_ok insts pool' hi' nd.
Proof.
  intros [H | (a & b & na & nb & Hlr & Ha & Hb & Hna & Hnb & Hmin & Hmax)] Hhi Hext;
    [left; exact H |].
  right. exists a, b, na, nb. split; [exact Hlr |]. split; [lia |]. split; [lia |].
  rewrite !Hext by lia. auto.
Qed.

Lemma union_holds_both (amin amax bmin' bmax' : float3) :
  box_inside amin amax (fminf3 amin bmin') (fmaxf3 amax bmax') = true /\
  box_inside bmin' bmax' (fminf3 amin bmin') (fmaxf3 amax bmax') = true.
Proof.
  assert (Hmin : forall a b : float,
            (a <? fminf a b)%f32 = false /\ (b <? fminf a b)%f32 = false).
  { intros a b. unfold fminf. destruct (a <? b)%f32 eqn:E.
    - split; [apply ltb_irrefl | apply ltb_asym; exact E].
    - split; [exact E | apply ltb_irrefl]. }
  assert (Hmax : forall a b : float,
            (fmaxf a b <? a)%f32 = false /\ (fmaxf a b <? b)%f32 = false).
  { intros a b. unfold fmaxf. destruct (b <? a)%f32 eqn:E.
    - split; [apply ltb_irrefl | apply ltb_asym; exact E].
    - split; [exact E | apply ltb_irrefl]. }
  unfold box_inside, fminf3, fmaxf3. cbn [forallb x y z].
  rewrite !(proj1 (Hmin _ _)), !(proj2 (Hmin _ _)),
          !(proj1 (Hmax _ _)), !(proj2 (Hmax _ _)).
  split; reflexivity.
Qed.

Lemma cluster_boxes insts fuel : forall s n A B,
  box_inv insts s n -> B = -1 \/ 0 <= B < n ->
  satisfies (TLAS.cluster fuel s n A B) any_fault (fun r => box_inv insts (fst r) 0).
Proof.
  induction fuel as [| fuel IH]; intros s n A B Hinv HB;
    rewrite cluster_unfold; destruct (Z.leb_spec n 1) as [Hn | Hn].
  - split; [intros; lia | exact (proj2 Hinv)].
  - exact I.
  - split; [intros; lia | exact (proj2 Hinv)].
  - destruct Hinv as [Hidx Hok].
    eapply sat_bind; [apply FindBestMatch_spec |].
    intros C [HC HBr]. specialize (HBr ltac:(lia)).
    assert (HB' : 0 <= B < n) by lia. clear HB.
    destruct (Z.eqb_spec A C) as [<- | HAC];
      [| apply (IH s n B C); [split; assumption | lia]].
    eapply sat_bind; [apply sat_rd_any |]. intros a [HA0 Ha].
    assert (HA : 0 <= A < n /\ A <> B) by lia. clear HC.
    eapply sat_bind; [apply sat_rd_any |]. intros b [_ Hb].
    destruct (Hidx A ltac:(lia)) as (a' & Ha' & Hra).
    destruct (Hidx B ltac:(lia)) as (b' & Hb' & Hrb).
    assert (a' = a) by congruence. assert (b' = b) by congruence. subst a' b'.
    eapply sat_bind; [apply sat_rd_any |]. intros nodeA [_ HnA].
    eapply sat_bind; [apply sat_rd_any |]. intros nodeB [_ HnB].
    eapply sat_bind; [apply sat_upd_tnode_any |]. intros pool (Hu & nd0 & Hnd0 & ->).
    eapply sat_bind; [apply sat_wr_any |]. intros idx1 (HlA & ->).
    eapply sat_bind; [apply sat_rd_any |]. intros lasti [_ Hlasti].
    eapply sat_bind; [apply sat_wr_any |]. intros idx2 (HlB & ->).
    cbv zeta.
    set (newN := TLASNode.mk (fminf3 (TLASNode.aabbMin nodeA) (TLASNode.aabbMin nodeB))
                   (wrap32 (a + Z.shiftl b 16))
                   (fmaxf3 (TLASNode.aabbMax nodeA) (TLASNode.aabbMax nodeB))
                   (TLASNode.BLAS nd0)).
    set (s' := TLAS.set_nodesUsed _ _).
    eapply sat_bind; [apply FindBestMatch_spec |]. intros B2 [HB2 _].
    apply (IH s' (n - 1) A B2); [| lia].
    unfold box_inv, s'.
    cbn [TLAS.blas TLAS.nodeIdx TLAS.tlasNode TLAS.nodesUsed
         TLAS.set_nodesUsed TLAS.set_nodeIdx TLAS.set_tlasNode].
    rewrite length_insert in HlB. split.
    + intros k Hk. destruct (Z.eq_dec k B) as [-> | HkB].
      * rewrite list_lookup_insert_eq by (rewrite length_insert; lia).
        exists lasti. split; [reflexivity |].
        destruct (Z.eq_dec (n - 1) A) as [E | E].
        -- rewrite E in Hlasti. rewrite list_lookup_insert_eq in Hlasti by lia.
           injection Hlasti as <-. lia.
        -- rewrite list_lookup_insert_ne in Hlasti by lia.
           destruct (Hidx (n - 1) ltac:(lia)) as (i & Hi & Hri).
           assert (i = lasti) by congruence. subst i. lia.
      * rewrite list_lookup_insert_ne by lia.
        destruct (Z.eq_dec k A) as [-> | HkA].
        -- rewrite list_lookup_insert_eq by lia. eexists. split; [reflexivity | lia].
        -- rewrite list_lookup_insert_ne by lia.
           destruct (Hidx k ltac:(lia)) as (i & Hi & Hri). exists i. split; [exact Hi | lia].
    + intros i nd Hi Hnd. destruct (Z.eq_dec i (TLAS.nodesUsed s)) as [-> | Hne].
      * rewrite list_lookup_insert_eq in Hnd by lia. injection Hnd as <-.
        right. exists a, b, nodeA, nodeB. split; [reflexivity |].
        split; [lia |]. split; [lia |].
        rewrite !list_lookup_insert_ne by lia. auto.
      * rewrite list_lookup_insert_ne in Hnd by lia.
        apply (tnode_ok_ext insts (TLAS.tlasNode s) _ i i); [apply Hok; [lia | exact Hnd] | lia |].
        intros k Hk. apply list_lookup_insert_ne. lia.
Qed.

Lemma tnode_ok_bounding insts s hi nd i :
  TLAS.blas s = insts -> hi <= 2 ^ 16 ->
  TLAS.tlasNode s !! Z.to_nat i = Some nd ->
  tnode_ok insts (TLAS.tlasNode s) hi nd -> tbounding_at s i.
Proof.
  intros Hb Hhi Hnd [(Hlr & b & Hj & Hbj & Hmin & Hmax)
                    | (a & b & na & nb & Hlr & Ha & Hb' & Hna & Hnb & Hmin & Hmax)];
    exists nd; (split; [exact Hnd |]); unfold TLASNode.isLeaf.
  - rewrite Hlr. change (0 =? 0) with true. cbv iota. exists b. rewrite Hb. auto.
  - rewrite Hlr.
    replace (wrap32 (a + Z.shiftl b 16) =? 0) with false
      by (symmetry; apply Z.eqb_neq; apply leftRight_pos; lia).
    destruct (leftRight_unpack a b ltac:(lia) ltac:(lia)) as [-> ->].
    exists na, nb. split; [exact Hna |]. split; [exact Hnb |].
    split; [exact Hmin |]. split; [exact Hmax |].
    rewrite Hmin, Hmax. apply union_holds_both.
Qed.

(** X13: the boxes that [TLAS::Build] leaves.  When it completes on between
    1 and [2^15] instances, each of the [2 * N] nodes in use bounds what is
    right below it: a leaf has the box of an instance of the list, and an
    interior node has the union of the boxes of the two children that its
    [leftRight] names, which holds the box of each of them. *)
Theorem TLAS_Build_boxes_bound insts rawNode rawIdx fuel s :
  1 <= Z.of_nat (length insts) <= 2 ^ 15 ->
  TLAS.Build fuel (TLAS.alloc insts rawNode rawIdx) = Ok s ->
  forall i, 0 <= i < TLAS.nodesUsed s -> tbounding_at s i.
Proof.
  intros HN HB.
  destruct (sat_inv _ _ _ _ (Build_tlas_wf insts rawNode rawIdx fuel HN) HB)
    as (_ & _ & _ & _ & Hblas & Hused).
  revert HB. unfold TLAS.Build.
  destruct (assign_leaves_total insts rawNode rawIdx)
    as (s1 & -> & Hb & Hc & Hu & Hli & Hlp & Hl).
  cbn [mbind result_bind]. cbv zeta. rewrite Hc.
  set (N := Z.of_nat (length insts)) in *.
  assert (Hinv : box_inv insts s1 N).
  { split.
    - intros k Hk. destruct (lookup_lt_is_Some_2 insts (Z.to_nat k)) as [b Hbk]; [lia |].
      destruct (Hl k b Hk Hbk) as [H1 _]. exists (1 + k). split; [exact H1 | lia].
    - intros i nd Hi Hnd. left.
      destruct (lookup_lt_is_Some_2 insts (Z.to_nat (i - 1))) as [b Hbk]; [lia |].
      destruct (Hl (i - 1) b ltac:(lia) Hbk) as [_ H2].
      replace (1 + (i - 1)) with i in H2 by lia.
      assert (nd = leaf_of b (i - 1)) by congruence. subst nd.
      cbn [leaf_of TLASNode.leftRight TLASNode.BLAS TLASNode.aabbMin TLASNode.aabbMax].
      split; [reflexivity |]. exists b. split; [lia |]. auto. }
  intros HB. apply bind_Ok in HB as (B & HFB & HB).
  pose proof (FindBestMatch_spec s1 N 0) as HBs. rewrite HFB in HBs. destruct HBs as [HBs _].
  apply bind_Ok in HB as ([s2 A] & Hcl & HB).
  pose proof (cluster_boxes insts fuel s1 N 0 B Hinv ltac:(lia)) as Hbox.
  rewrite Hcl in Hbox. cbn [satisfies fst] in Hbox. destruct Hbox as [_ Hok].
  assert (Hforest : exists f, forest_inv insts s2 1 [f] /\ 0 <= A /\
                              TLAS.nodeIdx s2 !! Z.to_nat A = Some (ttroot f)).
  { assert (Hf : satisfies (TLAS.cluster fuel s1 N 0 B) any_fault
              (fun r => exists f, forest_inv insts (fst r) 1 [f] /\ 0 <= snd r /\
                          TLAS.nodeIdx (fst r) !! Z.to_nat (snd r) = Some (ttroot f))).
    { set (F0 := map (fun i => TL (1 + i) i) (seqZ 0 N)).
      assert (HF0 : forall i f, F0 !! i = Some f ->
                      Z.of_nat i < N /\ f = TL (1 + Z.of_nat i) (Z.of_nat i)).
      { intros i f Hf. unfold F0 in Hf. rewrite list_lookup_fmap in Hf.
        destruct (seqZ 0 N !! i) as [k |] eqn:E; [| discriminate].
        apply lookup_seqZ in E as [-> Hi]. injection Hf as <-. split; [lia |].
        f_equal; lia. }
      apply (cluster_spec insts fuel s1 N 0 B F0); [| lia |].
      - unfold forest_inv. fold N. split; [exact Hb |]. split; [exact Hli |].
        split; [exact Hlp |]. split; [lia |]. split; [lia |]. split; [lia |].
        split; [unfold F0; rewrite length_map, length_seqZ; lia |]. split.
        + intros i f Hf. destruct (HF0 i f Hf) as [Hi ->]. cbn [ttroot].
          destruct (lookup_lt_is_Some_2 insts i) as [b Hbi]; [lia |].
          destruct (Hl (Z.of_nat i) b ltac:(lia) ltac:(rewrite Nat2Z.id; exact Hbi))
            as [H1 _].
          rewrite Nat2Z.id in H1. exact H1.
        + split; [| unfold F0; rewrite leaves_forest; reflexivity].
          apply Forall_forall. intros f Hf. apply list_elem_of_lookup in Hf as [i Hf].
          destruct (HF0 i f Hf) as [Hi ->]. cbn [ttroot tshaped]. split; [lia |].
          destruct (lookup_lt_is_Some_2 insts i) as [b Hbi]; [lia |].
          destruct (Hl (Z.of_nat i) b ltac:(lia) ltac:(rewrite Nat2Z.id; exact Hbi))
            as [_ H2].
          split; [lia |]. split; [rewrite Hb; lia |].
          exists (leaf_of b (Z.of_nat i)). split; [exact H2 |]. split; reflexivity.
      - intros HN1. exists (TL 1 0). unfold F0. rewrite HN1. split; [reflexivity |].
        split; [lia |].
        destruct (lookup_lt_is_Some_2 insts 0) as [b Hb0]; [lia |].
        destruct (Hl 0 b ltac:(lia) Hb0) as [H1 _]. exact H1. }
    rewrite Hcl in Hf. exact Hf. }
  destruct Hforest as (f & Hinv2 & HA & Hroot).
  destruct Hinv2 as (Hbl & _ & Hlp2 & _ & _ & Hused2 & _ & _ & Hsh & _).
  apply Forall_cons in Hsh as [[Hr Hs] _].
  pose proof (tshaped_root _ _ _ Hs) as Hrt.
  apply bind_Ok in HB as (root & Hroot' & HB).
  pose proof (sat_node_of s2 A) as Hn. rewrite Hroot' in Hn.
  destruct Hn as (_ & i0 & Hi0 & _ & Hnd0).
  assert (i0 = ttroot f) by congruence. subst i0.
  apply bind_Ok in HB as (pool & Hwr & HB). injection HB as <-.
  apply wr_Ok in Hwr as [Hw0 ->].
  cbn [TLAS.nodesUsed TLAS.set_tlasNode] in *.
  intros i Hi.
  assert (Hext : forall k, 1 <= k < TLAS.nodesUsed s2 ->
            <[Z.to_nat 0 := root]> (TLAS.tlasNode s2) !! Z.to_nat k
            = TLAS.tlasNode s2 !! Z.to_nat k).
  { intros k Hk. apply list_lookup_insert_ne. lia. }
  destruct (Z.eq_dec i 0) as [-> | Hi0'].
  - apply (tnode_ok_bounding insts _ (TLAS.nodesUsed s2) root).
    + exact Hbl.
    + lia.
    + cbn [TLAS.tlasNode TLAS.set_tlasNode]. apply list_lookup_insert_eq. lia.
    + cbn [TLAS.tlasNode TLAS.set_tlasNode].
      apply (tnode_ok_ext insts (TLAS.tlasNode s2) _ (ttroot f)); [| lia |].
      * apply Hok; [lia | exact Hnd0].
      * intros k Hk. apply Hext. lia.
  - destruct (lookup_lt_is_Some_2 (TLAS.tlasNode s2) (Z.to_nat i)) as [nd Hnd]; [lia |].
    apply (tnode_ok_bounding insts _ (TLAS.nodesUsed s2) nd).
    + exact Hbl.
    + lia.
    + cbn [TLAS.tlasNode TLAS.set_tlasNode]. rewrite Hext by lia. exact Hnd.
    + cbn [TLAS.tlasNode TLAS.set_tlasNode].
      apply (tnode_ok_ext insts (TLAS.tlasNode s2) _ i); [| lia |].
      * apply Hok; [lia | exact Hnd].
      * intros k Hk. apply Hext. lia.
Qed.

Lemma TLAS_Build_boxes_bound_witness : tbounding_at tlas2 0.
Proof.
  apply (TLAS_Build_boxes_bound insts2 raw_tnode raw_idx 1 tlas2); [| exact tlas2_eq |].
  - change (1 <= 2 <= 2 ^ 15). lia.
  - change (0 <= 0 < 4). lia.
Defined.

(** ** The traversal of a TLAS, whatever the slab test does *)

Fixpoint ttheight (t : ttree) : Z :=
  match t with
  | TL _ _ => 0
  | TN _ l r => 1 + Z.max (ttheight l) (ttheight r)
  end.

Lemma ttheight_leaves t : 0 <= ttheight t <= Z.of_nat (length (tleaves t)) - 1.
Proof.
  induction t as [i j | i l IHl r IHr]; simpl; [lia |].
  rewrite length_app. lia.
Qed.

Lemma Intersect_walks_ready fuelB b inst ray h :
  blas_ready fuelB b ->
  (65 < Mesh.triCount (BVH.mesh b) /\
   BVH.Intersect fuelB b (set_hit ray h) inst = Fault (OutOfBounds StackArr)) \/
  exists h', BVH.Intersect fuelB b (set_hit ray h) inst = Ok (set_hit ray h') /\
             sound (BVH.mesh b) inst ray (all_tris b) h h'.
Proof.
  intros (m & rawNode & rawIdx & rawUsed & fuel & HB & HT & Hfuel).
  destruct (Build_Ok_built _ _ _ _ _ _ HB) as (_ & _ & Htri & _).
  cbn [BVH.mesh BVH.alloc] in Htri.
  assert (HTb : Mesh.triCount (BVH.mesh b) = Mesh.triCount m).
  { unfold Mesh.triCount. rewrite Htri, length_map. reflexivity. }
  rewrite HTb. exact (Intersect_walks _ _ _ _ _ _ inst ray h fuelB HB HT Hfuel).
Qed.

Section TWalk.
  Variable s : TLAS.t.
  Variable fuelB : nat.
  Variable ray : Ray.
  Hypothesis Hinst : forall j b, 0 <= j -> TLAS.blas s !! Z.to_nat j = Some b ->
    blas_ready fuelB (bvh b).

(** One of the instances among [js] has a mesh of more than 65 triangles. *)
Definition big_inst (js : list Z) : Prop :=
  exists j b, j ∈ js /\ 0 <= j /\ TLAS.blas s !! Z.to_nat j = Some b /\
              65 < Mesh.triCount (BVH.mesh (bvh b)).

Definition walks_t (i : Z) (js : list Z) (bound hgt : Z) : Prop :=
  forall stack h,
  exists c : nat, (1 <= c)%nat /\ Z.of_nat c <= bound /\
    (((64 < Z.of_nat (length stack) + hgt \/ big_inst js) /\
      forall fuel, TLAS.traverse (c + fuel) fuelB s i stack (set_hit ray h)
                   = Fault (OutOfBounds StackArr)) \/
     exists h', sound_s (TLAS.blas s) ray js h h' /\
       forall fuel, TLAS.traverse (c + fuel) fuelB s i stack (set_hit ray h)
                    = tresume fuel fuelB s stack (set_hit ray h')).

Lemma big_inst_weaken js js' : js ⊆ js' -> big_inst js -> big_inst js'.
Proof. intros Hs (j & b & Hj & H). exists j, b. split; [apply Hs; exact Hj | exact H]. Qed.

Lemma walk_instance j b h :
  0 <= j -> TLAS.blas s !! Z.to_nat j = Some b ->
  (big_inst [j] /\
   BVHInstance_Intersect fuelB b (set_hit ray h) = Fault (OutOfBounds StackArr)) \/
  exists h', BVHInstance_Intersect fuelB b (set_hit ray h) = Ok (set_hit ray h') /\
             sound_s (TLAS.blas s) ray [j] h h'.
Proof.
  intros Hj Hb. unfold BVHInstance_Intersect.
  change (local_ray b (set_hit ray h)) with (set_hit (local_ray b ray) h).
  destruct (Intersect_walks_ready fuelB (bvh b) (idx b) (local_ray b ray) h (Hinst j b Hj Hb))
    as [[Hbig ->] | (h' & -> & S')].
  - left. split; [| reflexivity]. exists j, b.
    split; [apply list_elem_of_singleton; reflexivity |]. auto.
  - right. exists h'. split; [reflexivity |].
    right. exists j, b. split; [apply list_elem_of_singleton; reflexivity |]. auto.
Qed.

Lemma walks_t_two ix kx bx hx iy ky by' hy stack h :
  walks_t ix kx bx hx -> walks_t iy ky by' hy -> 0 <= hx -> 0 <= hy ->
  exists c : nat, (1 <= c)%nat /\ Z.of_nat c <= bx + by' /\
    (((64 < Z.of_nat (length stack) + (1 + Z.max hx hy) \/ big_inst (kx ++ ky)) /\
      forall fuel,
        (if 64 <=? Z.of_nat (length stack) then Fault (OutOfBounds StackArr)
         else TLAS.traverse (c + fuel) fuelB s ix (iy :: stack) (set_hit ray h))
        = Fault (OutOfBounds StackArr)) \/
     exists h', sound_s (TLAS.blas s) ray (kx ++ ky) h h' /\
       forall fuel,
         (if 64 <=? Z.of_nat (length stack) then Fault (OutOfBounds StackArr)
          else TLAS.traverse (c + fuel) fuelB s ix (iy :: stack) (set_hit ray h))
         = tresume fuel fuelB s stack (set_hit ray h')).
Proof.
  intros Vx Vy Hhx Hhy.
  assert (Hkx : kx ⊆ kx ++ ky) by (intros z Hz; apply elem_of_app; auto).
  assert (Hky : ky ⊆ kx ++ ky) by (intros z Hz; apply elem_of_app; auto).
  destruct (Vx (iy :: stack) h) as (cx & Hcx1 & Hcx & Hx).
  assert (Hby : 1 <= by') by (destruct (Vy stack h) as (cy & ? & ? & _); lia).
  destruct (Z.leb_spec 64 (Z.of_nat (length stack))) as [Hfull | Hroom].
  { exists cx. split; [exact Hcx1 |]. split; [lia |]. left.
    split; [left; lia | reflexivity]. }
  cbn [length] in Hx.
  destruct Hx as [[Hover Hx] | (h1 & S1 & Hx)].
  { exists cx. split; [exact Hcx1 |]. split; [lia |]. left. split; [| exact Hx].
    destruct Hover as [Hover | Hover]; [left; lia | right].
    exact (big_inst_weaken _ _ Hkx Hover). }
  destruct (Vy stack h1) as (cy & Hcy1 & Hcy & Hy).
  exists (cx + cy)%nat. split; [lia |]. split; [lia |].
  assert (Hstep : forall fuel,
            TLAS.traverse (cx + cy + fuel) fuelB s ix (iy :: stack) (set_hit ray h)
            = TLAS.traverse (cy + fuel) fuelB s iy stack (set_hit ray h1)).
  { intros fuel. rewrite <- Nat.add_assoc. rewrite Hx. reflexivity. }
  destruct Hy as [[Hover Hy] | (h2 & S2 & Hy)].
  - left. split; [| intros fuel; rewrite Hstep; apply Hy].
    destruct Hover as [Hover | Hover]; [left; lia | right].
    exact (big_inst_weaken _ _ Hky Hover).
  - right. exists h2. split.
    + eapply sound_s_trans.
      * eapply sound_s_weaken; [exact Hkx | exact S1].
      * eapply sound_s_weaken; [exact Hky | exact S2].
    + intros fuel. rewrite Hstep. apply Hy.
Qed.

Lemma walks_t_subtree t' :
  tshaped s (TLAS.nodesUsed s) t' ->
  walks_t (ttroot t') (tleaves t') (Z.of_nat (tsize t')) (ttheight t').
Proof.
  induction t' as [i j | i l IHl r IHr]; intros Hsh.
  - cbn [tshaped ttroot tleaves tsize ttheight] in *.
    destruct Hsh as (Hi & Hj & nd & Hnd & Hlr & HB).
    destruct (lookup_lt_is_Some_2 (TLAS.blas s) (Z.to_nat j)) as [b Hb]; [lia |].
    intros stack h. exists 1%nat. split; [lia |]. split; [lia |].
    assert (Estep : forall fuel,
              TLAS.traverse (S fuel) fuelB s i stack (set_hit ray h)
              = r ← BVHInstance_Intersect fuelB b (set_hit ray h);
                tresume fuel fuelB s stack r).
    { intros fuel. apply (ttraverse_leaf fuel fuelB s i stack _ nd b); try assumption;
        try lia. rewrite HB. exact Hb. }
    destruct (walk_instance j b h ltac:(lia) Hb) as [[Hbig HF] | (h' & HE & S')].
    + left. split; [right; exact Hbig |]. intros fuel. change (1 + fuel)%nat with (S fuel).
      rewrite Estep, HF. reflexivity.
    + right. exists h'. split; [exact S' |]. intros fuel.
      change (1 + fuel)%nat with (S fuel). rewrite Estep, HE. reflexivity.
  - cbn [tshaped ttroot tleaves tsize ttheight] in *.
    destruct Hsh as (Hi & (nd & Hnd & Hlr) & Hl & Hr & Hsl & Hsr).
    assert (Vl := IHl Hsl). assert (Vr := IHr Hsr). clear IHl IHr.
    destruct (tshaped_node _ _ _ Hsl) as (nl & Hnl).
    destruct (tshaped_node _ _ _ Hsr) as (nr & Hnr).
    pose proof (ttheight_leaves l) as Hhl. pose proof (ttheight_leaves r) as Hhr.
    set (KL := tleaves l) in *. set (KR := tleaves r) in *.
    intros stack h.
    remember (IntersectAABB (set_hit ray h) (TLASNode.aabbMin nl) (TLASNode.aabbMax nl))
      as A eqn:EA.
    remember (IntersectAABB (set_hit ray h) (TLASNode.aabbMin nr) (TLASNode.aabbMax nr))
      as B eqn:EB.
    assert (Enode := fun fuel =>
      ttraverse_node fuel fuelB s i stack (set_hit ray h) nd nl nr A B (ttroot l) (ttroot r)
        (proj1 Hi) Hnd Hlr Hl Hr Hnl Hnr EA EB).
    set (bound := Z.of_nat (S (tsize l + tsize r))).
    set (hgt := 1 + Z.max (ttheight l) (ttheight r)).
    assert (Hmiss : (forall fuel, TLAS.traverse (S fuel) fuelB s i stack (set_hit ray h)
                                  = tresume fuel fuelB s stack (set_hit ray h)) ->
              exists c : nat, (1 <= c)%nat /\ Z.of_nat c <= bound /\
                (((64 < Z.of_nat (length stack) + hgt \/ big_inst (KL ++ KR)) /\
                  forall fuel, TLAS.traverse (c + fuel) fuelB s i stack (set_hit ray h)
                               = Fault (OutOfBounds StackArr)) \/
                 exists h', sound_s (TLAS.blas s) ray (KL ++ KR) h h' /\
                   forall fuel, TLAS.traverse (c + fuel) fuelB s i stack (set_hit ray h)
                                = tresume fuel fuelB s stack (set_hit ray h'))).
    { intros E. exists 1%nat. split; [lia |]. split; [unfold bound; lia |]. right. exists h.
      split; [apply sound_s_refl | exact E]. }
    assert (Hone : forall ix kx bx hx,
              walks_t ix kx bx hx -> 1 + bx <= bound -> hx < hgt -> kx ⊆ KL ++ KR ->
              (forall fuel, TLAS.traverse (S fuel) fuelB s i stack (set_hit ray h)
                            = TLAS.traverse fuel fuelB s ix stack (set_hit ray h)) ->
              exists c : nat, (1 <= c)%nat /\ Z.of_nat c <= bound /\
                (((64 < Z.of_nat (length stack) + hgt \/ big_inst (KL ++ KR)) /\
                  forall fuel, TLAS.traverse (c + fuel) fuelB s i stack (set_hit ray h)
                               = Fault (OutOfBounds StackArr)) \/
                 exists h', sound_s (TLAS.blas s) ray (KL ++ KR) h h' /\
                   forall fuel, TLAS.traverse (c + fuel) fuelB s i stack (set_hit ray h)
                                = tresume fuel fuelB s stack (set_hit ray h'))).
    { intros ix kx bx hx Vx Hbx Hhx Hkx E.
      destruct (Vx stack h) as (c & Hc1 & Hc & [[Hover HF] | (h' & S' & HE)]).
      - exists (S c). split; [lia |]. split; [lia |]. left. split.
        + destruct Hover as [Hover | Hover]; [left; lia | right].
          exact (big_inst_weaken _ _ Hkx Hover).
        + intros fuel. change (S c + fuel)%nat with (S (c + fuel)). rewrite E. apply HF.
      - exists (S c). split; [lia |]. split; [lia |]. right. exists h'.
        split; [eapply sound_s_weaken; [exact Hkx | exact S'] |].
        intros fuel. change (S c + fuel)%nat with (S (c + fuel)). rewrite E. apply HE. }
    assert (Htwo : forall ix kx bx hx iy ky by' hy,
              walks_t ix kx bx hx -> walks_t iy ky by' hy -> 0 <= hx -> 0 <= hy ->
              1 + bx + by' <= bound -> 1 + Z.max hx hy <= hgt -> kx ++ ky ⊆ KL ++ KR ->
              (forall fuel, TLAS.traverse (S fuel) fuelB s i stack (set_hit ray h)
                 = if 64 <=? Z.of_nat (length stack) then Fault (OutOfBounds StackArr)
                   else TLAS.traverse fuel fuelB s ix (iy :: stack) (set_hit ray h)) ->
              exists c : nat, (1 <= c)%nat /\ Z.of_nat c <= bound /\
                (((64 < Z.of_nat (length stack) + hgt \/ big_inst (KL ++ KR)) /\
                  forall fuel, TLAS.traverse (c + fuel) fuelB s i stack (set_hit ray h)
                               = Fault (OutOfBounds StackArr)) \/
                 exists h', sound_s (TLAS.blas s) ray (KL ++ KR) h h' /\
                   forall fuel, TLAS.traverse (c + fuel) fuelB s i stack (set_hit ray h)
                                = tresume fuel fuelB s stack (set_hit ray h'))).
    { intros ix kx bx hx iy ky by' hy Vx Vy Hhx Hhy Hb Hh Hk E.
      destruct (walks_t_two ix kx bx hx iy ky by' hy stack h Vx Vy Hhx Hhy)
        as (c & Hc1 & Hc & [[Hover HF] | (h' & S' & HE)]).
      - exists (S c). split; [lia |]. split; [lia |]. left. split.
        + destruct Hover as [Hover | Hover]; [left; lia | right].
          exact (big_inst_weaken _ _ Hk Hover).
        + intros fuel. change (S c + fuel)%nat with (S (c + fuel)). rewrite E. apply HF.
      - exists (S c). split; [lia |]. split; [lia |]. right. exists h'.
        split; [eapply sound_s_weaken; [exact Hk | exact S'] |].
        intros fuel. change (S c + fuel)%nat with (S (c + fuel)). rewrite E. apply HE. }
    fold bound hgt.
    destruct (B <? A)%f32.
    + destruct (B =? F32.f1e30)%f32; [apply Hmiss; exact Enode |].
      destruct (A =? F32.f1e30)%f32; cbn [negb] in Enode.
      * apply (Hone (ttroot r) KR _ _ Vr); [unfold bound; lia | unfold hgt; lia | | exact Enode].
        intros z Hz. apply elem_of_app. auto.
      * apply (Htwo (ttroot r) KR _ _ (ttroot l) KL _ _ Vr Vl);
          [lia | lia | unfold bound; lia | unfold hgt; lia | | exact Enode].
        intros z Hz. apply elem_of_app in Hz. apply elem_of_app. tauto.
    + destruct (A =? F32.f1e30)%f32; [apply Hmiss; exact Enode |].
      destruct (B =? F32.f1e30)%f32; cbn [negb] in Enode.
      * apply (Hone (ttroot l) KL _ _ Vl); [unfold bound; lia | unfold hgt; lia | | exact Enode].
        intros z Hz. apply elem_of_app. auto.
      * apply (Htwo (ttroot l) KL _ _ (ttroot r) KR _ _ Vl Vr);
          [lia | lia | unfold bound; lia | unfold hgt; lia | | exact Enode].
        intros z Hz. exact Hz.
Qed.
End TWalk.

Lemma TLAS_Intersect_walks insts s ray h fuel fuelB :
  tlas_wf insts s ->
  (forall j b, 0 <= j -> insts !! Z.to_nat j = Some b -> blas_ready fuelB (bvh b)) ->
  TLAS.nodesUsed s <= Z.of_nat fuel ->
  ((65 < Z.of_nat (length insts) \/
    exists j b, 0 <= j /\ insts !! Z.to_nat j = Some b /\
                65 < Mesh.triCount (BVH.mesh (bvh b))) /\
   TLAS.traverse fuel fuelB s 0 [] (set_hit ray h) = Fault (OutOfBounds StackArr)) \/
  exists h', TLAS.traverse fuel fuelB s 0 [] (set_hit ray h) = Ok (set_hit ray h') /\
             sound_s insts ray (seqZ 0 (Z.of_nat (length insts))) h h'.
Proof.
  intros (t0 & Hr0 & Hsh & Hleaves & Hbl & Hused) Hinst Hfuel.
  rewrite <- Hbl in Hinst.
  pose proof (walks_t_subtree s fuelB ray Hinst t0 Hsh) as V.
  rewrite Hr0 in V. destruct (V [] h) as (c & Hc1 & Hc & HV).
  pose proof (tsize_leaves t0) as Hsz.
  pose proof (ttheight_leaves t0) as Hh.
  apply Permutation_length in Hleaves as Hlen. rewrite length_seqZ in Hlen.
  replace fuel with (c + (fuel - c))%nat by lia.
  destruct HV as [[Hover HF] | (h' & S' & HE)].
  - left. split; [| apply HF]. cbn [length] in Hover.
    destruct Hover as [Hover | (j & b & _ & Hj & Hb & Hbig)]; [left; lia | right].
    exists j, b. rewrite <- Hbl. auto.
  - right. exists h'. split; [rewrite HE; reflexivity |]. rewrite Hbl in S'.
    eapply sound_s_weaken; [| exact S']. intros z Hz. rewrite <- Hleaves. exact Hz.
Qed.

(** X14: what [TLAS::Intersect] returns on a built scene, whatever the slab
    test says of the boxes.  On a TLAS built over between 1 and [2^15]
    instances of built BLASes, with enough turns of the two loops, it
    returns or overflows a stack of 64 entries; the ray it returns has the
    origin and the direction it was given, and its hit is the one it was
    given or that of [IntersectTri] on a triangle of an instance that the
    ray, taken to the space of the instance, hits closer than that, with
    the [instPrim] of this triangle; and it is never closer than the hit of
    the scan over all the triangles of all the instances. *)
Theorem TLAS_Intersect_reports_a_triangle
    insts rawTNode rawNodeIdx fuelC s rayT fuelT fuelB :
  TLAS.Build fuelC (TLAS.alloc insts rawTNode rawNodeIdx) = Ok s ->
  1 <= Z.of_nat (length insts) <= 2 ^ 15 ->
  (forall j bj, 0 <= j -> insts !! Z.to_nat j = Some bj -> blas_ready fuelB (bvh bj)) ->
  TLAS.nodesUsed s <= Z.of_nat fuelT ->
  satisfies (TLAS.Intersect fuelT fuelB s rayT)
    (fun f => f = OutOfBounds StackArr)
    (fun r =>
       rayO r = rayO rayT /\ rayD r = rayD rayT /\
       (t (hit r) <? t (hit (scene_brute_force insts rayT)))%f32 = false /\
       (hit r = hit rayT \/
        exists j bj k tr,
          0 <= j /\ insts !! Z.to_nat j = Some bj /\
          0 <= k < Mesh.triCount (BVH.mesh (bvh bj)) /\
          Mesh.tri (BVH.mesh (bvh bj)) !! Z.to_nat k = Some tr /\
          accepts (local_ray bj rayT) tr = true /\
          (t (hit r) <? t (hit rayT))%f32 = true /\
          hit r = hit (IntersectTri (local_ray bj rayT) tr (inst_prim (idx bj) k)))).
Proof.
  intros HBT HN Hinst HfuelT.
  pose proof (sat_inv _ _ _ _ (Build_tlas_wf insts rawTNode rawNodeIdx fuelC HN) HBT) as Hwf.
  unfold TLAS.Intersect.
  change (TLAS.with_rD rayT) with (set_hit (TLAS.with_rD rayT) (hit rayT)) at 1.
  destruct (TLAS_Intersect_walks insts s (TLAS.with_rD rayT) (hit rayT) fuelT fuelB
              Hwf Hinst HfuelT) as [[_ ->] | (h' & -> & S')]; [reflexivity |].
  cbn [satisfies rayO rayD hit set_hit TLAS.with_rD].
  split; [reflexivity |]. split; [reflexivity |].
  destruct (scene_brute_force_spec insts rayT (hit rayT)) as (hb & Eb & Sb & Cb).
  rewrite <- ray_eta in Eb. rewrite Eb. cbn [hit set_hit]. split.
  - destruct S' as [-> | (j & bj & Hj & Hj0 & Hbj & [-> | (k & tr & Hk & Htr & Ha & Hlt & ->)])].
    + destruct Sb as [-> | (j & bj & _ & _ & _ & [-> | (k & tr & _ & _ & _ & Hlt & ->)])];
        [apply ltb_irrefl | apply ltb_irrefl |].
      cbn [t hit_of]. apply ltb_asym. exact Hlt.
    + destruct Sb as [-> | (j' & bj' & _ & _ & _ & [-> | (k & tr & _ & _ & _ & Hlt & ->)])];
        [apply ltb_irrefl | apply ltb_irrefl |].
      cbn [t hit_of]. apply ltb_asym. exact Hlt.
    + cbn [t hit_of]. exact (Cb j bj Hj Hj0 Hbj k tr Hk Htr Ha).
  - destruct S' as [-> | (j & bj & Hj & Hj0 & Hbj & [-> | (k & tr & Hk & Htr & Ha & Hlt & ->)])];
      [left; reflexivity | left; reflexivity |].
    right. exists j, bj, k, tr. split; [exact Hj0 |]. split; [exact Hbj |]. split.
    { unfold all_tris in Hk. apply elem_of_seqZ in Hk. lia. }
    split; [exact Htr |]. split; [exact Ha |]. split; [exact Hlt |].
    rewrite IntersectTri_eq.
    change (accepts (local_ray bj rayT) tr) with (accepts (local_ray bj (TLAS.with_rD rayT)) tr).
    rewrite Ha.
    change (tri_t (local_ray bj rayT) tr) with (tri_t (local_ray bj (TLAS.with_rD rayT)) tr).
    change (t (hit (local_ray bj rayT))) with (t (hit rayT)).
    rewrite Hlt. reflexivity.
Qed.

Lemma TLAS_Intersect_reports_a_triangle_witness :
  satisfies (TLAS.Intersect 4 4 tlas2 ray_z)
    (fun f => f = OutOfBounds StackArr)
    (fun r =>
       rayO r = rayO ray_z /\ rayD r = rayD ray_z /\
       (t (hit r) <? t (hit (scene_brute_force insts2 ray_z)))%f32 = false /\
       (hit r = hit ray_z \/
        exists j bj k tr,
          0 <= j /\ insts2 !! Z.to_nat j = Some bj /\
          0 <= k < Mesh.triCount (BVH.mesh (bvh bj)) /\
          Mesh.tri (BVH.mesh (bvh bj)) !! Z.to_nat k = Some tr /\
          accepts (local_ray bj ray_z) tr = true /\
          (t (hit r) <? t (hit ray_z))%f32 = true /\
          hit r = hit (IntersectTri (local_ray bj ray_z) tr (inst_prim (idx bj) k)))).
Proof.
  refine (TLAS_Intersect_reports_a_triangle insts2 raw_tnode raw_idx 1 tlas2 ray_z 4 4
            tlas2_eq _ insts2_ready _).
  - change (1 <= 2 <= 2 ^ 15). lia.
  - change (4 <= 4). lia.
Defined.

(** X15: the two stacks of 64 entries are enough for a small scene.  On a
    TLAS built over at most 65 instances of BLASes that are each built over
    at most 65 triangles, [TLAS::Intersect] with enough turns of the two
    loops returns a ray, for every ray and every content of the boxes. *)
Theorem TLAS_Intersect_small_scene_returns
    insts rawTNode rawNodeIdx fuelC s rayT fuelT fuelB :
  TLAS.Build fuelC (TLAS.alloc insts rawTNode rawNodeIdx) = Ok s ->
  1 <= Z.of_nat (length insts) <= 65 ->
  (forall j bj, 0 <= j -> insts !! Z.to_nat j = Some bj ->
     blas_ready fuelB (bvh bj) /\ Mesh.triCount (BVH.mesh (bvh bj)) <= 65) ->
  TLAS.nodesUsed s <= Z.of_nat fuelT ->
  exists r, TLAS.Intersect fuelT fuelB s rayT = Ok r.
Proof.
  intros HBT HN Hinst HfuelT.
  pose proof (sat_inv _ _ _ _ (Build_tlas_wf insts rawTNode rawNodeIdx fuelC ltac:(lia)) HBT)
    as Hwf.
  unfold TLAS.Intersect.
  change (TLAS.with_rD rayT) with (set_hit (TLAS.with_rD rayT) (hit rayT)).
  destruct (TLAS_Intersect_walks insts s (TLAS.with_rD rayT) (hit rayT) fuelT fuelB
              Hwf (fun j b Hj Hb => proj1 (Hinst j b Hj Hb)) HfuelT)
    as [[[Hbig | (j & b & Hj & Hb & Hbig)] _] | (h' & E & _)].
  - lia.
  - pose proof (proj2 (Hinst j b Hj Hb)). lia.
  - eauto.
Qed.

Lemma insts2_small j bj :
  0 <= j -> insts2 !! Z.to_nat j = Some bj ->
  blas_ready 4 (bvh bj) /\ Mesh.triCount (BVH.mesh (bvh bj)) <= 65.
Proof.
  intros Hj Hb. split; [exact (insts2_ready j bj Hj Hb) |].
  destruct (Z.to_nat j) as [| [| n]]; cbn in Hb; try discriminate Hb;
    injection Hb as <-; vm_compute; discriminate.
Qed.

Lemma TLAS_Intersect_small_scene_returns_witness :
  exists r, TLAS.Intersect 4 4 tlas2 ray_z = Ok r.
Proof.
  refine (TLAS_Intersect_small_scene_returns insts2 raw_tnode raw_idx 1 tlas2 ray_z 4 4
            tlas2_eq _ insts2_small _).
  - change (1 <= 2 <= 65). lia.
  - change (4 <= 4). lia.
Defined.

(** ** The sort of the fast TLAS build *)

Lemma leb_refl (a : float) : good a -> (a <=? a)%f32 = true.
Proof.
  unfold F32.leb, SFleb, good. destruct a as [s | s | | s m e]; try reflexivity;
    try congruence; intros _; rewrite SFcompare_refl by congruence; reflexivity.
Qed.

(** What is not above the pivot is not above what is above the pivot. *)
Lemma leb_through a e b :
  good b -> (a <=? e)%f32 = true -> (b <=? e)%f32 = false -> (a <=? b)%f32 = true.
Proof.
  unfold F32.leb, SFleb, good.
  destruct a as [[] | [] | | [] ma ea], e as [[] | [] | | [] me ee],
           b as [[] | [] | | [] mb eb]; simpl;
    intros Hb; try congruence; try discriminate; auto; intros H1 H2; cmp_cases.
Qed.

(** [a'] holds in [lo .. hi] only what [a] holds there. *)
Definition range_closed (a a' : list SortItem) (lo hi : Z) : Prop :=
  forall P : SortItem -> Prop,
    (forall k x, lo <= k <= hi -> a !! Z.to_nat k = Some x -> P x) ->
    forall k x, lo <= k <= hi -> a' !! Z.to_nat k = Some x -> P x.

(** [a'] is [a] outside [lo .. hi]. *)
Definition same_outside (a a' : list SortItem) (lo hi : Z) : Prop :=
  forall k, 0 <= k -> k < lo \/ hi < k -> a' !! Z.to_nat k = a !! Z.to_nat k.

Lemma range_closed_refl a lo hi : range_closed a a lo hi.
Proof. intros P H. exact H. Qed.

Lemma range_closed_trans a b c lo hi :
  range_closed a b lo hi -> range_closed b c lo hi -> range_closed a c lo hi.
Proof. intros H1 H2 P H. apply H2. apply H1. exact H. Qed.

(** A change within a part of the range keeps the range closed. *)
Lemma range_closed_widen a a' lo hi lo' hi' :
  range_closed a a' lo' hi' -> same_outside a a' lo' hi' ->
  lo <= lo' -> hi' <= hi -> 0 <= lo ->
  range_closed a a' lo hi.
Proof.
  intros Hc Ho Hlo Hhi H0 P H k x Hk Hx.
  destruct (Z_lt_dec k lo') as [Hk1 | Hk1];
    [rewrite Ho in Hx by lia; apply (H k); [lia | exact Hx] |].
  destruct (Z_lt_dec hi' k) as [Hk2 | Hk2];
    [rewrite Ho in Hx by lia; apply (H k); [lia | exact Hx] |].
  apply (Hc P) with (k := k); [| lia | exact Hx].
  intros k' x' Hk' Hx'. apply (H k'); [lia | exact Hx'].
Qed.

Lemma same_outside_trans a b c lo hi lo1 hi1 lo2 hi2 :
  same_outside a b lo1 hi1 -> same_outside b c lo2 hi2 ->
  lo <= lo1 -> hi1 <= hi -> lo <= lo2 -> hi2 <= hi ->
  same_outside a c lo hi.
Proof.
  intros H1 H2 ? ? ? ? k Hk Hout. rewrite H2 by lia. apply H1; lia.
Qed.

(** [Swap] of two elements in range. *)
Lemma Swap_spec (a : list SortItem) i j ai aj :
  0 <= i -> 0 <= j ->
  a !! Z.to_nat i = Some ai -> a !! Z.to_nat j = Some aj ->
  exists a', Swap a i j = Ok a' /\
    length a' = length a /\ a' ≡ₚ a /\
    a' !! Z.to_nat i = Some aj /\ a' !! Z.to_nat j = Some ai /\
    forall k, 0 <= k -> k <> i -> k <> j -> a' !! Z.to_nat k = a !! Z.to_nat k.
Proof.
  intros Hi Hj Hai Haj. unfold Swap.
  apply lookup_lt_Some in Hai as Hli. apply lookup_lt_Some in Haj as Hlj.
  rewrite (proj2 (rd_Ok ItemArr a i ai)) by auto. cbn [mbind result_bind].
  rewrite (proj2 (rd_Ok ItemArr a j aj)) by auto. cbn [mbind result_bind].
  rewrite wr_in_range by lia. cbn [mbind result_bind].
  rewrite wr_in_range by (rewrite length_insert; lia).
  eexists. split; [reflexivity |]. rewrite !length_insert. split; [reflexivity |].
  destruct (Z.eq_dec i j) as [-> | Hne].
  - assert (aj = ai) by congruence. subst aj.
    rewrite list_insert_insert_eq, list_insert_id by exact Hai.
    split; [reflexivity |]. split; [exact Hai |]. split; [exact Hai |]. reflexivity.
  - split.
    + destruct (insert2_Permutation a (Z.to_nat i) (Z.to_nat j) aj ai ai aj
                  ltac:(lia) Hai Haj) as (rest & H1 & H2).
      rewrite H2, H1. apply perm_swap.
    + split; [rewrite list_lookup_insert_ne by lia;
              apply list_lookup_insert_eq; lia |].
      split; [apply list_lookup_insert_eq; rewrite length_insert; lia |].
      intros k Hk Hki Hkj. rewrite !list_lookup_insert_ne by lia. reflexivity.
Qed.

(** [Pivot]: the first element goes to its place [p], what is not above it
    before [p] and what is above it behind. *)
Lemma Pivot_spec (a : list SortItem) first last :
  0 <= first <= last -> last < Z.of_nat (length a) ->
  exists a' p e, Pivot a first last = Ok (a', p) /\
    first <= p <= last /\ length a' = length a /\ a' ≡ₚ a /\
    same_outside a a' first last /\ range_closed a a' first last /\
    a' !! Z.to_nat p = Some e /\
    (forall k x, first <= k < p -> a' !! Z.to_nat k = Some x ->
                 (pos x <=? pos e)%f32 = true) /\
    (forall k x, p < k <= last -> a' !! Z.to_nat k = Some x ->
                 (pos x <=? pos e)%f32 = false).
Proof.
  intros Hf Hl. unfold Pivot.
  destruct (rd_in_range ItemArr a first ltac:(lia)) as (e & -> & He).
  cbn [mbind result_bind].
  set (J := fun (i : Z) (st : list SortItem * Z) =>
    first <= snd st < i /\ length (fst st) = length a /\ fst st ≡ₚ a /\
    same_outside a (fst st) first last /\ range_closed a (fst st) first last /\
    fst st !! Z.to_nat first = Some e /\
    (forall k x, first < k <= snd st -> fst st !! Z.to_nat k = Some x ->
                 (pos x <=? pos e)%f32 = true) /\
    (forall k x, snd st < k < i -> fst st !! Z.to_nat k = Some x ->
                 (pos x <=? pos e)%f32 = false)).
  assert (HJ0 : J (first + 1) (a, first)).
  { unfold J. cbn [fst snd]. split; [lia |]. split; [reflexivity |].
    split; [reflexivity |]. split; [intros k _ _; reflexivity |].
    split; [apply range_closed_refl |]. split; [exact He |]. split; intros; lia. }
  match goal with |- context [for_loop ?n ?i ?body ?s] =>
    assert (Hloop : satisfies (for_loop n i body s) (fun _ => False)
                      (J (i + Z.of_nat n)));
      [apply (sat_for_loop J (fun _ => False) n i body s HJ0) |
       destruct (sat_never _ _ Hloop) as ([a1 p] & -> & HJ)]
  end.
  2: {
    cbn [mbind result_bind].
    destruct HJ as (Hp & Hlen & Hperm & Hout & Hcl & Hfirst & Hle & Hgt). cbn [fst snd] in *.
    replace (first + 1 + Z.of_nat (Z.to_nat (last - first))) with (last + 1) in * by lia.
    destruct (lookup_lt_is_Some_2 a1 (Z.to_nat p)) as [ap Hap]; [lia |].
    destruct (Swap_spec a1 p first ap e ltac:(lia) ltac:(lia) Hap Hfirst)
      as (a2 & -> & Hlen2 & Hperm2 & H2p & H2f & H2o).
    cbn [mbind result_bind]. exists a2, p, e. split; [reflexivity |].
    split; [lia |]. split; [lia |]. split; [rewrite Hperm2; exact Hperm |].
    split; [| split; [| split; [exact H2p | split]]].
    - intros k Hk Hko. rewrite H2o by lia. apply Hout; assumption.
    - intros P HP k x Hk Hx.
      assert (HP1 := Hcl P HP).
      destruct (Z.eq_dec k p) as [-> | Hkp];
        [apply (HP1 first); [lia |]; congruence |].
      destruct (Z.eq_dec k first) as [-> | Hkf];
        [apply (HP1 p); [lia |]; congruence |].
      rewrite H2o in Hx by lia. apply (HP1 k); [lia | exact Hx].
    - intros k x Hk Hx. destruct (Z.eq_dec k first) as [-> | Hkf].
      + assert (x = ap) by congruence. subst x. apply (Hle p); [lia | exact Hap].
      + rewrite H2o in Hx by lia. apply (Hle k); [lia | exact Hx].
    - intros k x Hk Hx. rewrite H2o in Hx by lia. apply (Hgt k); [lia | exact Hx]. }
  intros i [a1 p] Hi (Hp & Hlen & Hperm & Hout & Hcl & Hfirst & Hle & Hgt).
  cbn [fst snd] in *.
  destruct (rd_in_range ItemArr a1 i ltac:(lia)) as (ai & -> & Hai).
  cbn [mbind result_bind].
  destruct (pos ai <=? pos e)%f32 eqn:Ecmp.
  - destruct (lookup_lt_is_Some_2 a1 (Z.to_nat (p + 1))) as [aq Haq]; [lia |].
    destruct (Swap_spec a1 i (p + 1) ai aq ltac:(lia) ltac:(lia) Hai Haq)
      as (a2 & -> & Hlen2 & Hperm2 & H2i & H2q & H2o).
    cbn [mbind result_bind]. unfold satisfies, J. cbn [fst snd].
    split; [lia |]. split; [lia |]. split; [rewrite Hperm2; exact Hperm |].
    split; [| split; [| split; [| split]]].
    + intros k Hk Hko. rewrite H2o by lia. apply Hout; assumption.
    + intros P HP k x Hk Hx.
      assert (HP1 := Hcl P HP).
      destruct (Z.eq_dec k i) as [-> | Hki];
        [apply (HP1 (p + 1)); [lia |]; congruence |].
      destruct (Z.eq_dec k (p + 1)) as [-> | Hkq];
        [apply (HP1 i); [lia |]; congruence |].
      rewrite H2o in Hx by lia. apply (HP1 k); [lia | exact Hx].
    + rewrite H2o by lia. exact Hfirst.
    + intros k x Hk Hx. destruct (Z.eq_dec k (p + 1)) as [-> | Hkq].
      * assert (x = ai) by congruence. subst x. exact Ecmp.
      * rewrite H2o in Hx by lia. apply (Hle k); [lia | exact Hx].
    + intros k x Hk Hx. destruct (Z.eq_dec k i) as [-> | Hki].
      * assert (x = aq) by congruence. subst x. apply (Hgt (p + 1)); [lia | exact Haq].
      * rewrite H2o in Hx by lia. apply (Hgt k); [lia | exact Hx].
  - unfold satisfies, J. cbn [fst snd].
    split; [lia |]. do 5 (split; [assumption |]). split; [exact Hle |].
    intros k x Hk Hx. destruct (Z.eq_dec k i) as [-> | Hki].
    + assert (x = ai) by congruence. subst x. exact Ecmp.
    + apply (Hgt k); [lia | exact Hx].
Qed.

Definition sorted_range (a : list SortItem) (lo hi : Z) : Prop :=
  forall i j x y, lo <= i -> i <= j -> j <= hi ->
    a !! Z.to_nat i = Some x -> a !! Z.to_nat j = Some y -> (pos x <=? pos y)%f32 = true.

Definition keys_good (a : list SortItem) (lo hi : Z) : Prop :=
  forall k x, lo <= k <= hi -> a !! Z.to_nat k = Some x -> good (pos x).

Lemma QuickSort_spec fuel : forall (a : list SortItem) first last,
  0 <= first -> last < Z.of_nat (length a) -> last - first <= Z.of_nat fuel ->
  exists a', QuickSort fuel a first last = Ok a' /\
    length a' = length a /\ a' ≡ₚ a /\
    same_outside a a' first last /\ range_closed a a' first last /\
    (keys_good a first last -> sorted_range a' first last).
Proof.
  induction fuel as [| fuel IH]; intros a first last Hf Hl Hfuel.
  - assert (Hle : last <= first) by lia.
    cbn [QuickSort]. replace (last <=? first) with true by (symmetry; apply Z.leb_le; lia).
    exists a. split; [reflexivity |]. split; [reflexivity |]. split; [reflexivity |].
    split; [intros k _ _; reflexivity |]. split; [apply range_closed_refl |].
    intros Hg i j x y Hi Hij Hj Hx Hy. assert (i = j) by lia. subst j.
    assert (y = x) by congruence. subst y. apply leb_refl. apply (Hg i); [lia | exact Hx].
  - cbn [QuickSort]. destruct (Z.leb_spec last first) as [Hle | Hlt].
    + exists a. split; [reflexivity |]. split; [reflexivity |]. split; [reflexivity |].
      split; [intros k _ _; reflexivity |]. split; [apply range_closed_refl |].
      intros Hg i j x y Hi Hij Hj Hx Hy. assert (i = j) by lia. subst j.
      assert (y = x) by congruence. subst y. apply leb_refl. apply (Hg i); [lia | exact Hx].
    + destruct (Pivot_spec a first last ltac:(lia) Hl)
        as (a1 & p & e & -> & Hp & Hlen1 & Hperm1 & Hout1 & Hcl1 & He & Hlo & Hhi).
      cbn [mbind result_bind].
      destruct (IH a1 first (p - 1) Hf ltac:(lia) ltac:(lia))
        as (a2 & -> & Hlen2 & Hperm2 & Hout2 & Hcl2 & Hs2).
      cbn [mbind result_bind].
      destruct (IH a2 (p + 1) last ltac:(lia) ltac:(lia) ltac:(lia))
        as (a3 & -> & Hlen3 & Hperm3 & Hout3 & Hcl3 & Hs3).
      exists a3. split; [reflexivity |]. split; [lia |].
      split; [rewrite Hperm3, Hperm2; exact Hperm1 |].
      assert (Hw2 : range_closed a1 a2 first last)
        by (apply (range_closed_widen a1 a2 first last first (p - 1)); auto; lia).
      assert (Hw3 : range_closed a2 a3 first last)
        by (apply (range_closed_widen a2 a3 first last (p + 1) last); auto; lia).
      split; [| split].
      * apply (same_outside_trans a a2 a3 first last first last (p + 1) last);
          try lia; [| exact Hout3].
        apply (same_outside_trans a a1 a2 first last first last first (p - 1));
          try lia; assumption.
      * exact (range_closed_trans _ _ _ _ _ Hcl1
                 (range_closed_trans _ _ _ _ _ Hw2 Hw3)).
      * intros Hg.
        assert (Hg1 : keys_good a1 first last) by (exact (Hcl1 _ Hg)).
        assert (Hg2 : keys_good a2 first last) by (exact (Hw2 _ Hg1)).
        assert (Hge : good (pos e)) by (apply (Hg1 p); [lia | exact He]).
        assert (S2 : sorted_range a2 first (p - 1)).
        { apply Hs2. intros k x Hk Hx. apply (Hg1 k); [lia | exact Hx]. }
        assert (S3 : sorted_range a3 (p + 1) last).
        { apply Hs3. intros k x Hk Hx. apply (Hg2 k); [lia | exact Hx]. }
        (* the three parts of the sorted range *)
        assert (Hp3 : a3 !! Z.to_nat p = Some e).
        { rewrite Hout3 by lia. rewrite Hout2 by lia. exact He. }
        assert (Hlo3 : forall k x, first <= k < p -> a3 !! Z.to_nat k = Some x ->
                         (pos x <=? pos e)%f32 = true).
        { intros k x Hk Hx. rewrite Hout3 in Hx by lia.
          apply (Hcl2 (fun x => (pos x <=? pos e)%f32 = true)) with (k := k);
            [| lia | exact Hx].
          intros k' x' Hk' Hx'. apply (Hlo k'); [lia | exact Hx']. }
        assert (Hhi3 : forall k x, p < k <= last -> a3 !! Z.to_nat k = Some x ->
                         (pos x <=? pos e)%f32 = false /\ good (pos x)).
        { intros k x Hk Hx.
          apply (Hcl3 (fun x => (pos x <=? pos e)%f32 = false /\ good (pos x)))
            with (k := k); [| lia | exact Hx].
          intros k' x' Hk' Hx'. split.
          - rewrite Hout2 in Hx' by lia. apply (Hhi k'); [lia | exact Hx'].
          - apply (Hg2 k'); [lia | exact Hx']. }
        intros i j x y Hi Hij Hj Hx Hy.
        destruct (Z_lt_dec j p) as [Hjp | Hjp].
        { apply (S2 i j); try lia; rewrite <- Hout3 by lia; assumption. }
        destruct (Z_lt_dec p i) as [Hpi | Hpi].
        { apply (S3 i j); try lia; assumption. }
        assert (Hxe : (pos x <=? pos e)%f32 = true).
        { destruct (Z.eq_dec i p) as [-> | Hne].
          - assert (x = e) by congruence. subst x. apply leb_refl. exact Hge.
          - apply (Hlo3 i); [lia | exact Hx]. }
        destruct (Z.eq_dec j p) as [-> | Hne].
        { assert (y = e) by congruence. subst y. exact Hxe. }
        destruct (Hhi3 j y ltac:(lia) Hy) as [Hye Hgy].
        exact (leb_through _ _ _ Hgy Hxe Hye).
Qed.

(** X16: [QuickSort] sorts its range in place.  On a range [first .. last]
    that lies within the array, with one level of recursion per element of
    the range at most, it returns; the array it leaves is a permutation of
    the one it was given and the same outside the range; and when no key of
    the range is a NaN, the keys of the range are in nondecreasing order. *)
Theorem QuickSort_sorts (fuel : nat) (a : list SortItem) (first last : Z) :
  0 <= first -> last < Z.of_nat (length a) -> last - first <= Z.of_nat fuel ->
  exists a', QuickSort fuel a first last = Ok a' /\
    a' ≡ₚ a /\
    (forall k, 0 <= k -> k < first \/ last < k -> a' !! Z.to_nat k = a !! Z.to_nat k) /\
    ((forall k x, first <= k <= last -> a !! Z.to_nat k = Some x -> pos x <> S754_nan) ->
     forall i j x y, first <= i -> i <= j -> j <= last ->
       a' !! Z.to_nat i = Some x -> a' !! Z.to_nat j = Some y ->
       (pos x <=? pos y)%f32 = true).
Proof.
  intros Hf Hl Hfuel.
  destruct (QuickSort_spec fuel a first last Hf Hl Hfuel)
    as (a' & E & _ & Hperm & Hout & _ & Hs).
  exists a'. split; [exact E |]. split; [exact Hperm |]. split; [exact Hout |]. exact Hs.
Qed.

Definition three_items : list SortItem :=
  [mkSortItem (F32.of_Z 3) 0; mkSortItem (F32.of_Z 1) 1; mkSortItem (F32.of_Z 2) 2].

Lemma QuickSort_sorts_witness :
  exists a', QuickSort 2 three_items 0 2 = Ok a' /\
    a' ≡ₚ three_items /\
    (forall k, 0 <= k -> k < 0 \/ 2 < k ->
               a' !! Z.to_nat k = three_items !! Z.to_nat k) /\
    ((forall k x, 0 <= k <= 2 -> three_items !! Z.to_nat k = Some x ->
                  pos x <> S754_nan) ->
     forall i j x y, 0 <= i -> i <= j -> j <= 2 ->
       a' !! Z.to_nat i = Some x -> a' !! Z.to_nat j = Some y ->
       (pos x <=? pos y)%f32 = true).
Proof.
  apply (QuickSort_sorts 2 three_items 0 2); [lia | cbn; lia | cbn; lia].
Defined.

(** ** The sorted pre-split of [TLAS::BuildQuick] *)

(** The instances named in [lo .. hi] of [a'] are named there in [a]. *)
Definition idx_closed (a a' : list SortItem) (lo hi : Z) : Prop :=
  forall P : Z -> Prop,
    (forall k x, lo <= k <= hi -> a !! Z.to_nat k = Some x -> P (blasIdx x)) ->
    forall k x, lo <= k <= hi -> a' !! Z.to_nat k = Some x -> P (blasIdx x).

Definition idx_valid (N : Z) (a : list SortItem) (lo hi : Z) : Prop :=
  forall k x, lo <= k <= hi -> a !! Z.to_nat k = Some x -> 0 <= blasIdx x < N.

Lemma idx_closed_trans a b c lo hi :
  idx_closed a b lo hi -> idx_closed b c lo hi -> idx_closed a c lo hi.
Proof. intros H1 H2 P H. apply H2. apply H1. exact H. Qed.

Lemma idx_closed_widen a a' lo hi lo' hi' :
  idx_closed a a' lo' hi' -> same_outside a a' lo' hi' ->
  lo <= lo' -> hi' <= hi -> 0 <= lo ->
  idx_closed a a' lo hi.
Proof.
  intros Hc Ho Hlo Hhi H0 P H k x Hk Hx.
  destruct (Z_lt_dec k lo') as [Hk1 | Hk1];
    [rewrite Ho in Hx by lia; apply (H k); [lia | exact Hx] |].
  destruct (Z_lt_dec hi' k) as [Hk2 | Hk2];
    [rewrite Ho in Hx by lia; apply (H k); [lia | exact Hx] |].
  apply (Hc P) with (k := k); [| lia | exact Hx].
  intros k' x' Hk' Hx'. apply (H k'); [lia | exact Hx'].
Qed.

(** Lines 426-429: the keys of the range are set and the range is sorted;
    the instances that the range names stay the same. *)
Lemma sort_range_spec fuel blas axis first last (items : list SortItem) :
  0 <= first -> last < Z.of_nat (length items) -> first <= last + 1 ->
  idx_valid (Z.of_nat (length blas)) items first last ->
  last - first <= Z.of_nat fuel ->
  exists items', sort_range fuel blas axis first last items = Ok items' /\
    length items' = length items /\
    map blasIdx items' ≡ₚ map blasIdx items /\
    same_outside items items' first last /\
    idx_closed items items' first last.
Proof.
  intros Hf Hl Hfl Hv Hfuel. unfold sort_range.
  set (K := fun (i : Z) (it1 : list SortItem) =>
    length it1 = length items /\ map blasIdx it1 = map blasIdx items /\
    same_outside items it1 first last).
  match goal with |- context [for_loop ?n ?i ?body ?s] =>
    assert (Hloop : satisfies (for_loop n i body s) (fun _ => False)
                      (K (i + Z.of_nat n)));
      [apply (sat_for_loop K (fun _ => False) n i body s) |
       destruct (sat_never _ _ Hloop) as (it1 & -> & Hlen1 & Hidx1 & Hout1)]
  end.
  - split; [reflexivity |]. split; [reflexivity |]. intros k _ _. reflexivity.
  - intros i it1 Hi (Hlen1 & Hidx1 & Hout1).
    destruct (rd_in_range ItemArr it1 i ltac:(lia)) as (it & -> & Hit).
    cbn [mbind result_bind]. cbv zeta.
    assert (Hit0 : exists it0, items !! Z.to_nat i = Some it0 /\ blasIdx it0 = blasIdx it).
    { destruct (lookup_lt_is_Some_2 items (Z.to_nat i)) as [it0 Hit0]; [lia |].
      exists it0. split; [exact Hit0 |].
      apply (f_equal (fun l => l !! Z.to_nat i)) in Hidx1.
      rewrite !list_lookup_fmap, Hit, Hit0 in Hidx1. cbn in Hidx1. congruence. }
    destruct Hit0 as (it0 & Hit0 & Eidx).
    pose proof (Hv i it0 ltac:(lia) Hit0) as Hvi. rewrite Eidx in Hvi.
    destruct (rd_in_range BlasArr blas (blasIdx it) ltac:(lia)) as (b & -> & Hb).
    cbn [mbind result_bind]. rewrite wr_in_range by lia.
    unfold satisfies, K. rewrite length_insert. split; [exact Hlen1 |]. split.
    + rewrite list_fmap_insert. cbn [blasIdx].
      rewrite list_insert_id; [exact Hidx1 |].
      rewrite list_lookup_fmap, Hit. reflexivity.
    + intros k Hk Hko. rewrite list_lookup_insert_ne by lia. apply Hout1; assumption.
  - cbn [mbind result_bind].
    destruct (QuickSort_spec fuel it1 first last Hf ltac:(lia) Hfuel)
      as (it2 & -> & Hlen2 & Hperm2 & Hout2 & Hcl2 & _).
    exists it2. split; [reflexivity |]. split; [lia |]. split; [| split].
    + rewrite <- Hidx1. apply fmap_Permutation. exact Hperm2.
    + intros k Hk Hko. rewrite Hout2 by assumption. apply Hout1; assumption.
    + intros P HP k x Hk Hx.
      apply (Hcl2 (fun x => P (blasIdx x))) with (k := k); [| exact Hk | exact Hx].
      intros k' x' Hk' Hx'.
      destruct (lookup_lt_is_Some_2 items (Z.to_nat k')) as [x0 Hx0]; [lia |].
      assert (blasIdx x0 = blasIdx x') as <-.
      { apply (f_equal (fun l => l !! Z.to_nat k')) in Hidx1.
        rewrite !list_lookup_fmap, Hx', Hx0 in Hidx1. cbn in Hidx1. congruence. }
      apply (HP k'); assumption.
Qed.

(** The leaves of the items [from .. to], in their order, from slot [base]. *)
Definition leaves_at (blas : list BVHInstance) (pool : list TLASNode.t) (base : Z)
    (items : list SortItem) (from to : Z) : Prop :=
  forall k, from <= k <= to ->
    exists it b, items !! Z.to_nat k = Some it /\
      0 <= blasIdx it /\ blas !! Z.to_nat (blasIdx it) = Some b /\
      pool !! Z.to_nat (base + (k - from)) = Some (leaf_of b (blasIdx it)).

(** The one fault of the pre-split: a leaf is written past the pool. *)
Definition pool_overflow (s : TLAS.t) (cnt : Z) (f : fault) : Prop :=
  f = OutOfBounds TlasPool /\ Z.of_nat (length (TLAS.tlasNode s)) < TLAS.nodesUsed s + cnt.

(** What the state keeps when [cnt] leaves are added. *)
Definition grown (s s' : TLAS.t) (cnt : Z) : Prop :=
  TLAS.blas s' = TLAS.blas s /\ TLAS.blasCount s' = TLAS.blasCount s /\
  TLAS.nodeIdx s' = TLAS.nodeIdx s /\
  length (TLAS.tlasNode s') = length (TLAS.tlasNode s) /\
  TLAS.nodesUsed s' = TLAS.nodesUsed s + cnt /\
  (0 < cnt -> TLAS.nodesUsed s' <= Z.of_nat (length (TLAS.tlasNode s))) /\
  forall k, 0 <= k < TLAS.nodesUsed s ->
    TLAS.tlasNode s' !! Z.to_nat k = TLAS.tlasNode s !! Z.to_nat k.

Lemma grown_trans s s1 s2 c1 c2 :
  0 <= c1 -> 0 <= c2 -> grown s s1 c1 -> grown s1 s2 c2 -> grown s s2 (c1 + c2).
Proof.
  intros H1 H2 (A1 & A2 & A3 & A4 & A5 & A6 & A7) (B1 & B2 & B3 & B4 & B5 & B6 & B7).
  unfold grown. rewrite B1, B2, B3, B4, B5, A1, A2, A3, A4, A5.
  repeat split; try reflexivity; try lia.
  intros k Hk. rewrite B7 by lia. apply A7. exact Hk.
Qed.

Lemma make_chunk_sat (items : list SortItem) from to s st :
  0 <= from -> to < Z.of_nat (length items) -> from <= to + 1 ->
  idx_valid (Z.of_nat (length (TLAS.blas s))) items from to ->
  0 <= TLAS.nodesUsed s ->
  0 <= treeIdx st < 8 -> length (tree st) = 8%nat -> length (treeSize st) = 8%nat ->
  satisfies (make_chunk items from to s st)
    (pool_overflow s (to - from + 1))
    (fun r =>
       grown s (fst r) (to - from + 1) /\
       leaves_at (TLAS.blas s) (TLAS.tlasNode (fst r)) (TLAS.nodesUsed s) items from to /\
       item (snd r) = item st /\ treeIdx (snd r) = treeIdx st + 1 /\
       length (tree (snd r)) = 8%nat /\
       treeSize (snd r) = <[Z.to_nat (treeIdx st) := to - from + 1]> (treeSize st)).
Proof.
  intros Hf Ht Hft Hv Hu Hti Hlt Hls. unfold make_chunk.
  set (L := fun (i : Z) (s1 : TLAS.t) =>
    grown s s1 (i - from) /\
    leaves_at (TLAS.blas s) (TLAS.tlasNode s1) (TLAS.nodesUsed s) items from (i - 1)).
  eapply sat_bind with (Q := L (from + Z.of_nat (Z.to_nat (to - from + 1)))).
  - apply (sat_for_loop L).
    + split.
      * unfold grown. replace (from - from) with 0 by lia. rewrite Z.add_0_r.
        repeat split; try reflexivity; lia.
      * intros k Hk. lia.
    + intros i s1 Hi ((G1 & G2 & G3 & G4 & G5 & G6 & G7) & Hlv).
      destruct (rd_in_range ItemArr items i ltac:(lia)) as (it & -> & Hit).
      cbn [mbind result_bind].
      pose proof (Hv i it ltac:(lia) Hit) as Hvi.
      destruct (rd_in_range BlasArr (TLAS.blas s1) (blasIdx it) ltac:(rewrite G1; lia))
        as (b & -> & Hb).
      cbn [mbind result_bind]. unfold upd_tnode.
      destruct (Z_lt_dec (TLAS.nodesUsed s1) (Z.of_nat (length (TLAS.tlasNode s1))))
        as [Hroom | Hfull].
      * destruct (rd_in_range TlasPool (TLAS.tlasNode s1) (TLAS.nodesUsed s1) ltac:(lia))
          as (n & -> & Hn).
        cbn [mbind result_bind]. rewrite wr_in_range by lia. cbn [mbind result_bind].
        unfold satisfies, L, grown.
        cbn [TLAS.blas TLAS.blasCount TLAS.nodeIdx TLAS.tlasNode TLAS.nodesUsed
             TLAS.set_nodesUsed TLAS.set_tlasNode].
        rewrite length_insert. split.
        -- split; [exact G1 |]. split; [exact G2 |]. split; [exact G3 |].
           split; [exact G4 |]. split; [lia |]. split; [lia |].
           intros k Hk. rewrite list_lookup_insert_ne by lia. apply G7. exact Hk.
        -- intros k Hk. destruct (Z.eq_dec k i) as [-> | Hne].
           ++ exists it, b. split; [exact Hit |]. split; [lia |].
              split; [rewrite <- G1; exact Hb |].
              replace (TLAS.nodesUsed s + (i - from)) with (TLAS.nodesUsed s1) by lia.
              apply list_lookup_insert_eq. lia.
           ++ destruct (Hlv k ltac:(lia)) as (it' & b' & H1 & H2 & H3 & H4).
              exists it', b'. split; [exact H1 |]. split; [exact H2 |]. split; [exact H3 |].
              rewrite list_lookup_insert_ne by lia. exact H4.
      * unfold rd. replace (TLAS.nodesUsed s1 <? 0) with false
          by (symmetry; apply Z.ltb_ge; lia).
        rewrite lookup_ge_None_2 by lia. cbn [mbind result_bind].
        unfold satisfies, pool_overflow. split; [reflexivity | lia].
  - intros s1 ((G1 & G2 & G3 & G4 & G5 & G6 & G7) & Hlv).
    replace (from + Z.of_nat (Z.to_nat (to - from + 1)) - from) with (to - from + 1)
      in * by lia.
    replace (from + Z.of_nat (Z.to_nat (to - from + 1)) - 1) with to in Hlv by lia.
    destruct (rd_in_range TreeArr (tree st) (treeIdx st) ltac:(lia)) as (tr & -> & Htr).
    cbn [mbind result_bind].
    assert (Hend : forall trees, length trees = 8%nat ->
              satisfies
                (sizes ← wr TreeArr (treeSize st) (treeIdx st) (to - from + 1);
                 Ok (s1, mkStatics (item st) trees sizes (treeIdx st + 1)))
                (pool_overflow s (to - from + 1))
                (fun r =>
                   grown s (fst r) (to - from + 1) /\
                   leaves_at (TLAS.blas s) (TLAS.tlasNode (fst r)) (TLAS.nodesUsed s)
                             items from to /\
                   item (snd r) = item st /\ treeIdx (snd r) = treeIdx st + 1 /\
                   length (tree (snd r)) = 8%nat /\
                   treeSize (snd r)
                   = <[Z.to_nat (treeIdx st) := to - from + 1]> (treeSize st))).
    { intros trees Hlen. rewrite wr_in_range by lia. cbn [mbind result_bind].
      unfold satisfies. cbn [fst snd item treeIdx tree treeSize].
      split; [unfold grown; auto 10 |]. auto. }
    destruct tr as [tr |].
    + cbn [mbind result_bind]. apply Hend. exact Hlt.
    + rewrite (wr_in_range TreeArr (tree st)) by lia. cbn [mbind result_bind].
      apply Hend. rewrite length_insert. exact Hlt.
Qed.

(** The sum of the [n] sizes from entry [t]. *)
Fixpoint size_sum (ts : list Z) (t : Z) (n : nat) : Z :=
  match n with
  | O => 0
  | S n' => default 0 (ts !! Z.to_nat t) + size_sum ts (t + 1) n'
  end.

Lemma size_sum_ext ts ts' n : forall t,
  0 <= t ->
  (forall k, t <= k < t + Z.of_nat n -> ts' !! Z.to_nat k = ts !! Z.to_nat k) ->
  size_sum ts' t n = size_sum ts t n.
Proof.
  induction n as [| n IH]; intros t Ht H; [reflexivity |]. cbn [size_sum].
  rewrite H by lia. rewrite (IH (t + 1)); [reflexivity | lia |].
  intros k Hk. apply H. lia.
Qed.

Lemma size_sum_app ts n m : forall t,
  size_sum ts t (n + m) = size_sum ts t n + size_sum ts (t + Z.of_nat n) m.
Proof.
  induction n as [| n IH]; intros t.
  - cbn [size_sum Nat.add]. rewrite Z.add_0_r. reflexivity.
  - cbn [size_sum Nat.add]. rewrite IH.
    replace (t + 1 + Z.of_nat n) with (t + Z.of_nat (S n)) by lia. lia.
Qed.

(** What a part of the pre-split does with the items [first .. last]: their
    leaves are added in the order it leaves them in, and [ntrees] sizes that
    sum to their number are recorded. *)
Definition part_post (s : TLAS.t) (items : list SortItem) (first last t : Z)
    (ts : list Z) (ntrees : nat)
    (s' : TLAS.t) (items' : list SortItem) (t' : Z) (ts' : list Z) : Prop :=
  grown s s' (last - first + 1) /\
  length items' = length items /\
  map blasIdx items' ≡ₚ map blasIdx items /\
  same_outside items items' first last /\
  idx_closed items items' first last /\
  leaves_at (TLAS.blas s) (TLAS.tlasNode s') (TLAS.nodesUsed s) items' first last /\
  t' = t + Z.of_nat ntrees /\ length ts' = 8%nat /\
  (forall k, 0 <= k < t -> ts' !! Z.to_nat k = ts !! Z.to_nat k) /\
  size_sum ts' t ntrees = last - first + 1.

Lemma part_join s s1 s2 items1 items2 items3 first half last t t1 t2 ts ts1 ts2 n1 n2 :
  0 <= first -> first <= half + 1 -> half <= last -> 0 <= t -> 0 <= TLAS.nodesUsed s ->
  part_post s items1 first half t ts n1 s1 items2 t1 ts1 ->
  part_post s1 items2 (half + 1) last t1 ts1 n2 s2 items3 t2 ts2 ->
  part_post s items1 first last t ts (n1 + n2) s2 items3 t2 ts2.
Proof.
  intros Hf Hfh Hhl Ht Hu
    (G1 & L1 & P1 & O1 & C1 & V1 & T1 & N1 & K1 & S1)
    (G2 & L2 & P2 & O2 & C2 & V2 & T2 & N2 & K2 & S2).
  pose proof G1 as (Gb & _ & _ & Glen & Gused & _).
  pose proof G2 as (_ & _ & _ & _ & _ & _ & Gkeep).
  split.
  { replace (last - first + 1) with ((half - first + 1) + (last - (half + 1) + 1)) by lia.
    apply (grown_trans s s1 s2); [lia | lia | exact G1 | exact G2]. }
  split; [congruence |]. split; [rewrite P2; exact P1 |]. split; [| split; [| split]].
  - apply (same_outside_trans items1 items2 items3 first last first half (half + 1) last);
      try lia; assumption.
  - apply (idx_closed_trans items1 items2 items3).
    + apply (idx_closed_widen items1 items2 first last first half); auto; lia.
    + apply (idx_closed_widen items2 items3 first last (half + 1) last); auto; lia.
  - intros k Hk. destruct (Z_le_dec k half) as [Hkh | Hkh].
    + destruct (V1 k ltac:(lia)) as (it & b & H1 & H2 & H3 & H4).
      exists it, b. split; [rewrite O2 by lia; exact H1 |]. split; [exact H2 |].
      split; [exact H3 |]. rewrite Gkeep by lia. exact H4.
    + destruct (V2 k ltac:(lia)) as (it & b & H1 & H2 & H3 & H4).
      exists it, b. split; [exact H1 |]. split; [exact H2 |].
      split; [rewrite <- Gb; exact H3 |].
      replace (TLAS.nodesUsed s + (k - first))
        with (TLAS.nodesUsed s1 + (k - (half + 1))) by lia. exact H4.
  - split; [lia |]. split; [exact N2 |]. split.
    + intros k Hk. rewrite K2 by lia. apply K1. exact Hk.
    + rewrite size_sum_app. rewrite <- T1, S2.
      rewrite (size_sum_ext ts1 ts2 n1 t Ht); [lia |].
      intros k Hk. apply K2. lia.
Qed.

Definition halves_post (s : TLAS.t) (st : statics) (items : list SortItem)
    (first last : Z) (ntrees : nat) (r : TLAS.t * statics) : Prop :=
  exists items', item (snd r) = Some items' /\ length (tree (snd r)) = 8%nat /\
    part_post s items first last (treeIdx st) (treeSize st) ntrees
              (fst r) items' (treeIdx (snd r)) (treeSize (snd r)).

Lemma half_between first last :
  0 <= first -> first <= last + 1 ->
  first <= Z.shiftr (first + last) 1 + 1 /\ Z.shiftr (first + last) 1 <= last /\
  first - 1 <= Z.shiftr (first + last) 1.
Proof.
  intros Hf Hl. rewrite Z.shiftr_div_pow2 by lia. change (2 ^ 1) with 2.
  pose proof (Z.div_mod (first + last) 2 ltac:(lia)).
  pose proof (Z.mod_pos_bound (first + last) 2 ltac:(lia)). lia.
Qed.

Lemma part_after_sort s s' items items1 items' first last t ts n t' ts' :
  length items1 = length items ->
  map blasIdx items1 ≡ₚ map blasIdx items ->
  same_outside items items1 first last ->
  idx_closed items items1 first last ->
  part_post s items1 first last t ts n s' items' t' ts' ->
  part_post s items first last t ts n s' items' t' ts'.
Proof.
  intros Hlen Hperm Hout Hcl (G & L & P & O & C & V & T).
  split; [exact G |]. split; [congruence |]. split; [rewrite P; exact Hperm |].
  split; [| split; [| split; [exact V | exact T]]].
  - apply (same_outside_trans items items1 items' first last first last first last);
      try lia; assumption.
  - exact (idx_closed_trans _ _ _ _ _ Hcl C).
Qed.

Lemma pool_overflow_first s c1 c f :
  c1 <= c -> pool_overflow s c1 f -> pool_overflow s c f.
Proof. intros Hc [-> H]. split; [reflexivity | lia]. Qed.

Lemma pool_overflow_second s s1 c1 c2 c f :
  grown s s1 c1 -> c1 + c2 <= c -> pool_overflow s1 c2 f -> pool_overflow s c f.
Proof.
  intros (_ & _ & _ & Hlen & Hused & _) Hc [-> H]. split; [reflexivity |].
  rewrite <- Hlen. lia.
Qed.

Lemma SortAndSplit_sat fuel rawItem : forall depth level s st items first last,
  1 <= level <= 2 -> 3 - level <= Z.of_nat depth ->
  item st = Some items -> length items = length (TLAS.blas s) ->
  0 <= first -> last < Z.of_nat (length items) -> first <= last + 1 ->
  idx_valid (Z.of_nat (length (TLAS.blas s))) items first last ->
  0 <= TLAS.nodesUsed s ->
  0 <= treeIdx st -> treeIdx st + 2 ^ (3 - level) <= 8 ->
  length (tree st) = 8%nat -> length (treeSize st) = 8%nat ->
  last - first <= Z.of_nat fuel ->
  satisfies (SortAndSplit depth fuel rawItem first last level s st)
    (pool_overflow s (last - first + 1))
    (halves_post s st items first last (Z.to_nat (2 ^ (3 - level)))).
Proof.
  induction depth as [| depth IH];
    intros level s st items first last Hlev Hdepth Hitem Hlen Hf Hl Hfl Hv Hu Ht0 Ht8
           Hlt Hls Hfuel; [lia |].
  cbn [SortAndSplit]. rewrite Hitem. cbv zeta.
  replace (level =? 0) with false by (symmetry; apply Z.eqb_neq; lia).
  cbn [mbind result_bind].
  destruct (sort_range_spec fuel (TLAS.blas s) (level mod 3) first last items
              Hf Hl Hfl Hv Hfuel) as (items1 & -> & Hlen1 & Hperm1 & Hout1 & Hcl1).
  cbn [mbind result_bind].
  destruct (half_between first last Hf Hfl) as (Hh1 & Hh2 & Hh3).
  set (half := Z.shiftr (first + last) 1) in *.
  set (st1 := mkStatics (Some items1) (tree st) (treeSize st) (treeIdx st)).
  assert (Hv1 : idx_valid (Z.of_nat (length (TLAS.blas s))) items1 first last).
  { exact (Hcl1 (fun i => 0 <= i < Z.of_nat (length (TLAS.blas s))) Hv). }
  assert (Hva : idx_valid (Z.of_nat (length (TLAS.blas s))) items1 first half).
  { intros k x Hk Hx. apply (Hv1 k); [lia | exact Hx]. }
  assert (Hlev' : level = 1 \/ level = 2) by lia.
  destruct Hlev' as [-> | ->].
  - (* level 1: two parts of two chunks each *)
    change (1 <? 2) with true. cbv iota. change (1 + 1) with 2.
    change (2 ^ (3 - 1)) with 4 in *.
    eapply sat_bind.
    + eapply sat_mono;
        [| intros r Hr; exact Hr
         | intros f Hf'; apply (pool_overflow_first s (half - first + 1));
           [lia | exact Hf']].
      apply (IH 2 s st1 items1 first half); try assumption; try reflexivity; try lia.
      all: cbn [treeIdx st1 tree treeSize]; try assumption; try lia.
    + intros [s1 st2] (items2 & Hit2 & Htr2 & HP1). cbn [fst snd] in *.
      pose proof HP1 as (G1 & L1 & P1 & O1 & C1 & V1 & T1 & N1 & K1 & S1).
      pose proof G1 as (Gb & _ & _ & Glen & Gused & _).
      cbn [treeIdx st1 treeSize] in T1.
      eapply sat_mono.
      * apply (IH 2 s1 st2 items2 (half + 1) last); try assumption; try lia.
        -- rewrite Gb. congruence.
        -- rewrite Gb. intros k x Hk Hx. rewrite O1 in Hx by lia.
           apply (Hv1 k); [lia | exact Hx].
      * intros [s2 st3] (items3 & Hit3 & Htr3 & HP2). cbn [fst snd] in *.
        exists items3. split; [exact Hit3 |]. split; [exact Htr3 |].
        apply (part_after_sort s s2 items items1 items3 first last); try assumption.
        change (Z.to_nat 4) with (Z.to_nat (2 ^ (3 - 2)) + Z.to_nat (2 ^ (3 - 2)))%nat.
        exact (part_join _ _ _ _ _ _ _ _ _ _ _ _ _ _ _ _ _ Hf Hh1 Hh2 Ht0 Hu HP1 HP2).
      * intros f Hf'. apply (pool_overflow_second s s1 (half - first + 1)
                               (last - (half + 1) + 1)); [exact G1 | lia | exact Hf'].
  - (* level 2: two chunks *)
    change (2 <? 2) with false. cbv iota. change (2 ^ (3 - 2)) with 2 in *.
    eapply sat_bind.
    + eapply sat_mono;
        [| intros r Hr; exact Hr
         | intros f Hf'; apply (pool_overflow_first s (half - first + 1));
           [lia | exact Hf']].
      apply (make_chunk_sat items1 first half s st1); try assumption; try lia.
      cbn [treeIdx st1]. lia.
    + intros [s1 st2] (G1 & V1 & I1 & T1 & N1 & S1). cbn [fst snd] in *.
      cbn [item treeIdx treeSize tree st1] in I1, T1, S1.
      pose proof G1 as (Gb & _ & _ & Glen & Gused & _).
      eapply sat_mono.
      * apply (make_chunk_sat items1 (half + 1) last s1 st2); try assumption; try lia.
        -- rewrite Gb. intros k x Hk Hx. apply (Hv1 k); [lia | exact Hx].
        -- rewrite S1, length_insert. exact Hls.
      * intros [s2 st3] (G2 & V2 & I2 & T2 & N2 & S2). cbn [fst snd] in *.
        exists items1. cbn [fst snd].
        split; [rewrite I2, I1; reflexivity |]. split; [exact N2 |].
        apply (part_after_sort s s2 items items1 items1 first last); try assumption.
        change (Z.to_nat 2) with (1 + 1)%nat.
        apply (part_join s s1 s2 items1 items1 items1 first half last
                 (treeIdx st) (treeIdx st2) (treeIdx st3)
                 (treeSize st) (treeSize st2) (treeSize st3) 1 1 Hf Hh1 Hh2 Ht0 Hu).
        -- split; [exact G1 |]. split; [reflexivity |]. split; [reflexivity |].
           split; [intros k _ _; reflexivity |]. split; [intros P HP; exact HP |].
           split; [exact V1 |]. split; [lia |].
           split; [rewrite S1, length_insert; exact Hls |]. split.
           ++ intros k Hk. rewrite S1. apply list_lookup_insert_ne. lia.
           ++ cbn [size_sum]. rewrite S1, list_lookup_insert_eq by lia. cbn. lia.
        -- split; [exact G2 |]. split; [reflexivity |]. split; [reflexivity |].
           split; [intros k _ _; reflexivity |]. split; [intros P HP; exact HP |].
           split; [exact V2 |]. split; [lia |].
           split; [rewrite S2, length_insert, S1, length_insert; exact Hls |]. split.
           ++ intros k Hk. rewrite S2. apply list_lookup_insert_ne. lia.
           ++ cbn [size_sum]. rewrite S2, list_lookup_insert_eq
                by (rewrite S1, length_insert; lia). cbn. lia.
      * intros f Hf'. apply (pool_overflow_second s s1 (half - first + 1)
                               (last - (half + 1) + 1)); [exact G1 | lia | exact Hf'].
Qed.

(** Lines 513 and 424: every item names the instance of its position. *)
Lemma init_items_spec (N : nat) (items : list SortItem) :
  length items = N ->
  exists items', for_loop N 0
                   (fun i items =>
                      it ← rd ItemArr items i;
                      wr ItemArr items i (mkSortItem (pos it) i))
                   items = Ok items' /\
    length items' = N /\ map blasIdx items' = seqZ 0 (Z.of_nat N).
Proof.
  intros Hlen.
  set (K := fun (i : Z) (it1 : list SortItem) =>
    length it1 = N /\
    forall k, 0 <= k < i -> exists x, it1 !! Z.to_nat k = Some x /\ blasIdx x = k).
  match goal with |- context [for_loop ?n ?i ?body ?s] =>
    assert (Hloop : satisfies (for_loop n i body s) (fun _ => False)
                      (K (i + Z.of_nat n)));
      [apply (sat_for_loop K (fun _ => False) n i body s) |
       destruct (sat_never _ _ Hloop) as (it1 & -> & Hlen1 & Hidx1)]
  end.
  - split; [exact Hlen | intros; lia].
  - intros i it1 Hi (Hlen1 & Hidx1).
    destruct (rd_in_range ItemArr it1 i ltac:(lia)) as (it & -> & Hit).
    cbn [mbind result_bind]. rewrite wr_in_range by lia.
    unfold satisfies, K. rewrite length_insert. split; [exact Hlen1 |].
    intros k Hk. destruct (Z.eq_dec k i) as [-> | Hne].
    + eexists. split; [apply list_lookup_insert_eq; lia | reflexivity].
    + destruct (Hidx1 k ltac:(lia)) as (x & Hx & Ex). exists x.
      split; [rewrite list_lookup_insert_ne by lia; exact Hx | exact Ex].
  - exists it1. split; [reflexivity |]. split; [exact Hlen1 |].
    apply list_eq. intros k. rewrite list_lookup_fmap.
    destruct (lt_dec k N) as [Hk | Hk].
    + destruct (Hidx1 (Z.of_nat k) ltac:(lia)) as (x & Hx & Ex).
      rewrite Nat2Z.id in Hx. rewrite Hx. cbn. rewrite Ex.
      symmetry. apply lookup_seqZ. lia.
    + rewrite (lookup_ge_None_2 it1) by lia. cbn. symmetry.
      apply lookup_ge_None_2. rewrite length_seqZ. lia.
Qed.

(** What the pre-split leaves: [blasCount] leaves from slot 32 on, one for
    every instance, and eight sizes that sum to [blasCount]. *)
Definition presplit_post (s : TLAS.t) (r : TLAS.t * statics) : Prop :=
  grown (TLAS.set_nodesUsed 32 s) (fst r) (TLAS.blasCount s) /\
  exists items', item (snd r) = Some items' /\
    map blasIdx items' ≡ₚ seqZ 0 (TLAS.blasCount s) /\
    leaves_at (TLAS.blas s) (TLAS.tlasNode (fst r)) 32 items' 0 (TLAS.blasCount s - 1) /\
    treeIdx (snd r) = 8 /\ length (treeSize (snd r)) = 8%nat /\
    size_sum (treeSize (snd r)) 0 8 = TLAS.blasCount s.

Lemma SortAndSplit_top fuel rawItem depth s st items :
  (2 <= depth)%nat ->
  TLAS.blasCount s = Z.of_nat (length (TLAS.blas s)) -> 1 <= TLAS.blasCount s ->
  item st = Some items -> length items = length (TLAS.blas s) ->
  TLAS.nodesUsed s = 32 ->
  length (tree st) = 8%nat -> length (treeSize st) = 8%nat ->
  TLAS.blasCount s - 1 <= Z.of_nat fuel ->
  satisfies (SortAndSplit (S depth) fuel rawItem 0 (TLAS.blasCount s - 1) 0 s st)
    (pool_overflow s (TLAS.blasCount s))
    (fun r =>
       grown s (fst r) (TLAS.blasCount s) /\
       exists items', item (snd r) = Some items' /\
         map blasIdx items' ≡ₚ seqZ 0 (TLAS.blasCount s) /\
         leaves_at (TLAS.blas s) (TLAS.tlasNode (fst r)) 32 items' 0
                   (TLAS.blasCount s - 1) /\
         treeIdx (snd r) = 8 /\ length (treeSize (snd r)) = 8%nat /\
         size_sum (treeSize (snd r)) 0 8 = TLAS.blasCount s).
Proof.
  intros Hdepth HN HN1 Hitem Hlen Hu Hlt Hls Hfuel.
  cbn [SortAndSplit]. rewrite Hitem. cbv zeta. change (0 =? 0) with true. cbv iota.
  set (N := TLAS.blasCount s) in *.
  destruct (init_items_spec (Z.to_nat N) items ltac:(lia)) as (items0 & -> & Hlen0 & Hidx0).
  cbn [mbind result_bind]. rewrite Z2Nat.id in Hidx0 by lia.
  assert (Hv0 : idx_valid (Z.of_nat (length (TLAS.blas s))) items0 0 (N - 1)).
  { intros k x Hk Hx. apply (f_equal (fun l => l !! Z.to_nat k)) in Hidx0.
    rewrite list_lookup_fmap, Hx in Hidx0. cbn in Hidx0. symmetry in Hidx0.
    apply lookup_seqZ in Hidx0. lia. }
  destruct (sort_range_spec fuel (TLAS.blas s) (0 mod 3) 0 (N - 1) items0
              ltac:(lia) ltac:(lia) ltac:(lia) Hv0 ltac:(lia))
    as (items1 & -> & Hlen1 & Hperm1 & Hout1 & Hcl1).
  cbn [mbind result_bind]. change (0 <? 2) with true. cbv iota. change (0 + 1) with 1.
  destruct (half_between 0 (N - 1) ltac:(lia) ltac:(lia)) as (Hh1 & Hh2 & Hh3).
  set (half := Z.shiftr (0 + (N - 1)) 1) in *.
  set (st1 := mkStatics (Some items1) (tree st) (treeSize st) 0).
  assert (Hv1 : idx_valid (Z.of_nat (length (TLAS.blas s))) items1 0 (N - 1)).
  { exact (Hcl1 (fun i => 0 <= i < Z.of_nat (length (TLAS.blas s))) Hv0). }
  destruct depth as [| depth]; [lia |].
  eapply sat_bind.
  - eapply sat_mono;
      [| intros r Hr; exact Hr
       | intros f Hf'; apply (pool_overflow_first s (half - 0 + 1));
         [lia | exact Hf']].
    apply (SortAndSplit_sat fuel rawItem (S depth) 1 s st1 items1 0 half);
      try reflexivity; try assumption; try lia.
    + intros k x Hk Hx. apply (Hv1 k); [lia | exact Hx].
    + cbn. lia.
  - intros [s1 st2] (items2 & Hit2 & Htr2 & HP1). cbn [fst snd] in *.
    pose proof HP1 as (G1 & L1 & P1 & O1 & C1 & V1 & T1 & N1 & K1 & S1).
    pose proof G1 as (Gb & _ & _ & Glen & Gused & _).
    cbn [treeIdx st1 treeSize] in T1. change (2 ^ (3 - 1)) with 4 in *.
    eapply sat_mono.
    + apply (SortAndSplit_sat fuel rawItem (S depth) 1 s1 st2 items2 (half + 1) (N - 1));
        try assumption; try lia.
      * rewrite Gb. lia.
      * rewrite Gb. intros k x Hk Hx. rewrite O1 in Hx by lia.
        apply (Hv1 k); [lia | exact Hx].
    + intros [s2 st3] (items3 & Hit3 & Htr3 & HP2). cbn [fst snd] in *.
      change (2 ^ (3 - 1)) with 4 in HP2.
      pose proof (part_join s s1 s2 items1 items2 items3 0 half (N - 1)
                    0 (treeIdx st2) (treeIdx st3)
                    (treeSize st) (treeSize st2) (treeSize st3) 4 4
                    ltac:(lia) Hh1 Hh2 ltac:(lia) ltac:(lia) HP1 HP2)
        as (G & L & P & O & C & V & T & Nn & K & S).
      cbn [treeIdx st1 treeSize] in *.
      replace (N - 1 - 0 + 1) with N in * by lia.
      split; [exact G |]. exists items3. split; [exact Hit3 |].
      split; [rewrite P, Hperm1, Hidx0; reflexivity |].
      split; [rewrite <- Hu; exact V |]. split; [rewrite T; reflexivity |].
      split; [exact Nn |]. exact S.
    + intros f Hf'. apply (pool_overflow_second s s1 (half - 0 + 1)
                             (N - 1 - (half + 1) + 1)); [exact G1 | lia | exact Hf'].
Qed.

Lemma presplit_sat fuel rawItem s st :
  TLAS.blasCount s = Z.of_nat (length (TLAS.blas s)) -> 1 <= TLAS.blasCount s ->
  (item st = None \/
   exists items, item st = Some items /\ length items = length (TLAS.blas s)) ->
  length (tree st) = 8%nat -> length (treeSize st) = 8%nat ->
  TLAS.blasCount s - 1 <= Z.of_nat fuel ->
  satisfies (BuildQuick_presplit fuel rawItem s st)
    (pool_overflow (TLAS.set_nodesUsed 32 s) (TLAS.blasCount s))
    (presplit_post s).
Proof.
  intros HN HN1 Hitem Hlt Hls Hfuel. unfold BuildQuick_presplit.
  set (items := match item st with
                | Some items => items
                | None => map rawItem (seq 0 (Z.to_nat (TLAS.blasCount s)))
                end).
  assert (Hlen : length items = length (TLAS.blas s)).
  { unfold items. destruct Hitem as [-> | (it & -> & H)]; [| exact H].
    rewrite length_map, length_seq. lia. }
  destruct (init_items_spec (Z.to_nat (TLAS.blasCount s)) items ltac:(lia))
    as (items0 & -> & Hlen0 & _).
  cbn [mbind result_bind]. cbv zeta.
  change (TLAS.blasCount (TLAS.set_nodesUsed 32 s)) with (TLAS.blasCount s).
  apply (SortAndSplit_top fuel rawItem 2 (TLAS.set_nodesUsed 32 s) _ items0);
    try reflexivity; try assumption; try lia.
  cbn [TLAS.blas TLAS.set_nodesUsed]. lia.
Qed.

Lemma size_sum_suffix ts : forall pre,
  size_sum (pre ++ ts) (Z.of_nat (length pre)) (length ts) = foldr Z.add 0 ts.
Proof.
  induction ts as [| z ts IH]; intros pre; [reflexivity |].
  cbn [size_sum length foldr]. rewrite Nat2Z.id.
  rewrite lookup_app_r, Nat.sub_diag by lia. cbn [lookup list_lookup default].
  specialize (IH (pre ++ [z])). rewrite <- app_assoc, length_app in IH. cbn in IH.
  replace (Z.of_nat (length pre) + 1) with (Z.of_nat (length pre + 1)) by lia.
  rewrite IH. reflexivity.
Qed.

Lemma size_sum_all ts : length ts = 8%nat -> size_sum ts 0 8 = foldr Z.add 0 ts.
Proof. intros H. rewrite <- H. exact (size_sum_suffix ts []). Qed.

(** X17: the pre-split of [TLAS::BuildQuick] needs a pool that the
    constructor does not give to a small scene.  The constructor allocates
    [2 * N + 2] nodes and the pre-split writes the [N] leaves from slot 32
    on: for between 1 and 29 instances, with the recursion of the sort
    given its depth, it writes a leaf past the end of the pool. *)
Theorem BuildQuick_overflows_small_pool fuel rawItem insts rawNode rawIdx st :
  1 <= Z.of_nat (length insts) <= 29 ->
  (item st = None \/
   exists items, item st = Some items /\ length items = length insts) ->
  length (tree st) = 8%nat -> length (treeSize st) = 8%nat ->
  Z.of_nat (length insts) - 1 <= Z.of_nat fuel ->
  BuildQuick_presplit fuel rawItem (TLAS.alloc insts rawNode rawIdx) st
  = Fault (OutOfBounds TlasPool).
Proof.
  intros HN Hitem Hlt Hls Hfuel.
  pose proof (presplit_sat fuel rawItem (TLAS.alloc insts rawNode rawIdx) st
                eq_refl ltac:(cbn [TLAS.alloc TLAS.blasCount]; lia) Hitem Hlt Hls Hfuel) as H.
  destruct (BuildQuick_presplit fuel rawItem (TLAS.alloc insts rawNode rawIdx) st)
    as [r | f].
  - destruct H as ((_ & _ & _ & _ & Hu & Hroom & _) & _).
    cbn [TLAS.alloc TLAS.blasCount TLAS.nodesUsed TLAS.tlasNode TLAS.set_nodesUsed]
      in Hu, Hroom.
    rewrite length_map, length_seq in Hroom. lia.
  - destruct H as [-> _]. reflexivity.
Qed.

Lemma BuildQuick_overflows_small_pool_witness :
  BuildQuick_presplit 1 raw_item (TLAS.alloc insts2 raw_tnode raw_idx) statics_init
  = Fault (OutOfBounds TlasPool).
Proof.
  apply BuildQuick_overflows_small_pool.
  - change (1 <= 2 <= 29). lia.
  - left. reflexivity.
  - reflexivity.
  - reflexivity.
  - change (2 - 1 <= 1). lia.
Defined.

(** X18: what the pre-split of [TLAS::BuildQuick] leaves for a scene of 30
    instances or more.  With the recursion of the sort given its depth it
    returns; the nodes below slot 32 are untouched and [nodesUsed] is
    [32 + N]; the [N] slots from 32 on hold leaves with the boxes of their
    instances, one leaf for every instance of the list; and the eight chunk
    sizes it records sum to [N]. *)
Theorem BuildQuick_presplit_leaves fuel rawItem insts rawNode rawIdx st :
  30 <= Z.of_nat (length insts) < 2 ^ 31 ->
  (item st = None \/
   exists items, item st = Some items /\ length items = length insts) ->
  length (tree st) = 8%nat -> length (treeSize st) = 8%nat ->
  Z.of_nat (length insts) - 1 <= Z.of_nat fuel ->
  exists s' st',
    BuildQuick_presplit fuel rawItem (TLAS.alloc insts rawNode rawIdx) st = Ok (s', st') /\
    TLAS.nodesUsed s' = 32 + Z.of_nat (length insts) /\
    TLAS.blas s' = insts /\
    length (TLAS.tlasNode s') = length (TLAS.tlasNode (TLAS.alloc insts rawNode rawIdx)) /\
    (forall k, 0 <= k < 32 ->
       TLAS.tlasNode s' !! Z.to_nat k
       = TLAS.tlasNode (TLAS.alloc insts rawNode rawIdx) !! Z.to_nat k) /\
    (exists ks, ks ≡ₚ seqZ 0 (Z.of_nat (length insts)) /\
       forall k, 0 <= k < Z.of_nat (length insts) ->
         exists j b, ks !! Z.to_nat k = Some j /\ 0 <= j /\
                     insts !! Z.to_nat j = Some b /\
                     TLAS.tlasNode s' !! Z.to_nat (32 + k) = Some (leaf_of b j)) /\
    treeIdx st' = 8 /\ foldr Z.add 0 (treeSize st') = Z.of_nat (length insts).
Proof.
  intros HN Hitem Hlt Hls Hfuel.
  pose proof (presplit_sat fuel rawItem (TLAS.alloc insts rawNode rawIdx) st
                eq_refl ltac:(cbn [TLAS.alloc TLAS.blasCount]; lia) Hitem Hlt Hls Hfuel) as H.
  destruct (BuildQuick_presplit fuel rawItem (TLAS.alloc insts rawNode rawIdx) st)
    as [[s' st'] | f].
  - destruct H as ((Gb & _ & _ & Glen & Gu & _ & Gkeep)
                   & items' & Hit & Hperm & Hlv & Ht & Hls' & Hsum).
    cbn [fst snd TLAS.alloc TLAS.blasCount TLAS.nodesUsed TLAS.tlasNode TLAS.blas
         TLAS.set_nodesUsed] in *.
    exists s', st'. split; [reflexivity |]. split; [exact Gu |]. split; [exact Gb |].
    split; [exact Glen |]. split; [exact Gkeep |]. split.
    + exists (map blasIdx items'). split; [exact Hperm |].
      intros k Hk. destruct (Hlv k ltac:(lia)) as (it & b & H1 & H2 & H3 & H4).
      exists (blasIdx it), b. rewrite list_lookup_fmap, H1.
      split; [reflexivity |]. split; [exact H2 |]. split; [exact H3 |].
      replace (32 + k) with (32 + (k - 0)) by lia. exact H4.
    + split; [exact Ht |]. rewrite <- size_sum_all by exact Hls'. exact Hsum.
  - destruct H as [_ Hover].
    cbn [TLAS.alloc TLAS.blasCount TLAS.nodesUsed TLAS.tlasNode TLAS.set_nodesUsed]
      in Hover.
    rewrite length_map, length_seq in Hover. lia.
Qed.

Lemma BuildQuick_presplit_leaves_witness :
  exists s' st',
    BuildQuick_presplit 32 raw_item (TLAS.alloc instances32 raw_tnode raw_idx) statics_init
    = Ok (s', st') /\
    TLAS.nodesUsed s' = 32 + Z.of_nat (length instances32) /\
    TLAS.blas s' = instances32 /\
    length (TLAS.tlasNode s')
    = length (TLAS.tlasNode (TLAS.alloc instances32 raw_tnode raw_idx)) /\
    (forall k, 0 <= k < 32 ->
       TLAS.tlasNode s' !! Z.to_nat k
       = TLAS.tlasNode (TLAS.alloc instances32 raw_tnode raw_idx) !! Z.to_nat k) /\
    (exists ks, ks ≡ₚ seqZ 0 (Z.of_nat (length instances32)) /\
       forall k, 0 <= k < Z.of_nat (length instances32) ->
         exists j b, ks !! Z.to_nat k = Some j /\ 0 <= j /\
                     instances32 !! Z.to_nat j = Some b /\
                     TLAS.tlasNode s' !! Z.to_nat (32 + k) = Some (leaf_of b j)) /\
    treeIdx st' = 8 /\ foldr Z.add 0 (treeSize st') = Z.of_nat (length instances32).
Proof.
  apply BuildQuick_presplit_leaves.
  - change (30 <= 32 < 2 ^ 31). lia.
  - left. reflexivity.
  - reflexivity.
  - reflexivity.
  - change (32 - 1 <= 32). lia.
Defined.

(** ** A mesh whose triangles share their centroid *)

Lemma leb_not_gt a b : (a <=? b)%f32 = true -> (b <? a)%f32 = false.
Proof.
  unfold F32.leb, F32.ltb, SFleb, SFltb.
  destruct a as [[] | [] | | [] ma ea], b as [[] | [] | | [] mb eb]; simpl;
    try discriminate; try reflexivity; intros H; cmp_cases.
Qed.

Lemma leb_good a b : (a <=? b)%f32 = true -> good a /\ good b.
Proof.
  unfold F32.leb, SFleb, good.
  destruct a, b; simpl; try discriminate; intros _; split; discriminate.
Qed.

Lemma eqb_refl (a : float) : good a -> (a =? a)%f32 = true.
Proof.
  unfold F32.eqb, SFeqb, good. destruct a as [s | s | | s m e]; try reflexivity;
    try congruence; intros _; rewrite SFcompare_refl by congruence; reflexivity.
Qed.

Lemma fminf_absorb a b : (b <=? a)%f32 = true -> fminf a b = b.
Proof. intros H. unfold fminf. rewrite (leb_not_gt _ _ H). reflexivity. Qed.

Lemma fmaxf_absorb a b : (a <=? b)%f32 = true -> fmaxf a b = b.
Proof. intros H. unfold fmaxf. rewrite (leb_not_gt _ _ H). reflexivity. Qed.

Lemma fminf_same a : fminf a a = a.
Proof. unfold fminf. rewrite ltb_irrefl. reflexivity. Qed.

Lemma fmaxf_same a : fmaxf a a = a.
Proof. unfold fmaxf. rewrite ltb_irrefl. reflexivity. Qed.

Lemma fold_box_with_centroid (trs : list Tri) :
  fold_box (map with_centroid trs) = fold_box trs.
Proof.
  unfold fold_box. generalize (float3_of F32.f1e30, float3_of F32.fm1e30).
  induction trs as [| tr trs IH]; intros acc; [reflexivity |].
  cbn [map foldl]. rewrite <- IH. reflexivity.
Qed.

Lemma tris_of_suffix (trs : list Tri) : forall pre,
  omap (fun k => (pre ++ trs) !! Z.to_nat k)
       (seqZ (Z.of_nat (length pre)) (Z.of_nat (length trs))) = trs.
Proof.
  induction trs as [| tr trs IH]; intros pre; [reflexivity |].
  cbn [length]. rewrite seqZ_cons by lia.
  change (omap ?f (?a :: ?l)) with (match f a with Some y => y :: omap f l | None => omap f l end).
  cbv beta. rewrite Nat2Z.id.
  rewrite lookup_app_r, Nat.sub_diag by lia. cbn [lookup list_lookup]. f_equal.
  specialize (IH (pre ++ [tr])). rewrite <- app_assoc, length_app in IH. cbn in IH.
  replace (Z.succ (Z.of_nat (length pre))) with (Z.of_nat (length pre + 1)) by lia.
  replace (Z.pred (Z.of_nat (S (length trs)))) with (Z.of_nat (length trs)) by lia.
  exact IH.
Qed.

Lemma tris_of_all (trs : list Tri) :
  tris_of (Mesh.mk trs) (seqZ 0 (Z.of_nat (length trs))) = trs.
Proof. exact (tris_of_suffix trs []). Qed.

Section Flat.
  Variable s : BVH.t.
  Variable node : BVHNode.t.
  Variable c : float3.
  Hypothesis Hcount : 1 <= BVHNode.triCount node.
  Hypothesis Htri : forall i, 0 <= i < BVHNode.triCount node ->
    exists tr, BVH.tri_of s (BVHNode.leftFirst node + i) = Ok tr /\ centroid tr = c.
  Hypothesis Hc : forall a, 0 <= a < 3 ->
    (axis_get c a <=? F32.f1e30)%f32 = true /\ (F32.fm1e30 <=? axis_get c a)%f32 = true.

Lemma flat_centroid_span a :
  0 <= a < 3 -> BVH.centroid_span s node a = Ok (axis_get c a, axis_get c a).
Proof.
  intros Ha. destruct (Hc a Ha) as [Hhi Hlo]. unfold BVH.centroid_span.
  apply for_loop_total with
    (I := fun k acc => 0 <= k /\ (if k =? 0 then acc = (F32.f1e30, F32.fm1e30)
                                  else acc = (axis_get c a, axis_get c a))).
  - split; [lia | reflexivity].
  - intros k [mn mx] Hk [Hk0 Hacc].
    destruct (Htri k ltac:(lia)) as (tr & -> & Hctr).
    cbn [mbind result_bind]. unfold satisfies. split; [lia |].
    replace (k + 1 =? 0) with false by (symmetry; apply Z.eqb_neq; lia).
    rewrite Hctr. destruct (k =? 0); injection Hacc as -> ->.
    + rewrite (fminf_absorb _ _ Hhi), (fmaxf_absorb _ _ Hlo). reflexivity.
    + rewrite fminf_same, fmaxf_same. reflexivity.
  - intros [mn mx] [_ Hacc].
    replace (0 + Z.of_nat (Z.to_nat (BVHNode.triCount node)) =? 0) with false in Hacc
      by (symmetry; apply Z.eqb_neq; lia).
    exact Hacc.
Qed.

Lemma flat_FindBestSplitPlane : BVH.FindBestSplitPlane s node = Ok (F32.f1e30, None).
Proof.
  unfold BVH.FindBestSplitPlane.
  apply for_loop_total with (I := fun _ best => best = (F32.f1e30, None)).
  - reflexivity.
  - intros a best Ha ->. rewrite flat_centroid_span by (cbn in Ha; lia).
    cbn [mbind result_bind].
    rewrite eqb_refl by (apply (leb_good _ _ (proj1 (Hc a ltac:(cbn in Ha; lia))))).
    reflexivity.
  - auto.
Qed.
End Flat.

(** X19: a mesh whose triangles all have the same centroid is not split.
    When the centroid that line 175 computes is the same for every triangle,
    a number between [-1e30] and [1e30] on each axis, no plane is found:
    if the cost of the root, its half area times the number of triangles,
    is at most [1e30], [Build] returns with the root as only node, a leaf
    over all the triangles in their order; otherwise [Subdivide] goes on to
    partition along the axis and position that were never set. *)
Theorem Build_flat_mesh (m : Mesh.t) rawNode rawIdx rawUsed (fuel : nat) (c : float3) :
  1 <= Mesh.triCount m -> (1 <= fuel)%nat ->
  (forall tr, tr ∈ Mesh.tri m -> BVH.tri_centroid tr = c) ->
  (forall a, 0 <= a < 3 ->
     (axis_get c a <=? F32.f1e30)%f32 = true /\ (F32.fm1e30 <=? axis_get c a)%f32 = true) ->
  let box := fold_box (Mesh.tri m) in
  let cost := (half_area (fst box) (snd box) * F32.of_Z (Mesh.triCount m))%f32 in
  if (cost <=? F32.f1e30)%f32 then
    exists b,
      BVH.Build fuel (BVH.alloc m rawNode rawIdx rawUsed) = Ok b /\
      BVH.nodesUsed b = 2 /\
      BVH.triIdx b = seqZ 0 (Mesh.triCount m) /\
      exists root, BVH.bvhNode b !! 0%nat = Some root /\
                   BVHNode.leftFirst root = 0 /\
                   BVHNode.triCount root = Mesh.triCount m /\
                   (BVHNode.aabbMin root, BVHNode.aabbMax root) = box
  else BVH.Build fuel (BVH.alloc m rawNode rawIdx rawUsed) = Fault Uninitialised.
Proof.
  intros HT Hfuel Hcen Hc box cost.
  set (s := BVH.alloc m rawNode rawIdx rawUsed).
  assert (Hal : allocated s) by apply alloc_allocated.
  unfold BVH.Build. rewrite (Build_init_spec s (proj1 Hal)).
  cbn [mbind result_bind BVH.bvhNode BVH.mesh].
  change (Mesh.triCount (BVH.mesh s)) with (Mesh.triCount m).
  assert (Hplen : Z.of_nat (length (BVH.bvhNode s)) = Mesh.triCount m * 2)
    by (exact (proj2 Hal)).
  destruct (lookup_lt_is_Some_2 (BVH.bvhNode s) (Z.to_nat 0)) as [r0 Hr0]; [lia |].
  rewrite (upd_node_spec _ 0 _ r0) by first [lia | exact Hr0]. cbn [mbind result_bind].
  rewrite (upd_node_spec _ 0 _ (BVHNode.set_leftFirst 0 r0))
    by (try lia; rewrite list_lookup_insert_eq by (apply lookup_lt_Some in Hr0; lia);
        reflexivity).
  cbn [mbind result_bind]. rewrite list_insert_insert_eq.
  set (trs := map with_centroid (Mesh.tri (BVH.mesh s))).
  assert (HT' : Mesh.triCount (Mesh.mk trs) = (Mesh.triCount m)).
  { unfold Mesh.triCount, trs. cbn [Mesh.tri]. rewrite length_map. reflexivity. }
  rewrite HT'.
  set (n0 := BVHNode.set_triCount (Mesh.triCount m) (BVHNode.set_leftFirst 0 r0)).
  match goal with |- context [BVH.UpdateNodeBounds 0 ?x] => set (s1 := x) end.
  assert (Hv1 : valid_idx s1).
  { unfold valid_idx, s1.
    cbn [BVH.mesh BVH.triIdx BVH.set_bvhNode BVH.bvhNode BVH.nodesUsed].
    rewrite HT'. apply Forall_forall. intros k Hk. apply elem_of_seqZ in Hk. lia. }
  apply lookup_lt_Some in Hr0 as Hr0'.
  rewrite (UpdateNodeBounds_spec s1 0 n0);
    [| lia | unfold s1; cbn [BVH.bvhNode BVH.set_bvhNode];
             rewrite list_lookup_insert_eq by exact Hr0'; reflexivity
     | simpl; lia | simpl; lia
     | unfold s1; cbn [BVH.triIdx BVH.set_bvhNode]; rewrite length_seqZ; simpl; lia
     | exact Hv1].
  cbn [mbind result_bind].
  assert (Hbox : fold_box (tris_of (BVH.mesh s1)
                   (range (BVH.triIdx s1) (BVHNode.leftFirst n0) (BVHNode.triCount n0)))
                 = box).
  { unfold s1. cbn [BVH.mesh BVH.triIdx BVH.set_bvhNode n0 BVHNode.leftFirst
                    BVHNode.triCount BVHNode.set_triCount BVHNode.set_leftFirst].
    assert (E1 : range (seqZ 0 (Mesh.triCount m)) 0 (Mesh.triCount m)
                 = seqZ 0 (Mesh.triCount m)).
    { rewrite <- (range_all (seqZ 0 (Mesh.triCount m))) at 2.
      rewrite length_seqZ. f_equal. lia. }
    rewrite E1.
    replace (Mesh.triCount m) with (Z.of_nat (length trs))
      by (unfold trs; rewrite length_map; reflexivity).
    rewrite tris_of_all. unfold trs. apply fold_box_with_centroid. }
  rewrite Hbox.
  match goal with |- context [BVH.Subdivide fuel 0 ?x] => set (s2 := x) end.
  set (root := BVHNode.set_bounds (fst box) (snd box) n0).
  assert (Hroot : BVH.bvhNode s2 !! Z.to_nat 0 = Some root)
    by (unfold s2, s1; cbn [BVH.bvhNode BVH.set_bvhNode];
        rewrite list_lookup_insert_eq by (rewrite length_insert; exact Hr0');
        reflexivity).
  destruct fuel as [| fuel]; [lia |].
  cbn [BVH.Subdivide]. unfold BVH.split_node.
  rewrite (proj2 (rd_Ok NodePool _ 0 root)) by (split; [lia | exact Hroot]).
  cbn [mbind result_bind].
  rewrite (flat_FindBestSplitPlane s2 root c).
  2: { unfold root, n0. simpl. lia. }
  2: { intros i Hi. unfold root, n0 in Hi. simpl in Hi.
       unfold BVH.tri_of, s2, s1.
       cbn [BVH.triIdx BVH.mesh BVH.set_bvhNode root n0 BVHNode.leftFirst
            BVHNode.set_bounds BVHNode.set_triCount BVHNode.set_leftFirst].
       rewrite (proj2 (rd_Ok TriIdxArr (seqZ 0 (Mesh.triCount m)) (0 + i) i))
         by (split; [lia | apply lookup_seqZ; lia]).
       cbn [mbind result_bind Mesh.tri].
       destruct (lookup_lt_is_Some_2 (Mesh.tri m) (Z.to_nat i)) as [tr Htr];
         [unfold Mesh.triCount in Hi; lia |].
       exists (with_centroid tr). split.
       - apply rd_Ok. split; [lia |]. unfold trs. cbn [BVH.mesh s BVH.alloc].
         rewrite list_lookup_fmap, Htr. reflexivity.
       - cbn. apply Hcen. eapply list_elem_of_lookup_2. exact Htr. }
  2: { exact Hc. }
  cbn [mbind result_bind].
  change (BVHNode.CalculateNodeCost root) with cost.
  destruct (cost <=? F32.f1e30)%f32 eqn:Ecost.
  - cbn [mbind result_bind]. exists s2. split; [reflexivity |]. split; [reflexivity |].
    split; [reflexivity |]. exists root. split; [exact Hroot |].
    split; [reflexivity |]. split; [reflexivity |]. cbn. destruct box. reflexivity.
  - cbv zeta. cbn [BVH.partition].
    replace (BVHNode.leftFirst root + BVHNode.triCount root - 1 <? BVHNode.leftFirst root)
      with false by (symmetry; apply Z.ltb_ge; unfold root, n0; simpl; lia).
    reflexivity.
Qed.

(** The same triangle twice. *)
Definition twin_mesh : Mesh.t := Mesh.mk [unit_tri; unit_tri].

Lemma twin_centroid_bounds a :
  0 <= a < 3 ->
  (axis_get (BVH.tri_centroid unit_tri) a <=? F32.f1e30)%f32 = true /\
  (F32.fm1e30 <=? axis_get (BVH.tri_centroid unit_tri) a)%f32 = true.
Proof.
  intros Ha. assert (H : a = 0 \/ a = 1 \/ a = 2) by lia.
  destruct H as [-> | [-> | ->]]; split; vm_compute; reflexivity.
Qed.

Lemma twin_cost :
  (half_area (fst (fold_box (Mesh.tri twin_mesh))) (snd (fold_box (Mesh.tri twin_mesh)))
   * F32.of_Z (Mesh.triCount twin_mesh) <=? F32.f1e30)%f32 = true.
Proof. vm_compute. reflexivity. Qed.

Lemma Build_flat_mesh_witness :
  exists b,
    BVH.Build 1 (BVH.alloc twin_mesh raw_node raw_idx 0) = Ok b /\
    BVH.nodesUsed b = 2 /\
    BVH.triIdx b = seqZ 0 (Mesh.triCount twin_mesh) /\
    exists root, BVH.bvhNode b !! 0%nat = Some root /\
                 BVHNode.leftFirst root = 0 /\
                 BVHNode.triCount root = Mesh.triCount twin_mesh /\
                 (BVHNode.aabbMin root, BVHNode.aabbMax root)
                 = fold_box (Mesh.tri twin_mesh).
Proof.
  assert (H1 : 1 <= Mesh.triCount twin_mesh) by (change (1 <= 2); lia).
  assert (H3 : forall tr, tr ∈ Mesh.tri twin_mesh ->
                          BVH.tri_centroid tr = BVH.tri_centroid unit_tri).
  { intros tr Htr. cbn [Mesh.tri twin_mesh] in Htr.
    apply elem_of_cons in Htr as [-> | Htr]; [reflexivity |].
    apply list_elem_of_singleton in Htr. subst tr. reflexivity. }
  pose proof (Build_flat_mesh twin_mesh raw_node raw_idx 0 1 (BVH.tri_centroid unit_tri)
                H1 (le_n 1) H3 twin_centroid_bounds) as H.
  cbv zeta in H. rewrite twin_cost in H. exact H.
Defined.

(** ** [TLAS::Build] returns *)

(** A coordinate that is a number and not the negative zero. *)
Definition okf (a : float) : bool :=
  match a with
  | S754_nan => false
  | S754_zero true => false
  | _ => true
  end.

Definition ok3 (v : float3) : bool := okf (x v) && okf (y v) && okf (z v).

Lemma okf_good a : okf a = true -> good a.
Proof. destruct a; simpl; [| | discriminate |]; intros _; discriminate. Qed.

Lemma okf_eq a b :
  okf a = true -> okf b = true -> (a <? b)%f32 = false -> (b <? a)%f32 = false -> a = b.
Proof.
  intros Ha Hb H1 H2.
  destruct (ltb_antisym a b (okf_good a Ha) (okf_good b Hb) H1 H2)
    as [E | (s & s' & -> & ->)]; [exact E |].
  destruct s, s'; simpl in Ha, Hb; try discriminate. reflexivity.
Qed.

Lemma fminf_comm a b : okf a = true -> okf b = true -> fminf a b = fminf b a.
Proof.
  intros Ha Hb. unfold fminf.
  destruct (a <? b)%f32 eqn:E1, (b <? a)%f32 eqn:E2; try reflexivity.
  - rewrite (ltb_asym _ _ E1) in E2. discriminate.
  - symmetry. apply okf_eq; assumption.
Qed.

Lemma fmaxf_comm a b : okf a = true -> okf b = true -> fmaxf a b = fmaxf b a.
Proof.
  intros Ha Hb. unfold fmaxf.
  destruct (a <? b)%f32 eqn:E1, (b <? a)%f32 eqn:E2; try reflexivity.
  - rewrite (ltb_asym _ _ E1) in E2. discriminate.
  - symmetry. apply okf_eq; assumption.
Qed.

Lemma fminf_pick a b : fminf a b = a \/ fminf a b = b.
Proof. unfold fminf. destruct (a <? b)%f32; auto. Qed.

Lemma fmaxf_pick a b : fmaxf a b = a \/ fmaxf a b = b.
Proof. unfold fmaxf. destruct (b <? a)%f32; auto. Qed.

Section Tame.
  Variable insts : list BVHInstance.

Definition lows : list float3 := map (fun b => bmin (bounds b)) insts.
Definition highs : list float3 := map (fun b => bmax (bounds b)) insts.

(** Every coordinate of the boxes of the instances is a number and not the
    negative zero, and every box with corners made of these coordinates has
    an area below [1e30f]. *)
Definition scene_tame : bool :=
  forallb ok3 lows && forallb ok3 highs &&
  forallb (fun x0 => forallb (fun y0 => forallb (fun z0 =>
  forallb (fun x1 => forallb (fun y1 => forallb (fun z1 =>
    (half_area (make_float3 (x x0) (y y0) (z z0)) (make_float3 (x x1) (y y1) (z z1))
     <? F32.f1e30)%f32) highs) highs) highs) lows) lows) lows.

(** A box whose coordinates are coordinates of boxes of the instances. *)
Definition tame (nd : TLASNode.t) : Prop :=
  exists x0 y0 z0 x1 y1 z1,
    x0 ∈ lows /\ y0 ∈ lows /\ z0 ∈ lows /\ x1 ∈ highs /\ y1 ∈ highs /\ z1 ∈ highs /\
    TLASNode.aabbMin nd = make_float3 (x x0) (y y0) (z z0) /\
    TLASNode.aabbMax nd = make_float3 (x x1) (y y1) (z z1).

Lemma tame_leaf b i : b ∈ insts -> tame (leaf_of b i).
Proof.
  intros Hb. exists (bmin (bounds b)), (bmin (bounds b)), (bmin (bounds b)),
                    (bmax (bounds b)), (bmax (bounds b)), (bmax (bounds b)).
  assert (H0 : bmin (bounds b) ∈ lows) by (apply list_elem_of_fmap; eauto).
  assert (H1 : bmax (bounds b) ∈ highs) by (apply list_elem_of_fmap; eauto).
  repeat (split; [assumption |]). cbn [leaf_of TLASNode.aabbMin TLASNode.aabbMax].
  split; [destruct (bmin (bounds b)) | destruct (bmax (bounds b))]; reflexivity.
Qed.

Lemma tame_union nA nB lr bl :
  tame nA -> tame nB ->
  tame (TLASNode.mk (fminf3 (TLASNode.aabbMin nA) (TLASNode.aabbMin nB)) lr
                    (fmaxf3 (TLASNode.aabbMax nA) (TLASNode.aabbMax nB)) bl).
Proof.
  intros (ax0 & ay0 & az0 & ax1 & ay1 & az1 & A1 & A2 & A3 & A4 & A5 & A6 & Amin & Amax)
         (bx0 & by0 & bz0 & bx1 & by1 & bz1 & B1 & B2 & B3 & B4 & B5 & B6 & Bmin & Bmax).
  cbn [TLASNode.aabbMin TLASNode.aabbMax]. rewrite Amin, Amax, Bmin, Bmax.
  unfold fminf3, fmaxf3. cbn [x y z].
  exists (if (x ax0 <? x bx0)%f32 then ax0 else bx0),
         (if (y ay0 <? y by0)%f32 then ay0 else by0),
         (if (z az0 <? z bz0)%f32 then az0 else bz0),
         (if (x bx1 <? x ax1)%f32 then ax1 else bx1),
         (if (y by1 <? y ay1)%f32 then ay1 else by1),
         (if (z bz1 <? z az1)%f32 then az1 else bz1).
  unfold fminf, fmaxf.
  destruct (x ax0 <? x bx0)%f32, (y ay0 <? y by0)%f32, (z az0 <? z bz0)%f32,
           (x bx1 <? x ax1)%f32, (y by1 <? y ay1)%f32, (z bz1 <? z az1)%f32;
    repeat (split; [assumption |]); split; reflexivity.
Qed.

  Hypothesis Htame : scene_tame = true.

Lemma tame_ok nd : tame nd -> ok3 (TLASNode.aabbMin nd) = true /\ ok3 (TLASNode.aabbMax nd) = true.
Proof.
  intros (x0 & y0 & z0 & x1 & y1 & z1 & H1 & H2 & H3 & H4 & H5 & H6 & -> & ->).
  unfold scene_tame in Htame. apply andb_prop in Htame as [Hok _].
  apply andb_prop in Hok as [Hlo Hhi].
  pose proof (proj1 (forallb_forall _ _) Hlo) as Hlo'.
  pose proof (proj1 (forallb_forall _ _) Hhi) as Hhi'.
  assert (Hin : forall (v : float3) l, v ∈ l -> In v l)
    by (intros v l Hv; apply list_elem_of_In; exact Hv).
  pose proof (Hlo' _ (Hin _ _ H1)) as K1. pose proof (Hlo' _ (Hin _ _ H2)) as K2.
  pose proof (Hlo' _ (Hin _ _ H3)) as K3. pose proof (Hhi' _ (Hin _ _ H4)) as K4.
  pose proof (Hhi' _ (Hin _ _ H5)) as K5. pose proof (Hhi' _ (Hin _ _ H6)) as K6.
  unfold ok3 in *. cbn [x y z].
  repeat match goal with H : _ && _ = true |- _ => apply andb_prop in H as [? ?] end.
  split; repeat (apply andb_true_intro; split); assumption.
Qed.

Lemma tame_area nd : tame nd ->
  (half_area (TLASNode.aabbMin nd) (TLASNode.aabbMax nd) <? F32.f1e30)%f32 = true.
Proof.
  intros (x0 & y0 & z0 & x1 & y1 & z1 & H1 & H2 & H3 & H4 & H5 & H6 & -> & ->).
  unfold scene_tame in Htame. apply andb_prop in Htame as [_ Har].
  assert (Hin : forall (v : float3) l, v ∈ l -> In v l)
    by (intros v l Hv; apply list_elem_of_In; exact Hv).
  pose proof (proj1 (forallb_forall _ _) Har _ (Hin _ _ H1)) as K1. cbv beta in K1.
  pose proof (proj1 (forallb_forall _ _) K1 _ (Hin _ _ H2)) as K2. cbv beta in K2.
  pose proof (proj1 (forallb_forall _ _) K2 _ (Hin _ _ H3)) as K3. cbv beta in K3.
  pose proof (proj1 (forallb_forall _ _) K3 _ (Hin _ _ H4)) as K4. cbv beta in K4.
  pose proof (proj1 (forallb_forall _ _) K4 _ (Hin _ _ H5)) as K5. cbv beta in K5.
  exact (proj1 (forallb_forall _ _) K5 _ (Hin _ _ H6)).
Qed.

(** The area of the union of two tame boxes is a number below [1e30f], the
    same in the two orders. *)
Lemma union_area_small nA nB :
  tame nA -> tame nB -> (union_area nA nB <? F32.f1e30)%f32 = true.
Proof.
  intros HA HB. exact (tame_area _ (tame_union nA nB 0 0 HA HB)).
Qed.

Lemma union_area_comm nA nB : tame nA -> tame nB -> union_area nA nB = union_area nB nA.
Proof.
  intros HA HB. destruct (tame_ok _ HA) as [A0 A1]. destruct (tame_ok _ HB) as [B0 B1].
  unfold ok3 in *.
  repeat match goal with H : _ && _ = true |- _ => apply andb_prop in H as [? ?] end.
  unfold union_area, fminf3, fmaxf3. cbn [x y z].
  rewrite (fminf_comm (x (TLASNode.aabbMin nA))), (fminf_comm (y (TLASNode.aabbMin nA))),
          (fminf_comm (z (TLASNode.aabbMin nA))), (fmaxf_comm (x (TLASNode.aabbMax nA))),
          (fmaxf_comm (y (TLASNode.aabbMax nA))), (fmaxf_comm (z (TLASNode.aabbMax nA)))
    by assumption.
  reflexivity.
Qed.
End Tame.

Section Cluster.
  Variable insts : list BVHInstance.
  Hypothesis Htame : scene_tame insts = true.

(** Entry [k] of [nodeIdx] names a node in use with a tame box. *)
Definition entry_ok (s : TLAS.t) (k : Z) : Prop :=
  0 <= k /\
  exists i nd, TLAS.nodeIdx s !! Z.to_nat k = Some i /\ 1 <= i < TLAS.nodesUsed s /\
               TLAS.tlasNode s !! Z.to_nat i = Some nd /\ tame insts nd.

Lemma entry_node s k : entry_ok s k -> exists nd, TLAS.node_of s k = Ok nd /\ tame insts nd.
Proof.
  intros (Hk & i & nd & Hi & Hr & Hnd & Ht). exists nd. split; [| exact Ht].
  unfold TLAS.node_of. rewrite (proj2 (rd_Ok NodeIdxArr _ k i)) by auto.
  cbn [mbind result_bind]. apply rd_Ok. split; [lia | exact Hnd].
Qed.

(** The area that [FindBestMatch] compares for two entries of the list. *)
Definition dist (s : TLAS.t) (i j : Z) : float :=
  match TLAS.node_of s i, TLAS.node_of s j with
  | Ok a, Ok b => union_area a b
  | _, _ => S754_nan
  end.

Lemma dist_small s i j : entry_ok s i -> entry_ok s j -> (dist s i j <? F32.f1e30)%f32 = true.
Proof.
  intros Hi Hj. destruct (entry_node s i Hi) as (a & Ea & Ha).
  destruct (entry_node s j Hj) as (b & Eb & Hb). unfold dist. rewrite Ea, Eb.
  apply (union_area_small insts Htame); assumption.
Qed.

Lemma dist_good s i j : entry_ok s i -> entry_ok s j -> good (dist s i j).
Proof. intros Hi Hj. exact (proj1 (ltb_true_good _ _ (dist_small s i j Hi Hj))). Qed.

Lemma dist_comm s i j : entry_ok s i -> entry_ok s j -> dist s i j = dist s j i.
Proof.
  intros Hi Hj. destruct (entry_node s i Hi) as (a & Ea & Ha).
  destruct (entry_node s j Hj) as (b & Eb & Hb). unfold dist. rewrite Ea, Eb.
  apply (union_area_comm insts Htame); assumption.
Qed.

(** [FindBestMatch] over entries that are in order: it returns, with [-1]
    when there is no other entry, and else with the first of the entries
    that are nearest to [A]. *)
Lemma FindBestMatch_total s n A :
  (forall k, 0 <= k < n -> entry_ok s k) -> entry_ok s A ->
  exists r, TLAS.FindBestMatch s n A = Ok r /\
    ((r = -1 /\ forall B, 0 <= B < n -> B = A) \/
     (0 <= r < n /\ r <> A /\
      forall B, 0 <= B < n -> B <> A ->
        (dist s A B <? dist s A r)%f32 = false /\
        (B < r -> (dist s A r <? dist s A B)%f32 = true))).
Proof.
  intros Hent HA.
  assert (Htot : satisfies (TLAS.FindBestMatch s n A) (fun _ => False) (fun _ => True)).
  { unfold TLAS.FindBestMatch.
    eapply sat_bind with (Q := fun _ => True).
    - apply (sat_for_loop (fun _ _ => True)); [exact I |].
      intros B [sm bb] HB _. destruct (Z.eqb_spec B A) as [-> | Hne]; [exact I |].
      destruct (entry_node s A HA) as (a & -> & _). cbn [mbind result_bind].
      destruct (entry_node s B (Hent B ltac:(lia))) as (b & -> & _).
      cbn [mbind result_bind]. cbv zeta.
      match goal with |- context [if ?c then _ else _] => destruct c end; exact I.
    - intros [sm bb] _. exact I. }
  destruct (sat_never _ _ Htot) as (r & Er & _). exists r. split; [exact Er |].
  destruct (FindBestMatch_scan s n A r Er) as (sm & HI).
  unfold best_so_far in HI. cbn [fst snd] in HI.
  destruct (entry_node s A HA) as (a & Ea & Ha).
  destruct HI as [(Hb & Hs & Hall) | (Hb & Hne & nA & nR & HnA & HnR & Hs & Hlt & Hall)].
  - left. split; [exact Hb |]. intros B HB.
    destruct (Z.eq_dec B A) as [E | Hne]; [exact E | exfalso].
    destruct (entry_node s B (Hent B HB)) as (b & Eb & Hb').
    pose proof (Hall B a b ltac:(lia) Hne Ea Eb) as Hge.
    rewrite (union_area_small insts Htame a b Ha Hb') in Hge. discriminate Hge.
  - right. split; [lia |]. split; [exact Hne |]. intros B HB HneB.
    destruct (entry_node s B (Hent B HB)) as (b & Eb & Hb').
    destruct (Hall B b ltac:(lia) HneB Eb) as [H1 H2].
    unfold dist. rewrite HnA, HnR, Eb. split; [exact H1 |].
    intros HBr. apply (H2 HBr).
    assert (nA = a) by congruence. subst nA.
    exact (proj1 (ltb_true_good _ _ (union_area_small insts Htame a b Ha Hb'))).
Qed.
End Cluster.

(** The order in which the clustering goes down: by the area, then by the
    sum of the two positions. *)
Definition lexlt (a : float) (sa : Z) (b : float) (sb : Z) : bool :=
  (a <? b)%f32 || (negb (b <? a)%f32 && (sa <? sb)).

Lemma lexlt_irrefl a sa : lexlt a sa a sa = false.
Proof. unfold lexlt. rewrite ltb_irrefl, Z.ltb_irrefl. reflexivity. Qed.

Lemma lexlt_trans a sa b sb c sc :
  good a -> good b -> good c ->
  lexlt a sa b sb = true -> lexlt b sb c sc = true -> lexlt a sa c sc = true.
Proof.
  unfold lexlt. intros Ha Hb Hc H1 H2.
  apply orb_true_iff in H1. apply orb_true_iff in H2. apply orb_true_iff.
  destruct H1 as [H1 | H1], H2 as [H2 | H2].
  - left. exact (ltb_trans _ _ _ H1 H2).
  - apply andb_true_iff in H2 as [H2 _]. apply negb_true_iff in H2.
    destruct (ltb_negtrans a c b Hc H1) as [H | H]; [left; exact H | congruence].
  - apply andb_true_iff in H1 as [H1 _]. apply negb_true_iff in H1.
    destruct (ltb_negtrans b a c Ha H2) as [H | H]; [congruence | left; exact H].
  - apply andb_true_iff in H1 as [H1 S1]. apply andb_true_iff in H2 as [H2 S2].
    apply negb_true_iff in H1. apply negb_true_iff in H2.
    apply Z.ltb_lt in S1. apply Z.ltb_lt in S2.
    destruct (a <? c)%f32 eqn:Eac; [left; reflexivity | right].
    apply andb_true_iff. split; [| apply Z.ltb_lt; lia].
    apply negb_true_iff. destruct (c <? a)%f32 eqn:Eca; [| reflexivity].
    destruct (ltb_negtrans c b a Hb Eca) as [H | H]; congruence.
Qed.

Fixpoint countb {A} (P : A -> bool) (l : list A) : nat :=
  match l with
  | [] => 0
  | a :: l' => (if P a then 1 else 0) + countb P l'
  end.

Lemma countb_le {A} (P Q : A -> bool) l :
  (forall a, a ∈ l -> P a = true -> Q a = true) -> (countb P l <= countb Q l)%nat.
Proof.
  induction l as [| a l IH]; intros H; [reflexivity |]. cbn [countb].
  assert (IH' := IH (fun b Hb => H b (list_elem_of_further _ _ _ Hb))).
  pose proof (H a (list_elem_of_here _ _)) as Ha.
  destruct (P a); [rewrite Ha by reflexivity |]; destruct (Q a); lia.
Qed.

Lemma countb_lt {A} (P Q : A -> bool) l a0 :
  (forall a, a ∈ l -> P a = true -> Q a = true) ->
  a0 ∈ l -> P a0 = false -> Q a0 = true -> (countb P l < countb Q l)%nat.
Proof.
  induction l as [| a l IH]; intros H Hin HP HQ; [apply elem_of_nil in Hin; contradiction |].
  cbn [countb].
  assert (Hle := countb_le P Q l (fun b Hb => H b (list_elem_of_further _ _ _ Hb))).
  apply elem_of_cons in Hin as [<- | Hin].
  - rewrite HP, HQ. lia.
  - assert (IH' := IH (fun b Hb => H b (list_elem_of_further _ _ _ Hb)) Hin HP HQ).
    pose proof (H a (list_elem_of_here _ _)) as Ha.
    destruct (P a); [rewrite Ha by reflexivity |]; destruct (Q a); lia.
Qed.

(** The pairs of positions of a list of [n] entries. *)
Definition pairs (n : Z) : list (Z * Z) :=
  i ← seqZ 0 n; j ← seqZ 0 n; [(i, j)].

Lemma elem_of_pairs n i j : (i, j) ∈ pairs n <-> 0 <= i < n /\ 0 <= j < n.
Proof.
  unfold pairs. rewrite list_elem_of_bind. split.
  - intros (i' & Hj & Hi). apply list_elem_of_bind in Hj as (j' & Hp & Hj).
    apply list_elem_of_singleton in Hp. injection Hp as -> ->.
    apply elem_of_seqZ in Hi, Hj. lia.
  - intros [Hi Hj]. exists i. split; [| apply elem_of_seqZ; lia].
    apply list_elem_of_bind. exists j. split; [apply list_elem_of_singleton; reflexivity |].
    apply elem_of_seqZ. lia.
Qed.

Section Descent.
  Variable insts : list BVHInstance.
  Hypothesis Htame : scene_tame insts = true.

(** The number of pairs that lie before the pair [(A, B)] in the order. *)
Definition below (s : TLAS.t) (n A B : Z) : nat :=
  countb (fun p => lexlt (dist s (fst p) (snd p)) (fst p + snd p) (dist s A B) (A + B))
         (pairs n).

Lemma below_step s n A B C :
  (forall k, 0 <= k < n -> entry_ok insts s k) ->
  0 <= A < n -> 0 <= B < n -> 0 <= C < n -> A <> B -> C <> A ->
  (dist s B A <? dist s B C)%f32 = false ->
  (A < C -> (dist s B C <? dist s B A)%f32 = true) ->
  (below s n B C < below s n A B)%nat.
Proof.
  intros Hent HA HB HC HAB HCA Hmin Hfirst. unfold below.
  assert (Hcomm : dist s A B = dist s B A)
    by (apply (dist_comm insts Htame); apply Hent; lia).
  assert (Hkey : lexlt (dist s B C) (B + C) (dist s A B) (A + B) = true).
  { unfold lexlt. rewrite Hcomm. destruct (dist s B C <? dist s B A)%f32 eqn:E;
      [reflexivity |].
    rewrite Hmin. cbn [orb negb andb]. apply Z.ltb_lt.
    destruct (Z_lt_dec A C) as [Hlt | Hge]; [pose proof (Hfirst Hlt); congruence | lia]. }
  apply (countb_lt _ _ _ (B, C)).
  - intros [i j] Hp Hlt. apply elem_of_pairs in Hp as [Hi Hj]. cbn [fst snd] in *.
    apply (lexlt_trans _ _ (dist s B C) (B + C)); try assumption;
      apply (dist_good insts Htame); apply Hent; lia.
  - apply elem_of_pairs. lia.
  - apply lexlt_irrefl.
  - exact Hkey.
Qed.

(** What the clustering keeps: the [n] entries of the list are in order and
    the pool has room for the nodes still to come. *)
Definition cl_inv (s : TLAS.t) (n : Z) : Prop :=
  (forall k, 0 <= k < n -> entry_ok insts s k) /\
  0 <= TLAS.nodesUsed s /\
  TLAS.nodesUsed s + (n - 1) <= Z.of_nat (length (TLAS.tlasNode s)) /\
  n <= Z.of_nat (length (TLAS.nodeIdx s)).

(** Lines 376-386: the merge of the entries [A] and [B]. *)
Lemma merge_step s n A B :
  cl_inv s n -> 2 <= n -> 0 <= A < n -> 0 <= B < n -> A <> B ->
  exists s', cl_inv s' (n - 1) /\ entry_ok insts s' A /\
    forall (k : TLAS.t -> result (TLAS.t * Z)),
      (nodeIdxA ← rd NodeIdxArr (TLAS.nodeIdx s) A;
       nodeIdxB ← rd NodeIdxArr (TLAS.nodeIdx s) B;
       nodeA ← rd TlasPool (TLAS.tlasNode s) nodeIdxA;
       nodeB ← rd TlasPool (TLAS.tlasNode s) nodeIdxB;
       pool ← upd_tnode (TLAS.tlasNode s) (TLAS.nodesUsed s)
                (fun n => TLASNode.mk
                   (fminf3 (TLASNode.aabbMin nodeA) (TLASNode.aabbMin nodeB))
                   (wrap32 (nodeIdxA + Z.shiftl nodeIdxB 16))
                   (fmaxf3 (TLASNode.aabbMax nodeA) (TLASNode.aabbMax nodeB))
                   (TLASNode.BLAS n));
       idx ← wr NodeIdxArr (TLAS.nodeIdx s) A (TLAS.nodesUsed s);
       last ← rd NodeIdxArr idx (n - 1);
       idx ← wr NodeIdxArr idx B last;
       k (TLAS.set_nodesUsed (TLAS.nodesUsed s + 1)
            (TLAS.set_nodeIdx idx (TLAS.set_tlasNode pool s))))
      = k s'.
Proof.
  intros (Hent & Hu0 & Hroom & Hlen) Hn HA HB HAB.
  destruct (Hent A ltac:(lia)) as (_ & a & nodeA & Ha & Hra & HnA & HtA).
  destruct (Hent B ltac:(lia)) as (_ & b & nodeB & Hb & Hrb & HnB & HtB).
  destruct (lookup_lt_is_Some_2 (TLAS.tlasNode s) (Z.to_nat (TLAS.nodesUsed s))) as [nd0 Hnd0]; [lia |].
  set (newN := TLASNode.mk (fminf3 (TLASNode.aabbMin nodeA) (TLASNode.aabbMin nodeB))
                 (wrap32 (a + Z.shiftl b 16))
                 (fmaxf3 (TLASNode.aabbMax nodeA) (TLASNode.aabbMax nodeB))
                 (TLASNode.BLAS nd0)).
  set (idx1 := <[Z.to_nat A := (TLAS.nodesUsed s)]> (TLAS.nodeIdx s)).
  destruct (lookup_lt_is_Some_2 idx1 (Z.to_nat (n - 1))) as [last Hlast];
    [unfold idx1; rewrite length_insert; lia |].
  set (s' := TLAS.set_nodesUsed ((TLAS.nodesUsed s) + 1)
               (TLAS.set_nodeIdx (<[Z.to_nat B := last]> idx1)
                  (TLAS.set_tlasNode (<[Z.to_nat (TLAS.nodesUsed s) := newN]> (TLAS.tlasNode s)) s))).
  assert (Hnew : tame insts newN) by (apply tame_union; assumption).
  assert (Hkeep : forall i nd, 1 <= i < (TLAS.nodesUsed s) -> TLAS.tlasNode s !! Z.to_nat i = Some nd ->
                    TLAS.tlasNode s' !! Z.to_nat i = Some nd).
  { intros i nd Hi Hnd. unfold s'. cbn [TLAS.tlasNode TLAS.set_nodesUsed TLAS.set_nodeIdx
                                       TLAS.set_tlasNode].
    rewrite list_lookup_insert_ne by lia. exact Hnd. }
  assert (Hat : TLAS.tlasNode s' !! Z.to_nat (TLAS.nodesUsed s) = Some newN).
  { unfold s'. cbn [TLAS.tlasNode TLAS.set_nodesUsed TLAS.set_nodeIdx TLAS.set_tlasNode].
    apply list_lookup_insert_eq. lia. }
  assert (Hlast' : last = (TLAS.nodesUsed s) \/
            exists nd, 1 <= last < (TLAS.nodesUsed s) /\ TLAS.tlasNode s !! Z.to_nat last = Some nd /\
                       tame insts nd).
  { unfold idx1 in Hlast. destruct (Z.eq_dec (n - 1) A) as [E | E].
    - rewrite E, list_lookup_insert_eq in Hlast by lia. injection Hlast as <-. left.
      reflexivity.
    - rewrite list_lookup_insert_ne in Hlast by lia.
      destruct (Hent (n - 1) ltac:(lia)) as (_ & i & nd & Hi & Hri & Hnd & Ht).
      assert (i = last) by congruence. subst i. right. exists nd. auto. }
  exists s'. split; [| split].
  - split; [| split; [| split]].
    + intros k Hk. split; [lia |].
      assert (Hu' : TLAS.nodesUsed s' = TLAS.nodesUsed s + 1) by reflexivity.
      assert (Hidx' : TLAS.nodeIdx s' = <[Z.to_nat B := last]> idx1) by reflexivity.
      rewrite Hu', Hidx'.
      destruct (Z.eq_dec k B) as [-> | HkB].
      * rewrite list_lookup_insert_eq by (unfold idx1; rewrite length_insert; lia).
        destruct Hlast' as [-> | (nd & Hr & Hnd & Ht)].
        -- exists (TLAS.nodesUsed s), newN. split; [reflexivity |]. split; [lia |]. auto.
        -- exists last, nd. split; [reflexivity |]. split; [lia |].
           split; [apply Hkeep; [lia | exact Hnd] | exact Ht].
      * rewrite list_lookup_insert_ne by lia. unfold idx1.
        destruct (Z.eq_dec k A) as [-> | HkA].
        -- rewrite list_lookup_insert_eq by lia.
           exists (TLAS.nodesUsed s), newN. split; [reflexivity |]. split; [lia |]. auto.
        -- rewrite list_lookup_insert_ne by lia.
           destruct (Hent k ltac:(lia)) as (_ & i & nd & Hi & Hri & Hnd & Ht).
           exists i, nd. split; [exact Hi |]. split; [lia |].
           split; [apply Hkeep; [lia | exact Hnd] | exact Ht].
    + unfold s'. cbn [TLAS.nodesUsed TLAS.set_nodesUsed]. lia.
    + unfold s'. cbn [TLAS.tlasNode TLAS.nodesUsed TLAS.set_nodesUsed TLAS.set_nodeIdx
                      TLAS.set_tlasNode].
      rewrite length_insert. lia.
    + unfold s', idx1. cbn [TLAS.nodeIdx TLAS.set_nodesUsed TLAS.set_nodeIdx].
      rewrite !length_insert. lia.
  - split; [lia |]. exists (TLAS.nodesUsed s), newN. split; [| split; [| split; [exact Hat | exact Hnew]]].
    + unfold s', idx1. cbn [TLAS.nodeIdx TLAS.set_nodesUsed TLAS.set_nodeIdx].
      rewrite list_lookup_insert_ne by lia. apply list_lookup_insert_eq. lia.
    + unfold s'. cbn [TLAS.nodesUsed TLAS.set_nodesUsed]. lia.
  - intros k.
    rewrite (proj2 (rd_Ok NodeIdxArr _ A a)) by (split; [lia | exact Ha]).
    cbn [mbind result_bind].
    rewrite (proj2 (rd_Ok NodeIdxArr _ B b)) by (split; [lia | exact Hb]).
    cbn [mbind result_bind].
    rewrite (proj2 (rd_Ok TlasPool _ a nodeA)) by (split; [lia | exact HnA]).
    cbn [mbind result_bind].
    rewrite (proj2 (rd_Ok TlasPool _ b nodeB)) by (split; [lia | exact HnB]).
    cbn [mbind result_bind]. unfold upd_tnode.
    rewrite (proj2 (rd_Ok TlasPool _ (TLAS.nodesUsed s) nd0)) by (split; [lia | exact Hnd0]).
    cbn [mbind result_bind]. rewrite wr_in_range by lia. cbn [mbind result_bind].
    rewrite wr_in_range by lia. cbn [mbind result_bind]. fold idx1.
    rewrite (proj2 (rd_Ok NodeIdxArr idx1 (n - 1) last)) by (split; [lia | exact Hlast]).
    cbn [mbind result_bind].
    rewrite wr_in_range by (unfold idx1; rewrite length_insert; lia).
    cbn [mbind result_bind]. reflexivity.
Qed.
End Descent.

Section Returns.
  Variable insts : list BVHInstance.
  Hypothesis Htame : scene_tame insts = true.

(** From two entries of the list the clustering comes to its end. *)
Definition ends (s : TLAS.t) (n A B : Z) : Prop :=
  exists fuel r, TLAS.cluster fuel s n A B = Ok r /\ entry_ok insts (fst r) (snd r).

Lemma ends_one s n A B : n <= 1 -> entry_ok insts s A -> ends s n A B.
Proof.
  intros Hn HA. exists 0%nat, (s, A). split; [| exact HA].
  rewrite cluster_unfold. replace (n <=? 1) with true by (symmetry; apply Z.leb_le; lia).
  reflexivity.
Qed.

(** One turn of the loop from [(A, B)]: the entry [C] nearest to [B], then
    the merge or the move to [(B, C)]. *)
Lemma ends_turn s n A B :
  cl_inv insts s n -> 2 <= n -> entry_ok insts s A -> 0 <= B < n -> A <> B ->
  (forall s' B', cl_inv insts s' (n - 1) -> entry_ok insts s' A ->
                 (n - 1 <= 1 \/ (0 <= B' < n - 1 /\ B' <> A)) -> ends s' (n - 1) A B') ->
  (forall C, 0 <= C < n -> C <> B -> C <> A ->
             (0 <= A < n ->
              (dist s B A <? dist s B C)%f32 = false /\
              (A < C -> (dist s B C <? dist s B A)%f32 = true)) ->
             ends s n B C) ->
  ends s n A B.
Proof.
  intros Hinv Hn HA HB HAB Hmerge Hmove.
  pose proof Hinv as (Hent & _).
  destruct (FindBestMatch_total insts Htame s n B Hent (Hent B HB))
    as (C & EC & [[-> Hnone] | (HC & HCB & Hmin)]).
  { exfalso. destruct (Z.eq_dec B 0) as [-> | HB0].
    - pose proof (Hnone 1 ltac:(lia)). lia.
    - pose proof (Hnone 0 ltac:(lia)). lia. }
  destruct (Z.eq_dec A C) as [<- | HAC].
  - (* the two are nearest to each other: they are merged *)
    destruct (merge_step insts s n A B Hinv Hn HC HB HAB) as (s' & Hinv' & HA' & Heq).
    pose proof Hinv' as (Hent' & _).
    destruct (FindBestMatch_total insts Htame s' (n - 1) A Hent' HA')
      as (B' & EB' & HB').
    assert (Hstate : n - 1 <= 1 \/ (0 <= B' < n - 1 /\ B' <> A)).
    { destruct HB' as [[-> Hnone] | (HB' & HBA & _)]; [| right; lia].
      left. destruct (Z_le_dec (n - 1) 1) as [H | H]; [exact H | exfalso].
      destruct (Z.eq_dec A 0) as [-> | HA0].
      - pose proof (Hnone 1 ltac:(lia)). lia.
      - pose proof (Hnone 0 ltac:(lia)). lia. }
    destruct (Hmerge s' B' Hinv' HA' Hstate) as (fuel & r & Er & Hr).
    exists (S fuel), r. split; [| exact Hr].
    rewrite cluster_unfold.
    replace (n <=? 1) with false by (symmetry; apply Z.leb_gt; lia).
    rewrite EC. cbn [mbind result_bind]. rewrite Z.eqb_refl.
    rewrite (Heq (fun s1 => B ← TLAS.FindBestMatch s1 (n - 1) A;
                            TLAS.cluster fuel s1 (n - 1) A B)).
    rewrite EB'. cbn [mbind result_bind]. exact Er.
  - (* the walk goes on from [B] *)
    destruct (Hmove C HC HCB (not_eq_sym HAC) (fun HA' => Hmin A HA' HAB))
      as (fuel & r & Er & Hr).
    exists (S fuel), r. split; [| exact Hr].
    rewrite cluster_unfold.
    replace (n <=? 1) with false by (symmetry; apply Z.leb_gt; lia).
    rewrite EC. cbn [mbind result_bind].
    replace (A =? C) with false by (symmetry; apply Z.eqb_neq; exact HAC).
    exact Er.
Qed.

(** The walk from a pair of the list ends: every move goes down in the
    order of the pairs. *)
Lemma ends_walk s n :
  cl_inv insts s n -> 2 <= n ->
  (forall s' A B', cl_inv insts s' (n - 1) -> entry_ok insts s' A ->
                   (n - 1 <= 1 \/ (0 <= B' < n - 1 /\ B' <> A)) -> ends s' (n - 1) A B') ->
  forall (m : nat) A B, (below s n A B <= m)%nat ->
    0 <= A < n -> 0 <= B < n -> A <> B -> ends s n A B.
Proof.
  intros Hinv Hn Hless. pose proof Hinv as (Hent & _).
  induction m as [| m IH]; intros A B Hm HA HB HAB.
  - apply (ends_turn s n A B Hinv Hn (Hent A HA) HB HAB).
    + intros s' B'. apply Hless.
    + intros C HC HCB HCA Hmin. exfalso. destruct (Hmin HA) as [H1 H2].
      pose proof (below_step insts Htame s n A B C Hent HA HB HC HAB HCA H1 H2). lia.
  - apply (ends_turn s n A B Hinv Hn (Hent A HA) HB HAB).
    + intros s' B'. apply Hless.
    + intros C HC HCB HCA Hmin. destruct (Hmin HA) as [H1 H2].
      pose proof (below_step insts Htame s n A B C Hent HA HB HC HAB HCA H1 H2).
      apply IH; try assumption; try lia.
Qed.

Lemma cluster_ends (m : nat) : forall s n A B,
  n <= Z.of_nat m -> cl_inv insts s n -> entry_ok insts s A ->
  (n <= 1 \/ (0 <= B < n /\ B <> A)) -> ends s n A B.
Proof.
  induction m as [| m IH]; intros s n A B Hm Hinv HA Hstate;
    [apply ends_one; [lia | exact HA] |].
  destruct (Z_le_dec n 1) as [Hn1 | Hn1]; [apply ends_one; [exact Hn1 | exact HA] |].
  destruct Hstate as [? | [HB HBA]]; [lia |].
  assert (Hless : forall s' A' B', cl_inv insts s' (n - 1) -> entry_ok insts s' A' ->
            (n - 1 <= 1 \/ (0 <= B' < n - 1 /\ B' <> A')) -> ends s' (n - 1) A' B').
  { intros s' A' B'. apply IH. lia. }
  pose proof Hinv as (Hent & _).
  destruct (Z_lt_dec A n) as [HAn | HAn].
  - apply (ends_walk s n Hinv ltac:(lia) Hless (below s n A B) A B); try lia.
    destruct HA as [HA0 _]. lia.
  - (* the entry [A] has left the list: one move, to a pair of the list *)
    apply (ends_turn s n A B Hinv ltac:(lia) HA HB ltac:(lia)).
    + intros s' B'. apply Hless.
    + intros C HC HCB HCA _.
      apply (ends_walk s n Hinv ltac:(lia) Hless (below s n B C) B C); try lia.
Qed.

Lemma cluster_mono fuel : forall s n A B r fuel',
  TLAS.cluster fuel s n A B = Ok r -> (fuel <= fuel')%nat ->
  TLAS.cluster fuel' s n A B = Ok r.
Proof.
  induction fuel as [| fuel IH]; intros s n A B r fuel' H Hle;
    rewrite cluster_unfold in H; rewrite cluster_unfold;
    destruct (n <=? 1); try exact H; try discriminate H.
  destruct fuel' as [| fuel']; [lia |].
  destruct (TLAS.FindBestMatch s n B) as [C |]; [| discriminate H].
  cbn [mbind result_bind] in *.
  destruct (A =? C); [| apply (IH _ _ _ _ _ _ H); lia].
  repeat match goal with
  | H : (match ?x with Ok _ => _ | Fault _ => _ end) = Ok _ |- _ =>
      destruct x; [| discriminate H]
  | H : (?x ≫= _) = Ok _ |- _ =>
      destruct x; [| discriminate H]; cbn [mbind result_bind] in H |- *
  end.
  apply (IH _ _ _ _ _ _ H). lia.
Qed.
End Returns.

(** X20: [TLAS::Build] returns.  For a scene of one instance or more whose
    boxes have coordinates that are numbers, none the negative zero, and of
    an extent that keeps the area of every union below [1e30f]
    ([scene_tame]), the clustering loop of lines 370-389 comes to its end
    without a fault: every turn that does not merge two entries moves on to
    a pair of a smaller area, or of the same area at earlier positions.
    With enough turns allowed, [Build] returns a TLAS. *)
Theorem TLAS_Build_returns insts rawNode rawIdx :
  1 <= Z.of_nat (length insts) -> scene_tame insts = true ->
  exists fuel0, forall fuel, (fuel0 <= fuel)%nat ->
    exists s, TLAS.Build fuel (TLAS.alloc insts rawNode rawIdx) = Ok s.
Proof.
  intros HN Htame. unfold TLAS.Build.
  destruct (assign_leaves_total insts rawNode rawIdx)
    as (s1 & -> & Hb & Hc & Hu & Hli & Hlp & Hl).
  cbn [mbind result_bind]. cbv zeta. rewrite Hc.
  set (N := Z.of_nat (length insts)) in *.
  assert (Hent : forall k, 0 <= k < N -> entry_ok insts s1 k).
  { intros k Hk. destruct (lookup_lt_is_Some_2 insts (Z.to_nat k)) as [b Hbk];
      [unfold N in Hk; lia |].
    destruct (Hl k b Hk Hbk) as [H1 H2]. split; [lia |].
    exists (1 + k), (leaf_of b k). split; [exact H1 |]. split; [lia |].
    split; [exact H2 |]. apply tame_leaf. eapply list_elem_of_lookup_2. exact Hbk. }
  assert (Hinv : cl_inv insts s1 N) by (split; [exact Hent |]; lia).
  destruct (FindBestMatch_total insts Htame s1 N 0 Hent (Hent 0 ltac:(lia)))
    as (B & -> & HB).
  cbn [mbind result_bind].
  assert (Hstate : N <= 1 \/ (0 <= B < N /\ B <> 0)).
  { destruct HB as [[-> Hnone] | (HB & HB0 & _)]; [| right; lia].
    left. destruct (Z_le_dec N 1) as [H | H]; [exact H | exfalso].
    pose proof (Hnone 1 ltac:(lia)). lia. }
  destruct (cluster_ends insts Htame (Z.to_nat N) s1 N 0 B ltac:(lia) Hinv
              (Hent 0 ltac:(lia)) Hstate) as (fuel0 & [s2 A] & Ecl & HA).
  cbn [fst snd] in HA.
  exists fuel0. intros fuel Hfuel.
  rewrite (cluster_mono fuel0 s1 N 0 B (s2, A) fuel Ecl Hfuel).
  cbn [mbind result_bind].
  destruct (entry_node insts s2 A HA) as (root & -> & _). cbn [mbind result_bind].
  destruct HA as (_ & i & nd & _ & Hi & Hnd & _). apply lookup_lt_Some in Hnd.
  rewrite wr_in_range by lia. cbn [mbind result_bind]. eauto.
Qed.

Lemma TLAS_Build_returns_witness :
  exists fuel0, forall fuel, (fuel0 <= fuel)%nat ->
    exists s, TLAS.Build fuel (TLAS.alloc insts2 raw_tnode raw_idx) = Ok s.
Proof.
  apply TLAS_Build_returns.
  - change (1 <= 2). lia.
  - vm_compute. reflexivity.
Defined.

(** ** The bounds of an instance *)

(** The point [p] lies in the box. *)
Definition holds_point (bb : aabb) (p : float3) : bool :=
  forallb (fun c : float3 -> float =>
             negb (c p <? c (bmin bb))%f32 && negb (c (bmax bb) <? c p)%f32)
          [x; y; z].

Lemma fminf_low a b : (a <? fminf a b)%f32 = false /\ (b <? fminf a b)%f32 = false.
Proof.
  unfold fminf. destruct (a <? b)%f32 eqn:E.
  - split; [apply ltb_irrefl | apply ltb_asym; exact E].
  - split; [exact E | apply ltb_irrefl].
Qed.

Lemma fmaxf_high a b : (fmaxf a b <? a)%f32 = false /\ (fmaxf a b <? b)%f32 = false.
Proof.
  unfold fmaxf. destruct (b <? a)%f32 eqn:E.
  - split; [apply ltb_irrefl | apply ltb_asym; exact E].
  - split; [exact E | apply ltb_irrefl].
Qed.

(** A number that is not below [a] is not below the least of [a] and [b]. *)
Lemma fminf_keeps p a b : good a -> (p <? a)%f32 = false -> (p <? fminf a b)%f32 = false.
Proof.
  intros Ha Hp. unfold fminf. destruct (a <? b)%f32 eqn:E; [exact Hp |].
  destruct (p <? b)%f32 eqn:Epb; [| reflexivity].
  destruct (ltb_negtrans p a b Ha Epb); congruence.
Qed.

Lemma fmaxf_keeps p a b : good a -> (a <? p)%f32 = false -> (fmaxf a b <? p)%f32 = false.
Proof.
  intros Ha Hp. unfold fmaxf. destruct (b <? a)%f32 eqn:E; [exact Hp |].
  destruct (b <? p)%f32 eqn:Ebp; [| reflexivity].
  destruct (ltb_negtrans b a p Ha Ebp); congruence.
Qed.

Lemma fminf_good a b : good a -> good b -> good (fminf a b).
Proof. intros Ha Hb. unfold fminf. destruct (a <? b)%f32; assumption. Qed.

Lemma fmaxf_good a b : good a -> good b -> good (fmaxf a b).
Proof. intros Ha Hb. unfold fmaxf. destruct (b <? a)%f32; assumption. Qed.

Definition good_box (bb : aabb) : Prop := good3 (bmin bb) /\ good3 (bmax bb).

Lemma grow_good bb p : good_box bb -> good3 p -> good_box (grow bb p).
Proof.
  intros [(A1 & A2 & A3) (B1 & B2 & B3)] (P1 & P2 & P3).
  split; repeat split; cbn; first [apply fminf_good | apply fmaxf_good]; assumption.
Qed.

Lemma grow_holds_new bb p : holds_point (grow bb p) p = true.
Proof.
  unfold holds_point, grow, fminf3, fmaxf3. cbn [forallb bmin bmax x y z].
  rewrite !(proj2 (fminf_low _ _)), !(proj2 (fmaxf_high _ _)). reflexivity.
Qed.

Lemma grow_holds_old bb p q :
  good_box bb -> holds_point bb q = true -> holds_point (grow bb p) q = true.
Proof.
  intros [(A1 & A2 & A3) (B1 & B2 & B3)]. unfold holds_point, grow, fminf3, fmaxf3.
  cbn [forallb bmin bmax x y z]. intros H.
  repeat match goal with
  | H : _ && _ = true |- _ => apply andb_prop in H as [? ?]
  | H : negb _ = true |- _ => apply negb_true_iff in H
  end.
  rewrite !fminf_keeps, !fmaxf_keeps by assumption. reflexivity.
Qed.

(** X21: the bounds that [SetTransform] computes hold the eight corners.
    With an empty node pool the root box of the BLAS cannot be read: the
    index 0 is out of the bounds of the pool.  When the root node can be
    read, [SetTransform] returns the instance with the same BLAS and index
    and the inverse of the matrix; and when no coordinate of the eight
    corners of the root box, taken through the transform, is a NaN, every
    one of these eight points lies in the bounds it has computed. *)
Theorem SetTransform_bounds inverted T b :
  (BVH.bvhNode (bvh b) = [] ->
   SetTransform inverted T b = Fault (OutOfBounds NodePool)) /\
  (forall root,
     BVH.bvhNode (bvh b) !! 0%nat = Some root ->
     exists b', SetTransform inverted T b = Ok b' /\
       bvh b' = bvh b /\ idx b' = idx b /\ invTransform b' = inverted T /\
       ((forall i, 0 <= i < 8 ->
           good3 (TransformPosition
                    (corner (BVHNode.aabbMin root) (BVHNode.aabbMax root) i) T)) ->
        forall i, 0 <= i < 8 ->
          holds_point (bounds b')
            (TransformPosition (corner (BVHNode.aabbMin root) (BVHNode.aabbMax root) i) T)
          = true)).
Proof.
  split.
  { intros Hnil. unfold SetTransform. rewrite Hnil. reflexivity. }
  intros root Hroot. unfold SetTransform.
  rewrite (proj2 (rd_Ok NodePool _ 0 root)) by (split; [lia | exact Hroot]).
  cbn [mbind result_bind].
  set (pt := fun i => TransformPosition
                        (corner (BVHNode.aabbMin root) (BVHNode.aabbMax root) i) T) in *.
  set (Inv := fun (k : Z) (bb : aabb) =>
                (forall i, 0 <= i < 8 -> good3 (pt i)) ->
                good_box bb /\ forall i, 0 <= i < k -> holds_point bb (pt i) = true).
  match goal with |- context [for_loop ?n ?i ?body ?s] =>
    assert (Hloop : satisfies (for_loop n i body s) (fun _ => False)
                      (Inv (i + Z.of_nat n)));
      [apply (sat_for_loop Inv (fun _ => False) n i body s) |
       destruct (sat_never _ _ Hloop) as (bb & -> & Hbb)]
  end.
  - intros _. split; [| intros; lia]. split; repeat split; discriminate.
  - intros k bb Hk HI. unfold satisfies, Inv. intros Hgood.
    destruct (HI Hgood) as [Hg Hold]. split.
    + apply grow_good; [exact Hg | apply Hgood; cbn in Hk; lia].
    + intros i Hi. destruct (Z.eq_dec i k) as [-> | Hne].
      * apply grow_holds_new.
      * apply grow_holds_old; [exact Hg | apply Hold; lia].
  - cbn [mbind result_bind]. eexists. split; [reflexivity |].
    cbn [bvh idx invTransform bounds]. repeat (split; [reflexivity |]).
    intros Hgood i Hi. apply (proj2 (Hbb Hgood)). cbn. lia.
Qed.

Definition identity4 : mat4 :=
  mkMat4 (fun k => match k with
                   | 0%nat | 5%nat | 10%nat | 15%nat => F32.one
                   | _ => F32.zero
                   end).

Lemma SetTransform_bounds_witness :
  SetTransform (fun M => M) identity4
    (mkInstance (BVH.alloc (Mesh.mk []) raw_node raw_idx 0) aabb_empty 0 identity4)
  = Fault (OutOfBounds NodePool) /\
  exists b', SetTransform (fun M => M) identity4 (mkInstance built1 aabb_empty 0 identity4)
             = Ok b' /\
    bvh b' = built1 /\ idx b' = 0 /\ invTransform b' = identity4 /\
    forall i, 0 <= i < 8 ->
      holds_point (bounds b')
        (TransformPosition (corner (float3_of F32.zero)
                                   (make_float3 F32.one F32.one F32.zero) i) identity4)
      = true.
Proof.
  split.
  - apply (proj1 (SetTransform_bounds (fun M => M) identity4
                    (mkInstance (BVH.alloc (Mesh.mk []) raw_node raw_idx 0)
                                aabb_empty 0 identity4))).
    reflexivity.
  - destruct (proj2 (SetTransform_bounds (fun M => M) identity4
                       (mkInstance built1 aabb_empty 0 identity4))
                (BVHNode.mk (float3_of F32.zero) 0 (make_float3 F32.one F32.one F32.zero) 1)
                eq_refl) as (b' & E & H1 & H2 & H3 & H4).
    exists b'. repeat (split; [assumption |]). apply H4.
    intros i Hi.
    assert (H : i = 0 \/ i = 1 \/ i = 2 \/ i = 3 \/ i = 4 \/ i = 5 \/ i = 6 \/ i = 7) by lia.
    destruct H as [-> | [-> | [-> | [-> | [-> | [-> | [-> | ->]]]]]]];
      vm_compute; repeat split; discriminate.
Defined.

(** ** The two slab tests *)

(** The same number: the same bits, or two zeros. *)
Definition same (a b : float) : Prop :=
  a = b \/ exists s s', a = S754_zero s /\ b = S754_zero s'.

Lemma same_refl a : same a a.
Proof. left. reflexivity. Qed.

Lemma same_sym a b : same a b -> same b a.
Proof. intros [-> | (s & s' & -> & ->)]; [left; reflexivity | right; eauto]. Qed.

Lemma same_trans a b c : same a b -> same b c -> same a c.
Proof.
  intros [-> | (s & s' & -> & ->)] [<- | (s1 & s2 & E & ->)];
    try (left; reflexivity); right; eauto.
Qed.

Lemma same_good a b : same a b -> good a -> good b.
Proof. intros [-> | (s & s' & -> & ->)] H; [exact H | discriminate]. Qed.

Lemma same_ltb a a' b b' : same a a' -> same b b' -> (a <? b)%f32 = (a' <? b')%f32.
Proof.
  intros [-> | (s & s' & -> & ->)] [-> | (r & r' & -> & ->)]; try reflexivity;
    repeat match goal with f : float |- _ => destruct f end;
    repeat match goal with s : bool |- _ => destruct s end; reflexivity.
Qed.

Lemma same_leb a a' b b' : same a a' -> same b b' -> (a <=? b)%f32 = (a' <=? b')%f32.
Proof.
  intros [-> | (s & s' & -> & ->)] [-> | (r & r' & -> & ->)]; try reflexivity;
    repeat match goal with f : float |- _ => destruct f end;
    repeat match goal with s : bool |- _ => destruct s end; reflexivity.
Qed.

Lemma same_eqb a b : good a -> same a b -> (a =? b)%f32 = true.
Proof. intros Ha H. apply eqb_of_least; assumption. Qed.

Lemma fminf_swap a b : good a -> good b -> same (fminf a b) (fminf b a).
Proof.
  intros Ha Hb. unfold fminf.
  destruct (a <? b)%f32 eqn:E1, (b <? a)%f32 eqn:E2; try apply same_refl.
  - rewrite (ltb_asym _ _ E1) in E2. discriminate.
  - apply same_sym. exact (ltb_antisym a b Ha Hb E1 E2).
Qed.

Lemma fmaxf_swap a b : good a -> good b -> same (fmaxf a b) (fmaxf b a).
Proof.
  intros Ha Hb. unfold fmaxf.
  destruct (a <? b)%f32 eqn:E1, (b <? a)%f32 eqn:E2; try apply same_refl.
  - rewrite (ltb_asym _ _ E1) in E2. discriminate.
  - apply same_sym. exact (ltb_antisym a b Ha Hb E1 E2).
Qed.

Lemma fminf_same_args a a' b b' :
  same a a' -> same b b' -> same (fminf a b) (fminf a' b').
Proof.
  intros Ha Hb. unfold fminf. rewrite (same_ltb a a' b b' Ha Hb).
  destruct (a' <? b')%f32; assumption.
Qed.

Lemma fmaxf_same_args a a' b b' :
  same a a' -> same b b' -> same (fmaxf a b) (fmaxf a' b').
Proof.
  intros Ha Hb. unfold fmaxf. rewrite (same_ltb b b' a a' Hb Ha).
  destruct (b' <? a')%f32; assumption.
Qed.

(** What the slab tests need of the [min] and [max] of the header: of two
    numbers they return the lesser and the greater, whichever of the two
    when they are equal.  Nothing is asked when an argument is a NaN.  The
    selections [a < b ? a : b] and [a > b ? a : b] are of this kind, and so
    are [std::min] and [std::max], which select with the arguments in the
    other order. *)
Definition picks_least (mn : float -> float -> float) : Prop :=
  forall a b, good a -> good b -> mn a b = fminf a b \/ mn a b = fminf b a.

Definition picks_greatest (mx : float -> float -> float) : Prop :=
  forall a b, good a -> good b -> mx a b = fmaxf a b \/ mx a b = fmaxf b a.

Lemma least_as_fminf mn a a' b b' :
  picks_least mn -> good a -> good b -> same a a' -> same b b' ->
  same (mn a b) (fminf a' b').
Proof.
  intros Hmn Ha Hb Sa Sb. apply same_trans with (fminf a b).
  - destruct (Hmn a b Ha Hb) as [-> | ->]; [apply same_refl |].
    apply fminf_swap; assumption.
  - apply fminf_same_args; assumption.
Qed.

Lemma greatest_as_fmaxf mx a a' b b' :
  picks_greatest mx -> good a -> good b -> same a a' -> same b b' ->
  same (mx a b) (fmaxf a' b').
Proof.
  intros Hmx Ha Hb Sa Sb. apply same_trans with (fmaxf a b).
  - destruct (Hmx a b Ha Hb) as [-> | ->]; [apply same_refl |].
    apply fmaxf_swap; assumption.
  - apply fmaxf_same_args; assumption.
Qed.

Lemma least_good mn a b : picks_least mn -> good a -> good b -> good (mn a b).
Proof.
  intros Hmn Ha Hb. destruct (Hmn a b Ha Hb) as [-> | ->]; apply fminf_good; assumption.
Qed.

Lemma greatest_good mx a b : picks_greatest mx -> good a -> good b -> good (mx a b).
Proof.
  intros Hmx Ha Hb. destruct (Hmx a b Ha Hb) as [-> | ->]; apply fmaxf_good; assumption.
Qed.

Lemma fminf_assoc a b c : good b -> fminf (fminf a b) c = fminf a (fminf b c).
Proof.
  intros Hb. unfold fminf.
  destruct (a <? b)%f32 eqn:Eab, (b <? c)%f32 eqn:Ebc; rewrite ?Eab, ?Ebc; try reflexivity.
  - rewrite (ltb_trans _ _ _ Eab Ebc). reflexivity.
  - destruct (a <? c)%f32 eqn:Eac; [| reflexivity].
    destruct (ltb_negtrans a b c Hb Eac); congruence.
Qed.

Lemma fmaxf_assoc a b c : good b -> fmaxf (fmaxf a b) c = fmaxf a (fmaxf b c).
Proof.
  intros Hb. unfold fmaxf.
  destruct (b <? a)%f32 eqn:Eab, (c <? b)%f32 eqn:Ebc; rewrite ?Eab, ?Ebc; try reflexivity.
  - rewrite (ltb_trans _ _ _ Ebc Eab). reflexivity.
  - destruct (c <? a)%f32 eqn:Eac; [| reflexivity].
    destruct (ltb_negtrans c b a Hb Eac); congruence.
Qed.

(** A ray along x in the plane of the upper face [y = 1] of the unit box:
    the reciprocal of its direction is infinite along y and z. *)
Definition ray_on_face : Ray :=
  mkRay (make_float3 (F32.of_Z (-1)) F32.one (F32.of_ratio 1 2))
        (make_float3 F32.one F32.zero F32.zero)
        (make_float3 F32.one (S754_infinity false) (S754_infinity false))
        (mkIntersection F32.f1e30 F32.zero F32.zero 0).

(** The six products of the slab test are numbers. *)
Definition slabs_good (ray : Ray) (bmin bmax : float3) : Prop :=
  Forall (fun c : float3 -> float =>
            good ((c bmin - c (rayO ray)) * c (rayrD ray))%f32 /\
            good ((c bmax - c (rayO ray)) * c (rayrD ray))%f32)
         [x; y; z].

(** X22: the SIMD slab test against the scalar one, whatever the header's
    [min] and [max] are among those that return the lesser and the greater
    of two numbers.  The two tests associate the three lanes differently.
    When none of the six products is a NaN they return the same number: both
    the miss value, or the same entry distance up to the sign of a zero.
    They differ for a ray in the plane of a face of the box, where a product
    is 0 times infinity: on the ray along x in the upper face of the unit
    box the SIMD test reports a hit at distance 1, with the selections as
    with [std::min] and [std::max], where the scalar test reports a hit at
    minus infinity with the selections and a miss with [std::min] and
    [std::max]. *)
Theorem IntersectAABB_SSE_agrees :
  (forall mn mx ray bmin bmax,
     picks_least mn -> picks_greatest mx -> slabs_good ray bmin bmax ->
     (IntersectAABB_SSE_with mn mx ray bmin bmax
      =? IntersectAABB_with mn mx ray bmin bmax)%f32 = true) /\
  (IntersectAABB_SSE_with fminf fmaxf ray_on_face (float3_of F32.zero) (float3_of F32.one)
   = F32.one /\
   IntersectAABB_with fminf fmaxf ray_on_face (float3_of F32.zero) (float3_of F32.one)
   = S754_infinity true) /\
  (IntersectAABB_SSE_with std_min std_max ray_on_face (float3_of F32.zero) (float3_of F32.one)
   = F32.one /\
   IntersectAABB_with std_min std_max ray_on_face (float3_of F32.zero) (float3_of F32.one)
   = F32.f1e30).
Proof.
  split; [| split; split; vm_compute; reflexivity].
  intros mn mx ray bmin bmax Hmn Hmx Hg.
  unfold slabs_good in Hg. rewrite !Forall_cons in Hg.
  destruct Hg as ((Hx1 & Hx2) & (Hy1 & Hy2) & (Hz1 & Hz2) & _).
  unfold IntersectAABB_SSE_with, IntersectAABB_with. cbv zeta.
  unfold mm_min_ps, mm_max_ps. cbn [x y z].
  set (tx1 := ((x bmin - x (rayO ray)) * x (rayrD ray))%f32) in *.
  set (tx2 := ((x bmax - x (rayO ray)) * x (rayrD ray))%f32) in *.
  set (ty1 := ((y bmin - y (rayO ray)) * y (rayrD ray))%f32) in *.
  set (ty2 := ((y bmax - y (rayO ray)) * y (rayrD ray))%f32) in *.
  set (tz1 := ((z bmin - z (rayO ray)) * z (rayrD ray))%f32) in *.
  set (tz2 := ((z bmax - z (rayO ray)) * z (rayrD ray))%f32) in *.
  change (if (tx1 <? tx2)%f32 then tx1 else tx2) with (fminf tx1 tx2).
  change (if (ty1 <? ty2)%f32 then ty1 else ty2) with (fminf ty1 ty2).
  change (if (tz1 <? tz2)%f32 then tz1 else tz2) with (fminf tz1 tz2).
  change (if (tx2 <? tx1)%f32 then tx1 else tx2) with (fmaxf tx1 tx2).
  change (if (ty2 <? ty1)%f32 then ty1 else ty2) with (fmaxf ty1 ty2).
  change (if (tz2 <? tz1)%f32 then tz1 else tz2) with (fmaxf tz1 tz2).
  assert (Gnx := fminf_good _ _ Hx1 Hx2). assert (Gny := fminf_good _ _ Hy1 Hy2).
  assert (Gnz := fminf_good _ _ Hz1 Hz2). assert (Gxx := fmaxf_good _ _ Hx1 Hx2).
  assert (Gxy := fmaxf_good _ _ Hy1 Hy2). assert (Gxz := fmaxf_good _ _ Hz1 Hz2).
  (* the entry distances *)
  assert (Smin : same (mx (fminf tx1 tx2) (mx (fminf ty1 ty2) (fminf tz1 tz2)))
                      (mx (mx (mn tx1 tx2) (mn ty1 ty2)) (mn tz1 tz2))).
  { apply same_trans with (fmaxf (fminf tx1 tx2) (fmaxf (fminf ty1 ty2) (fminf tz1 tz2))).
    - apply greatest_as_fmaxf; try assumption; try apply same_refl.
      + apply greatest_good; assumption.
      + apply greatest_as_fmaxf; try assumption; apply same_refl.
    - rewrite <- fmaxf_assoc by assumption. apply same_sym.
      apply greatest_as_fmaxf; try assumption.
      + apply greatest_good; try assumption; apply least_good; assumption.
      + apply least_good; assumption.
      + apply greatest_as_fmaxf; try assumption;
          try (apply least_good; assumption);
          apply least_as_fminf; try assumption; apply same_refl.
      + apply least_as_fminf; try assumption; apply same_refl. }
  assert (Smax : same (mn (fmaxf tx1 tx2) (mn (fmaxf ty1 ty2) (fmaxf tz1 tz2)))
                      (mn (mn (mx tx1 tx2) (mx ty1 ty2)) (mx tz1 tz2))).
  { apply same_trans with (fminf (fmaxf tx1 tx2) (fminf (fmaxf ty1 ty2) (fmaxf tz1 tz2))).
    - apply least_as_fminf; try assumption; try apply same_refl.
      + apply least_good; assumption.
      + apply least_as_fminf; try assumption; apply same_refl.
    - rewrite <- fminf_assoc by assumption. apply same_sym.
      apply least_as_fminf; try assumption.
      + apply least_good; try assumption; apply greatest_good; assumption.
      + apply greatest_good; assumption.
      + apply least_as_fminf; try assumption;
          try (apply greatest_good; assumption);
          apply greatest_as_fmaxf; try assumption; apply same_refl.
      + apply greatest_as_fmaxf; try assumption; apply same_refl. }
  assert (Gmin : good (mx (fminf tx1 tx2) (mx (fminf ty1 ty2) (fminf tz1 tz2))))
    by (apply greatest_good; [assumption | assumption | apply greatest_good; assumption]).
  rewrite (same_leb _ _ _ _ Smin Smax).
  rewrite (same_ltb _ _ _ _ Smin (same_refl (t (hit ray)))).
  rewrite (same_ltb _ _ _ _ (same_refl F32.zero) Smax).
  match goal with |- ((if ?c then _ else _) =? _)%f32 = true => destruct c end.
  - apply same_eqb; assumption.
  - reflexivity.
Qed.

Lemma std_min_max_pick : picks_least std_min /\ picks_greatest std_max.
Proof. split; intros a b _ _; right; reflexivity. Qed.

Lemma IntersectAABB_SSE_agrees_witness :
  (IntersectAABB_SSE_with std_min std_max ray_z (float3_of F32.zero) (float3_of F32.one)
   =? IntersectAABB_with std_min std_max ray_z (float3_of F32.zero) (float3_of F32.one))%f32
  = true.
Proof.
  apply (proj1 IntersectAABB_SSE_agrees).
  - exact (proj1 std_min_max_pick).
  - exact (proj2 std_min_max_pick).
  - repeat constructor; vm_compute; discriminate.
Defined.
